(** * A shallow embedding of the segmented shared-memory buddy allocator

    Source: [src/next/shmbuf.c] (PG-Strom, "MemoryContext on dynamic
    shared-memory segments").

    The file has two parts.  The first part translates the data
    structures and the functions of [shmbuf.c] into Rocq definitions; the
    second part states and proves properties of these definitions.

    Modelling conventions.

    - Addresses, sizes and counters are integers of type [Z]; the
      width of the C type is written out with [wrap32] / [wrap64]
      wherever the C code computes in [uint32] or [size_t].
    - A chunk header ([shmBufferChunk] without its flexible [data]
      member) is a record stored in a finite map indexed by the address
      of the chunk.  The payload area, which also holds the trailing
      magic word, is a finite map from addresses to bytes.  The store
      of a trailing magic word whose address wraps into the header of
      its own chunk is applied to the members of that header
      ([write_magic_tail]).
    - A [dlist_head] is the sequence of the addresses of its nodes,
      head first.  The [chain] member of a chunk keeps only what the
      code ever tests: whether [prev] and [next] are both non-NULL.
      The [chain] member of a segment slot is the membership of the
      slot in the two lists of the directory; a slot on neither list
      has a cleared [chain].
    - Functions that can [ereport], hit an [Assert], spin on a lock or
      index outside an array return an [outcome]; state is threaded
      explicitly through a small state-and-failure monad. *)

From Stdlib Require Import ZArith Lia List Permutation Ascii.
From stdpp Require Import base numbers list gmap strings pretty.

Local Open Scope Z_scope.

(** ** Constants of [shmbuf.c] *)

Definition SHMBUF_CHUNK_MAGIC_CODE : Z := 0xdeadbeaf.
Definition SHMBUF_CHUNKSZ_MIN_BIT : Z := 7.
Definition SHMBUF_CHUNKSZ_MAX_BIT : Z := 32.

(** [offsetof(shmBufferChunk, data)] on an LP64 target: a [dlist_node]
    (two pointers), a [size_t], two [uint32] and one pointer. *)
Definition chunk_hdrsz : Z := 40.
(** [sizeof(uint32)], the size of the trailing magic word. *)
Definition magic_sz : Z := 4.

(** Number of entries of [free_chunks[]]:
    [SHMBUF_CHUNKSZ_MAX_BIT - SHMBUF_CHUNKSZ_MIN_BIT + 1]. *)
Definition NUM_CLASSES : Z :=
  SHMBUF_CHUNKSZ_MAX_BIT - SHMBUF_CHUNKSZ_MIN_BIT + 1.

Definition wrap32 (x : Z) : Z := x mod 2 ^ 32.
Definition wrap64 (x : Z) : Z := x mod 2 ^ 64.

(** [SHMBUF_SEGMENT_EXISTS(revision)]: [((revision) & 1) != 0]. *)
Definition SHMBUF_SEGMENT_EXISTS (revision : Z) : bool :=
  negb (Z.land revision 1 =? 0).

(** Modelled from the spec: [get_next_log2] is declared in [pg_strom.h],
    which is not part of the sources at hand.  The spec (4.2, step 1)
    describes its use as "round up to the smallest size class >= this
    value": the least [k] with [size <= 2^k]. *)
Definition get_next_log2 (size : Z) : Z := Z.log2_up size.

(** ** Data model *)

(** [shmBufferChunk], header part. *)
Record shmBufferChunk := mkChunk {
  chain : bool;        (* chain.prev && chain.next, "zero if active" *)
  required : Z;        (* size_t: required length *)
  mclass : Z;          (* uint32: class of the chunk size *)
  magic_head : Z;      (* uint32 *)
  seg : option nat     (* the segment slot it points to, if any; NULL after memset *)
}.

(** The header after [memset(chunk, 0, offsetof(shmBufferChunk, data))];
    it is also what a freshly [fallocate]d object reads as. *)
Definition zero_chunk : shmBufferChunk := mkChunk false 0 0 0 None.

(** [shmBufferSegment].  Its [chain] member is represented by the
    membership of the slot in the two lists of the directory. *)
Record shmBufferSegment := mkSegment {
  revision : Z;                    (* pg_atomic_uint32 *)
  num_actives : Z;                 (* uint32 *)
  free_chunks : list (list Z)      (* dlist_head free_chunks[26] *)
}.

(** [shmBufferLocalMap]; the [segment] member is the constant
    reference to the slot of the same index. *)
Record shmBufferLocalMap := mkLocalMap {
  mutex : bool;                    (* slock_t, true = taken *)
  lm_revision : Z;                 (* uint32 revision *)
  is_attached : bool
}.

(** The mapped bytes of the reserved range. *)
Record memory := mkMemory {
  hdr : gmap Z shmBufferChunk;     (* chunk headers by address *)
  bytes : gmap Z Z                 (* payload bytes by address *)
}.

(** What the buddy routines see: one segment descriptor and the memory. *)
Record segst := mkSegst {
  sg : shmBufferSegment;
  sm : memory
}.

(** [shmBufferSegmentHead] together with the per-process statics
    [shmBufLocalMaps] and the mapped memory. *)
Record world := mkWorld {
  lock : bool;                         (* shmBufSegHead->lock *)
  active_segment_list : list nat;
  free_segment_list : list nat;
  segments : list shmBufferSegment;
  shmBufLocalMaps : list shmBufferLocalMap;
  wmem : memory
}.

(** ** Failures and the monad *)

Inductive syscall :=
  | sys_munmap | sys_mmap_none | sys_shm_open | sys_fallocate | sys_mmap
  | sys_shm_unlink.

Inductive failure :=
  | ErrOutOfMemory                 (* ereport(ERROR, "out of shared memory") *)
  | ErrTooLarge                    (* ereport(ERROR, "too large shared memory allocation required") *)
  | ErrSyscall (c : syscall)       (* elog(ERROR, "failed on ...") *)
  | FatalSyscall (c : syscall)     (* elog(FATAL, "failed on ...") *)
  | AssertFailed                   (* Assert() in a build with assertion checking *)
  | StuckSpinLock                  (* SpinLockAcquire on a lock that is never released *)
  | Undefined.                     (* out-of-bounds array index, pop of an empty list,
                                      store through a NULL pointer *)

(** [PG_CATCH] intercepts what is raised at level [ERROR] only. *)
Definition is_ERROR (f : failure) : bool :=
  match f with
  | ErrOutOfMemory | ErrTooLarge | ErrSyscall _ => true
  | _ => false
  end.

Inductive outcome (S A : Type) :=
  | Ret (a : A) (s : S)
  | Fail (f : failure) (s : S).
Arguments Ret {S A} a s.
Arguments Fail {S A} f s.

Definition M (S A : Type) : Type := S -> outcome S A.

Definition ret {S A} (a : A) : M S A := fun s => Ret a s.
Definition fail {S A} (f : failure) : M S A := fun s => Fail f s.
Definition bind {S A B} (m : M S A) (k : A -> M S B) : M S B :=
  fun s => match m s with
           | Ret a s' => k a s'
           | Fail f s' => Fail f s'
           end.
Definition get {S} : M S S := fun s => Ret s s.
Definition put {S} (s : S) : M S unit := fun _ => Ret tt s.
Definition modify {S} (f : S -> S) : M S unit := fun s => Ret tt (f s).

Declare Scope shm_scope.
Delimit Scope shm_scope with shm.
Notation "x <- m ;; k" := (bind m (fun x => k))
  (at level 100, m at next level, right associativity) : shm_scope.
Notation "m ;;; k" := (bind m (fun _ => k))
  (at level 100, right associativity) : shm_scope.
Local Open Scope shm_scope.

(** [Assert(cond)]: checked only in a build with [USE_ASSERT_CHECKING],
    where a false condition traps; otherwise the macro expands to
    nothing. *)
Definition Assert {S} (USE_ASSERT_CHECKING : bool) (cond : bool) : M S unit :=
  if USE_ASSERT_CHECKING && negb cond then fail AssertFailed else ret tt.

(** ** Memory accessors *)

Definition load_chunk (m : memory) (a : Z) : shmBufferChunk :=
  default zero_chunk (hdr m !! a).

Definition store_chunk (a : Z) (c : shmBufferChunk) (m : memory) : memory :=
  mkMemory (<[a := c]> (hdr m)) (bytes m).

Definition load_byte (m : memory) (a : Z) : Z :=
  default 0 (bytes m !! a).

Definition store_byte (a : Z) (b : Z) (m : memory) : memory :=
  mkMemory (hdr m) (<[a := b]> (bytes m)).

(** A [uint32] stored at [a], little endian. *)
Definition store32 (a : Z) (v : Z) (m : memory) : memory :=
  store_byte (wrap64 (a + 3)) (Z.land (Z.shiftr v 24) 255)
   (store_byte (wrap64 (a + 2)) (Z.land (Z.shiftr v 16) 255)
     (store_byte (wrap64 (a + 1)) (Z.land (Z.shiftr v 8) 255)
       (store_byte a (Z.land v 255) m))).

Definition load32 (m : memory) (a : Z) : Z :=
  Z.lor (load_byte m a)
   (Z.lor (Z.shiftl (load_byte m (wrap64 (a + 1))) 8)
     (Z.lor (Z.shiftl (load_byte m (wrap64 (a + 2))) 16)
            (Z.shiftl (load_byte m (wrap64 (a + 3))) 24))).

(** [memset(addr, 0, sz)] on the payload area. *)
Definition memset_zero (addr sz : Z) (m : memory) : memory :=
  mkMemory (hdr m)
           (foldr (fun a bs => <[a := 0]> bs) (bytes m) (seqZ addr sz)).

(** [chunk->data] and the address of [SHMBUF_CHUNK_MAGIC_TAIL(chunk)],
    which is [chunk->data + chunk->required]. *)
Definition chunk_data (chunk : Z) : Z := chunk + chunk_hdrsz.
Definition magic_tail_addr (chunk : Z) (req : Z) : Z :=
  wrap64 (chunk_data chunk + req).

(** The guard markers.  The trailing magic word is read from the
    payload area, where it lies whenever [chunk->required] is such that
    the address does not wrap into the header. *)
Definition SHMBUF_CHUNK_MAGIC_HEAD (m : memory) (chunk : Z) : Z :=
  magic_head (load_chunk m chunk).
Definition SHMBUF_CHUNK_MAGIC_TAIL (m : memory) (chunk : Z) : Z :=
  load32 m (magic_tail_addr chunk (required (load_chunk m chunk))).
Definition SHMBUF_CHUNK_CHECK_MAGIC (m : memory) (chunk : Z) : bool :=
  (SHMBUF_CHUNK_MAGIC_HEAD m chunk =? SHMBUF_CHUNK_MAGIC_CODE) &&
  (SHMBUF_CHUNK_MAGIC_TAIL m chunk =? SHMBUF_CHUNK_MAGIC_CODE).

(** [SHMBUF_POINTER_GET_CHUNK(pointer)]. *)
Definition SHMBUF_POINTER_GET_CHUNK (pointer : Z) : Z := pointer - chunk_hdrsz.

(** Field updates of a chunk header. *)
Definition set_chain (b : bool) (c : shmBufferChunk) : shmBufferChunk :=
  mkChunk b (required c) (mclass c) (magic_head c) (seg c).
Definition set_required (r : Z) (c : shmBufferChunk) : shmBufferChunk :=
  mkChunk (chain c) r (mclass c) (magic_head c) (seg c).
Definition set_mclass (k : Z) (c : shmBufferChunk) : shmBufferChunk :=
  mkChunk (chain c) (required c) k (magic_head c) (seg c).
Definition set_magic_head (v : Z) (c : shmBufferChunk) : shmBufferChunk :=
  mkChunk (chain c) (required c) (mclass c) v (seg c).
Definition set_seg (s : option nat) (c : shmBufferChunk) : shmBufferChunk :=
  mkChunk (chain c) (required c) (mclass c) (magic_head c) s.

(** The store [SHMBUF_CHUNK_MAGIC_TAIL(chunk) = SHMBUF_CHUNK_MAGIC_CODE],
    byte by byte.  The address [chunk->data + chunk->required] is
    computed in 64 bits, so for a [required] within 43 of [2^64] a byte
    of the magic word lands at an offset below [chunk_hdrsz] from
    [chunk], that is in a member of the header itself: [chain] in
    [0,16) ([prev], then [next]), [required] in [16,24), [mclass] in
    [24,28), [magic_head] in [28,32) and [seg] in [32,40).  Every other
    byte goes to the payload area. *)
Definition magic_byte (i : Z) : Z :=
  Z.land (Z.shiftr SHMBUF_CHUNK_MAGIC_CODE (8 * i)) 255.

(** Offset from [chunk] of byte [i] of the trailing magic word. *)
Definition tail_offset (req i : Z) : Z := wrap64 (chunk_hdrsz + req + i).

(** Byte [i] of the integer [x] replaced by [b]. *)
Definition poke (x i b : Z) : Z :=
  Z.lor (Z.ldiff x (Z.shiftl 255 (8 * i))) (Z.shiftl b (8 * i)).

(** A byte stored at offset [off] of a header.  The integer members
    change by that byte.  Of [seg] the record keeps only which slot it
    points to, and after one of its bytes has been overwritten it is
    taken to point to none ([seg] is written, never read, in
    [shmbuf.c]).  The [chain] is settled by [write_magic_tail]. *)
Definition poke_header (off b : Z) (c : shmBufferChunk) : shmBufferChunk :=
  if off <? 16 then c
  else if off <? 24 then set_required (poke (required c) (off - 16) b) c
  else if off <? 28 then set_mclass (poke (mclass c) (off - 24) b) c
  else if off <? 32 then set_magic_head (poke (magic_head c) (off - 28) b) c
  else set_seg None c.

Definition write_tail_byte (chunk req : Z) (m : memory) (i : Z) : memory :=
  let off := tail_offset req i in
  if off <? chunk_hdrsz then
    store_chunk chunk (poke_header off (magic_byte i) (load_chunk m chunk)) m
  else store_byte (wrap64 (magic_tail_addr chunk req + i)) (magic_byte i) m.

(** The whole store, for a chunk whose [chain] has just been cleared
    (the [memset] that precedes it in
    [__shmBufferAllocChunkFromSegment]).  The four bytes of the magic
    code are all non-zero, so afterwards [prev] is non-NULL when one of
    them lands in [0,8) and [next] when one lands in [8,16). *)
Definition write_magic_tail (chunk req : Z) (m : memory) : memory :=
  let m' := foldl (write_tail_byte chunk req) m [0; 1; 2; 3] in
  let on_prev := existsb (fun i => tail_offset req i <? 8) [0; 1; 2; 3] in
  let on_next :=
    existsb (fun i => (8 <=? tail_offset req i) && (tail_offset req i <? 16))
            [0; 1; 2; 3] in
  if on_prev && on_next
  then store_chunk chunk (set_chain true (load_chunk m' chunk)) m'
  else m'.

(** ** Primitive steps on a segment and the memory *)

Definition read_chunk (a : Z) : M segst shmBufferChunk :=
  fun s => Ret (load_chunk (sm s) a) s.

Definition update_chunk (a : Z) (f : shmBufferChunk -> shmBufferChunk)
  : M segst unit :=
  fun s => Ret tt (mkSegst (sg s) (store_chunk a (f (load_chunk (sm s) a)) (sm s))).

Definition update_memory (f : memory -> memory) : M segst unit :=
  fun s => Ret tt (mkSegst (sg s) (f (sm s))).

Definition set_free_chunks (fc : list (list Z)) (g : shmBufferSegment)
  : shmBufferSegment := mkSegment (revision g) (num_actives g) fc.
Definition set_num_actives (n : Z) (g : shmBufferSegment)
  : shmBufferSegment := mkSegment (revision g) n (free_chunks g).
Definition set_revision (r : Z) (g : shmBufferSegment)
  : shmBufferSegment := mkSegment r (num_actives g) (free_chunks g).

(** [&seg->free_chunks[mindex]]: an index outside the declared array
    has no defined meaning. *)
Definition free_list (mindex : Z) : M segst (list Z) :=
  fun s =>
    if (0 <=? mindex) && (mindex <? NUM_CLASSES) then
      match free_chunks (sg s) !! Z.to_nat mindex with
      | Some l => Ret l s
      | None => Fail Undefined s
      end
    else Fail Undefined s.

Definition set_free_list (mindex : Z) (l : list Z) : M segst unit :=
  fun s =>
    if (0 <=? mindex) && (mindex <? NUM_CLASSES) then
      Ret tt (mkSegst (set_free_chunks (<[Z.to_nat mindex := l]> (free_chunks (sg s))) (sg s))
                      (sm s))
    else Fail Undefined s.

(** The [dlist] operations of PostgreSQL's [ilist.h] on the free lists.
    Linking a node makes its [prev] and [next] non-NULL; unlinking a
    node leaves the node's own pointers as they were.  The sequence
    stands for a list whose nodes are linked once: a push of a node that
    is linked already ties the C list into a ring through that node,
    and of such a list the sequence says nothing. *)
Definition dlist_is_empty (mindex : Z) : M segst bool :=
  l <- free_list mindex ;;
  ret (match l with [] => true | _ => false end).

Definition dlist_pop_head_node (mindex : Z) : M segst Z :=
  l <- free_list mindex ;;
  match l with
  | [] => fail Undefined
  | a :: l' => set_free_list mindex l' ;;; ret a
  end.

Definition dlist_push_tail (mindex : Z) (node : Z) : M segst unit :=
  l <- free_list mindex ;;
  set_free_list mindex (l ++ [node]) ;;;
  update_chunk node (set_chain true).

Definition dlist_push_head (mindex : Z) (node : Z) : M segst unit :=
  l <- free_list mindex ;;
  set_free_list mindex (node :: l) ;;;
  update_chunk node (set_chain true).

(** [dlist_delete(&node->chain)] unlinks the node from whichever free
    list of the segment it is on. *)
Definition dlist_delete (node : Z) : M segst unit :=
  fun s => Ret tt (mkSegst
    (set_free_chunks (map (filter (fun a => a ≠ node)) (free_chunks (sg s))) (sg s))
    (sm s)).

(** ** The buddy allocator inside one segment *)

Section Buddy.

(** Build flag and the static variables of [shmbuf.c]. *)
Variable USE_ASSERT_CHECKING : bool.
Variable shmbuf_segment_size : Z.
Variable shmbuf_segment_vaddr_head : Z.

(** [shmBufferSegmentMmapPtr(seg)]. *)
Definition shmBufferSegmentMmapPtr (segment_id : nat) : Z :=
  shmbuf_segment_vaddr_head + Z.of_nat segment_id * shmbuf_segment_size.

(** The two halves written by [shmBufferSplitChunk]:
    [memset] of the header, then [mclass] and the head magic. *)
Definition fresh_chunk (k : Z) : shmBufferChunk :=
  set_magic_head SHMBUF_CHUNK_MAGIC_CODE (set_mclass k zero_chunk).

(** The statements of [shmBufferSplitChunk] that follow the test of the
    free list: the head of the list of class [mclass] is taken off and
    its two halves are put on the list of class [mclass - 1].  The local
    [mclass] is written [mcls] here, [mclass] being the member of the
    chunk. *)
Definition split_halves (mcls : Z) : M segst bool :=
  let mindex := mcls - SHMBUF_CHUNKSZ_MIN_BIT in
  empty' <- dlist_is_empty mindex ;;
  Assert USE_ASSERT_CHECKING (negb empty') ;;;
  chunk_1 <- dlist_pop_head_node mindex ;;
  c1 <- read_chunk chunk_1 ;;
  Assert USE_ASSERT_CHECKING
    ((mclass c1 =? mcls) && (magic_head c1 =? SHMBUF_CHUNK_MAGIC_CODE)) ;;;
  (* 1st half *)
  update_chunk chunk_1 (fun _ => fresh_chunk (mcls - 1)) ;;;
  dlist_push_tail (mindex - 1) chunk_1 ;;;
  (* 2nd half *)
  let chunk_2 := chunk_1 + 2 ^ (mcls - 1) in
  update_chunk chunk_2 (fun _ => fresh_chunk (mcls - 1)) ;;;
  dlist_push_tail (mindex - 1) chunk_2 ;;;
  ret true.

(** [shmBufferSplitChunk(seg, mclass)].  The C function recurses on
    [mclass + 1]; [fuel] bounds the depth of that recursion. *)
Fixpoint shmBufferSplitChunk_rec (fuel : nat) (mcls : Z) : M segst bool :=
  match fuel with
  | O => fail Undefined
  | S fuel' =>
      let mindex := mcls - SHMBUF_CHUNKSZ_MIN_BIT in
      Assert USE_ASSERT_CHECKING
        ((SHMBUF_CHUNKSZ_MIN_BIT <? mcls) && (mcls <=? SHMBUF_CHUNKSZ_MAX_BIT)) ;;;
      empty <- dlist_is_empty mindex ;;
      found <- (if empty : bool then
                  if SHMBUF_CHUNKSZ_MAX_BIT <=? mcls then ret false
                  else shmBufferSplitChunk_rec fuel' (mcls + 1)
                else ret true) ;;
      if negb found then ret false
      else split_halves mcls
  end.

Definition shmBufferSplitChunk (mcls : Z) : M segst bool :=
  shmBufferSplitChunk_rec (Z.to_nat (SHMBUF_CHUNKSZ_MAX_BIT + 2 - mcls)) mcls.

(** The size class computed at the head of
    [__shmBufferAllocChunkFromSegment]; [None] stands for the
    [ereport(ERROR, "too large ...")] branch. *)
Definition chunk_size_of (required : Z) : Z :=
  wrap64 (chunk_hdrsz + required + magic_sz).

Definition class_of_request (required : Z) : option Z :=
  let mcls := get_next_log2 (chunk_size_of required) in
  if mcls <? SHMBUF_CHUNKSZ_MIN_BIT then Some SHMBUF_CHUNKSZ_MIN_BIT
  else if SHMBUF_CHUNKSZ_MAX_BIT <? mcls then None
  else Some mcls.

(** [__shmBufferAllocChunkFromSegment(seg, required)]; [None] is the
    NULL result. *)
Definition __shmBufferAllocChunkFromSegment (segment_id : nat) (required : Z)
  : M segst (option Z) :=
  match class_of_request required with
  | None => fail ErrTooLarge
  | Some mcls =>
      let mindex := mcls - SHMBUF_CHUNKSZ_MIN_BIT in
      empty <- dlist_is_empty mindex ;;
      found <- (if empty : bool then shmBufferSplitChunk (mcls + 1) else ret true) ;;
      if negb found then ret None
      else
        chunk <- dlist_pop_head_node mindex ;;
        c <- read_chunk chunk ;;
        Assert USE_ASSERT_CHECKING (mclass c =? mcls) ;;;
        Assert USE_ASSERT_CHECKING (magic_head c =? SHMBUF_CHUNK_MAGIC_CODE) ;;;
        (* setup shmBufferChunk *)
        update_chunk chunk (set_chain false) ;;;
        update_chunk chunk (set_required required) ;;;
        update_chunk chunk (set_seg (Some segment_id)) ;;;
        update_memory (write_magic_tail chunk required) ;;;
        modify (fun s => mkSegst (set_num_actives (wrap32 (num_actives (sg s) + 1)) (sg s)) (sm s)) ;;;
        ret (Some chunk)
  end.

(** The coalescing loop of [shmBufferFreeChunk]; the result is the
    address of the chunk that is finally put on a free list.  Every
    iteration that does not leave the loop increments [chunk->mclass],
    which bounds the number of iterations.  The headers of a chunk and
    of its buddy are [2^mclass] bytes apart; they are separate records
    of the header map, as they are separate in memory for every class
    of the allocator ([2^mclass >= 128 > chunk_hdrsz]). *)
Definition mergeable (b c : shmBufferChunk) : bool :=
  (mclass b =? mclass c) && chain b.

Fixpoint free_loop (fuel : nat) (mmap_ptr : Z) (chunk : Z) : M segst Z :=
  match fuel with
  | O => ret chunk
  | S fuel' =>
      c <- read_chunk chunk ;;
      if mclass c <=? SHMBUF_CHUNKSZ_MAX_BIT then
        let offset := wrap64 (chunk - mmap_ptr) in
        let shift := 2 ^ mclass c in
        if Z.land offset shift =? 0 then
          let buddy := chunk + shift in
          if mmap_ptr + shmbuf_segment_size <=? buddy then ret chunk
          else
            b <- read_chunk buddy ;;
            Assert USE_ASSERT_CHECKING (magic_head b =? SHMBUF_CHUNK_MAGIC_CODE) ;;;
            if negb (mergeable b c) then ret chunk
            else
              dlist_delete buddy ;;;
              update_chunk buddy (fun _ => zero_chunk) ;;;
              update_chunk chunk (fun h => set_mclass (wrap32 (mclass h + 1)) h) ;;;
              free_loop fuel' mmap_ptr chunk
        else
          let buddy := chunk - shift in
          if buddy <? mmap_ptr then ret chunk
          else
            b <- read_chunk buddy ;;
            Assert USE_ASSERT_CHECKING (magic_head b =? SHMBUF_CHUNK_MAGIC_CODE) ;;;
            if negb (mergeable b c) then ret chunk
            else
              dlist_delete buddy ;;;
              update_chunk chunk (fun _ => zero_chunk) ;;;
              update_chunk buddy (fun h => set_mclass (wrap32 (mclass h + 1)) h) ;;;
              free_loop fuel' mmap_ptr buddy
      else ret chunk
  end.

(** [shmBufferFreeChunk(seg, chunk)]: true when the segment has no
    active chunk left. *)
Definition shmBufferFreeChunk (segment_id : nat) (chunk : Z) : M segst bool :=
  let mmap_ptr := shmBufferSegmentMmapPtr segment_id in
  c <- read_chunk chunk ;;
  s <- get ;;
  Assert USE_ASSERT_CHECKING
    ((SHMBUF_CHUNKSZ_MIN_BIT <=? mclass c) && (mclass c <=? SHMBUF_CHUNKSZ_MAX_BIT)
     && SHMBUF_CHUNK_CHECK_MAGIC (sm s) chunk) ;;;
  final <- free_loop (Z.to_nat (SHMBUF_CHUNKSZ_MAX_BIT + 1 - mclass c)) mmap_ptr chunk ;;
  cf <- read_chunk final ;;
  (* insert the chunk to the free list *)
  dlist_push_head (mclass cf - SHMBUF_CHUNKSZ_MIN_BIT) final ;;;
  s' <- get ;;
  Assert USE_ASSERT_CHECKING (0 <? num_actives (sg s')) ;;;
  let n := wrap32 (num_actives (sg s') - 1) in
  put (mkSegst (set_num_actives n (sg s')) (sm s')) ;;;
  ret (n =? 0).

(** The tiling loop at the end of [shmBufferCreateSegment]
    ([while (mclass >= SHMBUF_CHUNKSZ_MIN_BIT) ...]).  An iteration
    either lowers [mclass] or advances [head_ptr]; [fuel] bounds the
    number of iterations. *)
Fixpoint init_chunks (fuel : nat) (mcls : Z) (head_ptr tail_ptr : Z)
  : M segst unit :=
  match fuel with
  | O => fail Undefined
  | S fuel' =>
      if SHMBUF_CHUNKSZ_MIN_BIT <=? mcls then
        if tail_ptr <? head_ptr + 2 ^ mcls then
          init_chunks fuel' (mcls - 1) head_ptr tail_ptr
        else
          update_chunk head_ptr (fun _ => fresh_chunk mcls) ;;;
          dlist_push_tail (mcls - SHMBUF_CHUNKSZ_MIN_BIT) head_ptr ;;;
          init_chunks fuel' mcls (head_ptr + 2 ^ mcls) tail_ptr
      else ret tt
  end.

Definition init_fuel : nat :=
  Z.to_nat (shmbuf_segment_size / 2 ^ SHMBUF_CHUNKSZ_MAX_BIT) + 64.

(** A newly created and sized object reads as zero wherever it is
    mapped. *)
Definition clear_range (lo hi : Z) (m : memory) : memory :=
  mkMemory (filter (fun kv => ¬ (lo ≤ kv.1 < hi)) (hdr m))
           (filter (fun kv => ¬ (lo ≤ kv.1 < hi)) (bytes m)).

(** The initialisation part of [shmBufferCreateSegment], from
    "Ok, successfully mapped" to [seg->num_actives = 0]. *)
Definition init_segment (segment_id : nat) : M segst unit :=
  let mmap_ptr := shmBufferSegmentMmapPtr segment_id in
  modify (fun s => mkSegst
            (set_free_chunks (replicate (Z.to_nat NUM_CLASSES) []) (sg s)) (sm s)) ;;;
  init_chunks init_fuel SHMBUF_CHUNKSZ_MAX_BIT mmap_ptr (mmap_ptr + shmbuf_segment_size) ;;;
  modify (fun s => mkSegst (set_num_actives 0 (sg s)) (sm s)).

(** ** The segment directory *)

Variable shmbuf_num_logical_segment : Z.

Definition shmbuf_segment_vaddr_tail : Z :=
  shmbuf_segment_vaddr_head + shmbuf_segment_size * shmbuf_num_logical_segment.

(** Results of the operating system calls made during one operation. *)
Record os_results := mkOs {
  munmap_ok : bool;
  mmap_none_ok : bool;         (* mmap(PROT_NONE, MAP_FIXED) *)
  shm_open_ok : bool;
  fallocate_eintr : nat;       (* attempts interrupted by EINTR *)
  fallocate_ok : bool;         (* result of the attempt that is not *)
  mmap_ok : bool;              (* mmap(PROT_READ|PROT_WRITE, MAP_FIXED) *)
  shm_unlink_ok : bool
}.

Definition set_lock (b : bool) (w : world) : world :=
  mkWorld b (active_segment_list w) (free_segment_list w) (segments w)
          (shmBufLocalMaps w) (wmem w).
Definition set_active_segment_list (l : list nat) (w : world) : world :=
  mkWorld (lock w) l (free_segment_list w) (segments w)
          (shmBufLocalMaps w) (wmem w).
Definition set_free_segment_list (l : list nat) (w : world) : world :=
  mkWorld (lock w) (active_segment_list w) l (segments w)
          (shmBufLocalMaps w) (wmem w).
Definition set_segments (l : list shmBufferSegment) (w : world) : world :=
  mkWorld (lock w) (active_segment_list w) (free_segment_list w) l
          (shmBufLocalMaps w) (wmem w).
Definition set_shmBufLocalMaps (l : list shmBufferLocalMap) (w : world) : world :=
  mkWorld (lock w) (active_segment_list w) (free_segment_list w) (segments w)
          l (wmem w).
Definition set_wmem (m : memory) (w : world) : world :=
  mkWorld (lock w) (active_segment_list w) (free_segment_list w) (segments w)
          (shmBufLocalMaps w) m.

(** [SpinLockAcquire(&shmBufSegHead->lock)]: a spin lock is not
    recursive; taking it while this process holds it spins without end. *)
Definition SpinLockAcquire : M world unit :=
  fun w => if lock w then Fail StuckSpinLock w else Ret tt (set_lock true w).

Definition SpinLockRelease : M world unit :=
  fun w => Ret tt (set_lock false w).

(** [PG_TRY(); { body } PG_CATCH(); { handler; PG_RE_THROW(); } PG_END_TRY();] *)
Definition PG_TRY {A} (body : M world A) (handler : M world unit) : M world A :=
  fun w => match body w with
           | Ret a w' => Ret a w'
           | Fail f w' =>
               if is_ERROR f then
                 match handler w' with
                 | Ret _ w'' => Fail f w''
                 | Fail f' w'' => Fail f' w''
                 end
               else Fail f w'
           end.

(** Run a step of the buddy allocator on [&shmBufSegHead->segments[segment_id]]. *)
Definition on_segment {A} (segment_id : nat) (m : M segst A) : M world A :=
  fun w =>
    match segments w !! segment_id with
    | None => Fail Undefined w
    | Some g =>
        let back s := set_wmem (sm s) (set_segments (<[segment_id := sg s]> (segments w)) w) in
        match m (mkSegst g (wmem w)) with
        | Ret a s => Ret a (back s)
        | Fail f s => Fail f (back s)
        end
    end.

Definition read_lmap (segment_id : nat) : M world shmBufferLocalMap :=
  fun w => match shmBufLocalMaps w !! segment_id with
           | Some l => Ret l w
           | None => Fail Undefined w
           end.

Definition update_lmap (segment_id : nat)
  (f : shmBufferLocalMap -> shmBufferLocalMap) : M world unit :=
  fun w => match shmBufLocalMaps w !! segment_id with
           | Some l => Ret tt (set_shmBufLocalMaps
                                 (<[segment_id := f l]> (shmBufLocalMaps w)) w)
           | None => Fail Undefined w
           end.

Definition set_mutex (b : bool) (l : shmBufferLocalMap) : shmBufferLocalMap :=
  mkLocalMap b (lm_revision l) (is_attached l).
Definition set_lm_revision (r : Z) (l : shmBufferLocalMap) : shmBufferLocalMap :=
  mkLocalMap (mutex l) r (is_attached l).
Definition set_is_attached (b : bool) (l : shmBufferLocalMap) : shmBufferLocalMap :=
  mkLocalMap (mutex l) (lm_revision l) b.

(** A system call that raises [f] when it fails. *)
Definition syscall_or {S} (ok : bool) (f : failure) : M S unit :=
  if ok then ret tt else fail f.

(** [while (fallocate(...) != 0) { if (errno == EINTR) continue; ... elog(ERROR) }] *)
Fixpoint fallocate_loop (eintr : nat) (ok : bool) : M world unit :=
  match eintr with
  | S n => fallocate_loop n ok
  | O => syscall_or ok (ErrSyscall sys_fallocate)
  end.

(** ** Segment life cycle *)

(** [shmBufferCreateSegment()]; the result is the index of the slot. *)
Definition shmBufferCreateSegment (os : os_results) : M world nat :=
  (* pick up a free shared memory segment *)
  SpinLockAcquire ;;;
  w <- get ;;
  match free_segment_list w with
  | [] =>
      SpinLockRelease ;;;
      fail ErrOutOfMemory
  | segment_id :: rest =>
      modify (set_free_segment_list rest) ;;;
      SpinLockRelease ;;;
      rev <- on_segment segment_id (fun s => Ret (revision (sg s)) s) ;;
      Assert USE_ASSERT_CHECKING (negb (SHMBUF_SEGMENT_EXISTS rev)) ;;;
      lmap <- read_lmap segment_id ;;
      let mmap_ptr := shmBufferSegmentMmapPtr segment_id in
      (* unmap ghost mapping first *)
      (if is_attached lmap then
         syscall_or (munmap_ok os) (FatalSyscall sys_munmap) ;;;
         syscall_or (mmap_none_ok os) (FatalSyscall sys_mmap_none) ;;;
         update_lmap segment_id (set_is_attached false)
       else ret tt) ;;;
      (* create a new shared memory segment *)
      syscall_or (shm_open_ok os) (ErrSyscall sys_shm_open) ;;;
      fallocate_loop (fallocate_eintr os) (fallocate_ok os) ;;;
      syscall_or (mmap_ok os) (ErrSyscall sys_mmap) ;;;
      modify (fun w => set_wmem
                (clear_range mmap_ptr (mmap_ptr + shmbuf_segment_size) (wmem w)) w) ;;;
      (* Ok, successfully mapped *)
      on_segment segment_id (init_segment segment_id) ;;;
      (* also, update the local mapping *)
      update_lmap segment_id (set_is_attached true) ;;;
      rev' <- on_segment segment_id
                (fun s => let r := wrap32 (revision (sg s) + 1) in
                          Ret r (mkSegst (set_revision r (sg s)) (sm s))) ;;
      update_lmap segment_id (set_lm_revision rev') ;;;
      Assert USE_ASSERT_CHECKING (SHMBUF_SEGMENT_EXISTS rev') ;;;
      ret segment_id
  end.

(** [shmBufferDropSegment(seg)]; "caller must have lock on
    shmBufSegHead->lock". *)
Definition shmBufferDropSegment (os : os_results) (segment_id : nat) : M world unit :=
  lmap <- read_lmap segment_id ;;
  (* pg_atomic_fetch_add_u32(&seg->revision, 1) *)
  rev <- on_segment segment_id
           (fun s => Ret (revision (sg s))
                         (mkSegst (set_revision (wrap32 (revision (sg s) + 1)) (sg s)) (sm s))) ;;
  (if is_attached lmap then
     syscall_or (munmap_ok os) (FatalSyscall sys_munmap) ;;;
     syscall_or (mmap_none_ok os) (FatalSyscall sys_mmap_none) ;;;
     update_lmap segment_id (set_is_attached false)
   else ret tt) ;;;
  syscall_or (shm_open_ok os) (FatalSyscall sys_shm_open) ;;;
  syscall_or (shm_unlink_ok os) (FatalSyscall sys_shm_unlink).

(** ** Allocation facade *)

(** The [dlist_foreach] loop of [shmBufferAllocChunk] over the active
    segments. *)
Fixpoint scan_active (l : list nat) (required : Z) : M world (option Z) :=
  match l with
  | [] => ret None
  | segment_id :: l' =>
      chunk <- on_segment segment_id
                 (__shmBufferAllocChunkFromSegment segment_id required) ;;
      match chunk with
      | Some c => ret (Some c)
      | None => scan_active l' required
      end
  end.

(** [shmBufferAllocChunk(required)]. *)
Definition shmBufferAllocChunk (os : os_results) (required : Z) : M world (option Z) :=
  w <- get ;;
  found <- scan_active (active_segment_list w) required ;;
  match found with
  | Some c => ret (Some c)
  | None =>
      (* try to create a new segment *)
      segment_id <- shmBufferCreateSegment os ;;
      modify (fun w => set_active_segment_list (segment_id :: active_segment_list w) w) ;;;
      chunk <- on_segment segment_id
                 (__shmBufferAllocChunkFromSegment segment_id required) ;;
      match chunk with
      | None => fail ErrOutOfMemory
      | Some c => ret (Some c)
      end
  end.

(** [shmbufAlloc(sz)]; [None] is the NULL pointer. *)
Definition shmbufAlloc (os : os_results) (sz : Z) : M world (option Z) :=
  SpinLockAcquire ;;;
  chunk <- PG_TRY (shmBufferAllocChunk os sz) SpinLockRelease ;;
  SpinLockRelease ;;;
  match chunk with
  | None => ret None
  | Some c => ret (Some (chunk_data c))
  end.

(** [shmbufAllocZero(sz)]. *)
Definition shmbufAllocZero (os : os_results) (sz : Z) : M world (option Z) :=
  addr <- shmbufAlloc os sz ;;
  match addr with
  | Some a => modify (fun w => set_wmem (memset_zero a sz (wmem w)) w) ;;; ret (Some a)
  | None => ret None
  end.

(** [shmBufferSegmentFromChunk(chunk)]. *)
Definition shmBufferSegmentFromChunk (chunk : Z) : M world nat :=
  Assert USE_ASSERT_CHECKING
    ((shmbuf_segment_vaddr_head <=? chunk) && (chunk <? shmbuf_segment_vaddr_tail)) ;;;
  let segment_id :=
    wrap32 (wrap64 (chunk - shmbuf_segment_vaddr_head) / shmbuf_segment_size) in
  Assert USE_ASSERT_CHECKING (segment_id <? shmbuf_num_logical_segment) ;;;
  ret (Z.to_nat segment_id).

(** [dlist_delete(&seg->chain)]: the slot is unlinked from the list
    it is on.  The [chain] of a slot that is on neither list is all
    zero ([shmBufferCreateSegment] clears it when it takes the slot off
    the free list, and only [shmBufferAllocChunk] links it again), so
    unlinking such a slot stores through a NULL pointer. *)
Definition dlist_delete_segment (segment_id : nat) : M world unit :=
  fun w =>
    if bool_decide (segment_id ∈ active_segment_list w) then
      Ret tt (set_active_segment_list
                (filter (fun i => i ≠ segment_id) (active_segment_list w)) w)
    else if bool_decide (segment_id ∈ free_segment_list w) then
      Ret tt (set_free_segment_list
                (filter (fun i => i ≠ segment_id) (free_segment_list w)) w)
    else Fail Undefined w.

(** [shmbufFree(addr)]. *)
Definition shmbufFree (os : os_results) (addr : Z) : M world unit :=
  let chunk := SHMBUF_POINTER_GET_CHUNK addr in
  segment_id <- shmBufferSegmentFromChunk chunk ;;
  SpinLockAcquire ;;;
  empty <- on_segment segment_id (shmBufferFreeChunk segment_id chunk) ;;
  (if empty : bool then
     dlist_delete_segment segment_id ;;;
     shmBufferDropSegment os segment_id ;;;
     modify (fun w => set_free_segment_list (segment_id :: free_segment_list w) w)
   else ret tt) ;;;
  SpinLockRelease.

(** ** Fault-driven attach *)

(** How the signal handler leaves: it returns to the faulting
    instruction, or it takes the [normal_crash] exit (or finds the
    address outside the reserved range), calls the handler installed
    before and aborts. *)
Inductive handler_exit := Resumed | Crashed.

(** The local-map mutex, as seen from the handler. *)
Definition lmap_acquire (segment_id : nat) : M world unit :=
  l <- read_lmap segment_id ;;
  if mutex l then fail StuckSpinLock
  else update_lmap segment_id (set_mutex true).

Definition lmap_release (segment_id : nat) : M world unit :=
  update_lmap segment_id (set_mutex false).

(** [shmBufferAttachSegmentOnDemand(signum, siginfo, unused)], with
    [fault_addr = siginfo->si_addr]. *)
Definition shmBufferAttachSegmentOnDemand (os : os_results) (fault_addr : Z)
  : M world handler_exit :=
  if (shmbuf_segment_vaddr_head <=? fault_addr) &&
     (fault_addr <? shmbuf_segment_vaddr_tail) then
    let segment_id :=
      Z.to_nat (wrap32 ((fault_addr - shmbuf_segment_vaddr_head) / shmbuf_segment_size)) in
    Assert USE_ASSERT_CHECKING (Z.of_nat segment_id <? shmbuf_num_logical_segment) ;;;
    rev <- on_segment segment_id (fun s => Ret (revision (sg s)) s) ;;
    if negb (SHMBUF_SEGMENT_EXISTS rev) then ret Crashed
    else
      lmap_acquire segment_id ;;;
      lmap <- read_lmap segment_id ;;
      if is_attached lmap && (lm_revision lmap =? rev) then
        lmap_release segment_id ;;; ret Crashed
      else if is_attached lmap && negb (munmap_ok os) then
        lmap_release segment_id ;;; ret Crashed
      else
        (if is_attached lmap
         then update_lmap segment_id (set_is_attached false) else ret tt) ;;;
        (* open an "existing" shared memory segment *)
        if negb (shm_open_ok os) then
          lmap_release segment_id ;;; ret Crashed
        else if negb (mmap_ok os) then
          lmap_release segment_id ;;; ret Crashed
        else
          lmap_release segment_id ;;;
          (* problem solved *)
          ret Resumed
  else ret Crashed.

(** ** Start-up *)

(** The directory and the local maps as [pgstrom_startup_shmbuf]
    leaves them before the pre-allocation. *)
Definition startup_world : world :=
  let n := Z.to_nat shmbuf_num_logical_segment in
  mkWorld false [] (seq 0 n)
          (replicate n (mkSegment 0 0 (replicate (Z.to_nat NUM_CLASSES) [])))
          (replicate n (mkLocalMap false 0 false))
          (mkMemory ∅ ∅).

(** [pgstrom_startup_shmbuf()]: "pre-allocation". *)
Definition pgstrom_startup_shmbuf (os : os_results) : outcome world nat :=
  shmBufferCreateSegment os startup_world.

End Buddy.

(** ** Introspection *)

(** The statistics gathered by the walk of [__pgstrom_shmbuf_segment_info]
    over the chunks of one segment. *)
Record segment_info := mkInfo {
  active_count : list Z;       (* int active_chunks[26] *)
  free_count : list Z;         (* int free_chunks[26] *)
  required_space : Z;
  alloc_space : Z;
  free_space : Z
}.

Definition bump (i : Z) (l : list Z) : list Z :=
  alter (fun n => n + 1) (Z.to_nat i) l.

(** The loop [while (curr < tail)] of [__pgstrom_shmbuf_segment_info];
    [None] is the exit through ["corrupted" : true].  Every iteration
    advances [curr] by at least [2^7] bytes. *)
Fixpoint info_walk (fuel : nat) (m : memory) (curr tail : Z) (acc : segment_info)
  : option segment_info :=
  match fuel with
  | O => None
  | S fuel' =>
      if curr <? tail then
        let c := load_chunk m curr in
        if (mclass c <? SHMBUF_CHUNKSZ_MIN_BIT)
           || (SHMBUF_CHUNKSZ_MAX_BIT <? mclass c)
           || negb (magic_head c =? SHMBUF_CHUNK_MAGIC_CODE)
           || (tail <? curr + 2 ^ mclass c)
        then None
        else
          let i := mclass c - SHMBUF_CHUNKSZ_MIN_BIT in
          let acc' :=
            if chain c then
              mkInfo (active_count acc) (bump i (free_count acc))
                     (required_space acc) (alloc_space acc)
                     (wrap64 (free_space acc + 2 ^ mclass c))
            else
              mkInfo (bump i (active_count acc)) (free_count acc)
                     (wrap64 (required_space acc + required c))
                     (wrap64 (alloc_space acc + 2 ^ mclass c))
                     (free_space acc)
          in info_walk fuel' m (curr + 2 ^ mclass c) tail acc'
      else Some acc
  end.

Definition __pgstrom_shmbuf_segment_info
  (shmbuf_segment_size shmbuf_segment_vaddr_head : Z) (segment_id : nat) (m : memory)
  : option segment_info :=
  let head := shmBufferSegmentMmapPtr shmbuf_segment_size shmbuf_segment_vaddr_head segment_id in
  info_walk (Z.to_nat (shmbuf_segment_size / 2 ^ SHMBUF_CHUNKSZ_MIN_BIT) + 1) m
            head (head + shmbuf_segment_size)
            (mkInfo (replicate (Z.to_nat NUM_CLASSES) 0)
                    (replicate (Z.to_nat NUM_CLASSES) 0) 0 0 0).

(** ** The chunks of a segment

    A segment is described by the list of its chunks in address order;
    an entry gives the address of the chunk, its class, and whether it
    is free. *)

Definition chunk_entry : Type := Z * Z * bool.

Definition ce_addr (e : chunk_entry) : Z := e.1.1.
Definition ce_class (e : chunk_entry) : Z := e.1.2.
Definition ce_free (e : chunk_entry) : bool := e.2.

(** The chunks lie back to back from [a] to [b]. *)
Fixpoint tiles (cs : list chunk_entry) (a b : Z) : Prop :=
  match cs with
  | [] => a = b
  | e :: cs' => ce_addr e = a /\ tiles cs' (a + 2 ^ ce_class e) b
  end.

(** Sum of the spans of the chunks. *)
Definition span_sum (cs : list chunk_entry) : Z :=
  foldr (fun e acc => 2 ^ ce_class e + acc) 0 cs.

(** Addresses of the free chunks of class [k], in address order. *)
Definition free_of_class (k : Z) (cs : list chunk_entry) : list Z :=
  ce_addr <$> filter (fun e => ce_free e = true /\ ce_class e = k) cs.

Definition active_entries (cs : list chunk_entry) : list chunk_entry :=
  filter (fun e => ce_free e = false) cs.

(** The segment at [base] of [size] bytes consists of the chunks [cs].
    [flight] is the address of a chunk that [shmBufferFreeChunk] is in
    the middle of releasing: it is counted as active and is on no free
    list, but its [chain] member is not constrained. *)
Record seg_inv (base size : Z) (flight : option Z)
               (cs : list chunk_entry) (s : segst) : Prop := mkSegInv {
  inv_tiles : tiles cs base (base + size);
  inv_class : forall e, e ∈ cs ->
      SHMBUF_CHUNKSZ_MIN_BIT <= ce_class e <= SHMBUF_CHUNKSZ_MAX_BIT /\
      (ce_addr e - base) mod 2 ^ ce_class e = 0;
  inv_hdr : forall e, e ∈ cs ->
      mclass (load_chunk (sm s) (ce_addr e)) = ce_class e /\
      magic_head (load_chunk (sm s) (ce_addr e)) = SHMBUF_CHUNK_MAGIC_CODE /\
      (flight ≠ Some (ce_addr e) -> chain (load_chunk (sm s) (ce_addr e)) = ce_free e);
  inv_blank : forall b, base <= b < base + size ->
      b ∉ (ce_addr <$> cs) -> load_chunk (sm s) b = zero_chunk;
  inv_lists_len : length (free_chunks (sg s)) = Z.to_nat NUM_CLASSES;
  inv_lists : forall i l, free_chunks (sg s) !! i = Some l ->
      l ≡ₚ free_of_class (Z.of_nat i + SHMBUF_CHUNKSZ_MIN_BIT) cs;
  inv_actives : num_actives (sg s) = Z.of_nat (length (active_entries cs));
  inv_flight : forall x, flight = Some x ->
      exists k, (x, k, false) ∈ cs
}.

Definition classes_ok (cs : list chunk_entry) : Prop :=
  Forall (fun e => 0 <= ce_class e) cs.

(** The two kinds of update the buddy routines make: one free list is
    replaced, one chunk header is rewritten. *)
Definition upd_list (mindex : Z) (l : list Z) (s : segst) : segst :=
  mkSegst (set_free_chunks (<[Z.to_nat mindex := l]> (free_chunks (sg s))) (sg s)) (sm s).

Definition upd_hdr (a : Z) (c : shmBufferChunk) (s : segst) : segst :=
  mkSegst (sg s) (store_chunk a c (sm s)).

Definition upd_actives (n : Z) (s : segst) : segst :=
  mkSegst (set_num_actives n (sg s)) (sm s).

(** The header of a half produced by a split, once it is on its list. *)
Definition linked_chunk (k : Z) : shmBufferChunk :=
  set_chain true (fresh_chunk k).

(** What a successful [__shmBufferAllocChunkFromSegment(seg, n)] leaves
    behind: the chunk [a] of class [c] is in use and stamped. *)
Definition allocated (base size : Z) (id : nat) (n c : Z)
  (cs : list chunk_entry) (s : segst) (a : Z)
  (cs' : list chunk_entry) (s' : segst) : Prop :=
  seg_inv base size None cs' s' /\
  (a, c, false) ∈ cs' /\
  load_chunk (sm s') a = mkChunk false n c SHMBUF_CHUNK_MAGIC_CODE (Some id) /\
  load32 (sm s') (magic_tail_addr a n) = SHMBUF_CHUNK_MAGIC_CODE /\
  revision (sg s') = revision (sg s) /\
  length (active_entries cs') = S (length (active_entries cs)).

Definition free_entries (cs : list chunk_entry) : list chunk_entry :=
  filter (fun e => ce_free e = true) cs.

(** The states a segment of [2^K] bytes goes through when its single
    free chunk is split down to class [c]: the chunk at the base has
    class [c], and for every class from [c] up to [K - 1] the upper half
    of the corresponding split is free. *)
Fixpoint rungs (base c : Z) (d : nat) : list chunk_entry :=
  match d with
  | O => []
  | S d' => (base + 2 ^ c, c, true) :: rungs base (c + 1) d'
  end.

Definition ladder_list (base K c : Z) (top : list Z) (k : Z) : list Z :=
  (if k =? c then top else []) ++
  (if (c <=? k) && (k <? K) then [base + 2 ^ k] else []).

Definition ladder (base K c : Z) (flight : option Z) (free : bool) (s : segst) : Prop :=
  seg_inv base (2 ^ K) flight ((base, c, free) :: rungs base c (Z.to_nat (K - c))) s /\
  forall i, (i < Z.to_nat NUM_CLASSES)%nat ->
    free_chunks (sg s) !! i =
    Some (ladder_list base K c (if free then [base] else [])
            (Z.of_nat i + SHMBUF_CHUNKSZ_MIN_BIT)).

(** ** A concrete configuration

    The smallest admitted [shmbuf.segment_size] (32MB), ten logical
    segments, and an operating system on which every call succeeds. *)

Definition ex_size : Z := 2 ^ 25.
Definition ex_head : Z := 2 ^ 40.
Definition ex_nseg : Z := 10.
Definition ex_os : os_results := mkOs true true true 0 true true true.

(** The state after [pgstrom_startup_shmbuf]. *)
Definition ex_started : world :=
  match pgstrom_startup_shmbuf false ex_size ex_head ex_nseg ex_os with
  | Ret _ w => w
  | Fail _ w => w
  end.

(** The same directory seen from a process that has not mapped any
    segment: its local maps are as at process start. *)
Definition ex_other_process : world :=
  set_shmBufLocalMaps
    (replicate (Z.to_nat ex_nseg) (mkLocalMap false 0 false)) ex_started.

(** A directory whose active list holds segment 0. *)
Definition ex_active : world := set_active_segment_list [0%nat] ex_started.

(** The directory after [shmbufAlloc(50)] on [ex_active]: one active
    chunk at the base of segment 0. *)
Definition ex_allocated : world :=
  match shmbufAlloc false ex_size ex_head ex_os 50 ex_active with
  | Ret _ w => w
  | Fail _ w => w
  end.

(** The same after the owner of the chunk has written one byte past
    the 50 bytes it asked for, into the trailing magic word. *)
Definition ex_overrun : segst :=
  mkSegst (default (mkSegment 0 0 []) (segments ex_allocated !! 0%nat))
          (store_byte (ex_head + 40 + 50) 0 (wmem ex_allocated)).

(** A directory in which the segment of slot 0 is in its last
    generation before the 32-bit counter wraps. *)
Definition ex_last_generation : world :=
  set_segments
    (<[0%nat := set_revision (2 ^ 32 - 1)
                  (default (mkSegment 0 0 []) (segments ex_started !! 0%nat))]>
       (segments ex_started))
    ex_started.

(** The revision of a slot after [n] further creations and drops: each
    of them is one [pg_atomic_add_fetch_u32] / [pg_atomic_fetch_add_u32]
    by 1. *)
Definition revision_after (n : nat) (rev : Z) : Z :=
  Nat.iter n (fun r => wrap32 (r + 1)) rev.

(** ** Auxiliary notions for the statements *)

(** The state in which a computation ends. *)
Definition final {S A} (o : outcome S A) : S :=
  match o with Ret _ s | Fail _ s => s end.

(** A step of the buddy allocator that leaves [seg->revision] alone. *)
Definition rev_stable {A} (m : M segst A) : Prop :=
  forall s, revision (sg (final (m s))) = revision (sg s).

(** The state of a segment before any chunk is made in it: the
    directory entry is the one of [s], and the range of the segment
    reads as zero, as it does after [fallocate] and [mmap] in
    [shmBufferCreateSegment]. *)
Definition blank_segment (size head : Z) (id : nat) (s : segst) : segst :=
  let mmap_ptr := shmBufferSegmentMmapPtr size head id in
  mkSegst (sg s) (clear_range mmap_ptr (mmap_ptr + size) (sm s)).

(** A request whose size computation
    [offsetof(data) + required + sizeof(uint32)] does not wrap around;
    its trailer lies inside the chunk it is given. *)
Definition plain_request (n : Z) : Prop :=
  0 <= n < 2 ^ 64 - chunk_hdrsz - magic_sz.

(** Every segment on the active list is made of chunks, as [seg_inv]
    describes them. *)
Definition active_segments_ok (size head : Z) (w : world) : Prop :=
  forall id, id ∈ active_segment_list w ->
    exists g cs,
      segments w !! id = Some g /\
      seg_inv (shmBufferSegmentMmapPtr size head id) size None cs (mkSegst g (wmem w)).

(** No free chunk of the segment has a free buddy of its own class:
    [lo] is the lower chunk of a pair of buddies of class [j]. *)
Definition coalesced (base : Z) (cs : list chunk_entry) : Prop :=
  forall lo j,
    (2 ^ (j + 1) | lo - base) ->
    (lo, j, true) ∈ cs -> (lo + 2 ^ j, j, true) ∈ cs -> False.

(** What the coalescing loop of [shmBufferFreeChunk] has done when it
    is left with the chunk [x'] of class [j'], having started from the
    chunk [x] of class [j]: the chunks outside [x'] are the same, the
    chunks merged into [x'] were free, and the buddy of [x'] is not a
    free chunk of class [j']. *)
Definition merged (base : Z) (x j : Z) (cs : list chunk_entry) (s : segst)
    (x' j' : Z) (cs' : list chunk_entry) (s' : segst) : Prop :=
  j <= j' /\ x' <= x /\ x + 2 ^ j <= x' + 2 ^ j' /\
  (forall e, ¬ (x' <= ce_addr e < x' + 2 ^ j') -> (e ∈ cs <-> e ∈ cs')) /\
  (forall e, e ∈ cs -> x' <= ce_addr e < x' + 2 ^ j' ->
             e = (x, j, false) \/ ce_free e = true) /\
  (forall b, ¬ (x' <= b < x' + 2 ^ j') -> load_chunk (sm s') b = load_chunk (sm s) b) /\
  bytes (sm s') = bytes (sm s) /\
  revision (sg s') = revision (sg s) /\
  (Z.land (x' - base) (2 ^ j') = 0 -> (x' + 2 ^ j', j', true) ∉ cs') /\
  (Z.land (x' - base) (2 ^ j') ≠ 0 -> (x' - 2 ^ j', j', true) ∉ cs').

(** The states one segment goes through: it is initialised on a
    mapping that reads as zero, then chunks are allocated in it, by
    requests whose size sum does not wrap, and chunks that are in use
    are released.  The list is that of the chunks in use, the most
    recent first. *)
Inductive segment_history (USE_ASSERT_CHECKING : bool) (size head : Z) (id : nat)
  : list Z -> segst -> Prop :=
| history_created s0 s :
    init_segment size head id (blank_segment size head id s0) = Ret tt s ->
    segment_history USE_ASSERT_CHECKING size head id [] s
| history_alloc live s n a s' :
    segment_history USE_ASSERT_CHECKING size head id live s ->
    plain_request n ->
    __shmBufferAllocChunkFromSegment USE_ASSERT_CHECKING id n s = Ret (Some a) s' ->
    segment_history USE_ASSERT_CHECKING size head id (a :: live) s'
| history_free live s chunk b s' :
    segment_history USE_ASSERT_CHECKING size head id live s ->
    chunk ∈ live ->
    shmBufferFreeChunk USE_ASSERT_CHECKING size head id chunk s = Ret b s' ->
    segment_history USE_ASSERT_CHECKING size head id
      (filter (fun x => x ≠ chunk) live) s'.

(** ** Names of the shared memory files *)

(** [NAMEDATALEN] of PostgreSQL ([pg_config_manual.h]). *)
Definition NAMEDATALEN : Z := 64.

(** The text that [%u] prints for a value converted to [unsigned int]. *)
Definition fmt_u (x : Z) : list ascii :=
  String.list_ascii_of_string (pretty (Z.to_N (wrap32 x))).

(** A decimal digit. *)
Definition is_digit (c : ascii) : Prop :=
  exists k, (k < 10)%N /\ c = pretty_N_char k.

(** [snprintf(buf, size, ...)]: the text left in the buffer, and the
    result of the call, which is the length of the text before it is
    cut to the buffer. *)
Definition snprintf (size : Z) (text : list ascii) : list ascii * Z :=
  (take (Z.to_nat (size - 1)) text, Z.of_nat (length text)).

(** [SHMBUF_SEGMENT_FILENAME(namebuf, segment_id, revision)]:
    ["/.pg_shmbuf_%u.%u:%u"] of [PostPortNumber], [segment_id] and
    [revision >> 1]. *)
Definition SHMBUF_SEGMENT_FILENAME (PostPortNumber segment_id revision : Z)
  : list ascii :=
  (snprintf NAMEDATALEN
     (String.list_ascii_of_string "/.pg_shmbuf_" ++ fmt_u PostPortNumber ++
      String.list_ascii_of_string "." ++ fmt_u segment_id ++
      String.list_ascii_of_string ":" ++ fmt_u (Z.shiftr (wrap32 revision) 1))).1.

(** An entry of [/dev/shm] as [readdir] returns it; [d_is_reg] stands
    for [d_type == DT_REG]. *)
Record dirent := mkDirent {
  d_name : list ascii;
  d_is_reg : bool
}.

(** [strncmp(a, b, n) == 0] on NUL-terminated strings. *)
Fixpoint strncmp_eq (a b : list ascii) (n : nat) {struct n} : bool :=
  match n with
  | O => true
  | S n' =>
      match a, b with
      | [], [] => true
      | x :: a', y :: b' => if decide (x = y) then strncmp_eq a' b' n' else false
      | _, _ => false
      end
  end.

(** [shmBufferCleanupOnPostmasterExit]: the names given to
    [shm_unlink], in the order of the directory.  [dev_shm] is [None]
    when [opendir] fails; a failing [shm_unlink] is only logged. *)
Definition shmBufferCleanupOnPostmasterExit
    (is_postmaster : bool) (PostPortNumber : Z) (dev_shm : option (list dirent))
  : list (list ascii) :=
  if is_postmaster then
    let '(namebuf, namelen) :=
      snprintf NAMEDATALEN
        (String.list_ascii_of_string ".pg_shmbuf_" ++ fmt_u PostPortNumber ++
         String.list_ascii_of_string ".") in
    match dev_shm with
    | None => []
    | Some entries =>
        d_name <$>
          filter (fun d => d_is_reg d = true /\
                           strncmp_eq (d_name d) namebuf (Z.to_nat namelen) = true)
                 entries
    end
  else [].

(** ** Guard markers *)







(** ** Configuration *)

(** [pgstrom_init_shmbuf()]: the test of [shmbuf.segment_size], an [int]
    in kB that the GUC machinery keeps between [32 << 10] and
    [4096 << 10], and the segment size in bytes that is derived from
    it.  [None] is the [elog(ERROR, "... is not factorial of 2")]. *)
Definition shmbuf_segment_size_kb_min : Z := Z.shiftl 32 10.
Definition shmbuf_segment_size_kb_max : Z := Z.shiftl 4096 10.

Definition pgstrom_init_shmbuf_segment_size (shmbuf_segment_size_kb : Z) : option Z :=
  if negb (Z.land shmbuf_segment_size_kb (shmbuf_segment_size_kb - 1) =? 0) then None
  else Some (wrap64 (Z.shiftl shmbuf_segment_size_kb 10)).

(** * Properties *)

(** ** Reasoning about the monad *)

Lemma bind_Ret_inv {S A B} (m : M S A) (k : A -> M S B) s b s' :
  bind m k s = Ret b s' ->
  exists a s1, m s = Ret a s1 /\ k a s1 = Ret b s'.
Proof.
  unfold bind. destruct (m s) as [a s1|f s1]; intros H; [eauto | discriminate].
Qed.

Lemma bind_Fail_inv {S A B} (m : M S A) (k : A -> M S B) s f s' :
  bind m k s = Fail f s' ->
  m s = Fail f s' \/ exists a s1, m s = Ret a s1 /\ k a s1 = Fail f s'.
Proof.
  unfold bind. destruct (m s) as [a s1|f1 s1]; intros H; [eauto | left; congruence].
Qed.

Lemma bind_Ret_intro {S A B} (m : M S A) (k : A -> M S B) s a s1 :
  m s = Ret a s1 -> bind m k s = k a s1.
Proof. unfold bind. intros ->. reflexivity. Qed.

Lemma bind_Fail_intro {S A B} (m : M S A) (k : A -> M S B) s f s1 :
  m s = Fail f s1 -> bind m k s = Fail f s1.
Proof. unfold bind. intros ->. reflexivity. Qed.

(** ** C1: the fault handler and the local map *)

Section Attach.

Variable USE_ASSERT_CHECKING : bool.
Variables size head nseg : Z.

Local Abbreviation handler := (shmBufferAttachSegmentOnDemand USE_ASSERT_CHECKING size head nseg).

Lemma update_lmap_lookup id f w w' :
  update_lmap id f w = Ret tt w' ->
  exists l, shmBufLocalMaps w !! id = Some l /\
            shmBufLocalMaps w' !! id = Some (f l) /\
            segments w' = segments w.
Proof.
  unfold update_lmap. destruct (shmBufLocalMaps w !! id) as [l|] eqn:E; [|discriminate].
  intros [= <-]. exists l. split; [done|]. split; [|done].
  simpl. apply list_lookup_insert_eq. by eapply lookup_lt_Some.
Qed.

Lemma read_lmap_inv id w l w' :
  read_lmap id w = Ret l w' -> w' = w /\ shmBufLocalMaps w !! id = Some l.
Proof.
  unfold read_lmap. destruct (shmBufLocalMaps w !! id); [|discriminate].
  by intros [= -> ->].
Qed.

(** Whenever the handler resumes the faulting instruction, the local
    map entry of the slot is left detached, and its revision is the
    one it had before the fault. *)
Lemma attach_resumed_entry os fault_addr w w' :
  handler os fault_addr w = Ret Resumed w' ->
  let id := Z.to_nat (wrap32 ((fault_addr - head) / size)) in
  exists l l', shmBufLocalMaps w !! id = Some l /\
               shmBufLocalMaps w' !! id = Some l' /\
               is_attached l' = false /\
               lm_revision l' = lm_revision l.
Proof.
  intros H id. unfold shmBufferAttachSegmentOnDemand in H. fold id in H.
  destruct (_ && _) in H; [|discriminate].
  apply bind_Ret_inv in H as (? & w1 & Ha & H).
  assert (w1 = w) as ->.
  { unfold Assert in Ha. destruct (_ && _) in Ha; by inversion Ha. }
  apply bind_Ret_inv in H as (rev & w2 & Hr & H).
  assert (w2 = w) as ->.
  { unfold on_segment in Hr. destruct (segments w !! id) as [g|] eqn:E; [|discriminate].
    injection Hr as _ <-. destruct w; simpl in *. unfold set_wmem, set_segments; simpl.
    f_equal. by apply list_insert_id. }
  destruct (negb (SHMBUF_SEGMENT_EXISTS rev)); [discriminate|].
  apply bind_Ret_inv in H as ([] & w3 & Hacq & H).
  unfold lmap_acquire in Hacq.
  apply bind_Ret_inv in Hacq as (l0 & w0 & Hl0 & Hacq).
  apply read_lmap_inv in Hl0 as [-> Hl0].
  destruct (mutex l0) eqn:Hm; [discriminate|].
  apply update_lmap_lookup in Hacq as (l0' & E0 & E3 & _).
  assert (l0' = l0) as -> by congruence.
  apply bind_Ret_inv in H as (l3 & w3' & Hl3 & H).
  apply read_lmap_inv in Hl3 as [-> Hl3].
  assert (l3 = set_mutex true l0) as -> by congruence.
  exists l0. 
  destruct (is_attached (set_mutex true l0)) eqn:Hatt; simpl in H.
  - destruct (lm_revision l0 =? rev).
    { apply bind_Ret_inv in H as (? & ? & _ & H). discriminate. }
    destruct (negb (munmap_ok os)).
    { apply bind_Ret_inv in H as (? & ? & _ & H). discriminate. }
    apply bind_Ret_inv in H as ([] & w4 & Hu & H).
    apply update_lmap_lookup in Hu as (l4 & E4 & E4' & _).
    destruct (negb (shm_open_ok os)).
    { apply bind_Ret_inv in H as (? & ? & _ & H). discriminate. }
    destruct (negb (mmap_ok os)).
    { apply bind_Ret_inv in H as (? & ? & _ & H). discriminate. }
    apply bind_Ret_inv in H as ([] & w5 & Hrel & H).
    injection H as <-.
    apply update_lmap_lookup in Hrel as (l5 & E5 & E5' & _).
    eexists. split; [done|]. split; [exact E5'|].
    assert (l4 = set_mutex true l0) as -> by congruence.
    assert (l5 = set_is_attached false (set_mutex true l0)) as -> by congruence.
    done.
  - apply bind_Ret_inv in H as ([] & w4 & Hu & H).
    injection Hu as <-.
    destruct (negb (shm_open_ok os)).
    { apply bind_Ret_inv in H as (? & ? & _ & H). discriminate. }
    destruct (negb (mmap_ok os)).
    { apply bind_Ret_inv in H as (? & ? & _ & H). discriminate. }
    apply bind_Ret_inv in H as ([] & w5 & Hrel & H).
    injection H as <-.
    apply update_lmap_lookup in Hrel as (l5 & E5 & E5' & _).
    eexists. split; [done|]. split; [exact E5'|].
    assert (l5 = set_mutex true l0) as -> by congruence.
    done.
Qed.

End Attach.

(** C1.  A process that has never mapped slot 0 touches an address in
    it while the slot holds a segment of revision 1, and [shm_open] and
    [mmap] succeed.  The handler resumes the faulting instruction, but
    the local map entry of the slot still reads [is_attached = false]
    with revision 0: neither the revision read by the handler nor the
    attached flag is recorded. *)
Theorem C1_attach_does_not_record :
  exists w',
    shmBufferAttachSegmentOnDemand false ex_size ex_head ex_nseg ex_os
      (ex_head + 100) ex_other_process = Ret Resumed w' /\
    revision <$> segments ex_other_process !! 0%nat = Some 1 /\
    shmBufLocalMaps w' !! 0%nat = Some (mkLocalMap false 0 false).
Proof. eexists. split; [vm_compute; reflexivity|]. split; reflexivity. Qed.

(** ** C2: the directory lock during [shmbufAlloc] *)

Section DirectoryLock.

Variable USE_ASSERT_CHECKING : bool.
Variables size head : Z.

Lemma on_segment_lock {A} id (m : M segst A) w :
  match on_segment id m w with
  | Ret _ w' | Fail _ w' => lock w' = lock w
  end.
Proof.
  unfold on_segment. destruct (segments w !! id); [|done].
  by destruct (m _).
Qed.

Lemma scan_active_lock l required w :
  match scan_active USE_ASSERT_CHECKING l required w with
  | Ret _ w' | Fail _ w' => lock w' = lock w
  end.
Proof.
  revert w. induction l as [|id l IH]; intros w; simpl; [done|].
  unfold bind.
  pose proof (on_segment_lock id
    (__shmBufferAllocChunkFromSegment USE_ASSERT_CHECKING id required) w) as Hl.
  destruct (on_segment _ _ w) as [[c|] w1|f w1]; simpl; try done.
  specialize (IH w1). destruct (scan_active _ _ _ w1); congruence.
Qed.

(** [shmBufferCreateSegment] entered with the directory lock held
    never gets past its first statement. *)
Lemma create_segment_relock os w :
  lock w = true ->
  shmBufferCreateSegment USE_ASSERT_CHECKING size head os w = Fail StuckSpinLock w.
Proof.
  intros Hl. unfold shmBufferCreateSegment, bind, SpinLockAcquire. by rewrite Hl.
Qed.

(** Whenever the scan of the active list ends without a chunk,
    [shmbufAlloc] takes the directory lock a second time while it
    still holds it. *)
Lemma shmbufAlloc_relock os sz w w1 :
  lock w = false ->
  scan_active USE_ASSERT_CHECKING (active_segment_list w) sz (set_lock true w)
    = Ret None w1 ->
  shmbufAlloc USE_ASSERT_CHECKING size head os sz w = Fail StuckSpinLock w1 /\
  lock w1 = true.
Proof.
  intros Hl Hscan.
  pose proof (scan_active_lock (active_segment_list w) sz (set_lock true w)) as Hl1.
  rewrite Hscan in Hl1. simpl in Hl1. split; [|done].
  unfold shmbufAlloc, bind at 1, SpinLockAcquire. rewrite Hl.
  unfold bind at 1, PG_TRY, shmBufferAllocChunk, bind at 1, get. 
  change (active_segment_list (set_lock true w)) with (active_segment_list w).
  unfold bind at 1. rewrite Hscan.
  unfold bind at 1. by rewrite create_segment_relock.
Qed.

End DirectoryLock.

(** C2.  On the directory as start-up leaves it (the active list is
    empty), [shmbufAlloc(50)] takes the directory lock, finds no active
    segment, and enters [shmBufferCreateSegment], whose first statement
    takes the same lock again: the call spins with the lock held. *)
Theorem C2_alloc_takes_lock_twice :
  lock ex_started = false /\
  active_segment_list ex_started = [] /\
  exists w',
    shmbufAlloc false ex_size ex_head ex_os 50 ex_started = Fail StuckSpinLock w' /\
    lock w' = true.
Proof.
  split; [reflexivity|]. split; [reflexivity|].
  eexists. split; [vm_compute; reflexivity | reflexivity].
Qed.

(** ** C3: the scan of the active list and the creation of a segment *)

Section AllocChunk.

Variable USE_ASSERT_CHECKING : bool.
Variables size head : Z.

Local Abbreviation alloc_in id required :=
  (on_segment id (__shmBufferAllocChunkFromSegment USE_ASSERT_CHECKING id required)).

(** The scan follows the order of the list and stops at the first
    segment that yields a chunk. *)
Lemma scan_active_first id l required w c w' :
  alloc_in id required w = Ret (Some c) w' ->
  scan_active USE_ASSERT_CHECKING (id :: l) required w = Ret (Some c) w'.
Proof. intros H. simpl. unfold bind. by rewrite H. Qed.

Lemma scan_active_next id l required w w' :
  alloc_in id required w = Ret None w' ->
  scan_active USE_ASSERT_CHECKING (id :: l) required w
  = scan_active USE_ASSERT_CHECKING l required w'.
Proof. intros H. simpl. unfold bind. by rewrite H. Qed.

Lemma scan_active_raise id l required w f w' :
  alloc_in id required w = Fail f w' ->
  scan_active USE_ASSERT_CHECKING (id :: l) required w = Fail f w'.
Proof. intros H. simpl. unfold bind. by rewrite H. Qed.

(** [shmBufferAllocChunk] after an unsuccessful scan, when the creation
    of a segment goes through: the new slot is pushed to the head of
    the active list and the request is tried on it once. *)
Lemma shmBufferAllocChunk_create os required w w1 id w2 :
  scan_active USE_ASSERT_CHECKING (active_segment_list w) required w = Ret None w1 ->
  shmBufferCreateSegment USE_ASSERT_CHECKING size head os w1 = Ret id w2 ->
  shmBufferAllocChunk USE_ASSERT_CHECKING size head os required w
  = match alloc_in id required
            (set_active_segment_list (id :: active_segment_list w2) w2) with
    | Ret (Some c) w3 => Ret (Some c) w3
    | Ret None w3 => Fail ErrOutOfMemory w3
    | Fail f w3 => Fail f w3
    end.
Proof.
  intros Hscan Hcreate. unfold shmBufferAllocChunk, bind, get.
  rewrite Hscan, Hcreate. unfold modify.
  by destruct (alloc_in id required _) as [[c|] w3|f w3].
Qed.

(** [shmBufferAllocChunk] never returns NULL. *)
Lemma shmBufferAllocChunk_not_null os required w w' :
  shmBufferAllocChunk USE_ASSERT_CHECKING size head os required w ≠ Ret None w'.
Proof.
  unfold shmBufferAllocChunk, bind, get.
  destruct (scan_active _ _ _ _) as [[c|] w1|f w1]; try done.
  destruct (shmBufferCreateSegment _ _ _ _ _) as [id w2|f w2]; try done.
  unfold modify. by destruct (on_segment _ _ _) as [[c|] w3|f w3].
Qed.

(** Neither does [shmbufAlloc]: the branch [if (!chunk) return NULL] is
    never taken. *)
Lemma shmbufAlloc_not_null os sz w w' :
  shmbufAlloc USE_ASSERT_CHECKING size head os sz w ≠ Ret None w'.
Proof.
  unfold shmbufAlloc, bind. destruct (SpinLockAcquire w) as [[] w0|]; [|done].
  unfold PG_TRY.
  pose proof (shmBufferAllocChunk_not_null os sz w0) as Hnn.
  destruct (shmBufferAllocChunk _ _ _ _ _ w0) as [[c|] w1|f w1].
  - done.
  - by destruct (Hnn w1).
  - destruct (is_ERROR f); [|done]. by destruct (SpinLockRelease w1).
Qed.

(** A pointer returned by [shmbufAlloc] is the [data] member of a
    chunk. *)
Lemma shmbufAlloc_payload os sz w p w' :
  shmbufAlloc USE_ASSERT_CHECKING size head os sz w = Ret (Some p) w' ->
  exists chunk, p = chunk_data chunk /\ SHMBUF_POINTER_GET_CHUNK p = chunk.
Proof.
  unfold shmbufAlloc, bind. destruct (SpinLockAcquire w) as [[] w0|]; [|done].
  destruct (PG_TRY _ _ w0) as [[c|] w1|f w1]; simpl; try done.
  intros [= <- <-]. exists c. unfold SHMBUF_POINTER_GET_CHUNK, chunk_data. split; [done|lia].
Qed.

Lemma memset_zero_lookup addr sz m a :
  addr <= a < addr + sz -> load_byte (memset_zero addr sz m) a = 0.
Proof.
  intros Ha. unfold load_byte, memset_zero; simpl.
  assert (a ∈ seqZ addr sz) as Hin by (apply elem_of_seqZ; lia).
  induction (seqZ addr sz) as [|x xs IH]; [by apply elem_of_nil in Hin|].
  simpl. destruct (decide (x = a)) as [->|Hne].
  - by rewrite lookup_insert_eq.
  - rewrite lookup_insert_ne by done. apply IH.
    apply elem_of_cons in Hin as [?|?]; [congruence|done].
Qed.

(** [shmbufAllocZero] never returns NULL either, and the first [sz]
    bytes behind the pointer it returns are zero. *)
Lemma shmbufAllocZero_zeroed os sz w :
  match shmbufAllocZero USE_ASSERT_CHECKING size head os sz w with
  | Ret None _ => False
  | Ret (Some p) w' => forall i, 0 <= i < sz -> load_byte (wmem w') (p + i) = 0
  | Fail _ _ => True
  end.
Proof.
  unfold shmbufAllocZero, bind.
  pose proof (shmbufAlloc_not_null os sz w) as Hnn.
  destruct (shmbufAlloc _ _ _ _ _ w) as [[p|] w1|f w1]; simpl; try done.
  - intros i Hi. apply memset_zero_lookup. lia.
  - by destruct (Hnn w1).
Qed.

End AllocChunk.

(** C3.  On the directory as start-up leaves it no active segment can
    serve [shmbufAlloc(50)], and a free slot is available.  No segment
    is created and nothing is pushed to the active list: the call
    stops in [shmBufferCreateSegment] on the directory lock that
    [shmbufAlloc] already holds. *)
Theorem C3_alloc_creates_no_segment :
  exists w',
    shmbufAlloc false ex_size ex_head ex_os 50 ex_started = Fail StuckSpinLock w' /\
    free_segment_list ex_started = [1; 2; 3; 4; 5; 6; 7; 8; 9]%nat /\
    active_segment_list w' = [] /\
    free_segment_list w' = free_segment_list ex_started /\
    segments w' = segments ex_started.
Proof.
  eexists. split; [vm_compute; reflexivity|]. repeat split; reflexivity.
Qed.

(** ** C4: oversized requests *)

Lemma chunk_size_of_small n :
  0 <= n < 2 ^ 64 - 44 -> chunk_size_of n = 44 + n.
Proof.
  intros Hn. unfold chunk_size_of, wrap64, chunk_hdrsz, magic_sz.
  rewrite Z.mod_small; lia.
Qed.

(** The request is refused exactly when the computed chunk size is
    above [2^32]. *)
Lemma class_of_request_None n :
  class_of_request n = None <-> 2 ^ SHMBUF_CHUNKSZ_MAX_BIT < chunk_size_of n.
Proof.
  unfold class_of_request, get_next_log2, SHMBUF_CHUNKSZ_MIN_BIT, SHMBUF_CHUNKSZ_MAX_BIT.
  set (x := chunk_size_of n).
  destruct (Z.ltb_spec (Z.log2_up x) 7) as [Hlt|Hge].
  - split; [discriminate|]. intros Hx.
    assert (0 < x) as Hpos by lia.
    pose proof (proj2 (Z.log2_up_le_pow2 x 32 Hpos)) as Hle. lia.
  - destruct (Z.ltb_spec 32 (Z.log2_up x)) as [Hlt|Hle].
    + split; [intros _|done].
      destruct (Z_lt_le_dec 0 x) as [Hpos|Hnp].
      * pose proof (proj1 (Z.log2_up_le_pow2 x 32 Hpos)). lia.
      * rewrite Z.log2_up_nonpos in Hlt by lia. lia.
    + split; [discriminate|]. intros Hx.
      assert (0 < x) as Hpos by lia.
      pose proof (proj2 (Z.log2_up_le_pow2 x 32 Hpos)). lia.
Qed.

(** Otherwise the class is the least one in [MIN_BIT .. MAX_BIT] whose
    chunks are large enough. *)
Lemma class_of_request_Some n k :
  class_of_request n = Some k ->
  SHMBUF_CHUNKSZ_MIN_BIT <= k <= SHMBUF_CHUNKSZ_MAX_BIT /\
  chunk_size_of n <= 2 ^ k /\
  (k = SHMBUF_CHUNKSZ_MIN_BIT \/ 2 ^ (k - 1) < chunk_size_of n).
Proof.
  unfold class_of_request, get_next_log2, SHMBUF_CHUNKSZ_MIN_BIT, SHMBUF_CHUNKSZ_MAX_BIT.
  set (x := chunk_size_of n).
  destruct (Z.ltb_spec (Z.log2_up x) 7) as [Hlt|Hge].
  - intros [= <-]. split; [lia|]. split; [|by left].
    destruct (Z_lt_le_dec 0 x) as [Hpos|Hnp]; [|lia].
    apply (Z.log2_up_le_pow2 x 7 Hpos). lia.
  - destruct (Z.ltb_spec 32 (Z.log2_up x)) as [Hlt|Hle]; [discriminate|].
    intros [= <-]. split; [lia|].
    assert (1 < x) as Hx.
    { destruct (Z_lt_le_dec 1 x); [done|]. rewrite Z.log2_up_eqn0 in Hge; lia. }
    pose proof (Z.log2_up_spec x Hx) as [H1 H2]. split; [done|].
    right. by replace (Z.log2_up x - 1) with (Z.pred (Z.log2_up x)) by lia.
Qed.

Section TooLarge.

Variable USE_ASSERT_CHECKING : bool.
Variables size head : Z.

(** With at least one active segment, an oversized request is refused
    at the first segment of the scan; nothing is modified and no other
    segment is tried. *)
Lemma shmbufAlloc_too_large os n w id l g :
  lock w = false ->
  active_segment_list w = id :: l ->
  segments w !! id = Some g ->
  class_of_request n = None ->
  shmbufAlloc USE_ASSERT_CHECKING size head os n w = Fail ErrTooLarge w.
Proof.
  intros Hl Ha Hg Hc.
  unfold shmbufAlloc, bind at 1, SpinLockAcquire. rewrite Hl.
  unfold bind at 1, PG_TRY, shmBufferAllocChunk, bind at 1, get.
  change (active_segment_list (set_lock true w)) with (active_segment_list w).
  rewrite Ha. unfold bind at 1.
  rewrite (scan_active_raise USE_ASSERT_CHECKING id l n (set_lock true w)
             ErrTooLarge (set_lock true w)).
  - simpl. f_equal. destruct w; simpl in *. by subst.
  - unfold on_segment. simpl. rewrite Hg.
    unfold __shmBufferAllocChunkFromSegment. rewrite Hc. unfold fail. f_equal.
    destruct w; unfold set_wmem, set_segments, set_lock; simpl in *.
    f_equal. by apply list_insert_id.
Qed.

End TooLarge.

(** C4.  [shmbufAlloc((size_t) -1)]: header, request and trailer add
    up to [2^64 + 43], far above the largest class, but the sum is
    computed in [size_t] and wraps to 43.  The request is given the
    smallest class and, on a directory with one active segment,
    succeeds with a 128-byte chunk.  On a directory without an active
    segment a request of [2^32] bytes does not raise the oversized
    error either. *)
Theorem C4_oversized_sum_wraps :
  2 ^ SHMBUF_CHUNKSZ_MAX_BIT < chunk_hdrsz + (2 ^ 64 - 1) + magic_sz /\
  chunk_size_of (2 ^ 64 - 1) = 43 /\
  class_of_request (2 ^ 64 - 1) = Some SHMBUF_CHUNKSZ_MIN_BIT /\
  (exists w',
     shmbufAlloc false ex_size ex_head ex_os (2 ^ 64 - 1) ex_active
       = Ret (Some (ex_head + 40)) w' /\
     mclass (load_chunk (wmem w') ex_head) = 7 /\
     required (load_chunk (wmem w') ex_head) = 2 ^ 64 - 1) /\
  class_of_request (2 ^ 32) = None /\
  (exists w',
     shmbufAlloc false ex_size ex_head ex_os (2 ^ 32) ex_started
       = Fail StuckSpinLock w').
Proof.
  split; [vm_compute; reflexivity|].
  split; [vm_compute; reflexivity|].
  split; [vm_compute; reflexivity|].
  split; [eexists; split; [vm_compute; reflexivity|split; vm_compute; reflexivity]|].
  split; [vm_compute; reflexivity|].
  eexists; vm_compute; reflexivity.
Qed.

(** ** C10: the result of [shmbufAlloc] is never NULL *)

(** C10.  A request of 2GB falls into class 32.  On an active 32MB
    segment the free list of that class is empty, so
    [__shmBufferAllocChunkFromSegment] calls [shmBufferSplitChunk(seg, 33)],
    which indexes [free_chunks[26]], one past the end of the array (and
    trips its first [Assert] in a build that checks assertions).  The
    call neither returns a pointer nor raises the out-of-memory or the
    oversized error.  The same holds for the request of 50 bytes on the
    directory without an active segment. *)
Theorem C10_alloc_neither_returns_nor_raises :
  class_of_request (2 ^ 31) = Some 32 /\
  (exists w', shmbufAlloc false ex_size ex_head ex_os (2 ^ 31) ex_active
              = Fail Undefined w') /\
  (exists w', shmbufAlloc true ex_size ex_head ex_os (2 ^ 31) ex_active
              = Fail AssertFailed w') /\
  (exists w', shmbufAlloc false ex_size ex_head ex_os 50 ex_started
              = Fail StuckSpinLock w').
Proof.
  split; [vm_compute; reflexivity|].
  repeat split; eexists; vm_compute; reflexivity.
Qed.

(** ** C5: guard markers on free *)


Example free_overrun_result :
  exists s',
    shmBufferFreeChunk false ex_size ex_head 0%nat ex_head ex_overrun = Ret true s' /\
    free_chunks (sg s') !! 18%nat = Some [ex_head] /\
    num_actives (sg s') = 0.
Proof. eexists. split; [vm_compute; reflexivity|]. split; reflexivity. Qed.

(** ** C7: the revision counter *)

Lemma rev_stable_bind {A B} (m : M segst A) (k : A -> M segst B) :
  rev_stable m -> (forall a, rev_stable (k a)) -> rev_stable (bind m k).
Proof.
  intros Hm Hk s. unfold bind. specialize (Hm s).
  destruct (m s) as [a s1|f s1]; simpl in *; [|done].
  by rewrite Hk.
Qed.

Lemma rev_stable_ret {A} (a : A) : rev_stable (ret a).
Proof. done. Qed.

Lemma rev_stable_fail {A} f : rev_stable (@fail segst A f).
Proof. done. Qed.

Lemma rev_stable_Assert b c : rev_stable (Assert b c).
Proof. intros s. unfold Assert. by destruct (_ && _). Qed.

Lemma rev_stable_update_chunk a f : rev_stable (update_chunk a f).
Proof. done. Qed.

Lemma rev_stable_free_list i : rev_stable (free_list i).
Proof.
  intros s. unfold free_list. destruct (_ && _); [|done].
  by destruct (_ !! _).
Qed.

Lemma rev_stable_set_free_list i l : rev_stable (set_free_list i l).
Proof. intros s. unfold set_free_list. by destruct (_ && _). Qed.

Lemma rev_stable_push_tail i a : rev_stable (dlist_push_tail i a).
Proof.
  apply rev_stable_bind; [apply rev_stable_free_list|]. intros l.
  apply rev_stable_bind; [apply rev_stable_set_free_list|]. intros _.
  apply rev_stable_update_chunk.
Qed.

Section Revision.

Variable USE_ASSERT_CHECKING : bool.
Variables size head : Z.

Lemma rev_stable_init_chunks fuel k h t :
  rev_stable (init_chunks fuel k h t).
Proof.
  revert k h. induction fuel as [|fuel IH]; intros k h; simpl.
  - apply rev_stable_fail.
  - destruct (_ <=? _); [|apply rev_stable_ret].
    destruct (_ <? _); [apply IH|].
    apply rev_stable_bind; [apply rev_stable_update_chunk|]. intros _.
    apply rev_stable_bind; [apply rev_stable_push_tail|]. intros _. apply IH.
Qed.

Lemma rev_stable_init_segment id : rev_stable (init_segment size head id).
Proof.
  unfold init_segment.
  apply rev_stable_bind; [done|]. intros _.
  apply rev_stable_bind; [apply rev_stable_init_chunks|]. intros _. done.
Qed.

Lemma on_segment_Ret {A} id (m : M segst A) w a w' :
  on_segment id m w = Ret a w' ->
  exists g s', segments w !! id = Some g /\
               m (mkSegst g (wmem w)) = Ret a s' /\
               segments w' = <[id := sg s']> (segments w) /\
               wmem w' = sm s' /\
               free_segment_list w' = free_segment_list w /\
               shmBufLocalMaps w' = shmBufLocalMaps w.
Proof.
  unfold on_segment. destruct (segments w !! id) as [g|]; [|discriminate].
  destruct (m _) as [a' s'|f s'] eqn:E; [|discriminate].
  intros [= <- <-]. exists g, s'. by repeat split.
Qed.

Lemma syscall_or_Ret {S} ok f (s s' : S) :
  syscall_or ok f s = Ret tt s' -> s' = s.
Proof. unfold syscall_or. destruct ok; by inversion 1. Qed.

Lemma Assert_Ret {S} b c (s s' : S) :
  Assert b c s = Ret tt s' -> s' = s.
Proof. unfold Assert. destruct (_ && _); by inversion 1. Qed.

Lemma fallocate_loop_Ret n ok w w' :
  fallocate_loop n ok w = Ret tt w' -> w' = w.
Proof. induction n; simpl; [apply syscall_or_Ret|done]. Qed.

Lemma update_lmap_Ret id f w w' :
  update_lmap id f w = Ret tt w' ->
  segments w' = segments w /\ wmem w' = wmem w.
Proof.
  unfold update_lmap. destruct (_ !! _); [|discriminate]. by intros [= <-].
Qed.

(** [shmBufferDropSegment]: the revision of the slot advances by one
    in [uint32], and its parity flips. *)
Lemma drop_revision os id w w' g :
  segments w !! id = Some g ->
  shmBufferDropSegment os id w = Ret tt w' ->
  exists g', segments w' !! id = Some g' /\
             revision g' = wrap32 (revision g + 1).
Proof.
  intros Hg H. unfold shmBufferDropSegment in H.
  apply bind_Ret_inv in H as (lmap & w1 & Hl & H).
  apply read_lmap_inv in Hl as [-> _].
  apply bind_Ret_inv in H as (rev & w2 & Hr & H).
  apply on_segment_Ret in Hr as (g0 & s' & Hg0 & Hm & Hs & _).
  rewrite Hg in Hg0. injection Hg0 as <-. injection Hm as _ <-. simpl in Hs.
  assert (segments w' = segments w2) as ->.
  { apply bind_Ret_inv in H as ([] & w3 & Hd & H).
    apply bind_Ret_inv in H as ([] & w4 & Ho & H).
    apply syscall_or_Ret in Ho as ->. apply syscall_or_Ret in H as ->.
    destruct (is_attached lmap); [|by injection Hd as <-].
    apply bind_Ret_inv in Hd as ([] & w5 & H1 & Hd).
    apply bind_Ret_inv in Hd as ([] & w6 & H2 & Hd).
    apply syscall_or_Ret in H1 as ->. apply syscall_or_Ret in H2 as ->.
    by apply update_lmap_Ret in Hd as [-> _]. }
  rewrite Hs. eexists. split.
  - apply list_lookup_insert_eq. by eapply lookup_lt_Some.
  - done.
Qed.

(** [shmBufferCreateSegment]: the slot handed out is the head of the
    free list, and its revision advances by one in [uint32]. *)
Lemma create_revision os w id w' :
  shmBufferCreateSegment USE_ASSERT_CHECKING size head os w = Ret id w' ->
  exists rest g g',
    free_segment_list w = id :: rest /\
    segments w !! id = Some g /\
    segments w' !! id = Some g' /\
    revision g' = wrap32 (revision g + 1).
Proof.
  intros H. unfold shmBufferCreateSegment in H.
  apply bind_Ret_inv in H as ([] & w0 & Hacq & H).
  unfold SpinLockAcquire in Hacq. destruct (lock w); [discriminate|].
  injection Hacq as <-.
  apply bind_Ret_inv in H as (wg & w0' & Hget & H). injection Hget as <- <-.
  change (free_segment_list (set_lock true w)) with (free_segment_list w) in H.
  destruct (free_segment_list w) as [|id0 rest] eqn:Hfree.
  { apply bind_Ret_inv in H as (? & ? & _ & H). discriminate. }
  apply bind_Ret_inv in H as ([] & w1 & Hmod & H). injection Hmod as <-.
  apply bind_Ret_inv in H as ([] & w2 & Hrel & H). injection Hrel as <-.
  apply bind_Ret_inv in H as (rev & w3 & Hrev & H).
  apply on_segment_Ret in Hrev as (g & s1 & Hg & Hm & Hs3 & Hm3 & _).
  simpl in Hg, Hs3, Hm3. injection Hm as <- <-. simpl in Hs3, Hm3.
  rewrite list_insert_id in Hs3 by done.
  apply bind_Ret_inv in H as ([] & w4 & Has & H). apply Assert_Ret in Has as ->.
  apply bind_Ret_inv in H as (lmap & w4 & Hl & H).
  apply read_lmap_inv in Hl as [-> _].
  apply bind_Ret_inv in H as ([] & w5 & Hghost & H).
  assert (segments w5 = segments w) as Hs5.
  { rewrite <- Hs3. destruct (is_attached lmap); [|by injection Hghost as <-].
    apply bind_Ret_inv in Hghost as ([] & w6 & H1 & Hd).
    apply bind_Ret_inv in Hd as ([] & w7 & H2 & Hd).
    apply syscall_or_Ret in H1 as ->. apply syscall_or_Ret in H2 as ->.
    by apply update_lmap_Ret in Hd as [-> _]. }
  apply bind_Ret_inv in H as ([] & w6 & H1 & H). apply syscall_or_Ret in H1 as ->.
  apply bind_Ret_inv in H as ([] & w6 & H1 & H). apply fallocate_loop_Ret in H1 as ->.
  apply bind_Ret_inv in H as ([] & w6 & H1 & H). apply syscall_or_Ret in H1 as ->.
  apply bind_Ret_inv in H as ([] & w6 & H1 & H). injection H1 as <-.
  apply bind_Ret_inv in H as ([] & w7 & Hinit & H).
  apply on_segment_Ret in Hinit as (g1 & s2 & Hg1 & Hm & Hs7 & _).
  simpl in Hg1, Hs7. rewrite Hs5 in Hg1, Hs7. rewrite Hg in Hg1. injection Hg1 as <-.
  match type of Hm with
  | _ ?s = _ => pose proof (rev_stable_init_segment id0 s) as Hrs
  end.
  rewrite Hm in Hrs. simpl in Hrs.
  apply bind_Ret_inv in H as ([] & w8 & Hu & H).
  apply update_lmap_Ret in Hu as [Hs8 _].
  apply bind_Ret_inv in H as (rev' & w9 & Hadd & H).
  apply on_segment_Ret in Hadd as (g2 & s3 & Hg2 & Hm2 & Hs9 & _).
  rewrite Hs8, Hs7 in Hg2, Hs9.
  rewrite list_lookup_insert_eq in Hg2 by (by eapply lookup_lt_Some).
  injection Hg2 as <-. injection Hm2 as <- <-. simpl in Hs9.
  apply bind_Ret_inv in H as ([] & w10 & Hu & H).
  apply update_lmap_Ret in Hu as [Hs10 _].
  apply bind_Ret_inv in H as ([] & w11 & Has & H). apply Assert_Ret in Has as ->.
  injection H as <- <-.
  exists rest, g. eexists. split; [done|]. split; [done|].
  rewrite Hs10, Hs9. split.
  - apply list_lookup_insert_eq. rewrite length_insert. by eapply lookup_lt_Some.
  - simpl. by rewrite Hrs.
Qed.

End Revision.

Lemma land_1_mod x : Z.land x 1 = x mod 2.
Proof. change 1 with (Z.ones 1). rewrite Z.land_ones by lia. reflexivity. Qed.

Lemma wrap32_mod_2 a : wrap32 a mod 2 = a mod 2.
Proof.
  unfold wrap32. change (2 ^ 32) with (2 * 2 ^ 31).
  rewrite Z.rem_mul_r by lia.
  rewrite Z.add_mod by lia. rewrite (Z.mul_comm 2), Z.mod_mul by lia.
  rewrite Z.add_0_r. rewrite !Z.mod_mod by lia. reflexivity.
Qed.

Lemma succ_mod_2 r : (r + 1) mod 2 = 1 - r mod 2.
Proof.
  pose proof (Z.mod_pos_bound r 2 ltac:(lia)).
  rewrite Z.add_mod by lia.
  destruct (Z.eq_dec (r mod 2) 0) as [->|]; [reflexivity|].
  replace (r mod 2) with 1 by lia. reflexivity.
Qed.

Lemma exists_flips r :
  SHMBUF_SEGMENT_EXISTS (wrap32 (r + 1)) = negb (SHMBUF_SEGMENT_EXISTS r).
Proof.
  unfold SHMBUF_SEGMENT_EXISTS.
  rewrite !land_1_mod, wrap32_mod_2, succ_mod_2.
  pose proof (Z.mod_pos_bound r 2 ltac:(lia)).
  destruct (Z.eqb_spec (r mod 2) 0), (Z.eqb_spec (1 - r mod 2) 0); simpl; lia.
Qed.

Lemma revision_after_eq n r :
  0 <= r < 2 ^ 32 -> revision_after n r = wrap32 (r + Z.of_nat n).
Proof.
  intros Hr. unfold revision_after, wrap32. induction n as [|n IH].
  - simpl. rewrite Z.add_0_r, Z.mod_small; lia.
  - rewrite Nat.iter_succ, IH.
    rewrite Z.add_mod_idemp_l by lia. f_equal. lia.
Qed.

Lemma revision_after_fresh n r :
  0 <= r < 2 ^ 32 -> (0 < n)%nat -> Z.of_nat n < 2 ^ 32 ->
  revision_after n r ≠ r.
Proof.
  intros Hr Hn Hlt. rewrite revision_after_eq by done. unfold wrap32.
  intros Heq.
  pose proof (Z.div_mod (r + Z.of_nat n) (2 ^ 32) ltac:(lia)) as Hdm.
  rewrite Heq in Hdm.
  assert ((r + Z.of_nat n) / 2 ^ 32 <= 1).
  { apply Z.lt_succ_r. apply Z.div_lt_upper_bound; lia. }
  assert (0 <= (r + Z.of_nat n) / 2 ^ 32) by (apply Z.div_pos; lia).
  lia.
Qed.

(** C7 (amended).  A successful creation returns a slot whose revision
    has advanced by one modulo [2^32]; that is by exactly one unless the
    counter was at [2^32 - 1], and the result is odd when the slot was
    empty.  A successful drop advances the revision by one modulo
    [2^32] and leaves it even when the segment existed.  The revision
    does not come back to a value it had before in fewer than [2^32]
    creations and drops. *)
Theorem C7_revision_advances_mod_2_32
  (USE_ASSERT_CHECKING : bool) (size head : Z) (os : os_results)
  (w : world) (id : nat) (g : shmBufferSegment)
  (Hg : segments w !! id = Some g)
  (Hrange : 0 <= revision g < 2 ^ 32) :
  (forall w',
     shmBufferCreateSegment USE_ASSERT_CHECKING size head os w = Ret id w' ->
     exists g', segments w' !! id = Some g' /\
       revision g' = wrap32 (revision g + 1) /\
       (revision g < 2 ^ 32 - 1 -> revision g' = revision g + 1) /\
       (SHMBUF_SEGMENT_EXISTS (revision g) = false ->
        SHMBUF_SEGMENT_EXISTS (revision g') = true)) /\
  (forall w',
     shmBufferDropSegment os id w = Ret tt w' ->
     exists g', segments w' !! id = Some g' /\
       revision g' = wrap32 (revision g + 1) /\
       (revision g < 2 ^ 32 - 1 -> revision g' = revision g + 1) /\
       (SHMBUF_SEGMENT_EXISTS (revision g) = true ->
        SHMBUF_SEGMENT_EXISTS (revision g') = false)) /\
  (forall n, (0 < n)%nat -> Z.of_nat n < 2 ^ 32 ->
     revision_after n (revision g) ≠ revision g).
Proof.
  split; [|split].
  - intros w' Hc.
    apply create_revision in Hc as (rest & g0 & g' & _ & Hg0 & Hg' & Hrev).
    assert (g0 = g) as -> by congruence.
    exists g'. split; [done|]. split; [done|]. split.
    + intros Hlt. rewrite Hrev. unfold wrap32. rewrite Z.mod_small; lia.
    + intros He. rewrite Hrev, exists_flips, He. done.
  - intros w' Hd.
    apply (drop_revision _ _ _ _ _ Hg) in Hd as (g' & Hg' & Hrev).
    exists g'. split; [done|]. split; [done|]. split.
    + intros Hlt. rewrite Hrev. unfold wrap32. rewrite Z.mod_small; lia.
    + intros He. rewrite Hrev, exists_flips, He. done.
  - intros n Hn Hlt. by apply revision_after_fresh.
Qed.

Lemma C7_revision_advances_witness :
  (exists w' g',
     shmBufferCreateSegment false ex_size ex_head ex_os ex_started = Ret 1%nat w' /\
     segments w' !! 1%nat = Some g' /\ revision g' = 1) /\
  (exists w' g',
     shmBufferDropSegment ex_os 0%nat ex_started = Ret tt w' /\
     segments w' !! 0%nat = Some g' /\ revision g' = 2).
Proof.
  split.
  - destruct (shmBufferCreateSegment false ex_size ex_head ex_os ex_started)
      as [id w'|f w'] eqn:E; [|vm_compute in E; discriminate].
    assert (id = 1%nat) as -> by (vm_compute in E; congruence).
    destruct (C7_revision_advances_mod_2_32 false ex_size ex_head ex_os ex_started 1%nat
                (mkSegment 0 0 (replicate 26 [])))
      as [Hc _]; [reflexivity | simpl; lia |].
    destruct (Hc w' E) as (g' & Hg' & _ & Hone & _).
    exists w', g'. split; [done|]. split; [done|]. apply Hone. simpl. lia.
  - destruct (shmBufferDropSegment ex_os 0%nat ex_started) as [[] w'|f w'] eqn:E;
      [|vm_compute in E; discriminate].
    assert (segments ex_started !! 0%nat =
            Some (mkSegment 1 0 (<[18%nat := [ex_head]]> (replicate 26 [])))) as Hg
      by (vm_compute; reflexivity).
    destruct (C7_revision_advances_mod_2_32 false ex_size ex_head ex_os ex_started 0%nat
                _ Hg)
      as (_ & Hd & _); [simpl; lia |].
    destruct (Hd w' E) as (g' & Hg' & _ & Hone & _).
    exists w', g'. split; [done|]. split; [done|].
    rewrite Hone; [reflexivity | simpl; lia].
Defined.

(** The drop of a segment in its last generation takes the revision
    from [2^32 - 1] to [0], which is not an increase by one and is the
    value every slot starts with. *)
Lemma C7_revision_wraps :
  ~ (forall os id w w' g g',
       segments w !! id = Some g ->
       0 <= revision g < 2 ^ 32 ->
       shmBufferDropSegment os id w = Ret tt w' ->
       segments w' !! id = Some g' ->
       revision g' = revision g + 1 /\
       revision g' ∉ (revision <$> segments (startup_world ex_nseg))).
Proof.
  intros H.
  destruct (shmBufferDropSegment ex_os 0%nat ex_last_generation) as [[] w'|f w'] eqn:E;
    [|vm_compute in E; discriminate].
  assert (exists g', segments w' !! 0%nat = Some g' /\ revision g' = 0)
    as (g' & Hg' & Hrev).
  { vm_compute in E. injection E as <-. eexists. split; reflexivity. }
  destruct (H ex_os 0%nat ex_last_generation w'
              (default (mkSegment 0 0 []) (segments ex_last_generation !! 0%nat)) g')
    as [Hone _]; [reflexivity | vm_compute; split; [discriminate|reflexivity] | done | done |].
  rewrite Hrev in Hone. vm_compute in Hone. discriminate.
Qed.

(** * The buddy allocator of one segment

    The chunks of a segment are described by a list of entries in
    address order; [seg_inv] relates that list to the headers in memory,
    the free lists and the counter of chunks in use. *)


(** ** Chunk lists *)

Lemma pow2_pos k : 0 <= k -> 0 < 2 ^ k.
Proof. intros. apply Z.pow_pos_nonneg; lia. Qed.

Lemma tiles_app l1 l2 a b :
  tiles (l1 ++ l2) a b <-> tiles l1 a (a + span_sum l1) /\ tiles l2 (a + span_sum l1) b.
Proof.
  revert a. induction l1 as [|e l1 IH]; intros a; simpl.
  - rewrite Z.add_0_r. tauto.
  - rewrite IH. replace (a + 2 ^ ce_class e + span_sum l1)
      with (a + (2 ^ ce_class e + span_sum l1)) by lia. tauto.
Qed.

Lemma tiles_span cs a b : tiles cs a b -> span_sum cs = b - a.
Proof.
  revert a. induction cs as [|e cs IH]; intros a; simpl.
  - lia.
  - intros [_ H]. apply IH in H. lia.
Qed.

Lemma span_sum_nonneg cs : classes_ok cs -> 0 <= span_sum cs.
Proof.
  induction 1 as [|e cs He _ IH]; simpl; [lia|].
  pose proof (pow2_pos _ He). lia.
Qed.

Lemma tiles_bounds cs a b e :
  classes_ok cs -> tiles cs a b -> e ∈ cs ->
  a <= ce_addr e /\ ce_addr e + 2 ^ ce_class e <= b.
Proof.
  intros Hok. revert a. induction Hok as [|e' cs He' Hok IH]; intros a Ht Hin.
  - by apply elem_of_nil in Hin.
  - destruct Ht as [Ha Ht]. pose proof (pow2_pos _ He').
    pose proof (tiles_span _ _ _ Ht). pose proof (span_sum_nonneg _ Hok).
    apply elem_of_cons in Hin as [->|Hin].
    + lia.
    + specialize (IH _ Ht Hin). lia.
Qed.

Lemma tiles_NoDup cs a b :
  classes_ok cs -> tiles cs a b -> NoDup (ce_addr <$> cs).
Proof.
  intros Hok. revert a. induction Hok as [|e cs He Hok IH]; intros a Ht; simpl.
  - constructor.
  - destruct Ht as [Ha Ht]. constructor; [|by eapply IH].
    intros Hin. apply list_elem_of_fmap in Hin as (e' & Heq & Hin).
    pose proof (tiles_bounds _ _ _ _ Hok Ht Hin) as [Hlo _].
    pose proof (pow2_pos _ He). lia.
Qed.

(** An entry is determined by its address. *)
Lemma tiles_entry_unique cs a b e1 e2 :
  classes_ok cs -> tiles cs a b -> e1 ∈ cs -> e2 ∈ cs ->
  ce_addr e1 = ce_addr e2 -> e1 = e2.
Proof.
  intros Hok Ht H1 H2 Heq.
  pose proof (tiles_NoDup _ _ _ Hok Ht) as Hnd.
  apply list_elem_of_lookup in H1 as [i Hi].
  apply list_elem_of_lookup in H2 as [j Hj].
  assert (i = j) as ->.
  { eapply NoDup_lookup; [exact Hnd| |]; rewrite list_lookup_fmap.
    - by rewrite Hi.
    - rewrite Hj. simpl. by rewrite Heq. }
  congruence.
Qed.

Lemma free_of_class_app k l1 l2 :
  free_of_class k (l1 ++ l2) = free_of_class k l1 ++ free_of_class k l2.
Proof. unfold free_of_class. by rewrite filter_app, fmap_app. Qed.

Lemma free_of_class_cons k e l :
  free_of_class k (e :: l) =
  (if decide (ce_free e = true /\ ce_class e = k) then [ce_addr e] else [])
  ++ free_of_class k l.
Proof.
  unfold free_of_class. rewrite filter_cons. by case_decide.
Qed.

Lemma elem_of_free_of_class k cs a :
  a ∈ free_of_class k cs <-> (a, k, true) ∈ cs.
Proof.
  unfold free_of_class. rewrite list_elem_of_fmap. split.
  - intros ([[a' k'] f] & -> & Hin). apply list_elem_of_filter in Hin as [[Hf Hk] Hin].
    unfold ce_free, ce_class, ce_addr in *. simpl in *. by subst.
  - intros Hin. exists (a, k, true). split; [done|].
    apply list_elem_of_filter. by split.
Qed.

Lemma active_entries_app l1 l2 :
  active_entries (l1 ++ l2) = active_entries l1 ++ active_entries l2.
Proof. unfold active_entries. by rewrite filter_app. Qed.

(** ** Steps of the buddy routines as state updates *)

Lemma load_store_eq a c m : load_chunk (store_chunk a c m) a = c.
Proof. unfold load_chunk, store_chunk; simpl. by rewrite lookup_insert_eq. Qed.

Lemma load_store_ne a b c m : a ≠ b -> load_chunk (store_chunk a c m) b = load_chunk m b.
Proof. intros. unfold load_chunk, store_chunk; simpl. by rewrite lookup_insert_ne. Qed.

Lemma load_upd_hdr a c s b :
  load_chunk (sm (upd_hdr a c s)) b = if decide (a = b) then c else load_chunk (sm s) b.
Proof.
  simpl. case_decide; [subst; apply load_store_eq | by apply load_store_ne].
Qed.

Lemma load_store32 a v m b : load_chunk (store32 a v m) b = load_chunk m b.
Proof. done. Qed.

Lemma mindex_range k :
  SHMBUF_CHUNKSZ_MIN_BIT <= k <= SHMBUF_CHUNKSZ_MAX_BIT ->
  0 <= k - SHMBUF_CHUNKSZ_MIN_BIT < NUM_CLASSES.
Proof. unfold NUM_CLASSES, SHMBUF_CHUNKSZ_MIN_BIT, SHMBUF_CHUNKSZ_MAX_BIT. lia. Qed.

Lemma range_test i :
  0 <= i < NUM_CLASSES -> (0 <=? i) && (i <? NUM_CLASSES) = true.
Proof. intros. apply andb_true_intro. split; [apply Z.leb_le|apply Z.ltb_lt]; lia. Qed.

Lemma free_list_Ret i s l :
  0 <= i < NUM_CLASSES ->
  free_chunks (sg s) !! Z.to_nat i = Some l ->
  free_list i s = Ret l s.
Proof. intros Hi Hl. unfold free_list. by rewrite range_test, Hl. Qed.

Lemma free_list_outside i s :
  ¬ (0 <= i < NUM_CLASSES) -> free_list i s = Fail Undefined s.
Proof.
  intros Hi. unfold free_list.
  destruct (Z.leb_spec 0 i), (Z.ltb_spec i NUM_CLASSES); simpl; try done. lia.
Qed.

Lemma set_free_list_Ret i l s :
  0 <= i < NUM_CLASSES -> set_free_list i l s = Ret tt (upd_list i l s).
Proof. intros Hi. unfold set_free_list. by rewrite range_test. Qed.

Lemma dlist_is_empty_Ret i s l :
  0 <= i < NUM_CLASSES ->
  free_chunks (sg s) !! Z.to_nat i = Some l ->
  dlist_is_empty i s = Ret (match l with [] => true | _ => false end) s.
Proof.
  intros Hi Hl. unfold dlist_is_empty, bind. by rewrite (free_list_Ret i s l).
Qed.

Lemma dlist_pop_Ret i s a l :
  0 <= i < NUM_CLASSES ->
  free_chunks (sg s) !! Z.to_nat i = Some (a :: l) ->
  dlist_pop_head_node i s = Ret a (upd_list i l s).
Proof.
  intros Hi Hl. unfold dlist_pop_head_node, bind.
  rewrite (free_list_Ret i s (a :: l)) by done.
  by rewrite set_free_list_Ret.
Qed.

Lemma dlist_push_tail_Ret i s a l :
  0 <= i < NUM_CLASSES ->
  free_chunks (sg s) !! Z.to_nat i = Some l ->
  dlist_push_tail i a s =
  Ret tt (upd_hdr a (set_chain true (load_chunk (sm s) a)) (upd_list i (l ++ [a]) s)).
Proof.
  intros Hi Hl. unfold dlist_push_tail, bind.
  rewrite (free_list_Ret i s l) by done.
  by rewrite set_free_list_Ret.
Qed.

Lemma dlist_push_head_Ret i s a l :
  0 <= i < NUM_CLASSES ->
  free_chunks (sg s) !! Z.to_nat i = Some l ->
  dlist_push_head i a s =
  Ret tt (upd_hdr a (set_chain true (load_chunk (sm s) a)) (upd_list i (a :: l) s)).
Proof.
  intros Hi Hl. unfold dlist_push_head, bind.
  rewrite (free_list_Ret i s l) by done.
  by rewrite set_free_list_Ret.
Qed.

Lemma Assert_true {S} b (s : S) : Assert b true s = Ret tt s.
Proof. unfold Assert. by rewrite andb_false_r. Qed.


(** Lookup in the free lists after an update. *)
Lemma lists_upd_eq i l s :
  (Z.to_nat i < length (free_chunks (sg s)))%nat ->
  free_chunks (sg (upd_list i l s)) !! Z.to_nat i = Some l.
Proof. intros. simpl. by apply list_lookup_insert_eq. Qed.

Lemma lists_upd_ne i j l s :
  Z.to_nat i ≠ j ->
  free_chunks (sg (upd_list i l s)) !! j = free_chunks (sg s) !! j.
Proof. intros. simpl. by apply list_lookup_insert_ne. Qed.

Lemma lists_upd_len i l s :
  length (free_chunks (sg (upd_list i l s))) = length (free_chunks (sg s)).
Proof. simpl. apply length_insert. Qed.

Lemma update_chunk_Ret a f s :
  update_chunk a f s = Ret tt (upd_hdr a (f (load_chunk (sm s) a)) s).
Proof. done. Qed.

(** What [split_halves] does to a state whose list of class [k] starts
    with [a]. *)
Lemma split_halves_Ret asserts k s a rest lk1 :
  SHMBUF_CHUNKSZ_MIN_BIT < k <= SHMBUF_CHUNKSZ_MAX_BIT ->
  length (free_chunks (sg s)) = Z.to_nat NUM_CLASSES ->
  free_chunks (sg s) !! Z.to_nat (k - SHMBUF_CHUNKSZ_MIN_BIT) = Some (a :: rest) ->
  free_chunks (sg s) !! Z.to_nat (k - SHMBUF_CHUNKSZ_MIN_BIT - 1) = Some lk1 ->
  mclass (load_chunk (sm s) a) = k ->
  magic_head (load_chunk (sm s) a) = SHMBUF_CHUNK_MAGIC_CODE ->
  exists s',
    split_halves asserts k s = Ret true s' /\
    free_chunks (sg s') =
      <[Z.to_nat (k - SHMBUF_CHUNKSZ_MIN_BIT - 1) := lk1 ++ [a; a + 2 ^ (k - 1)]]>
        (<[Z.to_nat (k - SHMBUF_CHUNKSZ_MIN_BIT) := rest]> (free_chunks (sg s))) /\
    load_chunk (sm s') a = linked_chunk (k - 1) /\
    load_chunk (sm s') (a + 2 ^ (k - 1)) = linked_chunk (k - 1) /\
    (forall b, b ≠ a -> b ≠ a + 2 ^ (k - 1) ->
               load_chunk (sm s') b = load_chunk (sm s) b) /\
    num_actives (sg s') = num_actives (sg s) /\
    revision (sg s') = revision (sg s) /\
    bytes (sm s') = bytes (sm s).
Proof.
  intros Hk Hlen Hl Hl1 Hmc Hmg.
  assert (0 <= k - SHMBUF_CHUNKSZ_MIN_BIT < NUM_CLASSES) as Hi
    by (unfold NUM_CLASSES, SHMBUF_CHUNKSZ_MIN_BIT, SHMBUF_CHUNKSZ_MAX_BIT in *; lia).
  assert (0 <= k - SHMBUF_CHUNKSZ_MIN_BIT - 1 < NUM_CLASSES) as Hi1
    by (unfold NUM_CLASSES, SHMBUF_CHUNKSZ_MIN_BIT, SHMBUF_CHUNKSZ_MAX_BIT in *; lia).
  assert (Z.to_nat (k - SHMBUF_CHUNKSZ_MIN_BIT) ≠ Z.to_nat (k - SHMBUF_CHUNKSZ_MIN_BIT - 1))
    as Hne by lia.
  assert (0 < 2 ^ (k - 1)) as Hpow
    by (apply pow2_pos; unfold SHMBUF_CHUNKSZ_MIN_BIT in *; lia).
  set (a2 := a + 2 ^ (k - 1)).
  set (s1 := upd_list (k - SHMBUF_CHUNKSZ_MIN_BIT) rest s).
  set (s2 := upd_hdr a (fresh_chunk (k - 1)) s1).
  set (s3 := upd_hdr a (linked_chunk (k - 1))
               (upd_list (k - SHMBUF_CHUNKSZ_MIN_BIT - 1) (lk1 ++ [a]) s2)).
  set (s4 := upd_hdr a2 (fresh_chunk (k - 1)) s3).
  set (s5 := upd_hdr a2 (linked_chunk (k - 1))
               (upd_list (k - SHMBUF_CHUNKSZ_MIN_BIT - 1) ((lk1 ++ [a]) ++ [a2]) s4)).
  exists s5. split.
  { unfold split_halves, bind.
    rewrite (dlist_is_empty_Ret _ s (a :: rest)) by done.
    rewrite Assert_true.
    rewrite (dlist_pop_Ret _ s a rest) by done. fold s1.
    unfold read_chunk. change (sm s1) with (sm s).
    rewrite Hmc, Hmg, !Z.eqb_refl. rewrite Assert_true.
    rewrite update_chunk_Ret. fold s2.
    rewrite (dlist_push_tail_Ret _ s2 a lk1); [|done|].
    2:{ unfold s2, s1. simpl. by rewrite list_lookup_insert_ne. }
    replace (set_chain true (load_chunk (sm s2) a)) with (linked_chunk (k - 1)).
    2:{ unfold s2. rewrite load_upd_hdr. by rewrite decide_True. }
    fold s3. rewrite update_chunk_Ret. fold a2. fold s4.
    rewrite (dlist_push_tail_Ret _ s4 a2 (lk1 ++ [a])); [|done|].
    2:{ unfold s4, s3, s2, s1. simpl. rewrite list_lookup_insert_eq; [done|].
        rewrite length_insert, Hlen. unfold NUM_CLASSES in *. lia. }
    replace (set_chain true (load_chunk (sm s4) a2)) with (linked_chunk (k - 1)).
    2:{ unfold s4. rewrite load_upd_hdr. by rewrite decide_True. }
    done. }
  split.
  { unfold s5, s4, s3, s2, s1. simpl. rewrite list_insert_insert_eq.
    by rewrite <- app_assoc. }
  split.
  { unfold s5. rewrite load_upd_hdr. rewrite decide_False by (unfold a2; lia).
    simpl. rewrite load_store_ne by (unfold a2; lia). apply load_store_eq. }
  split.
  { unfold s5. rewrite load_upd_hdr. by rewrite decide_True. }
  split.
  { intros b Hb Hb2. unfold s5, s4, s3, s2, s1. simpl.
    rewrite !load_store_ne by done. done. }
  done.
Qed.

Lemma pow2_double k : 1 <= k -> 2 ^ (k - 1) + 2 ^ (k - 1) = 2 ^ k.
Proof.
  intros Hk. replace k with (Z.succ (k - 1)) at 3 by lia.
  rewrite Z.pow_succ_r by lia. lia.
Qed.

Lemma seg_inv_classes_ok base size fl cs s :
  seg_inv base size fl cs s -> classes_ok cs.
Proof.
  intros H. apply Forall_forall. intros e He.
  apply (inv_class _ _ _ _ _ H) in He. unfold SHMBUF_CHUNKSZ_MIN_BIT in He. lia.
Qed.

(** In a tiling, the entries before [e] end at or before [e], and the
    entries after it start at or after its end. *)
Lemma tiles_around l1 e l2 a b :
  classes_ok (l1 ++ e :: l2) -> tiles (l1 ++ e :: l2) a b ->
  ce_addr e = a + span_sum l1 /\
  (forall e', e' ∈ l1 -> ce_addr e' + 2 ^ ce_class e' <= ce_addr e) /\
  (forall e', e' ∈ l2 -> ce_addr e + 2 ^ ce_class e <= ce_addr e').
Proof.
  intros Hok Ht. apply Forall_app in Hok as [Hok1 Hok2].
  apply Forall_cons in Hok2 as [He Hok2].
  apply tiles_app in Ht as [Ht1 [Ha Ht2]]. split; [done|]. split.
  - intros e' Hin. pose proof (tiles_bounds _ _ _ _ Hok1 Ht1 Hin). lia.
  - intros e' Hin. pose proof (tiles_bounds _ _ _ _ Hok2 Ht2 Hin). lia.
Qed.

(** No chunk starts strictly between the start and the end of another. *)
Lemma tiles_no_start_inside l1 e l2 a b x :
  classes_ok (l1 ++ e :: l2) -> tiles (l1 ++ e :: l2) a b ->
  ce_addr e < x < ce_addr e + 2 ^ ce_class e ->
  x ∉ (ce_addr <$> (l1 ++ e :: l2)).
Proof.
  intros Hok Ht Hx Hin.
  pose proof (tiles_around _ _ _ _ _ Hok Ht) as (_ & Hbefore & Hafter).
  apply Forall_app in Hok as [Hok1 Hok2].
  apply list_elem_of_fmap in Hin as (e' & -> & Hin).
  apply elem_of_app in Hin as [Hin|Hin].
  - specialize (Hbefore _ Hin).
    assert (0 < 2 ^ ce_class e').
    { apply pow2_pos. by eapply (proj1 (Forall_forall _ _) Hok1). }
    lia.
  - apply elem_of_cons in Hin as [->|Hin]; [lia|].
    specialize (Hafter _ Hin). lia.
Qed.

Lemma divide_pow2_le j k : 0 <= j <= k -> (2 ^ j | 2 ^ k).
Proof.
  intros H. exists (2 ^ (k - j)). rewrite <- Z.pow_add_r by lia. f_equal. lia.
Qed.

Lemma mod_pow2_0 x k : 0 <= k -> (x mod 2 ^ k = 0 <-> (2 ^ k | x)).
Proof. intros. apply Z.mod_divide. pose proof (pow2_pos k). lia. Qed.

Lemma free_of_class_other k e l :
  ¬ (ce_free e = true /\ ce_class e = k) ->
  free_of_class k (e :: l) = free_of_class k l.
Proof. intros. rewrite free_of_class_cons. by rewrite decide_False. Qed.

Lemma free_of_class_this k e l :
  ce_free e = true -> ce_class e = k ->
  free_of_class k (e :: l) = ce_addr e :: free_of_class k l.
Proof. intros. rewrite free_of_class_cons. by rewrite decide_True. Qed.

Section SplitInvariant.

Variables base size : Z.

Lemma seg_inv_split l1 l2 a k s s' rest lk1 :
  seg_inv base size None (l1 ++ (a, k, true) :: l2) s ->
  SHMBUF_CHUNKSZ_MIN_BIT < k ->
  free_chunks (sg s) !! Z.to_nat (k - SHMBUF_CHUNKSZ_MIN_BIT) = Some (a :: rest) ->
  free_chunks (sg s) !! Z.to_nat (k - SHMBUF_CHUNKSZ_MIN_BIT - 1) = Some lk1 ->
  free_chunks (sg s') =
    <[Z.to_nat (k - SHMBUF_CHUNKSZ_MIN_BIT - 1) := lk1 ++ [a; a + 2 ^ (k - 1)]]>
      (<[Z.to_nat (k - SHMBUF_CHUNKSZ_MIN_BIT) := rest]> (free_chunks (sg s))) ->
  load_chunk (sm s') a = linked_chunk (k - 1) ->
  load_chunk (sm s') (a + 2 ^ (k - 1)) = linked_chunk (k - 1) ->
  (forall b, b ≠ a -> b ≠ a + 2 ^ (k - 1) ->
             load_chunk (sm s') b = load_chunk (sm s) b) ->
  num_actives (sg s') = num_actives (sg s) ->
  seg_inv base size None
    (l1 ++ (a, k - 1, true) :: (a + 2 ^ (k - 1), k - 1, true) :: l2) s'.
Proof.
  intros Hinv Hk Hl Hl1 Hfc Ha Ha2 Hframe Hact.
  pose proof (seg_inv_classes_ok _ _ _ _ _ Hinv) as Hok.
  pose proof (inv_tiles _ _ _ _ _ Hinv) as Ht.
  pose proof (inv_class _ _ _ _ _ Hinv (a, k, true)
                ltac:(apply elem_of_app; right; left)) as [Hkr Hal].
  simpl in Hkr, Hal. unfold ce_class, ce_addr in Hkr, Hal; simpl in Hkr, Hal.
  assert (1 <= k) as Hk1 by (unfold SHMBUF_CHUNKSZ_MIN_BIT in *; lia).
  pose proof (pow2_double k Hk1) as Hdbl.
  assert (0 < 2 ^ (k - 1)) as Hpos by (apply pow2_pos; lia).
  pose proof (tiles_no_start_inside l1 (a, k, true) l2 _ _ (a + 2 ^ (k - 1)) Hok Ht) as Hin2.
  unfold ce_addr, ce_class in Hin2; simpl in Hin2.
  specialize (Hin2 ltac:(lia)).
  assert (forall e, e ∈ l1 ++ l2 -> ce_addr e ≠ a /\ ce_addr e ≠ a + 2 ^ (k - 1)) as Hother.
  { intros e He. split.
    - intros Heq.
      assert (e = (a, k, true)) as ->.
      { eapply (tiles_entry_unique _ _ _ _ _ Hok Ht); [|apply elem_of_app; right; left|done].
        apply elem_of_app in He as [?|?]; apply elem_of_app; [by left|by right; right]. }
      pose proof (tiles_NoDup _ _ _ Hok Ht) as Hnd.
      rewrite fmap_app, fmap_cons in Hnd.
      apply NoDup_app in Hnd as (_ & Hd1 & Hd2).
      apply NoDup_cons in Hd2 as [Hd2 _].
      apply elem_of_app in He as [He|He].
      + apply (Hd1 a); [by apply (list_elem_of_fmap_2 ce_addr _ _ He)|left].
      + apply Hd2. by apply (list_elem_of_fmap_2 ce_addr _ _ He).
    - intros Heq. apply Hin2. rewrite <- Heq. apply list_elem_of_fmap_2.
      apply elem_of_app in He as [?|?]; apply elem_of_app; [by left|by right; right]. }
  constructor.
  - apply tiles_app in Ht as [Ht1 [Hat Ht2]]. apply tiles_app. split; [done|].
    simpl tiles. unfold ce_addr, ce_class in *; simpl in *.
    split; [done|]. split; [lia|].
    by replace (base + span_sum l1 + 2 ^ (k - 1) + 2 ^ (k - 1))
      with (base + span_sum l1 + 2 ^ k) by lia.
  - intros e He.
    assert (e ∈ l1 ++ l2 \/ e = (a, k - 1, true) \/ e = (a + 2 ^ (k - 1), k - 1, true))
      as [Hin|[->| ->]].
    { apply elem_of_app in He as [?|He]; [left; apply elem_of_app; by left|].
      apply elem_of_cons in He as [?|He]; [by right; left|].
      apply elem_of_cons in He as [?|He]; [by right; right|].
      left; apply elem_of_app; by right. }
    + apply (inv_class _ _ _ _ _ Hinv).
      apply elem_of_app in Hin as [?|?]; apply elem_of_app; [by left|by right; right].
    + unfold ce_class, ce_addr; simpl. split; [lia|].
      apply mod_pow2_0; [lia|]. apply mod_pow2_0 in Hal; [|lia].
      eapply Z.divide_trans; [|exact Hal]. apply divide_pow2_le. lia.
    + unfold ce_class, ce_addr; simpl. split; [lia|].
      apply mod_pow2_0; [lia|]. apply mod_pow2_0 in Hal; [|lia].
      replace (a + 2 ^ (k - 1) - base) with ((a - base) + 2 ^ (k - 1)) by lia.
      apply Z.divide_add_r; [|apply Z.divide_refl].
      eapply Z.divide_trans; [|exact Hal]. apply divide_pow2_le. lia.
  - intros e He.
    assert (e ∈ l1 ++ l2 \/ e = (a, k - 1, true) \/ e = (a + 2 ^ (k - 1), k - 1, true))
      as [Hin|[->| ->]].
    { apply elem_of_app in He as [?|He]; [left; apply elem_of_app; by left|].
      apply elem_of_cons in He as [?|He]; [by right; left|].
      apply elem_of_cons in He as [?|He]; [by right; right|].
      left; apply elem_of_app; by right. }
    + destruct (Hother e Hin) as [Hn1 Hn2]. rewrite Hframe by done.
      apply (inv_hdr _ _ _ _ _ Hinv).
      apply elem_of_app in Hin as [?|?]; apply elem_of_app; [by left|by right; right].
    + unfold ce_addr, ce_class, ce_free; simpl. rewrite Ha. done.
    + unfold ce_addr, ce_class, ce_free; simpl. rewrite Ha2. done.
  - intros b Hb Hnin.
    rewrite fmap_app, !fmap_cons in Hnin. unfold ce_addr at 2 3 in Hnin; simpl in Hnin.
    rewrite Hframe.
    + apply (inv_blank _ _ _ _ _ Hinv); [done|].
      rewrite fmap_app, fmap_cons. unfold ce_addr at 2; simpl.
      intros Hin. apply Hnin.
      apply elem_of_app in Hin as [?|Hin]; apply elem_of_app; [by left|].
      right. apply elem_of_cons in Hin as [->|?]; [by left|by right; right].
    + intros ->. apply Hnin. apply elem_of_app. right. left.
    + intros ->. apply Hnin. apply elem_of_app. right. right. left.
  - rewrite Hfc, !length_insert. apply (inv_lists_len _ _ _ _ _ Hinv).
  - intros i l Hil. rewrite Hfc in Hil.
    pose proof (inv_lists_len _ _ _ _ _ Hinv) as Hlen.
    assert (Z.to_nat (k - SHMBUF_CHUNKSZ_MIN_BIT) ≠ Z.to_nat (k - SHMBUF_CHUNKSZ_MIN_BIT - 1))
      as Hne by lia.
    rewrite free_of_class_app. 
    destruct (decide (i = Z.to_nat (k - SHMBUF_CHUNKSZ_MIN_BIT - 1))) as [->|Hi1].
    + rewrite list_lookup_insert_eq in Hil
        by (rewrite length_insert; eapply lookup_lt_Some; eauto).
      injection Hil as <-.
      replace (Z.of_nat (Z.to_nat (k - SHMBUF_CHUNKSZ_MIN_BIT - 1)) + SHMBUF_CHUNKSZ_MIN_BIT)
        with (k - 1) by lia.
      rewrite !free_of_class_this by done. unfold ce_addr; simpl.
      pose proof (inv_lists _ _ _ _ _ Hinv _ _ Hl1) as Hp.
      replace (Z.of_nat (Z.to_nat (k - SHMBUF_CHUNKSZ_MIN_BIT - 1)) + SHMBUF_CHUNKSZ_MIN_BIT)
        with (k - 1) in Hp by lia.
      rewrite free_of_class_app, free_of_class_other in Hp
        by (unfold ce_class; simpl; lia).
      rewrite Hp. rewrite <- app_assoc.
      apply Permutation_app_head. 
      change ([a; a + 2 ^ (k - 1)]) with ([a; a + 2 ^ (k - 1)] ++ []) at 1.
      rewrite (Permutation_app_comm (free_of_class (k - 1) l2)). simpl. done.
    + rewrite list_lookup_insert_ne in Hil by done.
      destruct (decide (i = Z.to_nat (k - SHMBUF_CHUNKSZ_MIN_BIT))) as [->|Hi].
      * rewrite list_lookup_insert_eq in Hil by (eapply lookup_lt_Some; eauto).
        injection Hil as <-.
        replace (Z.of_nat (Z.to_nat (k - SHMBUF_CHUNKSZ_MIN_BIT)) + SHMBUF_CHUNKSZ_MIN_BIT)
          with k by lia.
        rewrite !free_of_class_other by (unfold ce_class; simpl; lia).
        pose proof (inv_lists _ _ _ _ _ Hinv _ _ Hl) as Hp.
        replace (Z.of_nat (Z.to_nat (k - SHMBUF_CHUNKSZ_MIN_BIT)) + SHMBUF_CHUNKSZ_MIN_BIT)
          with k in Hp by lia.
        rewrite free_of_class_app, free_of_class_this in Hp by done.
        unfold ce_addr in Hp; simpl in Hp.
        rewrite <- Permutation_middle in Hp. by apply Permutation_cons_inv in Hp.
      * rewrite list_lookup_insert_ne in Hil by done.
        pose proof (inv_lists _ _ _ _ _ Hinv _ _ Hil) as Hp.
        rewrite free_of_class_app in Hp.
        assert (Z.of_nat i + SHMBUF_CHUNKSZ_MIN_BIT ≠ k) by lia.
        assert (Z.of_nat i + SHMBUF_CHUNKSZ_MIN_BIT ≠ k - 1) by lia.
        rewrite free_of_class_other in Hp by (unfold ce_class; simpl; intros [_ ?]; done).
        rewrite !free_of_class_other by (unfold ce_class; simpl; intros [_ ?]; done).
        done.
  - rewrite Hact, (inv_actives _ _ _ _ _ Hinv). do 2 f_equal.
    rewrite !active_entries_app. by f_equal.
  - discriminate.
Qed.

End SplitInvariant.

(** ** [shmBufferSplitChunk] keeps the segment well formed *)

Section SplitSpec.

Variable USE_ASSERT_CHECKING : bool.
Variables base size : Z.

Lemma seg_inv_list_lookup fl cs s k :
  seg_inv base size fl cs s ->
  SHMBUF_CHUNKSZ_MIN_BIT <= k <= SHMBUF_CHUNKSZ_MAX_BIT ->
  exists l, free_chunks (sg s) !! Z.to_nat (k - SHMBUF_CHUNKSZ_MIN_BIT) = Some l /\
            l ≡ₚ free_of_class k cs.
Proof.
  intros Hinv Hk.
  destruct (lookup_lt_is_Some_2 (free_chunks (sg s)) (Z.to_nat (k - SHMBUF_CHUNKSZ_MIN_BIT)))
    as [l Hl].
  { rewrite (inv_lists_len _ _ _ _ _ Hinv).
    unfold NUM_CLASSES, SHMBUF_CHUNKSZ_MIN_BIT, SHMBUF_CHUNKSZ_MAX_BIT in *. lia. }
  exists l. split; [done|].
  pose proof (inv_lists _ _ _ _ _ Hinv _ _ Hl) as Hp.
  by replace (Z.of_nat (Z.to_nat (k - SHMBUF_CHUNKSZ_MIN_BIT)) + SHMBUF_CHUNKSZ_MIN_BIT)
    with k in Hp by (unfold SHMBUF_CHUNKSZ_MIN_BIT in *; lia).
Qed.

(** The head of a free list is a free chunk of the class of the list. *)
Lemma seg_inv_list_head fl cs s k a l :
  seg_inv base size fl cs s ->
  SHMBUF_CHUNKSZ_MIN_BIT <= k <= SHMBUF_CHUNKSZ_MAX_BIT ->
  free_chunks (sg s) !! Z.to_nat (k - SHMBUF_CHUNKSZ_MIN_BIT) = Some (a :: l) ->
  (a, k, true) ∈ cs.
Proof.
  intros Hinv Hk Hl.
  destruct (seg_inv_list_lookup _ _ _ k Hinv Hk) as (l' & Hl' & Hp).
  rewrite Hl in Hl'. injection Hl' as <-.
  apply elem_of_free_of_class. rewrite <- Hp. left.
Qed.

(** One split of the head of the list of class [k]. *)
Lemma split_halves_inv cs s k a rest :
  seg_inv base size None cs s ->
  SHMBUF_CHUNKSZ_MIN_BIT < k <= SHMBUF_CHUNKSZ_MAX_BIT ->
  free_chunks (sg s) !! Z.to_nat (k - SHMBUF_CHUNKSZ_MIN_BIT) = Some (a :: rest) ->
  exists s' l1 l2 lk1,
    split_halves USE_ASSERT_CHECKING k s = Ret true s' /\
    cs = l1 ++ (a, k, true) :: l2 /\
    seg_inv base size None
      (l1 ++ (a, k - 1, true) :: (a + 2 ^ (k - 1), k - 1, true) :: l2) s' /\
    free_chunks (sg s) !! Z.to_nat (k - SHMBUF_CHUNKSZ_MIN_BIT - 1) = Some lk1 /\
    free_chunks (sg s') =
      <[Z.to_nat (k - SHMBUF_CHUNKSZ_MIN_BIT - 1) := lk1 ++ [a; a + 2 ^ (k - 1)]]>
        (<[Z.to_nat (k - SHMBUF_CHUNKSZ_MIN_BIT) := rest]> (free_chunks (sg s))) /\
    num_actives (sg s') = num_actives (sg s) /\
    revision (sg s') = revision (sg s) /\
    bytes (sm s') = bytes (sm s).
Proof.
  intros Hinv Hk Hl.
  assert (SHMBUF_CHUNKSZ_MIN_BIT <= k <= SHMBUF_CHUNKSZ_MAX_BIT) as Hk' by lia.
  pose proof (seg_inv_list_head _ _ _ _ _ _ Hinv Hk' Hl) as Hin.
  destruct (seg_inv_list_lookup _ _ _ (k - 1) Hinv) as (lk1 & Hl1 & _);
    [unfold SHMBUF_CHUNKSZ_MIN_BIT in *; lia|].
  replace (k - 1 - SHMBUF_CHUNKSZ_MIN_BIT) with (k - SHMBUF_CHUNKSZ_MIN_BIT - 1) in Hl1 by lia.
  destruct (inv_hdr _ _ _ _ _ Hinv _ Hin) as (Hmc & Hmg & _).
  unfold ce_addr, ce_class in Hmc, Hmg; simpl in Hmc, Hmg.
  destruct (split_halves_Ret USE_ASSERT_CHECKING k s a rest lk1 Hk
              (inv_lists_len _ _ _ _ _ Hinv) Hl Hl1 Hmc Hmg)
    as (s' & Hrun & Hfc & Ha & Ha2 & Hframe & Hact & Hrev & Hby).
  apply list_elem_of_split in Hin as (l1 & l2 & ->).
  exists s', l1, l2, lk1. split; [done|]. split; [done|]. split.
  { eapply seg_inv_split; eauto. lia. }
  done.
Qed.

Lemma split_rec_spec fuel k cs s :
  seg_inv base size None cs s ->
  SHMBUF_CHUNKSZ_MIN_BIT < k <= SHMBUF_CHUNKSZ_MAX_BIT ->
  (Z.to_nat (SHMBUF_CHUNKSZ_MAX_BIT + 1 - k) <= fuel)%nat ->
  exists b s',
    shmBufferSplitChunk_rec USE_ASSERT_CHECKING fuel k s = Ret b s' /\
    if b : bool then
      exists cs' a l,
        seg_inv base size None cs' s' /\
        free_chunks (sg s') !! Z.to_nat (k - 1 - SHMBUF_CHUNKSZ_MIN_BIT) = Some (a :: l) /\
        active_entries cs' = active_entries cs /\
        num_actives (sg s') = num_actives (sg s) /\
        revision (sg s') = revision (sg s) /\
        bytes (sm s') = bytes (sm s)
    else s' = s.
Proof.
  revert k cs s. induction fuel as [|fuel IH]; intros k cs s Hinv Hk Hfuel.
  { unfold SHMBUF_CHUNKSZ_MAX_BIT in *. lia. }
  assert (SHMBUF_CHUNKSZ_MIN_BIT <= k <= SHMBUF_CHUNKSZ_MAX_BIT) as Hk' by lia.
  destruct (seg_inv_list_lookup _ _ _ k Hinv Hk') as (lk & Hlk & _).
  assert (0 <= k - SHMBUF_CHUNKSZ_MIN_BIT < NUM_CLASSES) as Hi by by apply mindex_range.
  (* the state in which the halves are made, and why its list is not empty *)
  assert (forall cs1 s1 a rest,
            seg_inv base size None cs1 s1 ->
            free_chunks (sg s1) !! Z.to_nat (k - SHMBUF_CHUNKSZ_MIN_BIT) = Some (a :: rest) ->
            active_entries cs1 = active_entries cs ->
            num_actives (sg s1) = num_actives (sg s) ->
            revision (sg s1) = revision (sg s) ->
            bytes (sm s1) = bytes (sm s) ->
            exists s',
              split_halves USE_ASSERT_CHECKING k s1 = Ret true s' /\
              exists cs' a' l',
                seg_inv base size None cs' s' /\
                free_chunks (sg s') !! Z.to_nat (k - 1 - SHMBUF_CHUNKSZ_MIN_BIT)
                  = Some (a' :: l') /\
                active_entries cs' = active_entries cs /\
                num_actives (sg s') = num_actives (sg s) /\
                revision (sg s') = revision (sg s) /\
                bytes (sm s') = bytes (sm s)) as Hhalves.
  { intros cs1 s1 a rest Hinv1 Hl1 Hae Hna Hre Hby.
    destruct (split_halves_inv _ _ _ _ _ Hinv1 Hk Hl1)
      as (s' & l1 & l2 & lk1 & Hrun & -> & Hinv' & Hlk1 & Hfc & Hna' & Hre' & Hby').
    exists s'. split; [done|].
    assert (exists a' l', lk1 ++ [a; a + 2 ^ (k - 1)] = a' :: l') as (a' & l' & Heq)
      by (destruct lk1; simpl; eauto).
    eexists _, a', l'. split; [exact Hinv'|]. split.
    { rewrite Hfc.
      replace (k - 1 - SHMBUF_CHUNKSZ_MIN_BIT) with (k - SHMBUF_CHUNKSZ_MIN_BIT - 1) by lia.
      rewrite list_lookup_insert_eq; [by rewrite Heq|].
      rewrite length_insert. by eapply lookup_lt_Some. }
    split.
    { rewrite <- Hae, !active_entries_app. by f_equal. }
    split; [congruence|]. split; congruence. }
  simpl. unfold bind at 1.
  assert ((SHMBUF_CHUNKSZ_MIN_BIT <? k) && (k <=? SHMBUF_CHUNKSZ_MAX_BIT) = true) as ->.
  { apply andb_true_intro. split; [apply Z.ltb_lt|apply Z.leb_le]; lia. }
  rewrite Assert_true. unfold bind at 1.
  rewrite (dlist_is_empty_Ret _ s lk) by done.
  destruct lk as [|a rest].
  - destruct (Z.leb_spec SHMBUF_CHUNKSZ_MAX_BIT k) as [Hmax|Hlt].
    + exists false, s. by split.
    + destruct (IH (k + 1) cs s Hinv) as (b & s1 & Hrun & Hpost).
      { lia. }
      { unfold SHMBUF_CHUNKSZ_MAX_BIT in *. lia. }
      unfold bind. rewrite Hrun. destruct b.
      * destruct Hpost as (cs1 & a & l & Hinv1 & Hl1 & Hae & Hna & Hre & Hby).
        replace (k + 1 - 1 - SHMBUF_CHUNKSZ_MIN_BIT) with (k - SHMBUF_CHUNKSZ_MIN_BIT)
          in Hl1 by lia.
        destruct (Hhalves cs1 s1 a l Hinv1 Hl1 Hae Hna Hre Hby) as (s' & Hh & Hpost).
        exists true, s'. simpl. by split.
      * subst s1. exists false, s. by split.
  - unfold bind. simpl.
    destruct (Hhalves cs s a rest Hinv Hlk eq_refl eq_refl eq_refl eq_refl)
      as (s' & Hh & Hpost).
    exists true, s'. by split.
Qed.

End SplitSpec.

(** ** [__shmBufferAllocChunkFromSegment] *)

Lemma load_byte_store_eq a b m : load_byte (store_byte a b m) a = b.
Proof. unfold load_byte, store_byte; simpl. by rewrite lookup_insert_eq. Qed.

Lemma load_byte_store_ne a a' b m :
  a ≠ a' -> load_byte (store_byte a b m) a' = load_byte m a'.
Proof. intros. unfold load_byte, store_byte; simpl. by rewrite lookup_insert_ne. Qed.

Lemma wrap64_succ_ne a i j :
  0 <= a < 2 ^ 64 -> 0 <= i < 4 -> 0 <= j < 4 -> i ≠ j ->
  wrap64 (a + i) ≠ wrap64 (a + j).
Proof.
  intros Ha Hi Hj Hij. unfold wrap64.
  destruct (Z_lt_le_dec (a + i) (2 ^ 64)), (Z_lt_le_dec (a + j) (2 ^ 64)).
  - rewrite !Z.mod_small by lia. lia.
  - rewrite (Z.mod_small (a + i)) by lia.
    replace (a + j) with ((a + j - 2 ^ 64) + 1 * 2 ^ 64) by lia.
    rewrite Z.mod_add by lia. rewrite Z.mod_small by lia. lia.
  - rewrite (Z.mod_small (a + j)) by lia.
    replace (a + i) with ((a + i - 2 ^ 64) + 1 * 2 ^ 64) by lia.
    rewrite Z.mod_add by lia. rewrite Z.mod_small by lia. lia.
  - replace (a + i) with ((a + i - 2 ^ 64) + 1 * 2 ^ 64) by lia.
    replace (a + j) with ((a + j - 2 ^ 64) + 1 * 2 ^ 64) by lia.
    rewrite !Z.mod_add by lia. rewrite !Z.mod_small by lia. lia.
Qed.

(** The trailing magic word reads back as written. *)
Lemma load32_store32_magic a m :
  0 <= a < 2 ^ 64 ->
  load32 (store32 a SHMBUF_CHUNK_MAGIC_CODE m) a = SHMBUF_CHUNK_MAGIC_CODE.
Proof.
  intros Ha.
  pose proof (wrap64_succ_ne a 0 1 Ha ltac:(lia) ltac:(lia) ltac:(lia)) as H01.
  pose proof (wrap64_succ_ne a 0 2 Ha ltac:(lia) ltac:(lia) ltac:(lia)) as H02.
  pose proof (wrap64_succ_ne a 0 3 Ha ltac:(lia) ltac:(lia) ltac:(lia)) as H03.
  pose proof (wrap64_succ_ne a 1 2 Ha ltac:(lia) ltac:(lia) ltac:(lia)) as H12.
  pose proof (wrap64_succ_ne a 1 3 Ha ltac:(lia) ltac:(lia) ltac:(lia)) as H13.
  pose proof (wrap64_succ_ne a 2 3 Ha ltac:(lia) ltac:(lia) ltac:(lia)) as H23.
  assert (wrap64 (a + 0) = a) as H0.
  { unfold wrap64. rewrite Z.add_0_r. apply Z.mod_small. lia. }
  rewrite H0 in *.
  unfold load32, store32.
  rewrite (load_byte_store_ne (wrap64 (a + 3)) a) by done.
  rewrite (load_byte_store_ne (wrap64 (a + 2)) a) by done.
  rewrite (load_byte_store_ne (wrap64 (a + 1)) a) by done.
  rewrite load_byte_store_eq.
  rewrite (load_byte_store_ne (wrap64 (a + 3)) (wrap64 (a + 1))) by done.
  rewrite (load_byte_store_ne (wrap64 (a + 2)) (wrap64 (a + 1))) by done.
  rewrite load_byte_store_eq.
  rewrite (load_byte_store_ne (wrap64 (a + 3)) (wrap64 (a + 2))) by done.
  rewrite !load_byte_store_eq.
  reflexivity.
Qed.

Lemma magic_tail_addr_range a n : 0 <= magic_tail_addr a n < 2 ^ 64.
Proof. unfold magic_tail_addr, wrap64. apply Z.mod_pos_bound. lia. Qed.

Lemma plain_request_small n : 0 <= n <= 2 ^ 32 -> plain_request n.
Proof. unfold plain_request, chunk_hdrsz, magic_sz. lia. Qed.

(** For a request whose size sum does not wrap, the four bytes of the
    trailing magic word all land in the payload area. *)
Lemma tail_offset_plain n i :
  plain_request n -> 0 <= i <= 3 -> tail_offset n i = chunk_hdrsz + n + i.
Proof.
  unfold plain_request, tail_offset, wrap64, chunk_hdrsz, magic_sz.
  intros Hn Hi. apply Z.mod_small. lia.
Qed.

Lemma write_magic_tail_plain chunk n m :
  plain_request n ->
  write_magic_tail chunk n m
  = store32 (magic_tail_addr chunk n) SHMBUF_CHUNK_MAGIC_CODE m.
Proof.
  intros Hn.
  assert (forall i, 0 <= i <= 3 -> (tail_offset n i <? chunk_hdrsz) = false) as Hhdr.
  { intros i Hi. rewrite tail_offset_plain by done.
    unfold plain_request, chunk_hdrsz in *. lia. }
  assert (forall i, 0 <= i <= 3 -> (tail_offset n i <? 8) = false) as Hprev.
  { intros i Hi. rewrite tail_offset_plain by done.
    unfold plain_request, chunk_hdrsz in *. lia. }
  unfold write_magic_tail. cbn [existsb foldl]. unfold write_tail_byte.
  rewrite !Hhdr, !Hprev by lia. cbn [orb andb].
  replace (wrap64 (magic_tail_addr chunk n + 0)) with (magic_tail_addr chunk n).
  - reflexivity.
  - rewrite Z.add_0_r. unfold magic_tail_addr, wrap64.
    by rewrite Z.mod_mod.
Qed.

Section AllocSpec.

Variable USE_ASSERT_CHECKING : bool.
Variables base size : Z.

(** The statements of [__shmBufferAllocChunkFromSegment] from the pop
    of the free list on. *)
Lemma alloc_take_Ret id n c s a rest :
  plain_request n ->
  SHMBUF_CHUNKSZ_MIN_BIT <= c <= SHMBUF_CHUNKSZ_MAX_BIT ->
  free_chunks (sg s) !! Z.to_nat (c - SHMBUF_CHUNKSZ_MIN_BIT) = Some (a :: rest) ->
  mclass (load_chunk (sm s) a) = c ->
  magic_head (load_chunk (sm s) a) = SHMBUF_CHUNK_MAGIC_CODE ->
  exists s',
    (chunk <- dlist_pop_head_node (c - SHMBUF_CHUNKSZ_MIN_BIT) ;;
     c0 <- read_chunk chunk ;;
     Assert USE_ASSERT_CHECKING (mclass c0 =? c) ;;;
     Assert USE_ASSERT_CHECKING (magic_head c0 =? SHMBUF_CHUNK_MAGIC_CODE) ;;;
     update_chunk chunk (set_chain false) ;;;
     update_chunk chunk (set_required n) ;;;
     update_chunk chunk (set_seg (Some id)) ;;;
     update_memory (write_magic_tail chunk n) ;;;
     modify (fun s => mkSegst (set_num_actives (wrap32 (num_actives (sg s) + 1)) (sg s)) (sm s)) ;;;
     ret (Some chunk)) s = Ret (Some a) s' /\
    free_chunks (sg s') =
      <[Z.to_nat (c - SHMBUF_CHUNKSZ_MIN_BIT) := rest]> (free_chunks (sg s)) /\
    load_chunk (sm s') a = mkChunk false n c SHMBUF_CHUNK_MAGIC_CODE (Some id) /\
    (forall b, b ≠ a -> load_chunk (sm s') b = load_chunk (sm s) b) /\
    num_actives (sg s') = wrap32 (num_actives (sg s) + 1) /\
    revision (sg s') = revision (sg s) /\
    load32 (sm s') (magic_tail_addr a n) = SHMBUF_CHUNK_MAGIC_CODE.
Proof.
  intros Hn Hc Hl Hmc Hmg.
  pose proof (mindex_range c Hc) as Hi.
  eexists. split.
  { unfold bind.
    rewrite (dlist_pop_Ret _ s a rest) by done.
    unfold read_chunk. change (sm (upd_list _ _ s)) with (sm s).
    rewrite Hmc, Hmg, !Z.eqb_refl, !Assert_true.
    rewrite !update_chunk_Ret. unfold update_memory, modify, ret.
    rewrite (write_magic_tail_plain _ _ _ Hn). reflexivity. }
  simpl. split; [done|]. split.
  { rewrite !load_store32. rewrite !load_store_eq.
    destruct (load_chunk (sm s) a); simpl in *. by subst. }
  split.
  { intros b Hb. rewrite load_store32. by rewrite !load_store_ne. }
  split; [done|]. split; [done|].
  apply load32_store32_magic. apply magic_tail_addr_range.
Qed.

Lemma span_sum_length cs :
  Forall (fun e => SHMBUF_CHUNKSZ_MIN_BIT <= ce_class e) cs ->
  2 ^ SHMBUF_CHUNKSZ_MIN_BIT * Z.of_nat (length cs) <= span_sum cs.
Proof.
  induction 1 as [|e cs He _ IH]; simpl; [lia|].
  assert (2 ^ SHMBUF_CHUNKSZ_MIN_BIT <= 2 ^ ce_class e).
  { apply Z.pow_le_mono_r; [lia|done]. }
  unfold SHMBUF_CHUNKSZ_MIN_BIT in *. lia.
Qed.

(** A segment of at most 4GB has fewer than [2^32] chunks. *)
Lemma seg_inv_length fl cs s :
  seg_inv base size fl cs s -> size <= 2 ^ 32 ->
  Z.of_nat (length cs) <= 2 ^ 25.
Proof.
  intros Hinv Hsize.
  pose proof (tiles_span _ _ _ (inv_tiles _ _ _ _ _ Hinv)) as Hspan.
  assert (Forall (fun e => SHMBUF_CHUNKSZ_MIN_BIT <= ce_class e) cs) as Hf.
  { apply Forall_forall. intros e He. by apply (inv_class _ _ _ _ _ Hinv) in He as [[? _] _]. }
  pose proof (span_sum_length _ Hf) as Hlen.
  change (2 ^ SHMBUF_CHUNKSZ_MIN_BIT) with 128 in Hlen.
  change (2 ^ 32) with (128 * 2 ^ 25) in Hsize. lia.
Qed.

Lemma active_entries_cons e l :
  active_entries (e :: l) =
  if ce_free e then active_entries l else e :: active_entries l.
Proof.
  unfold active_entries. rewrite filter_cons.
  destruct (ce_free e); by case_decide.
Qed.

Lemma active_entries_length cs : (length (active_entries cs) <= length cs)%nat.
Proof. unfold active_entries. apply length_filter. Qed.

(** Taking the free chunk [a] of class [c] into use. *)
Lemma seg_inv_take l1 l2 a c s s' rest h :
  seg_inv base size None (l1 ++ (a, c, true) :: l2) s ->
  size <= 2 ^ 32 ->
  free_chunks (sg s) !! Z.to_nat (c - SHMBUF_CHUNKSZ_MIN_BIT) = Some (a :: rest) ->
  free_chunks (sg s') =
    <[Z.to_nat (c - SHMBUF_CHUNKSZ_MIN_BIT) := rest]> (free_chunks (sg s)) ->
  load_chunk (sm s') a = h ->
  chain h = false -> mclass h = c -> magic_head h = SHMBUF_CHUNK_MAGIC_CODE ->
  (forall b, b ≠ a -> load_chunk (sm s') b = load_chunk (sm s) b) ->
  num_actives (sg s') = wrap32 (num_actives (sg s) + 1) ->
  seg_inv base size None (l1 ++ (a, c, false) :: l2) s'.
Proof.
  intros Hinv Hsize Hl Hfc Ha Hch Hmc Hmg Hframe Hact.
  pose proof (seg_inv_classes_ok _ _ _ _ _ Hinv) as Hok.
  pose proof (inv_tiles _ _ _ _ _ Hinv) as Ht.
  pose proof (inv_class _ _ _ _ _ Hinv (a, c, true)
                ltac:(apply elem_of_app; right; left)) as [Hcr Hal].
  unfold ce_class, ce_addr in Hcr, Hal; simpl in Hcr, Hal.
  assert (forall e, e ∈ l1 ++ l2 -> ce_addr e ≠ a) as Hother.
  { intros e He Heq.
    pose proof (tiles_NoDup _ _ _ Hok Ht) as Hnd.
    rewrite fmap_app, fmap_cons in Hnd.
    apply NoDup_app in Hnd as (_ & Hd1 & Hd2).
    apply NoDup_cons in Hd2 as [Hd2 _]. unfold ce_addr at 1 in Hd2; simpl in Hd2.
    apply elem_of_app in He as [He|He].
    - apply (Hd1 a); [rewrite <- Heq; by apply list_elem_of_fmap_2|left].
    - apply Hd2. rewrite <- Heq. by apply list_elem_of_fmap_2. }
  assert (forall e, e ∈ l1 ++ (a, c, false) :: l2 ->
                    e ∈ l1 ++ l2 \/ e = (a, c, false)) as Hcases.
  { intros e He. apply elem_of_app in He as [?|He]; [left; apply elem_of_app; by left|].
    apply elem_of_cons in He as [?|He]; [by right|left; apply elem_of_app; by right]. }
  assert (forall e, e ∈ l1 ++ l2 -> e ∈ l1 ++ (a, c, true) :: l2) as Hold.
  { intros e He. apply elem_of_app in He as [?|?]; apply elem_of_app; [by left|by right; right]. }
  constructor.
  - apply tiles_app in Ht as [Ht1 Ht2]. apply tiles_app. split; [done|]. exact Ht2.
  - intros e He. destruct (Hcases e He) as [Hin| ->].
    + by apply (inv_class _ _ _ _ _ Hinv), Hold.
    + done.
  - intros e He. destruct (Hcases e He) as [Hin| ->].
    + rewrite Hframe by by apply Hother. by apply (inv_hdr _ _ _ _ _ Hinv), Hold.
    + unfold ce_addr, ce_class, ce_free; simpl. rewrite Ha. done.
  - intros b Hb Hnin. rewrite Hframe.
    + apply (inv_blank _ _ _ _ _ Hinv); [done|].
      by rewrite fmap_app, fmap_cons in *.
    + intros ->. apply Hnin. rewrite fmap_app, fmap_cons. apply elem_of_app. right. left.
  - rewrite Hfc, length_insert. apply (inv_lists_len _ _ _ _ _ Hinv).
  - intros i l Hil. rewrite Hfc in Hil. rewrite free_of_class_app.
    destruct (decide (i = Z.to_nat (c - SHMBUF_CHUNKSZ_MIN_BIT))) as [->|Hi].
    + rewrite list_lookup_insert_eq in Hil by (eapply lookup_lt_Some; eauto).
      injection Hil as <-.
      pose proof (inv_lists _ _ _ _ _ Hinv _ _ Hl) as Hp.
      rewrite free_of_class_app, free_of_class_this in Hp
        by (unfold ce_class; simpl; unfold SHMBUF_CHUNKSZ_MIN_BIT in *; lia).
      rewrite free_of_class_other by (unfold ce_free; simpl; intros [? _]; done).
      unfold ce_addr in Hp; simpl in Hp.
      rewrite <- Permutation_middle in Hp. by apply Permutation_cons_inv in Hp.
    + rewrite list_lookup_insert_ne in Hil by done.
      pose proof (inv_lists _ _ _ _ _ Hinv _ _ Hil) as Hp.
      rewrite free_of_class_app in Hp.
      rewrite free_of_class_other in Hp
        by (unfold ce_class; simpl; unfold SHMBUF_CHUNKSZ_MIN_BIT in *; lia).
      by rewrite free_of_class_other by (unfold ce_free; simpl; intros [? _]; done).
  - rewrite Hact, (inv_actives _ _ _ _ _ Hinv).
    pose proof (seg_inv_length _ _ _ Hinv Hsize) as Hlen.
    pose proof (active_entries_length (l1 ++ (a, c, true) :: l2)) as Hle.
    rewrite !active_entries_app, !active_entries_cons, !length_app in *.
    unfold ce_free in *; simpl in *. unfold wrap32.
    rewrite Z.mod_small; lia.
  - discriminate.
Qed.

End AllocSpec.

Section AllocFromSegment.

Variable USE_ASSERT_CHECKING : bool.
Variables base size : Z.

Local Abbreviation alloc := (__shmBufferAllocChunkFromSegment USE_ASSERT_CHECKING).

(** The pop and the stamping, in a well-formed segment whose list of
    class [c] is not empty. *)
Lemma alloc_take_inv id n c cs s a rest :
  plain_request n ->
  seg_inv base size None cs s -> size <= 2 ^ 32 ->
  SHMBUF_CHUNKSZ_MIN_BIT <= c <= SHMBUF_CHUNKSZ_MAX_BIT ->
  free_chunks (sg s) !! Z.to_nat (c - SHMBUF_CHUNKSZ_MIN_BIT) = Some (a :: rest) ->
  exists s' cs',
    (chunk <- dlist_pop_head_node (c - SHMBUF_CHUNKSZ_MIN_BIT) ;;
     c0 <- read_chunk chunk ;;
     Assert USE_ASSERT_CHECKING (mclass c0 =? c) ;;;
     Assert USE_ASSERT_CHECKING (magic_head c0 =? SHMBUF_CHUNK_MAGIC_CODE) ;;;
     update_chunk chunk (set_chain false) ;;;
     update_chunk chunk (set_required n) ;;;
     update_chunk chunk (set_seg (Some id)) ;;;
     update_memory (write_magic_tail chunk n) ;;;
     modify (fun s => mkSegst (set_num_actives (wrap32 (num_actives (sg s) + 1)) (sg s)) (sm s)) ;;;
     ret (Some chunk)) s = Ret (Some a) s' /\
    allocated base size id n c cs s a cs' s' /\
    free_chunks (sg s') =
      <[Z.to_nat (c - SHMBUF_CHUNKSZ_MIN_BIT) := rest]> (free_chunks (sg s)) /\
    exists l1 l2, cs = l1 ++ (a, c, true) :: l2 /\ cs' = l1 ++ (a, c, false) :: l2.
Proof.
  intros Hn Hinv Hsize Hc Hl.
  pose proof (seg_inv_list_head _ _ _ _ _ _ _ _ Hinv Hc Hl) as Hin.
  destruct (inv_hdr _ _ _ _ _ Hinv _ Hin) as (Hmc & Hmg & _).
  unfold ce_addr, ce_class in Hmc, Hmg; simpl in Hmc, Hmg.
  destruct (alloc_take_Ret USE_ASSERT_CHECKING id n c s a rest Hn Hc Hl Hmc Hmg)
    as (s' & Hrun & Hfc & Ha & Hframe & Hact & Hrev & Htail).
  apply list_elem_of_split in Hin as (l1 & l2 & ->).
  exists s', (l1 ++ (a, c, false) :: l2). split; [done|]. split; [|split; [done|eauto]].
  split.
  { eapply seg_inv_take; eauto. }
  split; [apply elem_of_app; right; left|].
  split; [done|]. split; [done|]. split; [done|].
  rewrite !active_entries_app, !active_entries_cons, !length_app.
  unfold ce_free; simpl. lia.
Qed.

(** The possible outcomes of [__shmBufferAllocChunkFromSegment] on a
    well-formed segment. *)
Lemma alloc_from_segment_spec id n cs s :
  plain_request n ->
  seg_inv base size None cs s -> size <= 2 ^ 32 ->
  (class_of_request n = None /\ alloc id n s = Fail ErrTooLarge s) \/
  exists c, class_of_request n = Some c /\
    ((c = SHMBUF_CHUNKSZ_MAX_BIT /\
      free_chunks (sg s) !! Z.to_nat (c - SHMBUF_CHUNKSZ_MIN_BIT) = Some [] /\
      alloc id n s = Fail (if USE_ASSERT_CHECKING then AssertFailed else Undefined) s) \/
     (c < SHMBUF_CHUNKSZ_MAX_BIT /\
      free_chunks (sg s) !! Z.to_nat (c - SHMBUF_CHUNKSZ_MIN_BIT) = Some [] /\
      alloc id n s = Ret None s) \/
     (exists a s' cs', alloc id n s = Ret (Some a) s' /\
                       allocated base size id n c cs s a cs' s')).
Proof.
  intros Hn Hinv Hsize.
  destruct (class_of_request n) as [c|] eqn:Hcls.
  2:{ left. split; [done|]. unfold __shmBufferAllocChunkFromSegment. by rewrite Hcls. }
  right. exists c. split; [done|].
  destruct (class_of_request_Some _ _ Hcls) as (Hc & _).
  destruct (seg_inv_list_lookup _ _ _ _ _ c Hinv Hc) as (l & Hl & _).
  pose proof (mindex_range c Hc) as Hi.
  destruct l as [|a rest].
  - destruct (decide (c = SHMBUF_CHUNKSZ_MAX_BIT)) as [->|Hne].
    + left. split; [done|]. split; [done|].
      unfold __shmBufferAllocChunkFromSegment. rewrite Hcls.
      unfold bind at 1. rewrite (dlist_is_empty_Ret _ s []) by done.
      unfold bind, shmBufferSplitChunk. simpl. unfold bind, Assert. simpl.
      by destruct USE_ASSERT_CHECKING.
    + right.
      destruct (split_rec_spec USE_ASSERT_CHECKING base size
                  (Z.to_nat (SHMBUF_CHUNKSZ_MAX_BIT + 2 - (c + 1))) (c + 1) cs s Hinv)
        as (b & s1 & Hrun & Hpost); [lia|lia|].
      destruct b.
      * right. destruct Hpost as (cs1 & a & rest & Hinv1 & Hl1 & Hae & Hna & Hre & Hby).
        replace (c + 1 - 1 - SHMBUF_CHUNKSZ_MIN_BIT) with (c - SHMBUF_CHUNKSZ_MIN_BIT)
          in Hl1 by lia.
        destruct (alloc_take_inv id n c cs1 s1 a rest Hn Hinv1 Hsize Hc Hl1)
          as (s' & cs' & Hrun' & (Hi' & Hin' & Hh' & Ht' & Hr' & Hlen') & _).
        exists a, s', cs'. split.
        { unfold __shmBufferAllocChunkFromSegment. rewrite Hcls.
          unfold bind at 1. rewrite (dlist_is_empty_Ret _ s []) by done.
          unfold bind at 1, shmBufferSplitChunk. rewrite Hrun. exact Hrun'. }
        split; [done|]. split; [done|]. split; [done|]. split; [done|].
        split; [congruence|]. by rewrite Hlen', Hae.
      * left. subst s1. split; [lia|]. split; [done|].
        unfold __shmBufferAllocChunkFromSegment. rewrite Hcls.
        unfold bind at 1. rewrite (dlist_is_empty_Ret _ s []) by done.
        unfold bind at 1, shmBufferSplitChunk. by rewrite Hrun.
  - right. right.
    destruct (alloc_take_inv id n c cs s a rest Hn Hinv Hsize Hc Hl)
      as (s' & cs' & Hrun' & Hpost & _).
    exists a, s', cs'. split; [|done].
    unfold __shmBufferAllocChunkFromSegment. rewrite Hcls.
    unfold bind at 1. rewrite (dlist_is_empty_Ret _ s (a :: rest)) by done.
    exact Hrun'.
Qed.

End AllocFromSegment.

(** ** Buddy arithmetic *)

Lemma land_pow2 o j :
  0 <= j -> Z.land o (2 ^ j) = if Z.testbit o j then 2 ^ j else 0.
Proof.
  intros Hj. apply Z.bits_inj'. intros i Hi.
  rewrite Z.land_spec, Z.pow2_bits_eqb by done.
  destruct (Z.eqb_spec j i) as [->|Hne].
  - destruct (Z.testbit o i); simpl.
    + by rewrite Z.pow2_bits_true.
    + by rewrite Z.bits_0.
  - rewrite andb_false_r. destruct (Z.testbit o j).
    + by rewrite Z.pow2_bits_false.
    + by rewrite Z.bits_0.
Qed.

(** The bit of weight [2^j] in an offset that is a multiple of [2^j]. *)
Lemma buddy_bit_clear o j :
  0 <= j -> (2 ^ j | o) -> Z.land o (2 ^ j) = 0 -> (2 ^ (j + 1) | o).
Proof.
  intros Hj [q ->] Hland. rewrite land_pow2 in Hland by done.
  pose proof (pow2_pos j Hj) as Hpos.
  destruct (Z.testbit (q * 2 ^ j) j) eqn:Hbit; [lia|].
  apply Z.testbit_false in Hbit; [|done].
  rewrite Z.div_mul in Hbit by lia.
  exists (q / 2). rewrite Z.pow_add_r by lia. change (2 ^ 1) with 2.
  pose proof (Z.div_mod q 2 ltac:(lia)). nia.
Qed.

Lemma buddy_bit_set o j :
  0 <= j -> (2 ^ j | o) -> Z.land o (2 ^ j) ≠ 0 -> (2 ^ (j + 1) | o - 2 ^ j).
Proof.
  intros Hj [q ->] Hland. rewrite land_pow2 in Hland by done.
  pose proof (pow2_pos j Hj) as Hpos.
  destruct (Z.testbit (q * 2 ^ j) j) eqn:Hbit; [|lia].
  apply Z.testbit_true in Hbit; [|done].
  rewrite Z.div_mul in Hbit by lia.
  exists (q / 2). rewrite Z.pow_add_r by lia. change (2 ^ 1) with 2.
  pose proof (Z.div_mod q 2 ltac:(lia)). nia.
Qed.

Lemma multiple_gap d u v : 0 < d -> (d | u) -> (d | v) -> u < v -> u + d <= v.
Proof.
  intros Hd [p ->] [q ->] Hlt.
  assert (p < q) as Hpq by (apply (Z.mul_lt_mono_pos_r d); lia).
  assert ((p + 1) * d <= q * d) by (apply Z.mul_le_mono_nonneg_r; lia).
  lia.
Qed.

(** ** Shape of a tiling around a chunk *)

Lemma tiles_cover cs a t b :
  classes_ok cs -> tiles cs a t -> a <= b < t ->
  exists e, e ∈ cs /\ ce_addr e <= b < ce_addr e + 2 ^ ce_class e.
Proof.
  intros Hok. revert a. induction Hok as [|e cs He Hok IH]; intros a Ht Hb.
  - simpl in Ht. lia.
  - destruct Ht as [Ha Ht].
    destruct (Z_lt_le_dec b (a + 2 ^ ce_class e)) as [Hlt|Hge].
    + exists e. split; [left|lia].
    + destruct (IH _ Ht ltac:(lia)) as (e' & Hin & Hr).
      exists e'. split; [by right|done].
Qed.

Lemma span_sum_pos_nil cs : classes_ok cs -> span_sum cs = 0 -> cs = [].
Proof.
  intros Hok Hz. destruct Hok as [|e cs He Hok]; [done|].
  simpl in Hz. pose proof (pow2_pos _ He). pose proof (span_sum_nonneg _ Hok). lia.
Qed.

(** The entry that ends where [e] starts is the one just before [e]. *)
Lemma tiles_pred l1 e l2 a t e' :
  classes_ok (l1 ++ e :: l2) -> tiles (l1 ++ e :: l2) a t ->
  e' ∈ l1 -> ce_addr e' + 2 ^ ce_class e' = ce_addr e ->
  exists l1', l1 = l1' ++ [e'].
Proof.
  intros Hok Ht Hin Hend.
  apply list_elem_of_split in Hin as (p & q & ->).
  exists p. f_equal. f_equal.
  rewrite <- app_assoc in Hok, Ht. simpl in Hok, Ht.
  apply Forall_app in Hok as [_ Hok]. apply Forall_cons in Hok as [_ Hok].
  apply tiles_app in Ht as [_ [Hae' Ht]].
  assert (classes_ok q) as Hq by (by apply Forall_app in Hok as [? _]).
  apply tiles_app in Ht as [Htq [Hae _]].
  apply span_sum_pos_nil; [done|]. lia.
Qed.

(** The entry that starts where [e] ends is the one just after [e]. *)
Lemma tiles_succ l1 e l2 a t :
  tiles (l1 ++ e :: l2) a t -> ce_addr e + 2 ^ ce_class e < t ->
  exists e' l2', l2 = e' :: l2' /\ ce_addr e' = ce_addr e + 2 ^ ce_class e.
Proof.
  intros Ht Hlt. apply tiles_app in Ht as [_ [Ha Ht]].
  destruct l2 as [|e' l2']; simpl in Ht; [lia|].
  destruct Ht as [Ha' _]. exists e', l2'. split; [done|]. lia.
Qed.

(** In a tiling by aligned chunks, the lower buddy of a chunk whose
    offset has the bit of its own size set is the start of a chunk. *)
Lemma lower_buddy_is_start base cs t x j f :
  classes_ok cs -> tiles cs base t ->
  (forall e, e ∈ cs -> (2 ^ ce_class e | ce_addr e - base)) ->
  (x, j, f) ∈ cs -> (2 ^ (j + 1) | x - 2 ^ j - base) -> base <= x - 2 ^ j ->
  exists e, e ∈ cs /\ ce_addr e = x - 2 ^ j /\ ce_addr e + 2 ^ ce_class e <= x.
Proof.
  intros Hok Ht Hal Hin Hdiv Hge.
  assert (0 <= j) as Hj by (by apply (proj1 (Forall_forall _ _) Hok) in Hin).
  pose proof (pow2_pos j Hj) as Hpj.
  pose proof (tiles_bounds _ _ _ _ Hok Ht Hin) as [_ Hxt].
  unfold ce_addr, ce_class in Hxt; simpl in Hxt.
  destruct (tiles_cover cs base t (x - 2 ^ j) Hok Ht ltac:(lia)) as (e & He & Hlo & Hhi).
  assert (0 <= ce_class e) as Hk by (by apply (proj1 (Forall_forall _ _) Hok) in He).
  pose proof (pow2_pos _ Hk) as Hpk.
  (* the chunk [e] ends at or before [x] *)
  assert (ce_addr e + 2 ^ ce_class e <= x) as Hend.
  { pose proof Hin as Hin'. apply list_elem_of_split in Hin' as (l1 & l2 & ->).
    pose proof (tiles_around _ _ _ _ _ Hok Ht) as (_ & Hbefore & Hafter).
    change (ce_addr (x, j, f)) with x in *. change (ce_class (x, j, f)) with j in *.
    apply elem_of_app in He as [He|He]; [by apply Hbefore|].
    apply elem_of_cons in He as [->|He].
    - change (ce_addr (x, j, f)) with x in *. lia.
    - specialize (Hafter _ He). lia. }
  exists e. split; [done|]. split; [|done].
  destruct (Z.eq_dec (ce_addr e) (x - 2 ^ j)) as [|Hne]; [done|exfalso].
  assert (ce_addr e < x - 2 ^ j) as Hlt by lia.
  specialize (Hal _ He).
  destruct (Z_le_gt_dec (ce_class e) (j + 1)) as [Hle|Hgt].
  - (* both offsets are multiples of the size of [e] *)
    assert (2 ^ ce_class e | x - 2 ^ j - base) as Hd.
    { eapply Z.divide_trans; [|exact Hdiv]. apply divide_pow2_le. lia. }
    pose proof (multiple_gap _ _ _ Hpk Hal Hd ltac:(lia)). lia.
  - (* [e] is larger than the pair of buddies and would contain [x] *)
    assert (2 ^ (j + 1) | ce_addr e - base) as Hd.
    { eapply Z.divide_trans; [|exact Hal]. apply divide_pow2_le. lia. }
    assert (2 ^ (j + 1) | ce_addr e + 2 ^ ce_class e - base) as Hd'.
    { replace (ce_addr e + 2 ^ ce_class e - base)
        with ((ce_addr e - base) + 2 ^ ce_class e) by lia.
      apply Z.divide_add_r; [done|]. apply divide_pow2_le. lia. }
    pose proof (pow2_pos (j + 1) ltac:(lia)) as Hpj1.
    pose proof (multiple_gap _ _ _ Hpj1 Hdiv Hd' ltac:(lia)) as Hgap.
    rewrite Z.pow_add_r in Hgap by lia. change (2 ^ 1) with 2 in Hgap. lia.
Qed.

(** ** One turn of the coalescing loop *)

Lemma dlist_delete_Ret node s :
  dlist_delete node s =
  Ret tt (mkSegst (set_free_chunks (map (filter (fun a => a ≠ node)) (free_chunks (sg s))) (sg s))
                  (sm s)).
Proof. done. Qed.

Section LoopStep.

Variable USE_ASSERT_CHECKING : bool.
Variables base size : Z.

Local Abbreviation loop := (free_loop USE_ASSERT_CHECKING size).

(** The chunk at [x + 2^j] is merged into the chunk at [x]. *)
Lemma free_loop_merge_up fuel x j s :
  mclass (load_chunk (sm s) x) = j ->
  0 <= j <= SHMBUF_CHUNKSZ_MAX_BIT ->
  0 <= x - base < 2 ^ 64 ->
  Z.land (x - base) (2 ^ j) = 0 ->
  x + 2 ^ j < base + size ->
  magic_head (load_chunk (sm s) (x + 2 ^ j)) = SHMBUF_CHUNK_MAGIC_CODE ->
  mclass (load_chunk (sm s) (x + 2 ^ j)) = j ->
  chain (load_chunk (sm s) (x + 2 ^ j)) = true ->
  exists s',
    loop (S fuel) base x s = loop fuel base x s' /\
    free_chunks (sg s') = map (filter (fun a => a ≠ x + 2 ^ j)) (free_chunks (sg s)) /\
    load_chunk (sm s') x = set_mclass (j + 1) (load_chunk (sm s) x) /\
    load_chunk (sm s') (x + 2 ^ j) = zero_chunk /\
    (forall b, b ≠ x -> b ≠ x + 2 ^ j -> load_chunk (sm s') b = load_chunk (sm s) b) /\
    num_actives (sg s') = num_actives (sg s) /\
    revision (sg s') = revision (sg s) /\
    bytes (sm s') = bytes (sm s).
Proof.
  intros Hmc Hj Hoff Hland Hin Hmg Hbc Hch.
  pose proof (pow2_pos j ltac:(lia)) as Hpos.
  eexists. split.
  { simpl. unfold bind at 1, read_chunk at 1. rewrite Hmc.
    destruct (Z.leb_spec j SHMBUF_CHUNKSZ_MAX_BIT) as [_|]; [|lia].
    unfold wrap64. rewrite (Z.mod_small (x - base)) by lia.
    rewrite Hland. simpl.
    destruct (Z.leb_spec (base + size) (x + 2 ^ j)) as [|_]; [lia|].
    unfold bind at 1, read_chunk at 1. rewrite Hmg, Z.eqb_refl.
    unfold bind at 1. rewrite Assert_true.
    unfold mergeable. rewrite Hbc, Hmc, Z.eqb_refl, Hch. simpl.
    unfold bind at 1. rewrite dlist_delete_Ret.
    unfold bind at 1. rewrite update_chunk_Ret.
    unfold bind at 1. rewrite update_chunk_Ret.
    reflexivity. }
  simpl. split; [done|]. split.
  { rewrite load_store_eq. rewrite load_store_ne by lia. rewrite Hmc.
    unfold wrap32. rewrite Z.mod_small; [done|].
    unfold SHMBUF_CHUNKSZ_MAX_BIT in *. lia. }
  split.
  { rewrite load_store_ne by lia. apply load_store_eq. }
  split.
  { intros b Hb1 Hb2. by rewrite !load_store_ne. }
  done.
Qed.

(** The chunk at [x] is merged into the chunk at [x - 2^j]. *)
Lemma free_loop_merge_down fuel x j s :
  mclass (load_chunk (sm s) x) = j ->
  0 <= j <= SHMBUF_CHUNKSZ_MAX_BIT ->
  0 <= x - base < 2 ^ 64 ->
  Z.land (x - base) (2 ^ j) ≠ 0 ->
  base <= x - 2 ^ j ->
  magic_head (load_chunk (sm s) (x - 2 ^ j)) = SHMBUF_CHUNK_MAGIC_CODE ->
  mclass (load_chunk (sm s) (x - 2 ^ j)) = j ->
  chain (load_chunk (sm s) (x - 2 ^ j)) = true ->
  exists s',
    loop (S fuel) base x s = loop fuel base (x - 2 ^ j) s' /\
    free_chunks (sg s') = map (filter (fun a => a ≠ x - 2 ^ j)) (free_chunks (sg s)) /\
    load_chunk (sm s') (x - 2 ^ j) = set_mclass (j + 1) (load_chunk (sm s) (x - 2 ^ j)) /\
    load_chunk (sm s') x = zero_chunk /\
    (forall b, b ≠ x -> b ≠ x - 2 ^ j -> load_chunk (sm s') b = load_chunk (sm s) b) /\
    num_actives (sg s') = num_actives (sg s) /\
    revision (sg s') = revision (sg s) /\
    bytes (sm s') = bytes (sm s).
Proof.
  intros Hmc Hj Hoff Hland Hin Hmg Hbc Hch.
  pose proof (pow2_pos j ltac:(lia)) as Hpos.
  eexists. split.
  { simpl. unfold bind at 1, read_chunk at 1. rewrite Hmc.
    destruct (Z.leb_spec j SHMBUF_CHUNKSZ_MAX_BIT) as [_|]; [|lia].
    unfold wrap64. rewrite (Z.mod_small (x - base)) by lia.
    destruct (Z.eqb_spec (Z.land (x - base) (2 ^ j)) 0) as [|_]; [done|].
    destruct (Z.ltb_spec (x - 2 ^ j) base) as [|_]; [lia|].
    unfold bind at 1, read_chunk at 1. rewrite Hmg, Z.eqb_refl.
    unfold bind at 1. rewrite Assert_true.
    unfold mergeable. rewrite Hbc, Hmc, Z.eqb_refl, Hch. simpl.
    unfold bind at 1. rewrite dlist_delete_Ret.
    unfold bind at 1. rewrite update_chunk_Ret.
    unfold bind at 1. rewrite update_chunk_Ret.
    reflexivity. }
  simpl. split; [done|]. split.
  { rewrite load_store_eq. rewrite load_store_ne by lia. rewrite Hbc.
    unfold wrap32. rewrite Z.mod_small; [done|].
    unfold SHMBUF_CHUNKSZ_MAX_BIT in *. lia. }
  split.
  { rewrite load_store_ne by lia. apply load_store_eq. }
  split.
  { intros b Hb1 Hb2. by rewrite !load_store_ne. }
  done.
Qed.

(** The loop ends when the buddy above is outside the segment or is
    not a free chunk of the same class. *)
Lemma free_loop_stop_up fuel x j s :
  mclass (load_chunk (sm s) x) = j ->
  0 <= x - base < 2 ^ 64 ->
  Z.land (x - base) (2 ^ j) = 0 ->
  (base + size <= x + 2 ^ j \/
   (magic_head (load_chunk (sm s) (x + 2 ^ j)) = SHMBUF_CHUNK_MAGIC_CODE /\
    mergeable (load_chunk (sm s) (x + 2 ^ j)) (load_chunk (sm s) x) = false)) ->
  loop fuel base x s = Ret x s.
Proof.
  intros Hmc Hoff Hland Hstop. destruct fuel as [|fuel]; [done|].
  simpl. unfold bind at 1, read_chunk at 1. rewrite Hmc.
  destruct (j <=? SHMBUF_CHUNKSZ_MAX_BIT); [|done].
  unfold wrap64. rewrite (Z.mod_small (x - base)) by lia.
  rewrite Hland. simpl.
  destruct (Z.leb_spec (base + size) (x + 2 ^ j)) as [|Hlt]; [done|].
  destruct Hstop as [|[Hmg Hnm]]; [lia|].
  unfold bind at 1, read_chunk at 1. rewrite Hmg, Z.eqb_refl.
  unfold bind at 1. rewrite Assert_true. by rewrite Hnm.
Qed.

Lemma free_loop_stop_down fuel x j s :
  mclass (load_chunk (sm s) x) = j ->
  0 <= x - base < 2 ^ 64 ->
  Z.land (x - base) (2 ^ j) ≠ 0 ->
  (x - 2 ^ j < base \/
   (magic_head (load_chunk (sm s) (x - 2 ^ j)) = SHMBUF_CHUNK_MAGIC_CODE /\
    mergeable (load_chunk (sm s) (x - 2 ^ j)) (load_chunk (sm s) x) = false)) ->
  loop fuel base x s = Ret x s.
Proof.
  intros Hmc Hoff Hland Hstop. destruct fuel as [|fuel]; [done|].
  simpl. unfold bind at 1, read_chunk at 1. rewrite Hmc.
  destruct (j <=? SHMBUF_CHUNKSZ_MAX_BIT); [|done].
  unfold wrap64. rewrite (Z.mod_small (x - base)) by lia.
  destruct (Z.eqb_spec (Z.land (x - base) (2 ^ j)) 0) as [|_]; [done|].
  destruct (Z.ltb_spec (x - 2 ^ j) base) as [|Hge]; [done|].
  destruct Hstop as [|[Hmg Hnm]]; [lia|].
  unfold bind at 1, read_chunk at 1. rewrite Hmg, Z.eqb_refl.
  unfold bind at 1. rewrite Assert_true. by rewrite Hnm.
Qed.

End LoopStep.

(** ** Merging two buddies keeps the segment well formed *)

Lemma filter_all {A} (P : A -> Prop) `{forall a, Decision (P a)} (l : list A) :
  Forall P l -> filter P l = l.
Proof.
  induction 1 as [|a l Ha _ IH]; [done|].
  rewrite filter_cons. rewrite decide_True by done. by rewrite IH.
Qed.

Lemma free_of_class_without k l y :
  y ∉ (ce_addr <$> l) ->
  filter (fun a => a ≠ y) (free_of_class k l) = free_of_class k l.
Proof.
  intros Hnin. apply filter_all. apply Forall_forall. intros a Ha ->.
  apply Hnin. apply elem_of_free_of_class in Ha.
  by apply (list_elem_of_fmap_2 ce_addr) in Ha.
Qed.

Section MergeInvariant.

Variables base size : Z.

Lemma seg_inv_merge l1 l2 lo j f1 f2 x y s s' :
  seg_inv base size (Some x) (l1 ++ (lo, j, f1) :: (lo + 2 ^ j, j, f2) :: l2) s ->
  (x = lo /\ y = lo + 2 ^ j /\ f1 = false /\ f2 = true) \/
  (x = lo + 2 ^ j /\ y = lo /\ f1 = true /\ f2 = false) ->
  (2 ^ (j + 1) | lo - base) ->
  size <= 2 ^ 32 ->
  free_chunks (sg s') = map (filter (fun a => a ≠ y)) (free_chunks (sg s)) ->
  mclass (load_chunk (sm s') lo) = j + 1 ->
  magic_head (load_chunk (sm s') lo) = SHMBUF_CHUNK_MAGIC_CODE ->
  load_chunk (sm s') (lo + 2 ^ j) = zero_chunk ->
  (forall b, b ≠ lo -> b ≠ lo + 2 ^ j -> load_chunk (sm s') b = load_chunk (sm s) b) ->
  num_actives (sg s') = num_actives (sg s) ->
  seg_inv base size (Some lo) (l1 ++ (lo, j + 1, false) :: l2) s'.
Proof.
  intros Hinv Hxy Hdiv Hsize Hfc Hmc Hmg Hzero Hframe Hact.
  pose proof (seg_inv_classes_ok _ _ _ _ _ Hinv) as Hok.
  pose proof (inv_tiles _ _ _ _ _ Hinv) as Ht.
  pose proof (inv_class _ _ _ _ _ Hinv (lo, j, f1)
                ltac:(apply elem_of_app; right; left)) as [Hjr _].
  change (ce_class (lo, j, f1)) with j in Hjr.
  assert (0 <= j) as Hj by (unfold SHMBUF_CHUNKSZ_MIN_BIT in *; lia).
  pose proof (pow2_pos j Hj) as Hpos.
  assert (2 ^ (j + 1) = 2 ^ j + 2 ^ j) as Hdbl.
  { rewrite Z.pow_add_r by lia. change (2 ^ 1) with 2. lia. }
  (* the pair lies inside the segment *)
  assert (base <= lo /\ lo + 2 ^ (j + 1) <= base + size) as [Hlo Hhi].
  { pose proof (tiles_bounds _ _ _ (lo, j, f1) Hok Ht
                  ltac:(apply elem_of_app; right; left)) as [? _].
    pose proof (tiles_bounds _ _ _ (lo + 2 ^ j, j, f2) Hok Ht
                  ltac:(apply elem_of_app; right; right; left)) as [_ ?].
    unfold ce_addr, ce_class in *; simpl in *. lia. }
  assert (j + 1 <= SHMBUF_CHUNKSZ_MAX_BIT) as Hj1.
  { unfold SHMBUF_CHUNKSZ_MAX_BIT.
    apply (Z.pow_le_mono_r_iff 2); lia. }
  pose proof (tiles_NoDup _ _ _ Hok Ht) as Hnd.
  rewrite fmap_app, !fmap_cons in Hnd.
  change (ce_addr (lo, j, f1)) with lo in Hnd.
  change (ce_addr (lo + 2 ^ j, j, f2)) with (lo + 2 ^ j) in Hnd.
  apply NoDup_app in Hnd as (_ & Hd1 & Hd2).
  apply NoDup_cons in Hd2 as [Hd2 Hd3]. apply NoDup_cons in Hd3 as [Hd3 _].
  assert (lo ∉ ce_addr <$> l1) as Hlo1 by (intros ?; eapply Hd1; [done|left]).
  assert (lo + 2 ^ j ∉ ce_addr <$> l1) as Hhi1
    by (intros ?; eapply Hd1; [done|right; left]).
  assert (lo ∉ ce_addr <$> l2) as Hlo2 by (intros ?; apply Hd2; by right).
  assert (lo + 2 ^ j ∉ ce_addr <$> l2) as Hhi2 by done.
  assert (forall e, e ∈ l1 ++ l2 -> ce_addr e ≠ lo /\ ce_addr e ≠ lo + 2 ^ j) as Hother.
  { intros e He. apply elem_of_app in He as [He|He];
      apply (list_elem_of_fmap_2 ce_addr) in He; split; congruence. }
  assert (forall e, e ∈ l1 ++ (lo, j + 1, false) :: l2 ->
                    e ∈ l1 ++ l2 \/ e = (lo, j + 1, false)) as Hcases.
  { intros e He. apply elem_of_app in He as [?|He]; [left; apply elem_of_app; by left|].
    apply elem_of_cons in He as [?|He]; [by right|left; apply elem_of_app; by right]. }
  assert (forall e, e ∈ l1 ++ l2 ->
                    e ∈ l1 ++ (lo, j, f1) :: (lo + 2 ^ j, j, f2) :: l2) as Hold.
  { intros e He. apply elem_of_app in He as [?|?]; apply elem_of_app;
      [by left|by right; right; right]. }
  constructor.
  - apply tiles_app in Ht as [Ht1 [Hat [_ Ht2]]]. apply tiles_app. split; [done|].
    simpl tiles in *. unfold ce_addr, ce_class in *; simpl in *.
    split; [done|]. rewrite Hdbl.
    by replace (base + span_sum l1 + (2 ^ j + 2 ^ j))
      with (base + span_sum l1 + 2 ^ j + 2 ^ j) by lia.
  - intros e He. destruct (Hcases e He) as [Hin| ->].
    + by apply (inv_class _ _ _ _ _ Hinv), Hold.
    + unfold ce_class, ce_addr; simpl. split; [lia|].
      apply mod_pow2_0; [lia|done].
  - intros e He. destruct (Hcases e He) as [Hin| ->].
    + destruct (Hother e Hin) as [Hn1 Hn2]. rewrite Hframe by done.
      destruct (inv_hdr _ _ _ _ _ Hinv e (Hold e Hin)) as (H1 & H2 & H3).
      split; [done|]. split; [done|]. intros _. apply H3.
      destruct Hxy as [(-> & _)|(-> & _)]; congruence.
    + unfold ce_addr, ce_class, ce_free; simpl. by rewrite Hmc, Hmg.
  - intros b Hb Hnin.
    rewrite fmap_app, fmap_cons in Hnin. change (ce_addr (lo, j + 1, false)) with lo in Hnin.
    destruct (decide (b = lo + 2 ^ j)) as [->|Hne]; [done|].
    rewrite Hframe; [|intros ->; apply Hnin, elem_of_app; right; left|done].
    apply (inv_blank _ _ _ _ _ Hinv); [done|].
    rewrite fmap_app, !fmap_cons.
    change (ce_addr (lo, j, f1)) with lo.
    change (ce_addr (lo + 2 ^ j, j, f2)) with (lo + 2 ^ j).
    intros Hin. apply Hnin.
    apply elem_of_app in Hin as [?|Hin]; apply elem_of_app; [by left|right].
    apply elem_of_cons in Hin as [->|Hin]; [left|].
    apply elem_of_cons in Hin as [->|Hin]; [done|by right].
  - rewrite Hfc, length_map. apply (inv_lists_len _ _ _ _ _ Hinv).
  - intros i l Hil. rewrite Hfc, list_lookup_fmap in Hil.
    destruct (free_chunks (sg s) !! i) as [l0|] eqn:Hl0; [|done].
    injection Hil as <-.
    pose proof (inv_lists _ _ _ _ _ Hinv _ _ Hl0) as Hp.
    rewrite Hp. set (k := Z.of_nat i + SHMBUF_CHUNKSZ_MIN_BIT).
    rewrite !free_of_class_app, filter_app.
    rewrite (free_of_class_cons k (lo, j, f1)),
            (free_of_class_cons k (lo + 2 ^ j, j, f2)),
            (free_of_class_cons k (lo, j + 1, false)).
    rewrite !filter_app.
    assert (y = lo \/ y = lo + 2 ^ j) as Hy by (destruct Hxy as [(_ & -> & _)|(_ & -> & _)]; auto).
    rewrite !free_of_class_without by (destruct Hy as [-> | ->]; done).
    apply Permutation_app_head.
    simpl. rewrite app_assoc.
    match goal with |- ?X ++ _ ≡ₚ _ => assert (X = []) as -> end; [|done].
    unfold ce_free, ce_class, ce_addr; simpl.
    destruct Hxy as [(_ & -> & -> & ->)|(_ & -> & -> & ->)].
    + rewrite (decide_False (P := false = true /\ _)) by (intros [? _]; done). simpl.
      case_decide; simpl; [|done]. by rewrite filter_cons, decide_False by (intros ?; done).
    + rewrite (decide_False (P := false = true /\ _)) by (intros [? _]; done).
      rewrite app_nil_r.
      case_decide; simpl; [|done]. by rewrite filter_cons, decide_False by (intros ?; done).
  - rewrite Hact, (inv_actives _ _ _ _ _ Hinv). f_equal.
    rewrite !active_entries_app, !active_entries_cons, !length_app.
    unfold ce_free; simpl.
    by destruct Hxy as [(_ & _ & -> & ->)|(_ & _ & -> & ->)].
  - intros x' [= <-]. exists (j + 1). apply elem_of_app. right. left.
Qed.

End MergeInvariant.

(** ** The coalescing loop *)

Section LoopSpec.

Variable USE_ASSERT_CHECKING : bool.
Variables base size : Z.

Local Abbreviation loop := (free_loop USE_ASSERT_CHECKING size).

Lemma seg_inv_flight_entry x j cs s :
  seg_inv base size (Some x) cs s -> (x, j, false) ∈ cs ->
  mclass (load_chunk (sm s) x) = j /\
  SHMBUF_CHUNKSZ_MIN_BIT <= j <= SHMBUF_CHUNKSZ_MAX_BIT /\
  (2 ^ j | x - base) /\
  0 <= x - base /\ x + 2 ^ j <= base + size.
Proof.
  intros Hinv Hin.
  destruct (inv_hdr _ _ _ _ _ Hinv _ Hin) as (Hmc & _).
  destruct (inv_class _ _ _ _ _ Hinv _ Hin) as (Hj & Hal).
  pose proof (tiles_bounds _ _ _ _ (seg_inv_classes_ok _ _ _ _ _ Hinv)
                (inv_tiles _ _ _ _ _ Hinv) Hin) as [Hlo Hhi].
  unfold ce_addr, ce_class in *; simpl in *.
  split; [done|]. split; [done|]. split; [|lia].
  apply mod_pow2_0; [unfold SHMBUF_CHUNKSZ_MIN_BIT in *; lia|done].
Qed.

Lemma free_loop_spec fuel x j cs s :
  seg_inv base size (Some x) cs s ->
  (x, j, false) ∈ cs ->
  size <= 2 ^ 32 ->
  (Z.to_nat (SHMBUF_CHUNKSZ_MAX_BIT + 1 - j) <= fuel)%nat ->
  exists x' j' cs' s',
    loop fuel base x s = Ret x' s' /\
    seg_inv base size (Some x') cs' s' /\
    (x', j', false) ∈ cs' /\
    j <= j' /\ x' <= x /\ x + 2 ^ j <= x' + 2 ^ j' /\
    length (active_entries cs') = length (active_entries cs) /\
    revision (sg s') = revision (sg s) /\
    bytes (sm s') = bytes (sm s) /\
    (forall fuel', loop fuel' base x' s' = Ret x' s').
Proof.
  revert x j cs s. induction fuel as [|fuel IH]; intros x j cs s Hinv Hin Hsize Hfuel.
  { destruct (seg_inv_flight_entry _ _ _ _ Hinv Hin) as (_ & Hj & _).
    unfold SHMBUF_CHUNKSZ_MAX_BIT in *. lia. }
  destruct (seg_inv_flight_entry _ _ _ _ Hinv Hin) as (Hmc & Hj & Hal & Hlo & Hhi).
  assert (0 <= j) as Hj0 by (unfold SHMBUF_CHUNKSZ_MIN_BIT in *; lia).
  pose proof (pow2_pos j Hj0) as Hpos.
  pose proof (seg_inv_classes_ok _ _ _ _ _ Hinv) as Hok.
  pose proof (inv_tiles _ _ _ _ _ Hinv) as Ht.
  assert (0 <= x - base < 2 ^ 64) as Hoff.
  { split; [done|]. assert (2 ^ 32 < 2 ^ 64) by done. lia. }
  assert (forall x1 j1 cs1 s1,
            seg_inv base size (Some x1) cs1 s1 -> (x1, j1, false) ∈ cs1 ->
            j1 = j + 1 -> x1 <= x -> x + 2 ^ j <= x1 + 2 ^ j1 ->
            num_actives (sg s1) = num_actives (sg s) ->
            revision (sg s1) = revision (sg s) ->
            bytes (sm s1) = bytes (sm s) ->
            loop (S fuel) base x s = loop fuel base x1 s1 ->
            exists x' j' cs' s',
              loop (S fuel) base x s = Ret x' s' /\
              seg_inv base size (Some x') cs' s' /\
              (x', j', false) ∈ cs' /\
              j <= j' /\ x' <= x /\ x + 2 ^ j <= x' + 2 ^ j' /\
              length (active_entries cs') = length (active_entries cs) /\
              revision (sg s') = revision (sg s) /\
              bytes (sm s') = bytes (sm s) /\
              (forall fuel', loop fuel' base x' s' = Ret x' s')) as Hnext.
  { intros x1 j1 cs1 s1 Hinv1 Hin1 -> Hx1 Hsp Hna Hre Hby Hrun.
    destruct (IH x1 (j + 1) cs1 s1 Hinv1 Hin1 Hsize ltac:(lia))
      as (x' & j' & cs' & s' & Hrun' & Hinv' & Hin' & Hjj & Hxx & Hspan & Hlen & Hre' & Hby' & Hst).
    exists x', j', cs', s'. split; [by rewrite Hrun|]. split; [done|]. split; [done|].
    split; [lia|]. split; [lia|]. split; [lia|]. split.
    { rewrite Hlen. apply Nat2Z.inj.
      rewrite <- (inv_actives _ _ _ _ _ Hinv1), <- (inv_actives _ _ _ _ _ Hinv). done. }
    split; [congruence|]. split; [congruence|done]. }
  assert (forall (Hstop : forall fuel', loop fuel' base x s = Ret x s),
            exists x' j' cs' s',
              loop (S fuel) base x s = Ret x' s' /\
              seg_inv base size (Some x') cs' s' /\
              (x', j', false) ∈ cs' /\
              j <= j' /\ x' <= x /\ x + 2 ^ j <= x' + 2 ^ j' /\
              length (active_entries cs') = length (active_entries cs) /\
              revision (sg s') = revision (sg s) /\
              bytes (sm s') = bytes (sm s) /\
              (forall fuel', loop fuel' base x' s' = Ret x' s')) as Hdone.
  { intros Hstop. exists x, j, cs, s. rewrite Hstop.
    split; [done|]. split; [done|]. split; [done|].
    split; [lia|]. split; [lia|]. split; [lia|]. done. }
  pose proof Hin as Hsplit. apply list_elem_of_split in Hsplit as (l1 & l2 & ->).
  destruct (Z.eq_dec (Z.land (x - base) (2 ^ j)) 0) as [Hland|Hland].
  - (* the buddy is the chunk above *)
    destruct (Z_le_gt_dec (base + size) (x + 2 ^ j)) as [Hout|Hinr].
    { apply Hdone. intros fuel'. eapply free_loop_stop_up; eauto. }
    destruct (tiles_succ l1 (x, j, false) l2 _ _ Ht) as (e' & l2' & -> & Hae').
    { unfold ce_addr, ce_class; simpl. lia. }
    destruct e' as [[b j'] f']. unfold ce_addr, ce_class in Hae'; simpl in Hae'. subst b.
    destruct (inv_hdr _ _ _ _ _ Hinv (x + 2 ^ j, j', f')
                ltac:(apply elem_of_app; right; right; left)) as (Hbc & Hbm & Hbf).
    unfold ce_addr, ce_class, ce_free in Hbc, Hbm, Hbf; simpl in Hbc, Hbm, Hbf.
    specialize (Hbf ltac:(intros [= ?]; lia)).
    destruct (mergeable (load_chunk (sm s) (x + 2 ^ j)) (load_chunk (sm s) x)) eqn:Hmer.
    + unfold mergeable in Hmer. rewrite Hbc, Hmc, Hbf in Hmer.
      apply andb_true_iff in Hmer as [Hjj ->]. apply Z.eqb_eq in Hjj. revert Hjj. intros ->.
      destruct (free_loop_merge_up USE_ASSERT_CHECKING base size fuel x j s
                  Hmc ltac:(lia) Hoff Hland ltac:(lia) Hbm Hbc Hbf)
        as (s1 & Hrun & Hfc & Hx & Hb & Hframe & Hna & Hre & Hby).
      apply (Hnext x (j + 1) (l1 ++ (x, j + 1, false) :: l2') s1); try done; try lia.
      * apply (seg_inv_merge base size l1 l2' x j false true x (x + 2 ^ j) s s1).
        -- exact Hinv.
        -- left. done.
        -- by apply buddy_bit_clear.
        -- done.
        -- done.
        -- rewrite Hx. simpl. done.
        -- rewrite Hx. simpl.
           by destruct (inv_hdr _ _ _ _ _ Hinv _ Hin) as (_ & ? & _).
        -- done.
        -- done.
        -- done.
      * apply elem_of_app. right. left.
      * rewrite Z.pow_add_r by lia. lia.
    + apply Hdone. intros fuel'. eapply free_loop_stop_up; eauto.
  - (* the buddy is the chunk below *)
    pose proof (buddy_bit_set _ _ Hj0 Hal Hland) as Hdiv.
    assert (2 ^ j <= x - base) as Hge.
    { destruct Hal as [q Hq]. destruct (Z.eq_dec q 0) as [->|Hq0].
      - rewrite Hq in Hland. simpl in Hland. by rewrite Z.land_0_l in Hland.
      - assert (1 <= q) by nia. nia. }
    replace (x - base - 2 ^ j) with (x - 2 ^ j - base) in Hdiv by lia.
    destruct (lower_buddy_is_start base _ _ x j false Hok Ht) as (e & He & Hae & Hend);
      [|done|done|lia|].
    { intros e0 He0. destruct (inv_class _ _ _ _ _ Hinv _ He0) as [Hc0 Hal0].
      apply mod_pow2_0; [unfold SHMBUF_CHUNKSZ_MIN_BIT in *; lia|done]. }
    destruct e as [[b j'] f']. unfold ce_addr, ce_class in Hae, Hend; simpl in Hae, Hend.
    subst b.
    destruct (inv_hdr _ _ _ _ _ Hinv _ He) as (Hbc & Hbm & Hbf).
    unfold ce_addr, ce_class, ce_free in Hbc, Hbm, Hbf; simpl in Hbc, Hbm, Hbf.
    specialize (Hbf ltac:(intros [= ?]; lia)).
    destruct (mergeable (load_chunk (sm s) (x - 2 ^ j)) (load_chunk (sm s) x)) eqn:Hmer.
    + unfold mergeable in Hmer. rewrite Hbc, Hmc, Hbf in Hmer.
      apply andb_true_iff in Hmer as [Hjj ->]. apply Z.eqb_eq in Hjj. revert Hjj. intros ->.
      assert ((x - 2 ^ j, j, true) ∈ l1) as Hin1.
      { pose proof (tiles_around _ _ _ _ _ Hok Ht) as (_ & _ & Hafter).
        apply elem_of_app in He as [?|He]; [done|].
        apply elem_of_cons in He as [Heq|He]; [discriminate Heq|].
        specialize (Hafter _ He). unfold ce_addr, ce_class in Hafter; simpl in Hafter. lia. }
      destruct (tiles_pred l1 (x, j, false) l2 _ _ (x - 2 ^ j, j, true) Hok Ht Hin1)
        as (l1' & ->).
      { unfold ce_addr, ce_class; simpl. lia. }
      destruct (free_loop_merge_down USE_ASSERT_CHECKING base size fuel x j s
                  Hmc ltac:(lia) Hoff Hland ltac:(lia) Hbm Hbc Hbf)
        as (s1 & Hrun & Hfc & Hb & Hx & Hframe & Hna & Hre & Hby).
      rewrite <- app_assoc in Hinv. simpl in Hinv.
      apply (Hnext (x - 2 ^ j) (j + 1) (l1' ++ (x - 2 ^ j, j + 1, false) :: l2) s1);
        try done; try lia.
      * apply (seg_inv_merge base size l1' l2 (x - 2 ^ j) j true false x (x - 2 ^ j) s s1).
        -- by replace (x - 2 ^ j + 2 ^ j) with x by lia.
        -- right. repeat split; lia.
        -- done.
        -- done.
        -- done.
        -- rewrite Hb. simpl. done.
        -- rewrite Hb. simpl. done.
        -- by replace (x - 2 ^ j + 2 ^ j) with x by lia.
        -- intros b0 Hb1 Hb2. apply Hframe; lia.
        -- done.
      * apply elem_of_app. right. left.
      * rewrite Z.pow_add_r by lia. lia.
    + apply Hdone. intros fuel'. eapply free_loop_stop_down; eauto.
Qed.

End LoopSpec.

(** ** [shmBufferFreeChunk] *)

Section FreeSpec.

Variable USE_ASSERT_CHECKING : bool.
Variables size head : Z.
Variable id : nat.

Local Abbreviation base := (shmBufferSegmentMmapPtr size head id).

(** An active chunk may be taken in flight. *)
Lemma seg_inv_start cs s x j :
  seg_inv base size None cs s -> (x, j, false) ∈ cs ->
  seg_inv base size (Some x) cs s.
Proof.
  intros Hinv Hin. destruct Hinv as [Ht Hc Hh Hb Hn Hl Ha Hf]. constructor; try done.
  - intros e He. destruct (Hh e He) as (? & ? & Hc').
    split; [done|]. split; [done|]. intros _. by apply Hc'.
  - intros x' [= <-]. eauto.
Qed.

(** The chunk in flight is put on the free list of its class. *)
Lemma seg_inv_finish l1 l2 x j s s' l :
  seg_inv base size (Some x) (l1 ++ (x, j, false) :: l2) s ->
  size <= 2 ^ 32 ->
  free_chunks (sg s) !! Z.to_nat (j - SHMBUF_CHUNKSZ_MIN_BIT) = Some l ->
  free_chunks (sg s') =
    <[Z.to_nat (j - SHMBUF_CHUNKSZ_MIN_BIT) := x :: l]> (free_chunks (sg s)) ->
  load_chunk (sm s') x = set_chain true (load_chunk (sm s) x) ->
  (forall b, b ≠ x -> load_chunk (sm s') b = load_chunk (sm s) b) ->
  num_actives (sg s') = wrap32 (num_actives (sg s) - 1) ->
  seg_inv base size None (l1 ++ (x, j, true) :: l2) s'.
Proof.
  intros Hinv Hsize Hl Hfc Hx Hframe Hact.
  pose proof (seg_inv_classes_ok _ _ _ _ _ Hinv) as Hok.
  pose proof (inv_tiles _ _ _ _ _ Hinv) as Ht.
  pose proof (inv_class _ _ _ _ _ Hinv (x, j, false)
                ltac:(apply elem_of_app; right; left)) as [Hjr Hal].
  change (ce_class (x, j, false)) with j in Hjr.
  pose proof (tiles_NoDup _ _ _ Hok Ht) as Hnd.
  rewrite fmap_app, !fmap_cons in Hnd. change (ce_addr (x, j, false)) with x in Hnd.
  apply NoDup_app in Hnd as (_ & Hd1 & Hd2). apply NoDup_cons in Hd2 as [Hd2 _].
  assert (forall e, e ∈ l1 ++ l2 -> ce_addr e ≠ x) as Hother.
  { intros e He Heq. apply elem_of_app in He as [He|He];
      apply (list_elem_of_fmap_2 ce_addr) in He; rewrite Heq in He.
    - by apply (Hd1 x He); left.
    - done. }
  assert (forall e, e ∈ l1 ++ (x, j, true) :: l2 ->
                    e ∈ l1 ++ l2 \/ e = (x, j, true)) as Hcases.
  { intros e He. apply elem_of_app in He as [?|He]; [left; apply elem_of_app; by left|].
    apply elem_of_cons in He as [?|He]; [by right|left; apply elem_of_app; by right]. }
  assert (forall e, e ∈ l1 ++ l2 -> e ∈ l1 ++ (x, j, false) :: l2) as Hold.
  { intros e He. apply elem_of_app in He as [?|?]; apply elem_of_app; [by left|by right; right]. }
  constructor.
  - apply tiles_app in Ht as [Ht1 Ht2]. apply tiles_app. split; [done|]. exact Ht2.
  - intros e He. destruct (Hcases e He) as [Hin| ->].
    + by apply (inv_class _ _ _ _ _ Hinv), Hold.
    + done.
  - intros e He. destruct (Hcases e He) as [Hin| ->].
    + rewrite Hframe by by apply Hother.
      destruct (inv_hdr _ _ _ _ _ Hinv e (Hold e Hin)) as (H1 & H2 & H3).
      split; [done|]. split; [done|]. intros _. apply H3.
      intros [= Heq]. by apply (Hother e Hin).
    + destruct (inv_hdr _ _ _ _ _ Hinv (x, j, false)
                  ltac:(apply elem_of_app; right; left)) as (H1 & H2 & _).
      unfold ce_addr, ce_class, ce_free in *; simpl in *. rewrite Hx. simpl. done.
  - intros b Hb Hnin. rewrite Hframe.
    + apply (inv_blank _ _ _ _ _ Hinv); [done|].
      by rewrite fmap_app, fmap_cons in *.
    + intros ->. apply Hnin. rewrite fmap_app, fmap_cons. apply elem_of_app. right. left.
  - rewrite Hfc, length_insert. apply (inv_lists_len _ _ _ _ _ Hinv).
  - intros i l' Hil. rewrite Hfc in Hil. rewrite free_of_class_app.
    destruct (decide (i = Z.to_nat (j - SHMBUF_CHUNKSZ_MIN_BIT))) as [->|Hi].
    + rewrite list_lookup_insert_eq in Hil by (eapply lookup_lt_Some; eauto).
      injection Hil as <-.
      pose proof (inv_lists _ _ _ _ _ Hinv _ _ Hl) as Hp.
      rewrite free_of_class_app, free_of_class_other in Hp
        by (unfold ce_free; simpl; intros [? _]; done).
      rewrite free_of_class_this
        by (unfold ce_class; simpl; unfold SHMBUF_CHUNKSZ_MIN_BIT in *; (done || lia)).
      change (ce_addr (x, j, true)) with x.
      rewrite <- Permutation_middle. by apply Permutation_skip.
    + rewrite list_lookup_insert_ne in Hil by done.
      pose proof (inv_lists _ _ _ _ _ Hinv _ _ Hil) as Hp.
      rewrite free_of_class_app in Hp.
      rewrite free_of_class_other in Hp by (unfold ce_free; simpl; intros [? _]; done).
      by rewrite free_of_class_other
        by (unfold ce_class; simpl; unfold SHMBUF_CHUNKSZ_MIN_BIT in *; lia).
  - rewrite Hact, (inv_actives _ _ _ _ _ Hinv).
    pose proof (seg_inv_length _ _ _ _ _ Hinv Hsize) as Hlen.
    pose proof (active_entries_length (l1 ++ (x, j, false) :: l2)) as Hle.
    rewrite !active_entries_app, !active_entries_cons, !length_app in *.
    unfold ce_free in *; simpl in *. unfold wrap32.
    rewrite Z.mod_small; lia.
  - discriminate.
Qed.

(** [shmBufferFreeChunk] around its loop: when the loop hands back the
    chunk [x'], that chunk goes to the head of the list of its class
    and the count of active chunks goes down by one. *)
Lemma free_chunk_run chunk j s x' j' l1 l2 s1 l :
  mclass (load_chunk (sm s) chunk) = j ->
  SHMBUF_CHUNKSZ_MIN_BIT <= j <= SHMBUF_CHUNKSZ_MAX_BIT ->
  size <= 2 ^ 32 ->
  (USE_ASSERT_CHECKING = true -> SHMBUF_CHUNK_CHECK_MAGIC (sm s) chunk = true) ->
  free_loop USE_ASSERT_CHECKING size (Z.to_nat (SHMBUF_CHUNKSZ_MAX_BIT + 1 - j)) base chunk s
    = Ret x' s1 ->
  seg_inv base size (Some x') (l1 ++ (x', j', false) :: l2) s1 ->
  free_chunks (sg s1) !! Z.to_nat (j' - SHMBUF_CHUNKSZ_MIN_BIT) = Some l ->
  exists s',
    shmBufferFreeChunk USE_ASSERT_CHECKING size head id chunk s
      = Ret (Z.of_nat (length (active_entries (l1 ++ (x', j', true) :: l2))) =? 0) s' /\
    seg_inv base size None (l1 ++ (x', j', true) :: l2) s' /\
    free_chunks (sg s') =
      <[Z.to_nat (j' - SHMBUF_CHUNKSZ_MIN_BIT) := x' :: l]> (free_chunks (sg s1)) /\
    revision (sg s') = revision (sg s1) /\
    bytes (sm s') = bytes (sm s1).
Proof.
  intros Hmc Hj Hsize Hguard Hrun Hinv1 Hl.
  assert ((x', j', false) ∈ l1 ++ (x', j', false) :: l2) as Hin1
    by (apply elem_of_app; right; left).
  destruct (seg_inv_flight_entry _ _ _ _ _ _ Hinv1 Hin1) as (Hmc1 & Hj1 & _).
  set (s2 := upd_hdr x' (set_chain true (load_chunk (sm s1) x'))
               (upd_list (j' - SHMBUF_CHUNKSZ_MIN_BIT) (x' :: l) s1)).
  set (n := wrap32 (num_actives (sg s2) - 1)).
  set (s3 := mkSegst (set_num_actives n (sg s2)) (sm s2)).
  assert (seg_inv base size None (l1 ++ (x', j', true) :: l2) s3) as Hinv3.
  { apply (seg_inv_finish l1 l2 x' j' s1 s3 l); try done.
    - unfold s3, s2. simpl. by rewrite load_store_eq.
    - intros b Hb. unfold s3, s2. simpl. by rewrite load_store_ne. }
  assert (Z.of_nat (length (active_entries (l1 ++ (x', j', false) :: l2)))
          = num_actives (sg s2)) as Hna2.
  { unfold s2. simpl. by rewrite (inv_actives _ _ _ _ _ Hinv1). }
  assert (n = Z.of_nat (length (active_entries (l1 ++ (x', j', true) :: l2)))) as Hn.
  { rewrite <- (inv_actives _ _ _ _ _ Hinv3). done. }
  assert (S (length (active_entries (l1 ++ (x', j', true) :: l2)))
          = length (active_entries (l1 ++ (x', j', false) :: l2))) as Hlen3.
  { rewrite !active_entries_app, !active_entries_cons, !length_app.
    unfold ce_free; simpl. lia. }
  exists s3. split; [|done].
  unfold shmBufferFreeChunk, bind at 1, read_chunk at 1.
  unfold bind at 1, get at 1. rewrite Hmc.
  unfold bind at 1.
  assert ((Assert USE_ASSERT_CHECKING
             ((SHMBUF_CHUNKSZ_MIN_BIT <=? j) && (j <=? SHMBUF_CHUNKSZ_MAX_BIT)
              && SHMBUF_CHUNK_CHECK_MAGIC (sm s) chunk) s) = Ret tt s) as ->.
  { destruct USE_ASSERT_CHECKING eqn:Ha; [|done].
    rewrite Hguard by done.
    destruct (Z.leb_spec SHMBUF_CHUNKSZ_MIN_BIT j); [|lia].
    destruct (Z.leb_spec j SHMBUF_CHUNKSZ_MAX_BIT); [|lia].
    apply Assert_true. }
  unfold bind at 1. fold base. rewrite Hrun.
  unfold bind at 1, read_chunk at 1. rewrite Hmc1.
  unfold bind at 1.
  rewrite (dlist_push_head_Ret _ s1 x' l); [|by apply mindex_range|done].
  fold s2. unfold bind at 1, get at 1. unfold bind at 1.
  assert ((0 <? num_actives (sg s2)) = true) as ->.
  { apply Z.ltb_lt. rewrite <- Hna2, <- Hlen3. lia. }
  rewrite Assert_true. unfold bind, put, ret. fold n. fold s3.
  by rewrite Hn.
Qed.

Lemma free_chunk_spec chunk j cs s :
  seg_inv base size None cs s ->
  (chunk, j, false) ∈ cs ->
  size <= 2 ^ 32 ->
  (USE_ASSERT_CHECKING = true -> SHMBUF_CHUNK_CHECK_MAGIC (sm s) chunk = true) ->
  exists s' cs' x' j',
    shmBufferFreeChunk USE_ASSERT_CHECKING size head id chunk s
      = Ret (Z.of_nat (length (active_entries cs')) =? 0) s' /\
    seg_inv base size None cs' s' /\
    S (length (active_entries cs')) = length (active_entries cs) /\
    (x', j', true) ∈ cs' /\
    j <= j' /\ x' <= chunk /\ chunk + 2 ^ j <= x' + 2 ^ j' /\
    revision (sg s') = revision (sg s) /\
    bytes (sm s') = bytes (sm s).
Proof.
  intros Hinv Hin Hsize Hguard.
  pose proof (seg_inv_start _ _ _ _ Hinv Hin) as Hinv0.
  destruct (seg_inv_flight_entry _ _ _ _ _ _ Hinv0 Hin) as (Hmc & Hj & _).
  destruct (free_loop_spec USE_ASSERT_CHECKING base size
              (Z.to_nat (SHMBUF_CHUNKSZ_MAX_BIT + 1 - j)) chunk j cs s Hinv0 Hin Hsize
              ltac:(lia))
    as (x' & j' & cs1 & s1 & Hrun & Hinv1 & Hin1 & Hjj & Hxx & Hspan & Hlen & Hre & Hby & _).
  destruct (seg_inv_flight_entry _ _ _ _ _ _ Hinv1 Hin1) as (Hmc1 & Hj1 & _).
  destruct (seg_inv_list_lookup _ _ _ _ _ j' Hinv1 Hj1) as (l & Hl & _).
  pose proof Hin1 as Hsplit. apply list_elem_of_split in Hsplit as (l1 & l2 & ->).
  destruct (free_chunk_run chunk j s x' j' l1 l2 s1 l Hmc Hj Hsize Hguard Hrun Hinv1 Hl)
    as (s' & Hfree & Hinv' & _ & Hre' & Hby').
  exists s', (l1 ++ (x', j', true) :: l2), x', j'.
  split; [done|]. split; [done|]. split.
  { rewrite <- Hlen. rewrite !active_entries_app, !active_entries_cons, !length_app.
    unfold ce_free; simpl. lia. }
  split; [apply elem_of_app; right; left|].
  split; [done|]. split; [done|]. split; [done|].
  split; congruence.
Qed.

End FreeSpec.

(** ** Initialisation of a segment whose size is a power of two *)

Section InitSpec.

Variables size head : Z.
Variable id : nat.
Variable K : Z.
Hypothesis Hsize : size = 2 ^ K.
Hypothesis HK : SHMBUF_CHUNKSZ_MIN_BIT <= K <= SHMBUF_CHUNKSZ_MAX_BIT.

Local Abbreviation base := (shmBufferSegmentMmapPtr size head id).

(** Classes larger than the segment are skipped. *)
Lemma init_chunks_skip fuel k s :
  K <= k <= SHMBUF_CHUNKSZ_MAX_BIT ->
  init_chunks (Z.to_nat (k - K) + fuel) k base (base + size) s
  = init_chunks fuel K base (base + size) s.
Proof.
  intros Hk. remember (Z.to_nat (k - K)) as d eqn:Hd.
  revert k Hk Hd. induction d as [|d IH]; intros k Hk Hd.
  - simpl. by replace k with K by lia.
  - simpl. destruct (Z.leb_spec SHMBUF_CHUNKSZ_MIN_BIT k) as [_|]; [|lia].
    assert (2 ^ K < 2 ^ k) as Hlt.
    { apply Z.pow_lt_mono_r; unfold SHMBUF_CHUNKSZ_MIN_BIT in *; lia. }
    destruct (Z.ltb_spec (base + size) (base + 2 ^ k)) as [_|]; [|lia].
    apply IH; lia.
Qed.

(** Once the segment is covered, the remaining classes are skipped too. *)
Lemma init_chunks_rest fuel k s :
  SHMBUF_CHUNKSZ_MIN_BIT - 1 <= k ->
  (Z.to_nat (k - (SHMBUF_CHUNKSZ_MIN_BIT - 1)) < fuel)%nat ->
  init_chunks fuel k (base + size) (base + size) s = Ret tt s.
Proof.
  revert k. induction fuel as [|fuel IH]; intros k Hk Hfuel; [lia|].
  simpl. destruct (Z.leb_spec SHMBUF_CHUNKSZ_MIN_BIT k) as [Hge|]; [|done].
  pose proof (pow2_pos k ltac:(unfold SHMBUF_CHUNKSZ_MIN_BIT in *; lia)).
  destruct (Z.ltb_spec (base + size) (base + size + 2 ^ k)) as [_|]; [|lia].
  apply IH; lia.
Qed.

Lemma init_segment_pow2 s :
  (forall b, base <= b < base + size -> load_chunk (sm s) b = zero_chunk) ->
  exists s',
    init_segment size head id s = Ret tt s' /\
    seg_inv base size None [(base, K, true)] s' /\
    free_chunks (sg s') =
      <[Z.to_nat (K - SHMBUF_CHUNKSZ_MIN_BIT) := [base]]> (replicate (Z.to_nat NUM_CLASSES) []) /\
    num_actives (sg s') = 0 /\
    revision (sg s') = revision (sg s) /\
    bytes (sm s') = bytes (sm s).
Proof.
  intros Hblank.
  pose proof (pow2_pos K ltac:(unfold SHMBUF_CHUNKSZ_MIN_BIT in *; lia)) as Hpos.
  pose proof (mindex_range K HK) as Hi.
  set (s0 := mkSegst (set_free_chunks (replicate (Z.to_nat NUM_CLASSES) []) (sg s)) (sm s)).
  set (s1 := upd_hdr base (fresh_chunk K) s0).
  set (s2 := upd_hdr base (linked_chunk K)
               (upd_list (K - SHMBUF_CHUNKSZ_MIN_BIT) ([] ++ [base]) s1)).
  set (s3 := mkSegst (set_num_actives 0 (sg s2)) (sm s2)).
  assert (init_segment size head id s = Ret tt s3) as Hrun.
  { unfold init_segment, bind at 1, modify at 1. fold s0.
    unfold init_fuel.
    replace (Z.to_nat (size / 2 ^ SHMBUF_CHUNKSZ_MAX_BIT) + 64)%nat
      with (Z.to_nat (SHMBUF_CHUNKSZ_MAX_BIT - K)
            + (S (Z.to_nat (K - (SHMBUF_CHUNKSZ_MIN_BIT - 2))
                  + (Z.to_nat (size / 2 ^ SHMBUF_CHUNKSZ_MAX_BIT) + 36))))%nat
      by (unfold SHMBUF_CHUNKSZ_MIN_BIT, SHMBUF_CHUNKSZ_MAX_BIT in *; lia).
    unfold bind at 1. fold base.
    rewrite init_chunks_skip by lia.
    simpl init_chunks.
    destruct (Z.leb_spec SHMBUF_CHUNKSZ_MIN_BIT K) as [_|]; [|lia].
    destruct (Z.ltb_spec (base + size) (base + 2 ^ K)) as [|_]; [lia|].
    unfold bind at 1. rewrite update_chunk_Ret. fold s1.
    unfold bind at 1.
    rewrite (dlist_push_tail_Ret _ s1 base []); [|done|].
    2:{ change (free_chunks (sg s1)) with (replicate (Z.to_nat NUM_CLASSES) (@nil Z)).
        apply lookup_replicate_2.
        unfold NUM_CLASSES, SHMBUF_CHUNKSZ_MIN_BIT, SHMBUF_CHUNKSZ_MAX_BIT in *. lia. }
    replace (set_chain true (load_chunk (sm s1) base)) with (linked_chunk K).
    2:{ unfold s1. rewrite load_upd_hdr. by rewrite decide_True. }
    fold s2. rewrite <- Hsize.
    rewrite init_chunks_rest; [done|lia|lia]. }
  exists s3. split; [done|].
  assert (free_chunks (sg s3) =
          <[Z.to_nat (K - SHMBUF_CHUNKSZ_MIN_BIT) := [base]]>
            (replicate (Z.to_nat NUM_CLASSES) [])) as Hfc by done.
  split; [|done].
  constructor.
  - simpl. unfold ce_class; simpl. split; [done|lia].
  - intros e He. apply list_elem_of_singleton in He as ->.
    unfold ce_class, ce_addr; simpl. split; [done|].
    by rewrite Z.sub_diag, Z.mod_0_l by lia.
  - intros e He. apply list_elem_of_singleton in He as ->.
    unfold ce_class, ce_addr, ce_free; simpl. by rewrite load_store_eq.
  - intros b Hb Hnin. simpl in Hnin. unfold ce_addr in Hnin; simpl in Hnin.
    simpl. rewrite !load_store_ne by (intros Heq; apply Hnin; rewrite <- Heq; left).
    by apply Hblank.
  - rewrite Hfc, length_insert. apply length_replicate.
  - intros i l Hil. rewrite Hfc in Hil.
    destruct (decide (i = Z.to_nat (K - SHMBUF_CHUNKSZ_MIN_BIT))) as [->|Hne].
    + rewrite list_lookup_insert_eq in Hil by (rewrite length_replicate; lia).
      injection Hil as <-.
      rewrite free_of_class_this; [done|done|].
      unfold ce_class; simpl. lia.
    + rewrite list_lookup_insert_ne in Hil by done.
      apply lookup_replicate in Hil as [-> _].
      rewrite free_of_class_other; [done|].
      unfold ce_class; simpl. lia.
  - done.
  - discriminate.
Qed.

End InitSpec.

Lemma clear_range_blank lo hi m b :
  lo <= b < hi -> load_chunk (clear_range lo hi m) b = zero_chunk.
Proof.
  intros Hb. unfold load_chunk, clear_range; simpl.
  rewrite map_lookup_filter. destruct (hdr m !! b) as [c|]; simpl; [|done].
  rewrite option_guard_False; [done|]. simpl. intros Hn. by apply Hn.
Qed.

(** ** The walk over the chunks of a segment *)

Lemma span_sum_app l1 l2 : span_sum (l1 ++ l2) = span_sum l1 + span_sum l2.
Proof. induction l1 as [|e l1 IH]; simpl; lia. Qed.

Lemma span_sum_partition cs :
  span_sum (active_entries cs) + span_sum (free_entries cs) = span_sum cs.
Proof.
  induction cs as [|e cs IH]; [done|].
  unfold active_entries, free_entries in *. rewrite !filter_cons.
  destruct (ce_free e) eqn:Hf; repeat case_decide; try done; simpl; lia.
Qed.

Lemma info_walk_spec m tail cs :
  forall fuel curr acc,
    tiles cs curr tail ->
    (forall e, e ∈ cs ->
       SHMBUF_CHUNKSZ_MIN_BIT <= ce_class e <= SHMBUF_CHUNKSZ_MAX_BIT /\
       mclass (load_chunk m (ce_addr e)) = ce_class e /\
       magic_head (load_chunk m (ce_addr e)) = SHMBUF_CHUNK_MAGIC_CODE /\
       chain (load_chunk m (ce_addr e)) = ce_free e) ->
    (length cs < fuel)%nat ->
    0 <= alloc_space acc -> 0 <= free_space acc ->
    alloc_space acc + free_space acc + (tail - curr) < 2 ^ 64 ->
    exists info,
      info_walk fuel m curr tail acc = Some info /\
      alloc_space info = alloc_space acc + span_sum (active_entries cs) /\
      free_space info = free_space acc + span_sum (free_entries cs).
Proof.
  induction cs as [|e cs IH]; intros fuel curr acc Ht Hhdr Hfuel Ha Hf Hbound.
  - simpl in Ht. subst. destruct fuel as [|fuel]; [simpl in Hfuel; lia|].
    exists acc. simpl. rewrite Z.ltb_irrefl. split; [done|].
    unfold active_entries, free_entries. simpl. lia.
  - destruct fuel as [|fuel]; [simpl in Hfuel; lia|].
    destruct Ht as [Hae Ht]. subst curr.
    destruct (Hhdr e ltac:(left)) as (Hk & Hmc & Hmg & Hch).
    assert (classes_ok cs) as Hok.
    { apply Forall_forall. intros e' He'.
      destruct (Hhdr e' ltac:(by right)) as [? _]. unfold SHMBUF_CHUNKSZ_MIN_BIT in *. lia. }
    pose proof (pow2_pos (ce_class e) ltac:(unfold SHMBUF_CHUNKSZ_MIN_BIT in *; lia)) as Hpos.
    pose proof (tiles_span _ _ _ Ht) as Hspan.
    pose proof (span_sum_nonneg _ Hok) as Hnn.
    pose proof (span_sum_partition cs) as Hpart.
    assert (0 <= span_sum (active_entries cs)) as Hna.
    { apply span_sum_nonneg. apply Forall_forall. intros e' He'.
      apply list_elem_of_filter in He' as [_ He'].
      by apply (proj1 (Forall_forall _ _) Hok). }
    assert (0 <= span_sum (free_entries cs)) as Hnf.
    { apply span_sum_nonneg. apply Forall_forall. intros e' He'.
      apply list_elem_of_filter in He' as [_ He'].
      by apply (proj1 (Forall_forall _ _) Hok). }
    simpl info_walk.
    destruct (Z.ltb_spec (ce_addr e) tail) as [_|]; [|lia].
    rewrite Hmc, Hmg, Z.eqb_refl.
    destruct (Z.ltb_spec (ce_class e) SHMBUF_CHUNKSZ_MIN_BIT) as [|_]; [lia|].
    destruct (Z.ltb_spec SHMBUF_CHUNKSZ_MAX_BIT (ce_class e)) as [|_]; [lia|].
    destruct (Z.ltb_spec tail (ce_addr e + 2 ^ ce_class e)) as [|_]; [lia|].
    simpl. rewrite Hch.
    destruct (ce_free e) eqn:Hfree.
    + destruct (IH fuel (ce_addr e + 2 ^ ce_class e)
                  (mkInfo (active_count acc)
                     (bump (ce_class e - SHMBUF_CHUNKSZ_MIN_BIT) (free_count acc))
                     (required_space acc) (alloc_space acc)
                     (wrap64 (free_space acc + 2 ^ ce_class e))))
        as (info & Hrun & Hal & Hfr); simpl; try done.
      * intros e' He'. apply Hhdr. by right.
      * simpl in Hfuel. lia.
      * unfold wrap64. rewrite Z.mod_small; lia.
      * unfold wrap64. rewrite Z.mod_small; lia.
      * exists info. split; [done|].
        simpl in Hal, Hfr. unfold wrap64 in Hfr. rewrite Z.mod_small in Hfr by lia.
        unfold active_entries, free_entries in *. rewrite !filter_cons.
        rewrite Hfree. repeat case_decide; try done. simpl. lia.
    + destruct (IH fuel (ce_addr e + 2 ^ ce_class e)
                  (mkInfo (bump (ce_class e - SHMBUF_CHUNKSZ_MIN_BIT) (active_count acc))
                     (free_count acc)
                     (wrap64 (required_space acc + required (load_chunk m (ce_addr e))))
                     (wrap64 (alloc_space acc + 2 ^ ce_class e))
                     (free_space acc)))
        as (info & Hrun & Hal & Hfr); simpl; try done.
      * intros e' He'. apply Hhdr. by right.
      * simpl in Hfuel. lia.
      * unfold wrap64. rewrite Z.mod_small; lia.
      * unfold wrap64. rewrite Z.mod_small; lia.
      * exists info. split; [done|].
        simpl in Hal, Hfr. unfold wrap64 in Hal. rewrite Z.mod_small in Hal by lia.
        unfold active_entries, free_entries in *. rewrite !filter_cons.
        rewrite Hfree. repeat case_decide; try done. simpl. lia.
Qed.

(** On a well-formed segment the introspection walk does not report
    corruption, and the allocated and the free bytes it counts add up
    to the size of the segment. *)
Lemma seg_inv_walk size head id cs s :
  seg_inv (shmBufferSegmentMmapPtr size head id) size None cs s ->
  size <= 2 ^ 32 ->
  span_sum cs = size /\
  exists info,
    __pgstrom_shmbuf_segment_info size head id (sm s) = Some info /\
    alloc_space info = span_sum (active_entries cs) /\
    free_space info = span_sum (free_entries cs) /\
    alloc_space info + free_space info = size.
Proof.
  intros Hinv Hsize.
  pose proof (tiles_span _ _ _ (inv_tiles _ _ _ _ _ Hinv)) as Hspan.
  assert (span_sum cs = size) as Hsum by lia. split; [done|].
  pose proof (seg_inv_classes_ok _ _ _ _ _ Hinv) as Hok.
  pose proof (span_sum_nonneg _ Hok) as Hnn.
  assert (Forall (fun e => SHMBUF_CHUNKSZ_MIN_BIT <= ce_class e) cs) as Hf.
  { apply Forall_forall. intros e He. by apply (inv_class _ _ _ _ _ Hinv) in He as [[? _] _]. }
  pose proof (span_sum_length _ Hf) as Hlen.
  destruct (info_walk_spec (sm s)
              (shmBufferSegmentMmapPtr size head id + size) cs
              (Z.to_nat (size / 2 ^ SHMBUF_CHUNKSZ_MIN_BIT) + 1)
              (shmBufferSegmentMmapPtr size head id)
              (mkInfo (replicate (Z.to_nat NUM_CLASSES) 0)
                      (replicate (Z.to_nat NUM_CLASSES) 0) 0 0 0))
    as (info & Hrun & Hal & Hfr); simpl; try done.
  - apply (inv_tiles _ _ _ _ _ Hinv).
  - intros e He. destruct (inv_class _ _ _ _ _ Hinv _ He) as [Hc _].
    destruct (inv_hdr _ _ _ _ _ Hinv _ He) as (H1 & H2 & H3).
    split; [done|]. split; [done|]. split; [done|]. by apply H3.
  - assert (Z.of_nat (length cs) <= size / 2 ^ SHMBUF_CHUNKSZ_MIN_BIT).
    { apply Z.div_le_lower_bound; [done|]. lia. }
    lia.
  - assert (2 ^ 32 < 2 ^ 64) by done. lia.
  - exists info. split; [done|]. simpl in Hal, Hfr.
    pose proof (span_sum_partition cs). split; [done|]. split; [done|]. lia.
Qed.

(** ** The two halves of a split merge again *)

Lemma buddy_bit_of_lower o j :
  0 <= j -> (2 ^ (j + 1) | o) -> Z.land o (2 ^ j) = 0.
Proof.
  intros Hj [q ->]. rewrite land_pow2 by done.
  pose proof (pow2_pos j Hj) as Hpos.
  destruct (Z.testbit (q * 2 ^ (j + 1)) j) eqn:Hbit; [|done].
  apply Z.testbit_true in Hbit; [|done].
  rewrite Z.pow_add_r in Hbit by lia. change (2 ^ 1) with 2 in Hbit.
  replace (q * (2 ^ j * 2)) with ((q * 2) * 2 ^ j) in Hbit by lia.
  rewrite Z.div_mul, Z.mod_mul in Hbit by lia. done.
Qed.

Lemma buddy_bit_of_upper o j :
  0 <= j -> (2 ^ (j + 1) | o) -> Z.land (o + 2 ^ j) (2 ^ j) ≠ 0.
Proof.
  intros Hj [q ->]. rewrite land_pow2 by done.
  pose proof (pow2_pos j Hj) as Hpos.
  destruct (Z.testbit (q * 2 ^ (j + 1) + 2 ^ j) j) eqn:Hbit; [lia|].
  apply Z.testbit_false in Hbit; [|done].
  rewrite Z.pow_add_r in Hbit by lia. change (2 ^ 1) with 2 in Hbit.
  replace (q * (2 ^ j * 2) + 2 ^ j) with ((q * 2 + 1) * 2 ^ j) in Hbit by lia.
  rewrite Z.div_mul in Hbit by lia.
  rewrite Z.add_comm, Z.mod_add in Hbit by lia. done.
Qed.

Section Siblings.

Variable USE_ASSERT_CHECKING : bool.
Variables size head : Z.
Variable id : nat.

Local Abbreviation base := (shmBufferSegmentMmapPtr size head id).

Lemma siblings_merge l1 l2 lo j f1 f2 x s :
  seg_inv base size None (l1 ++ (lo, j, f1) :: (lo + 2 ^ j, j, f2) :: l2) s ->
  (2 ^ (j + 1) | lo - base) ->
  size <= 2 ^ 32 ->
  (x = lo /\ f1 = false /\ f2 = true) \/ (x = lo + 2 ^ j /\ f1 = true /\ f2 = false) ->
  (USE_ASSERT_CHECKING = true -> SHMBUF_CHUNK_CHECK_MAGIC (sm s) x = true) ->
  exists s1 b s' cs' x' j',
    free_loop USE_ASSERT_CHECKING size
      (Z.to_nat (SHMBUF_CHUNKSZ_MAX_BIT + 1 - j)) base x s
    = free_loop USE_ASSERT_CHECKING size
        (Z.to_nat (SHMBUF_CHUNKSZ_MAX_BIT - j)) base lo s1 /\
    seg_inv base size (Some lo) (l1 ++ (lo, j + 1, false) :: l2) s1 /\
    shmBufferFreeChunk USE_ASSERT_CHECKING size head id x s = Ret b s' /\
    seg_inv base size None cs' s' /\
    (x', j', true) ∈ cs' /\
    j + 1 <= j' /\ x' <= lo /\ lo + 2 ^ (j + 1) <= x' + 2 ^ j'.
Proof.
  intros Hinv Hdiv Hsize Hxy Hguard.
  set (cs := l1 ++ (lo, j, f1) :: (lo + 2 ^ j, j, f2) :: l2) in *.
  assert ((lo, j, f1) ∈ cs) as Hin_lo by (apply elem_of_app; right; left).
  assert ((lo + 2 ^ j, j, f2) ∈ cs) as Hin_hi by (apply elem_of_app; right; right; left).
  assert ((x, j, false) ∈ cs) as Hin.
  { destruct Hxy as [(-> & -> & _)|(-> & _ & ->)]; done. }
  pose proof (seg_inv_start _ _ _ _ _ _ _ Hinv Hin) as Hinv0.
  destruct (seg_inv_flight_entry _ _ _ _ _ _ Hinv0 Hin) as (Hmc & Hj & Hal & Hlo & Hhi).
  assert (0 <= j) as Hj0 by (unfold SHMBUF_CHUNKSZ_MIN_BIT in *; lia).
  pose proof (pow2_pos j Hj0) as Hpos.
  pose proof (seg_inv_classes_ok _ _ _ _ _ Hinv) as Hok.
  pose proof (inv_tiles _ _ _ _ _ Hinv) as Ht.
  pose proof (tiles_bounds _ _ _ _ Hok Ht Hin_lo) as [Hlo1 _].
  pose proof (tiles_bounds _ _ _ _ Hok Ht Hin_hi) as [_ Hhi2].
  unfold ce_addr, ce_class in Hlo1, Hhi2; simpl in Hlo1, Hhi2.
  assert (0 <= x - base < 2 ^ 64) as Hoff.
  { split; [done|]. assert (2 ^ 32 < 2 ^ 64) by done. lia. }
  assert (2 ^ (j + 1) = 2 ^ j + 2 ^ j) as Hdbl.
  { rewrite Z.pow_add_r by lia. change (2 ^ 1) with 2. lia. }
  assert (j + 1 <= SHMBUF_CHUNKSZ_MAX_BIT) as Hj1.
  { unfold SHMBUF_CHUNKSZ_MAX_BIT. apply (Z.pow_le_mono_r_iff 2); lia. }
  (* the first turn of the loop merges the two halves *)
  assert (exists s1,
            free_loop USE_ASSERT_CHECKING size
              (S (Z.to_nat (SHMBUF_CHUNKSZ_MAX_BIT + 1 - (j + 1)))) base x s
            = free_loop USE_ASSERT_CHECKING size
                (Z.to_nat (SHMBUF_CHUNKSZ_MAX_BIT + 1 - (j + 1))) base lo s1 /\
            seg_inv base size (Some lo) (l1 ++ (lo, j + 1, false) :: l2) s1)
    as (s1 & Hstep & Hinv1).
  { destruct Hxy as [(-> & -> & ->)|(-> & -> & ->)].
    - destruct (inv_hdr _ _ _ _ _ Hinv0 _ Hin_hi) as (Hbc & Hbm & Hbf).
      unfold ce_addr, ce_class, ce_free in Hbc, Hbm, Hbf; simpl in Hbc, Hbm, Hbf.
      specialize (Hbf ltac:(intros [= ?]; lia)).
      destruct (free_loop_merge_up USE_ASSERT_CHECKING base size
                  (Z.to_nat (SHMBUF_CHUNKSZ_MAX_BIT + 1 - (j + 1))) lo j s
                  Hmc ltac:(lia) Hoff (buddy_bit_of_lower _ _ Hj0 Hdiv) ltac:(lia)
                  Hbm Hbc Hbf)
        as (s1 & Hrun & Hfc & Hx & Hb & Hframe & Hna & _).
      exists s1. split; [done|].
      apply (seg_inv_merge base size l1 l2 lo j false true lo (lo + 2 ^ j) s s1);
        try done.
      + by left.
      + by rewrite Hx.
      + rewrite Hx. simpl. by destruct (inv_hdr _ _ _ _ _ Hinv0 _ Hin_lo) as (_ & ? & _).
    - destruct (inv_hdr _ _ _ _ _ Hinv0 _ Hin_lo) as (Hbc & Hbm & Hbf).
      unfold ce_addr, ce_class, ce_free in Hbc, Hbm, Hbf; simpl in Hbc, Hbm, Hbf.
      specialize (Hbf ltac:(intros [= ?]; lia)).
      assert (Z.land (lo + 2 ^ j - base) (2 ^ j) ≠ 0) as Hland.
      { replace (lo + 2 ^ j - base) with ((lo - base) + 2 ^ j) by lia.
        by apply buddy_bit_of_upper. }
      replace lo with (lo + 2 ^ j - 2 ^ j) in Hbc, Hbm, Hbf by lia.
      destruct (free_loop_merge_down USE_ASSERT_CHECKING base size
                  (Z.to_nat (SHMBUF_CHUNKSZ_MAX_BIT + 1 - (j + 1))) (lo + 2 ^ j) j s
                  Hmc ltac:(lia) Hoff Hland ltac:(lia) Hbm Hbc Hbf)
        as (s1 & Hrun & Hfc & Hb & Hx & Hframe & Hna & _).
      replace (lo + 2 ^ j - 2 ^ j) with lo in * by lia.
      exists s1. split; [done|].
      apply (seg_inv_merge base size l1 l2 lo j true false (lo + 2 ^ j) lo s s1);
        try done.
      + by right.
      + by rewrite Hb.
      + by rewrite Hb.
      + intros b0 Hb1 Hb2. by apply Hframe. }
  assert ((lo, j + 1, false) ∈ l1 ++ (lo, j + 1, false) :: l2) as Hin1
    by (apply elem_of_app; right; left).
  destruct (free_loop_spec USE_ASSERT_CHECKING base size
              (Z.to_nat (SHMBUF_CHUNKSZ_MAX_BIT + 1 - (j + 1))) lo (j + 1) _ s1
              Hinv1 Hin1 Hsize ltac:(lia))
    as (x' & j' & cs2 & s2 & Hrun & Hinv2 & Hin2 & Hjj & Hxx & Hspan & _).
  destruct (seg_inv_flight_entry _ _ _ _ _ _ Hinv2 Hin2) as (_ & Hj' & _).
  destruct (seg_inv_list_lookup _ _ _ _ _ j' Hinv2 Hj') as (l & Hl & _).
  pose proof Hin2 as Hsplit. apply list_elem_of_split in Hsplit as (m1 & m2 & ->).
  destruct (free_chunk_run USE_ASSERT_CHECKING size head id x j s x' j' m1 m2 s2 l
              Hmc Hj Hsize Hguard) as (s' & Hfree & Hinv' & _); [|done|done|].
  { replace (Z.to_nat (SHMBUF_CHUNKSZ_MAX_BIT + 1 - j))
      with (S (Z.to_nat (SHMBUF_CHUNKSZ_MAX_BIT + 1 - (j + 1)))) by lia.
    by rewrite Hstep. }
  exists s1. eexists _, s', _, x', j'.
  split.
  { replace (Z.to_nat (SHMBUF_CHUNKSZ_MAX_BIT + 1 - j))
      with (S (Z.to_nat (SHMBUF_CHUNKSZ_MAX_BIT + 1 - (j + 1)))) by lia.
    replace (Z.to_nat (SHMBUF_CHUNKSZ_MAX_BIT - j))
      with (Z.to_nat (SHMBUF_CHUNKSZ_MAX_BIT + 1 - (j + 1))) by lia.
    exact Hstep. }
  split; [exact Hinv1|].
  split; [exact Hfree|]. split; [done|].
  split; [apply elem_of_app; right; left|]. split; [done|]. split; [done|lia].
Qed.

End Siblings.

(** ** Allocation and release in a segment that is one free chunk *)

Lemma head_entry_unique (e : chunk_entry) l l1 l2 e' :
  e :: l = l1 ++ e' :: l2 -> ce_addr e' = ce_addr e ->
  NoDup (ce_addr <$> (e :: l)) ->
  l1 = [] /\ e' = e /\ l2 = l.
Proof.
  intros Heq Ha Hnd. destruct l1 as [|e1 l1]; simpl in Heq.
  - injection Heq as -> ->. done.
  - injection Heq as -> ->.
    rewrite fmap_cons in Hnd. apply NoDup_cons in Hnd as [Hnin _].
    exfalso. apply Hnin. rewrite <- Ha. apply list_elem_of_fmap_2.
    apply elem_of_app. right. left.
Qed.

Lemma rungs_succ base c d :
  rungs base c (S d) = (base + 2 ^ c, c, true) :: rungs base (c + 1) d.
Proof. done. Qed.

Lemma lists_all_nil (L : list (list Z)) n :
  length L = n -> (forall i, (i < n)%nat -> L !! i = Some []) -> L = replicate n [].
Proof.
  intros Hlen Hall. apply list_eq. intros i.
  destruct (decide (i < n)%nat) as [Hi|Hi].
  - rewrite Hall by done. symmetry. by apply lookup_replicate_2.
  - rewrite !lookup_ge_None_2; [done| |]; [rewrite length_replicate|]; lia.
Qed.

Lemma pow2_inj i j : 0 <= i -> 0 <= j -> 2 ^ i = 2 ^ j -> i = j.
Proof. intros Hi Hj Heq. apply (Z.pow_inj_r 2); lia. Qed.

Section Ladder.

Variable USE_ASSERT_CHECKING : bool.
Variables size head : Z.
Variable id : nat.
Variable K : Z.
Hypothesis Hsize : size = 2 ^ K.
Hypothesis HK : SHMBUF_CHUNKSZ_MIN_BIT <= K <= SHMBUF_CHUNKSZ_MAX_BIT.

Local Abbreviation base := (shmBufferSegmentMmapPtr size head id).

Lemma size_le : size <= 2 ^ 32.
Proof.
  rewrite Hsize. apply Z.pow_le_mono_r; unfold SHMBUF_CHUNKSZ_MAX_BIT in *; lia.
Qed.

Lemma ladder_lookup c fl free s k :
  ladder base K c fl free s ->
  SHMBUF_CHUNKSZ_MIN_BIT <= k <= SHMBUF_CHUNKSZ_MAX_BIT ->
  free_chunks (sg s) !! Z.to_nat (k - SHMBUF_CHUNKSZ_MIN_BIT) =
  Some (ladder_list base K c (if free then [base] else []) k).
Proof.
  intros [_ Hl] Hk. rewrite Hl.
  - do 2 f_equal. lia.
  - unfold NUM_CLASSES, SHMBUF_CHUNKSZ_MIN_BIT, SHMBUF_CHUNKSZ_MAX_BIT in *. lia.
Qed.

Lemma ladder_NoDup c fl free s :
  ladder base K c fl free s ->
  NoDup (ce_addr <$> ((base, c, free) :: rungs base c (Z.to_nat (K - c)))).
Proof.
  intros [Hinv _]. eapply tiles_NoDup.
  - eapply seg_inv_classes_ok, Hinv.
  - apply (inv_tiles _ _ _ _ _ Hinv).
Qed.

(** A segment that is one free chunk is at the top of the ladder. *)
Lemma ladder_fresh s :
  seg_inv base size None [(base, K, true)] s -> ladder base K K None true s.
Proof.
  intros Hinv. split.
  - rewrite Z.sub_diag. simpl. by rewrite <- Hsize.
  - intros i Hi.
    destruct (lookup_lt_is_Some_2 (free_chunks (sg s)) i) as [l Hl].
    { by rewrite (inv_lists_len _ _ _ _ _ Hinv). }
    rewrite Hl. f_equal.
    pose proof (inv_lists _ _ _ _ _ Hinv _ _ Hl) as Hp.
    unfold ladder_list.
    destruct (Z.eqb_spec (Z.of_nat i + SHMBUF_CHUNKSZ_MIN_BIT) K) as [Heq|Hne].
    + rewrite free_of_class_this in Hp by done.
      change (free_of_class _ []) with (@nil Z) in Hp.
      apply Permutation_singleton_r in Hp. subst l.
      destruct (Z.leb_spec K (Z.of_nat i + SHMBUF_CHUNKSZ_MIN_BIT)),
               (Z.ltb_spec (Z.of_nat i + SHMBUF_CHUNKSZ_MIN_BIT) K); simpl; try done; lia.
    + rewrite free_of_class_other in Hp by (unfold ce_class; simpl; intros [_ ?]; done).
      change (free_of_class _ []) with (@nil Z) in Hp.
      apply Permutation_nil_r in Hp. subst l.
      destruct (Z.leb_spec K (Z.of_nat i + SHMBUF_CHUNKSZ_MIN_BIT)),
               (Z.ltb_spec (Z.of_nat i + SHMBUF_CHUNKSZ_MIN_BIT) K); simpl; try done; lia.
Qed.

(** One split takes the ladder one class down. *)
Lemma halves_ladder k s :
  ladder base K k None true s ->
  SHMBUF_CHUNKSZ_MIN_BIT < k <= K ->
  exists s',
    split_halves USE_ASSERT_CHECKING k s = Ret true s' /\
    ladder base K (k - 1) None true s'.
Proof.
  intros Hlad Hk. pose proof Hlad as [Hinv Hlists].
  rewrite <- Hsize in Hinv.
  assert (SHMBUF_CHUNKSZ_MIN_BIT <= k <= SHMBUF_CHUNKSZ_MAX_BIT) as Hk' by lia.
  pose proof (ladder_lookup _ _ _ _ k Hlad Hk') as Hl.
  unfold ladder_list in Hl. rewrite Z.eqb_refl in Hl. simpl in Hl.
  destruct (split_halves_inv USE_ASSERT_CHECKING base size _ s k base _ Hinv
              ltac:(lia) Hl)
    as (s' & l1 & l2 & lk1 & Hrun & Hcs & Hinv' & Hlk1 & Hfc & _).
  destruct (head_entry_unique _ _ _ _ _ Hcs eq_refl (ladder_NoDup _ _ _ _ Hlad))
    as (-> & _ & ->).
  assert (lk1 = []) as ->.
  { pose proof (ladder_lookup _ _ _ _ (k - 1) Hlad
                  ltac:(unfold SHMBUF_CHUNKSZ_MIN_BIT in *; lia)) as Hl1.
    replace (k - 1 - SHMBUF_CHUNKSZ_MIN_BIT) with (k - SHMBUF_CHUNKSZ_MIN_BIT - 1) in Hl1 by lia.
    rewrite Hlk1 in Hl1. injection Hl1 as ->. unfold ladder_list.
    destruct (Z.eqb_spec (k - 1) k); [lia|].
    destruct (Z.leb_spec k (k - 1)); [lia|]. done. }
  exists s'. split; [done|]. split.
  - rewrite <- Hsize. simpl in Hinv'.
    replace (Z.to_nat (K - (k - 1))) with (S (Z.to_nat (K - k))) by lia.
    rewrite rungs_succ. by replace (k - 1 + 1) with k by lia.
  - intros i Hi. rewrite Hfc. simpl.
    pose proof (Hlists i Hi) as Hold.
    pose proof (inv_lists_len _ _ _ _ _ Hinv) as Hlen.
    set (k' := Z.of_nat i + SHMBUF_CHUNKSZ_MIN_BIT) in *.
    destruct (decide (i = Z.to_nat (k - SHMBUF_CHUNKSZ_MIN_BIT - 1))) as [->|Hi1].
    + rewrite list_lookup_insert_eq by (rewrite length_insert; lia).
      f_equal. unfold ladder_list.
      assert (k' = k - 1) as -> by (unfold k'; lia).
      rewrite Z.eqb_refl.
      destruct (Z.leb_spec (k - 1) (k - 1)); [|lia].
      destruct (Z.ltb_spec (k - 1) K); [|lia]. done.
    + rewrite list_lookup_insert_ne by done.
      destruct (decide (i = Z.to_nat (k - SHMBUF_CHUNKSZ_MIN_BIT))) as [->|Hi0].
      * rewrite list_lookup_insert_eq by lia.
        f_equal. unfold ladder_list.
        assert (k' = k) as -> by (unfold k'; lia).
        destruct (Z.eqb_spec k (k - 1)); [lia|].
        destruct (Z.leb_spec k k); [|lia].
        destruct (Z.leb_spec (k - 1) k); [|lia]. done.
      * rewrite list_lookup_insert_ne by done. rewrite Hold. f_equal.
        unfold ladder_list.
        assert (k' ≠ k /\ k' ≠ k - 1) as [Hn1 Hn2] by (unfold k'; lia).
        destruct (Z.eqb_spec k' k); [lia|].
        destruct (Z.eqb_spec k' (k - 1)); [lia|].
        destruct (Z.leb_spec k k'), (Z.leb_spec (k - 1) k'); try lia; done.
Qed.

(** [shmBufferSplitChunk(seg, k)] on the ladder at class [j >= k]. *)
Lemma split_ladder fuel k j s :
  ladder base K j None true s ->
  SHMBUF_CHUNKSZ_MIN_BIT < k <= j -> j <= K ->
  (Z.to_nat (j - k) < fuel)%nat ->
  exists s',
    shmBufferSplitChunk_rec USE_ASSERT_CHECKING fuel k s = Ret true s' /\
    ladder base K (k - 1) None true s'.
Proof.
  revert k. induction fuel as [|fuel IH]; intros k Hlad Hk Hj Hfuel; [lia|].
  assert (SHMBUF_CHUNKSZ_MIN_BIT <= k <= SHMBUF_CHUNKSZ_MAX_BIT) as Hk' by lia.
  pose proof (ladder_lookup _ _ _ _ k Hlad Hk') as Hl.
  pose proof (mindex_range k Hk') as Hi.
  simpl. unfold bind at 1.
  assert ((SHMBUF_CHUNKSZ_MIN_BIT <? k) && (k <=? SHMBUF_CHUNKSZ_MAX_BIT) = true) as ->.
  { apply andb_true_intro. split; [apply Z.ltb_lt|apply Z.leb_le]; lia. }
  rewrite Assert_true. unfold bind at 1.
  rewrite (dlist_is_empty_Ret _ s _ Hi Hl).
  destruct (decide (k = j)) as [->|Hne].
  - unfold ladder_list. rewrite Z.eqb_refl. simpl. unfold bind. simpl.
    apply halves_ladder; [done|lia].
  - unfold ladder_list.
    destruct (Z.eqb_spec k j); [lia|].
    destruct (Z.leb_spec j k); [lia|]. simpl.
    destruct (Z.leb_spec SHMBUF_CHUNKSZ_MAX_BIT k); [lia|].
    destruct (IH (k + 1) Hlad ltac:(lia) Hj ltac:(lia)) as (s1 & Hrun & Hlad1).
    unfold bind. rewrite Hrun. simpl.
    replace (k + 1 - 1) with k in Hlad1 by lia.
    apply halves_ladder; [done|lia].
Qed.


(** The chunk at the base of the ladder is taken into use. *)
Lemma take_ladder n c s :
  plain_request n ->
  ladder base K c None true s ->
  SHMBUF_CHUNKSZ_MIN_BIT <= c <= K ->
  exists s',
    (chunk <- dlist_pop_head_node (c - SHMBUF_CHUNKSZ_MIN_BIT) ;;
     c0 <- read_chunk chunk ;;
     Assert USE_ASSERT_CHECKING (mclass c0 =? c) ;;;
     Assert USE_ASSERT_CHECKING (magic_head c0 =? SHMBUF_CHUNK_MAGIC_CODE) ;;;
     update_chunk chunk (set_chain false) ;;;
     update_chunk chunk (set_required n) ;;;
     update_chunk chunk (set_seg (Some id)) ;;;
     update_memory (write_magic_tail chunk n) ;;;
     modify (fun s => mkSegst (set_num_actives (wrap32 (num_actives (sg s) + 1)) (sg s)) (sm s)) ;;;
     ret (Some chunk)) s = Ret (Some base) s' /\
    ladder base K c None false s' /\
    load_chunk (sm s') base = mkChunk false n c SHMBUF_CHUNK_MAGIC_CODE (Some id) /\
    load32 (sm s') (magic_tail_addr base n) = SHMBUF_CHUNK_MAGIC_CODE /\
    revision (sg s') = revision (sg s).
Proof.
  intros Hn Hlad Hc. pose proof Hlad as [Hinv Hlists].
  rewrite <- Hsize in Hinv.
  assert (SHMBUF_CHUNKSZ_MIN_BIT <= c <= SHMBUF_CHUNKSZ_MAX_BIT) as Hc' by lia.
  pose proof (ladder_lookup _ _ _ _ c Hlad Hc') as Hl.
  unfold ladder_list in Hl. rewrite Z.eqb_refl in Hl. simpl in Hl.
  destruct (alloc_take_inv USE_ASSERT_CHECKING base size id n c _ s base _
              Hn Hinv size_le Hc' Hl)
    as (s' & cs' & Hrun & (Hinv' & _ & Hh & Htail & Hrev & _) & Hfc & l1 & l2 & Hcs & ->).
  destruct (head_entry_unique _ _ _ _ _ Hcs eq_refl (ladder_NoDup _ _ _ _ Hlad))
    as (-> & _ & ->).
  exists s'. split; [done|]. split; [|done]. split.
  - by rewrite <- Hsize.
  - intros i Hi. rewrite Hfc.
    pose proof (Hlists i Hi) as Hold.
    pose proof (inv_lists_len _ _ _ _ _ Hinv) as Hlen.
    set (k' := Z.of_nat i + SHMBUF_CHUNKSZ_MIN_BIT) in *.
    destruct (decide (i = Z.to_nat (c - SHMBUF_CHUNKSZ_MIN_BIT))) as [->|Hi0].
    + rewrite list_lookup_insert_eq by lia. f_equal. unfold ladder_list.
      assert (k' = c) as -> by (unfold k'; lia).
      by rewrite Z.eqb_refl.
    + rewrite list_lookup_insert_ne by done. rewrite Hold. f_equal.
      unfold ladder_list.
      assert (k' ≠ c) by (unfold k'; lia).
      by destruct (Z.eqb_spec k' c); [lia|].
Qed.

(** [__shmBufferAllocChunkFromSegment] in a segment that is one free
    chunk: the chunk at the base is returned. *)
Lemma alloc_ladder n c s :
  plain_request n ->
  ladder base K K None true s ->
  class_of_request n = Some c -> c <= K ->
  exists s',
    __shmBufferAllocChunkFromSegment USE_ASSERT_CHECKING id n s = Ret (Some base) s' /\
    ladder base K c None false s' /\
    load_chunk (sm s') base = mkChunk false n c SHMBUF_CHUNK_MAGIC_CODE (Some id) /\
    load32 (sm s') (magic_tail_addr base n) = SHMBUF_CHUNK_MAGIC_CODE /\
    revision (sg s') = revision (sg s).
Proof.
  intros Hn Hlad Hcls HcK.
  destruct (class_of_request_Some _ _ Hcls) as (Hc & _).
  pose proof (ladder_lookup _ _ _ _ c Hlad Hc) as Hl.
  pose proof (mindex_range c Hc) as Hi.
  unfold __shmBufferAllocChunkFromSegment. rewrite Hcls.
  unfold bind at 1. rewrite (dlist_is_empty_Ret _ s _ Hi Hl).
  destruct (decide (c = K)) as [->|Hne].
  - unfold ladder_list. rewrite Z.eqb_refl. simpl. unfold bind at 1. simpl.
    apply take_ladder; [done|done|lia].
  - unfold ladder_list.
    destruct (Z.eqb_spec c K); [lia|].
    destruct (Z.leb_spec K c); [lia|]. simpl.
    destruct (split_ladder (Z.to_nat (SHMBUF_CHUNKSZ_MAX_BIT + 2 - (c + 1))) (c + 1) K s
                Hlad ltac:(lia) ltac:(lia) ltac:(lia)) as (s1 & Hrun & Hlad1).
    unfold bind at 1, shmBufferSplitChunk. rewrite Hrun. simpl.
    replace (c + 1 - 1) with c in Hlad1 by lia.
    destruct (take_ladder n c s1 Hn Hlad1 ltac:(lia)) as (s' & Htake & Hlad' & Hh & Ht & Hrev).
    exists s'. split; [done|]. split; [done|]. split; [done|]. split; [done|].
    rewrite Hrev.
    (* the revision is not touched by the splits *)
    destruct Hlad as [Hinv _]. rewrite <- Hsize in Hinv.
    destruct (split_rec_spec USE_ASSERT_CHECKING base size
                (Z.to_nat (SHMBUF_CHUNKSZ_MAX_BIT + 2 - (c + 1))) (c + 1) _ s
                Hinv ltac:(lia) ltac:(lia)) as (b & s1' & Hrun' & Hpost).
    rewrite Hrun in Hrun'. injection Hrun' as <- <-.
    by destruct Hpost as (? & ? & ? & _ & _ & _ & _ & ? & _).
Qed.

(** The coalescing loop climbs the ladder up to the class of the
    segment. *)
Lemma loop_ladder d :
  forall c s fuel,
    d = Z.to_nat (K - c) ->
    SHMBUF_CHUNKSZ_MIN_BIT <= c <= K ->
    ladder base K c (Some base) false s ->
    (d <= fuel)%nat ->
    exists s',
      free_loop USE_ASSERT_CHECKING size fuel base base s = Ret base s' /\
      ladder base K K (Some base) false s' /\
      revision (sg s') = revision (sg s).
Proof.
  induction d as [|d IH]; intros c s fuel Hd Hc Hlad Hfuel.
  - assert (c = K) as -> by lia. exists s. split; [|done].
    destruct Hlad as [Hinv _]. rewrite <- Hsize in Hinv.
    destruct (inv_hdr _ _ _ _ _ Hinv (base, K, false) ltac:(left)) as (Hmc & _).
    apply (free_loop_stop_up USE_ASSERT_CHECKING base size fuel base K s Hmc).
    + rewrite Z.sub_diag. done.
    + rewrite Z.sub_diag. apply Z.land_0_l.
    + left. lia.
  - destruct fuel as [|fuel]; [lia|].
    assert (c < K) as HcK by lia.
    assert (0 <= c) as Hc0 by (unfold SHMBUF_CHUNKSZ_MIN_BIT in *; lia).
    pose proof (pow2_pos c Hc0) as Hpos.
    pose proof Hlad as [Hinv Hlists]. rewrite <- Hsize in Hinv.
    replace (Z.to_nat (K - c)) with (S (Z.to_nat (K - (c + 1)))) in Hinv by lia.
    rewrite rungs_succ in Hinv.
    destruct (inv_hdr _ _ _ _ _ Hinv (base, c, false) ltac:(left)) as (Hmc & Hmg & _).
    destruct (inv_hdr _ _ _ _ _ Hinv (base + 2 ^ c, c, true) ltac:(right; left))
      as (Hbc & Hbm & Hbf).
    unfold ce_addr, ce_class, ce_free in Hmc, Hmg, Hbc, Hbm, Hbf;
      simpl in Hmc, Hmg, Hbc, Hbm, Hbf.
    specialize (Hbf ltac:(intros [= ?]; lia)).
    assert (2 ^ c < 2 ^ K) as Hlt by (apply Z.pow_lt_mono_r; lia).
    destruct (free_loop_merge_up USE_ASSERT_CHECKING base size fuel base c s
                Hmc ltac:(unfold SHMBUF_CHUNKSZ_MAX_BIT in *; lia)
                ltac:(rewrite Z.sub_diag; done)
                ltac:(rewrite Z.sub_diag; apply Z.land_0_l) ltac:(lia) Hbm Hbc Hbf)
      as (s1 & Hrun & Hfc & Hx & Hb & Hframe & Hna & Hrev & _).
    assert (ladder base K (c + 1) (Some base) false s1) as Hlad1.
    { split.
      - rewrite <- Hsize.
        apply (seg_inv_merge base size [] _ base c false true base (base + 2 ^ c) s s1);
          try done.
        + by left.
        + rewrite Z.sub_diag. apply Z.divide_0_r.
        + apply size_le.
        + by rewrite Hx.
        + by rewrite Hx.
      - intros i Hi. rewrite Hfc, list_lookup_fmap, (Hlists i Hi). simpl. f_equal.
        set (k' := Z.of_nat i + SHMBUF_CHUNKSZ_MIN_BIT).
        assert (0 <= k') as Hk0 by (unfold k', SHMBUF_CHUNKSZ_MIN_BIT; lia).
        unfold ladder_list. simpl.
        replace (if k' =? c then [] else []) with (@nil Z) by (by destruct (k' =? c)).
        replace (if k' =? c + 1 then [] else []) with (@nil Z)
          by (by destruct (k' =? c + 1)).
        destruct (Z.leb_spec c k'), (Z.leb_spec (c + 1) k'), (Z.ltb_spec k' K);
          simpl; try lia; try done.
        + rewrite filter_cons, decide_True; [done|].
          intros Heq. assert (2 ^ k' = 2 ^ c) as Hp by lia.
          apply pow2_inj in Hp; lia.
        + assert (k' = c) as -> by lia.
          by rewrite filter_cons, decide_False by (intros ?; done). }
    destruct (IH (c + 1) s1 fuel ltac:(lia) ltac:(lia) Hlad1 ltac:(lia))
      as (s' & Hrun' & Hlad' & Hrev').
    exists s'. split; [by rewrite Hrun|]. split; [done|congruence].
Qed.

(** Allocating from a segment that is one free chunk and freeing the
    chunk again gives back a segment that is one free chunk. *)
Lemma alloc_free_ladder n c s :
  plain_request n ->
  ladder base K K None true s ->
  class_of_request n = Some c -> c <= K ->
  exists s1 s2,
    __shmBufferAllocChunkFromSegment USE_ASSERT_CHECKING id n s = Ret (Some base) s1 /\
    shmBufferFreeChunk USE_ASSERT_CHECKING size head id base s1 = Ret true s2 /\
    ladder base K K None true s2 /\
    revision (sg s2) = revision (sg s).
Proof.
  intros Hn Hlad Hcls HcK.
  destruct (class_of_request_Some _ _ Hcls) as (Hc & _).
  destruct (alloc_ladder n c s Hn Hlad Hcls HcK) as (s1 & Halloc & Hlad1 & Hh & Ht & Hrev1).
  assert (ladder base K c (Some base) false s1) as Hlad1'.
  { destruct Hlad1 as [Hinv Hl]. split; [|done].
    rewrite <- Hsize in Hinv |- *.
    eapply seg_inv_start; [exact Hinv|by left]. }
  destruct (loop_ladder (Z.to_nat (K - c)) c s1 (Z.to_nat (SHMBUF_CHUNKSZ_MAX_BIT + 1 - c))
              eq_refl ltac:(lia) Hlad1' ltac:(lia)) as (s1' & Hloop & Hlad2 & Hrev2).
  pose proof (ladder_lookup _ _ _ _ K Hlad2 HK) as Hl2.
  unfold ladder_list in Hl2. rewrite Z.eqb_refl, Z.ltb_irrefl, andb_false_r in Hl2.
  simpl in Hl2.
  pose proof Hlad2 as [Hinv2 Hlists2].
  rewrite Z.sub_diag in Hinv2. simpl in Hinv2. rewrite <- Hsize in Hinv2.
  destruct (free_chunk_run USE_ASSERT_CHECKING size head id base c s1 base K [] [] s1' [])
    as (s2 & Hfree & Hinv3 & Hfc & Hrev3 & _); try done.
  - by rewrite Hh.
  - apply size_le.
  - intros _. unfold SHMBUF_CHUNK_CHECK_MAGIC, SHMBUF_CHUNK_MAGIC_HEAD,
      SHMBUF_CHUNK_MAGIC_TAIL. rewrite Hh. simpl. rewrite Ht.
    by rewrite Z.eqb_refl.
  - exists s1, s2. split; [done|]. split; [done|]. split; [|congruence].
    split.
    + rewrite Z.sub_diag. simpl. by rewrite <- Hsize.
    + intros i Hi. rewrite Hfc.
      pose proof (inv_lists_len _ _ _ _ _ Hinv2) as Hlen.
      set (k' := Z.of_nat i + SHMBUF_CHUNKSZ_MIN_BIT).
      destruct (decide (i = Z.to_nat (K - SHMBUF_CHUNKSZ_MIN_BIT))) as [->|Hi0].
      * rewrite list_lookup_insert_eq by lia. f_equal. unfold ladder_list.
        assert (k' = K) as -> by (unfold k'; lia).
        by rewrite Z.eqb_refl, Z.ltb_irrefl, andb_false_r.
      * rewrite list_lookup_insert_ne by done. rewrite (Hlists2 i Hi). f_equal.
        fold k'. unfold ladder_list.
        assert (k' ≠ K) by (unfold k'; lia).
        by destruct (Z.eqb_spec k' K); [lia|].
Qed.

(** The free lists of a segment that is one free chunk. *)
Lemma ladder_top_lists s :
  ladder base K K None true s ->
  free_chunks (sg s) =
    <[Z.to_nat (K - SHMBUF_CHUNKSZ_MIN_BIT) := [base]]>
      (replicate (Z.to_nat NUM_CLASSES) []) /\
  num_actives (sg s) = 0.
Proof.
  intros [Hinv Hl]. rewrite Z.sub_diag in Hinv. simpl in Hinv. split.
  - apply list_eq. intros i.
    pose proof (inv_lists_len _ _ _ _ _ Hinv) as Hlen.
    destruct (decide (i < Z.to_nat NUM_CLASSES)%nat) as [Hi|Hi].
    + rewrite (Hl i Hi). unfold ladder_list.
      destruct (decide (i = Z.to_nat (K - SHMBUF_CHUNKSZ_MIN_BIT))) as [->|Hi0].
      * rewrite list_lookup_insert_eq by (rewrite length_replicate; lia).
        replace (Z.of_nat (Z.to_nat (K - SHMBUF_CHUNKSZ_MIN_BIT)) + SHMBUF_CHUNKSZ_MIN_BIT)
          with K by lia.
        by rewrite Z.eqb_refl, Z.ltb_irrefl, andb_false_r.
      * rewrite list_lookup_insert_ne by done.
        rewrite lookup_replicate_2 by done.
        destruct (Z.eqb_spec (Z.of_nat i + SHMBUF_CHUNKSZ_MIN_BIT) K); [lia|].
        destruct (Z.leb_spec K (Z.of_nat i + SHMBUF_CHUNKSZ_MIN_BIT)),
                 (Z.ltb_spec (Z.of_nat i + SHMBUF_CHUNKSZ_MIN_BIT) K); simpl; try done; lia.
    + rewrite !lookup_ge_None_2; [done| |lia].
      rewrite length_insert, length_replicate. lia.
  - by rewrite (inv_actives _ _ _ _ _ Hinv).
Qed.

End Ladder.

(** ** The chunks of a segment add up to the segment *)



(** ** C8: allocation followed by release, and the two halves of a split *)

(** C8.  In a segment of [2^K] bytes that is one free chunk of class
    [K], [__shmBufferAllocChunkFromSegment] for a request that fits
    returns the chunk at the base of the segment, and
    [shmBufferFreeChunk] of that chunk reports the segment empty and
    leaves it as one free chunk of class [K] again: the free list of
    class [K] holds the base, every other list is empty, and
    [num_actives] is zero.  Moreover, one split of a free chunk of
    class [k] at [a] makes two free chunks of class [k - 1] at [a] and
    [a + 2^(k-1)], and whenever two such halves lie side by side, one of
    them free and the other one being released, the first turn of the
    loop in [shmBufferFreeChunk] joins them into one chunk of class
    [j + 1] at the address of the lower half, whichever half is the one
    released last; the call returns and leaves a free chunk that
    contains both. *)
Theorem C8_release_undoes_allocation
    (USE_ASSERT_CHECKING : bool) (size head : Z) (id : nat) (K : Z) :
  size = 2 ^ K ->
  SHMBUF_CHUNKSZ_MIN_BIT <= K <= SHMBUF_CHUNKSZ_MAX_BIT ->
  let base := shmBufferSegmentMmapPtr size head id in
  (forall n c s,
     seg_inv base size None [(base, K, true)] s ->
     plain_request n -> class_of_request n = Some c -> c <= K ->
     exists s1 s2,
       __shmBufferAllocChunkFromSegment USE_ASSERT_CHECKING id n s = Ret (Some base) s1 /\
       shmBufferFreeChunk USE_ASSERT_CHECKING size head id base s1 = Ret true s2 /\
       seg_inv base size None [(base, K, true)] s2 /\
       free_chunks (sg s2) =
         <[Z.to_nat (K - SHMBUF_CHUNKSZ_MIN_BIT) := [base]]>
           (replicate (Z.to_nat NUM_CLASSES) []) /\
       free_chunks (sg s2) = free_chunks (sg s) /\
       num_actives (sg s2) = 0) /\
  (forall cs s k a rest,
     seg_inv base size None cs s ->
     SHMBUF_CHUNKSZ_MIN_BIT < k <= SHMBUF_CHUNKSZ_MAX_BIT ->
     free_chunks (sg s) !! Z.to_nat (k - SHMBUF_CHUNKSZ_MIN_BIT) = Some (a :: rest) ->
     exists s' l1 l2,
       split_halves USE_ASSERT_CHECKING k s = Ret true s' /\
       cs = l1 ++ (a, k, true) :: l2 /\
       (2 ^ k | a - base) /\
       seg_inv base size None
         (l1 ++ (a, k - 1, true) :: (a + 2 ^ (k - 1), k - 1, true) :: l2) s') /\
  (forall l1 l2 lo j f1 f2 x s,
     seg_inv base size None (l1 ++ (lo, j, f1) :: (lo + 2 ^ j, j, f2) :: l2) s ->
     (2 ^ (j + 1) | lo - base) ->
     (x = lo /\ f1 = false /\ f2 = true) \/ (x = lo + 2 ^ j /\ f1 = true /\ f2 = false) ->
     (USE_ASSERT_CHECKING = true -> SHMBUF_CHUNK_CHECK_MAGIC (sm s) x = true) ->
     exists s1 b s' cs' x' j',
       free_loop USE_ASSERT_CHECKING size
         (Z.to_nat (SHMBUF_CHUNKSZ_MAX_BIT + 1 - j)) base x s
       = free_loop USE_ASSERT_CHECKING size
           (Z.to_nat (SHMBUF_CHUNKSZ_MAX_BIT - j)) base lo s1 /\
       seg_inv base size (Some lo) (l1 ++ (lo, j + 1, false) :: l2) s1 /\
       shmBufferFreeChunk USE_ASSERT_CHECKING size head id x s = Ret b s' /\
       seg_inv base size None cs' s' /\
       (x', j', true) ∈ cs' /\
       j + 1 <= j' /\ x' <= lo /\ lo + 2 ^ (j + 1) <= x' + 2 ^ j').
Proof.
  intros Hsize HK base.
  assert (size <= 2 ^ 32) as Hle.
  { rewrite Hsize. apply Z.pow_le_mono_r; unfold SHMBUF_CHUNKSZ_MAX_BIT in *; lia. }
  split; [|split].
  - intros n c s Hinv Hn Hcls HcK.
    pose proof (ladder_fresh size head id K Hsize s Hinv) as Hlad.
    destruct (alloc_free_ladder USE_ASSERT_CHECKING size head id K Hsize HK n c s
                Hn Hlad Hcls HcK) as (s1 & s2 & Halloc & Hfree & Hlad2 & _).
    destruct (ladder_top_lists size head id K HK s Hlad) as [Hl0 _].
    destruct (ladder_top_lists size head id K HK s2 Hlad2) as [Hl2 Hn2].
    exists s1, s2. split; [done|]. split; [done|]. split.
    + destruct Hlad2 as [Hinv2 _]. rewrite Z.sub_diag in Hinv2. simpl in Hinv2.
      by rewrite Hsize.
    + split; [done|]. split; [congruence|done].
  - intros cs s k a rest Hinv Hk Hl.
    destruct (split_halves_inv USE_ASSERT_CHECKING base size cs s k a rest Hinv Hk Hl)
      as (s' & l1 & l2 & lk1 & Hrun & Hcs & Hinv' & _).
    exists s', l1, l2. split; [done|]. split; [done|]. split; [|done].
    destruct (inv_class _ _ _ _ _ Hinv (a, k, true)) as [_ Hal].
    { rewrite Hcs. apply elem_of_app. right. left. }
    unfold ce_addr, ce_class in Hal; simpl in Hal.
    apply Z.mod_divide; [|done].
    apply Z.pow_nonzero; unfold SHMBUF_CHUNKSZ_MIN_BIT in *; lia.
  - intros l1 l2 lo j f1 f2 x s Hinv Hdiv Hxy Hguard.
    by apply (siblings_merge USE_ASSERT_CHECKING size head id l1 l2 lo j f1 f2 x s).
Qed.

Lemma C8_release_undoes_allocation_witness :
  exists s s1 s2,
    init_segment ex_size ex_head 0%nat
      (blank_segment ex_size ex_head 0%nat
         (mkSegst (mkSegment 0 0 []) (mkMemory ∅ ∅))) = Ret tt s /\
    __shmBufferAllocChunkFromSegment false 0%nat 50 s = Ret (Some ex_head) s1 /\
    shmBufferFreeChunk false ex_size ex_head 0%nat ex_head s1 = Ret true s2 /\
    free_chunks (sg s2) = free_chunks (sg s) /\
    num_actives (sg s2) = 0.
Proof.
  assert (ex_size = 2 ^ 25) as Hsize by reflexivity.
  assert (SHMBUF_CHUNKSZ_MIN_BIT <= 25 <= SHMBUF_CHUNKSZ_MAX_BIT) as HK
    by (unfold SHMBUF_CHUNKSZ_MIN_BIT, SHMBUF_CHUNKSZ_MAX_BIT; lia).
  destruct (init_segment_pow2 ex_size ex_head 0%nat 25 Hsize HK
              (blank_segment ex_size ex_head 0%nat
                 (mkSegst (mkSegment 0 0 []) (mkMemory ∅ ∅))))
    as (s & Hrun & Hinv & _).
  { intros b Hb. by apply clear_range_blank. }
  destruct (C8_release_undoes_allocation false ex_size ex_head 0%nat 25 Hsize HK)
    as (Hrestore & _ & _).
  destruct (Hrestore 50 7 s Hinv) as (s1 & s2 & Halloc & Hfree & _ & _ & Hlists & Hnone).
  - unfold plain_request, chunk_hdrsz, magic_sz. lia.
  - vm_compute. reflexivity.
  - lia.
  - exists s, s1, s2. split; [exact Hrun|]. split; [exact Halloc|].
    split; [exact Hfree|]. split; [exact Hlists|exact Hnone].
Defined.

(** ** C9: what a successful allocation returns *)

Section Returned.

Variable USE_ASSERT_CHECKING : bool.
Variables size head : Z.
Hypothesis Hsize : size <= 2 ^ 32.

(** A step on a segment that changes nothing leaves the directory as
    it is. *)
Lemma on_segment_same {A} id (m : M segst A) w g a :
  segments w !! id = Some g ->
  m (mkSegst g (wmem w)) = Ret a (mkSegst g (wmem w)) ->
  on_segment id m w = Ret a w.
Proof.
  intros Hg Hm. unfold on_segment. rewrite Hg, Hm. f_equal.
  destruct w; unfold set_wmem, set_segments; simpl in *.
  f_equal. by apply list_insert_id.
Qed.

(** The chunk found by the scan of the active list. *)
Lemma scan_active_found l n :
  plain_request n ->
  forall w chunk w',
    (forall id, id ∈ l ->
       exists g cs,
         segments w !! id = Some g /\
         seg_inv (shmBufferSegmentMmapPtr size head id) size None cs
                 (mkSegst g (wmem w))) ->
    scan_active USE_ASSERT_CHECKING l n w = Ret (Some chunk) w' ->
    exists id c,
      id ∈ l /\
      class_of_request n = Some c /\
      load_chunk (wmem w') chunk = mkChunk false n c SHMBUF_CHUNK_MAGIC_CODE (Some id) /\
      chunk_hdrsz + n + magic_sz <= 2 ^ c /\
      (chunk - shmBufferSegmentMmapPtr size head id) mod 2 ^ c = 0 /\
      shmBufferSegmentMmapPtr size head id <= chunk /\
      chunk + 2 ^ c <= shmBufferSegmentMmapPtr size head id + size.
Proof.
  intros Hn. induction l as [|id l IH]; intros w chunk w' Hok Hscan; [done|].
  destruct (Hok id ltac:(left)) as (g & cs & Hg & Hinv).
  simpl in Hscan. apply bind_Ret_inv in Hscan as ([a|] & w1 & Hstep & Hrest).
  - (* the chunk comes from this segment *)
    injection Hrest as <- <-.
    unfold on_segment in Hstep. rewrite Hg in Hstep.
    destruct (alloc_from_segment_spec USE_ASSERT_CHECKING _ size id n cs _ Hn Hinv Hsize)
      as [[_ Hrun]|(c & Hcls & [(_ & _ & Hrun)|[(_ & _ & Hrun)|(a' & s' & cs' & Hrun & Hal)]])];
      rewrite Hrun in Hstep; try discriminate.
    injection Hstep as <- <-.
    destruct Hal as (Hinv' & Hin & Hh & _).
    exists id, c. split; [left|]. split; [done|]. split; [done|].
    destruct (class_of_request_Some _ _ Hcls) as (_ & Hfit & _).
    rewrite chunk_size_of_small in Hfit by done.
    destruct (inv_class _ _ _ _ _ Hinv' _ Hin) as [_ Hal].
    pose proof (tiles_bounds _ _ _ _ (seg_inv_classes_ok _ _ _ _ _ Hinv')
                  (inv_tiles _ _ _ _ _ Hinv') Hin) as [Hlo Hhi].
    unfold ce_addr, ce_class in Hal, Hlo, Hhi; simpl in Hal, Hlo, Hhi.
    unfold chunk_hdrsz, magic_sz. split; [lia|]. done.
  - (* this segment has no chunk for the request and is left as it was *)
    unfold on_segment in Hstep. rewrite Hg in Hstep.
    destruct (alloc_from_segment_spec USE_ASSERT_CHECKING _ size id n cs _ Hn Hinv Hsize)
      as [[_ Hrun]|(c & Hcls & [(_ & _ & Hrun)|[(_ & _ & Hrun)|(a' & s' & cs' & Hrun & Hal)]])];
      rewrite Hrun in Hstep; try discriminate.
    injection Hstep as <-.
    assert (set_wmem (wmem w) (set_segments (<[id := g]> (segments w)) w) = w) as Hsame.
    { destruct w; unfold set_wmem, set_segments; simpl in *.
      f_equal. by apply list_insert_id. }
    simpl in Hrest. rewrite Hsame in Hrest.
    destruct (IH w chunk w') as (id' & c' & Hin & Hrest'); [|done|].
    + intros id' Hid'. apply Hok. by right.
    + exists id', c'. split; [by right|done].
Qed.

End Returned.

(** C9.  For a request [n] whose size computation does not wrap and a
    directory whose active segments are well formed, a successful
    [shmbufAlloc(n)] returns the [data] member of a chunk of the class
    computed for [n]: the chunk is stamped with [n], its span less the
    header and the trailer is at least [n], and the chunk (not the
    pointer returned, which lies [offsetof(shmBufferChunk, data)] bytes
    behind it) starts at a multiple of [2^mclass] from the base of its
    segment and lies inside the segment. *)
Theorem C9_chunk_fits_and_is_aligned
    (USE_ASSERT_CHECKING : bool) (size head : Z) (os : os_results)
    (n : Z) (w : world) (p : Z) (w' : world) :
  size <= 2 ^ 32 ->
  plain_request n ->
  active_segments_ok size head w ->
  shmbufAlloc USE_ASSERT_CHECKING size head os n w = Ret (Some p) w' ->
  exists id c,
    let chunk := SHMBUF_POINTER_GET_CHUNK p in
    let base := shmBufferSegmentMmapPtr size head id in
    id ∈ active_segment_list w /\
    p = chunk_data chunk /\
    class_of_request n = Some c /\
    load_chunk (wmem w') chunk = mkChunk false n c SHMBUF_CHUNK_MAGIC_CODE (Some id) /\
    n <= 2 ^ c - chunk_hdrsz - magic_sz /\
    (chunk - base) mod 2 ^ c = 0 /\
    (p - base) mod 2 ^ c = chunk_hdrsz /\
    base <= chunk /\ chunk + 2 ^ c <= base + size.
Proof.
  intros Hsize Hn Hok Hrun.
  unfold shmbufAlloc in Hrun.
  apply bind_Ret_inv in Hrun as ([] & w0 & Hacq & Hrun).
  unfold SpinLockAcquire in Hacq. destruct (lock w) eqn:Hlock; [done|].
  injection Hacq as <-.
  apply bind_Ret_inv in Hrun as (found & w1 & Htry & Hrun).
  apply bind_Ret_inv in Hrun as ([] & w2 & Hrel & Hrun).
  unfold SpinLockRelease in Hrel. injection Hrel as <-.
  destruct found as [chunk|]; [|done]. injection Hrun as <- <-.
  (* the chunk comes out of the scan of the active list *)
  assert (scan_active USE_ASSERT_CHECKING (active_segment_list w) n (set_lock true w)
          = Ret (Some chunk) w1) as Hscan.
  { unfold PG_TRY in Htry.
    destruct (shmBufferAllocChunk _ _ _ _ _ _) as [r w3|f w3] eqn:Hbody.
    2:{ destruct (is_ERROR f); [|done]. by destruct (SpinLockRelease w3). }
    injection Htry as -> ->.
    unfold shmBufferAllocChunk in Hbody.
    apply bind_Ret_inv in Hbody as (w4 & w5 & Hget & Hbody).
    injection Hget as <- <-.
    apply bind_Ret_inv in Hbody as (r & w6 & Hscan & Hbody).
    change (active_segment_list (set_lock true w)) with (active_segment_list w) in Hscan.
    destruct r as [c0|].
    - injection Hbody as <- <-. done.
    - pose proof (scan_active_lock USE_ASSERT_CHECKING (active_segment_list w) n
                    (set_lock true w)) as Hl.
      rewrite Hscan in Hl. simpl in Hl.
      apply bind_Ret_inv in Hbody as (id0 & w7 & Hcreate & _).
      by rewrite (create_segment_relock USE_ASSERT_CHECKING size head os w6 Hl) in Hcreate. }
  destruct (scan_active_found USE_ASSERT_CHECKING size head Hsize
              (active_segment_list w) n Hn (set_lock true w) chunk w1 Hok Hscan)
    as (id & c & Hin & Hcls & Hh & Hfit & Hal & Hlo & Hhi).
  exists id, c. simpl.
  replace (SHMBUF_POINTER_GET_CHUNK (chunk_data chunk)) with chunk
    by (unfold SHMBUF_POINTER_GET_CHUNK, chunk_data; lia).
  split; [done|]. split; [done|]. split; [done|]. split; [done|].
  split; [lia|]. split; [done|]. split; [|done].
  destruct (class_of_request_Some _ _ Hcls) as ((Hc & _) & _).
  assert (2 ^ SHMBUF_CHUNKSZ_MIN_BIT <= 2 ^ c) as Hpow
    by (apply Z.pow_le_mono_r; unfold SHMBUF_CHUNKSZ_MIN_BIT in *; lia).
  change (2 ^ SHMBUF_CHUNKSZ_MIN_BIT) with 128 in Hpow.
  unfold chunk_data.
  replace (chunk + chunk_hdrsz - shmBufferSegmentMmapPtr size head id)
    with (chunk_hdrsz + (chunk - shmBufferSegmentMmapPtr size head id)) by lia.
  rewrite Z.add_mod by lia. rewrite Hal, Z.add_0_r, Z.mod_mod by lia.
  apply Z.mod_small. unfold chunk_hdrsz. lia.
Qed.

(** [seg_inv] looks at the free lists, at [num_actives] and at the
    memory only. *)
Lemma seg_inv_same base size fl cs s s' :
  free_chunks (sg s') = free_chunks (sg s) ->
  num_actives (sg s') = num_actives (sg s) ->
  sm s' = sm s ->
  seg_inv base size fl cs s -> seg_inv base size fl cs s'.
Proof.
  intros Hf Hn Hm [Ht Hc Hh Hb Hlen Hl Ha Hfl].
  constructor; rewrite ?Hf, ?Hn, ?Hm; done.
Qed.

(** The directory [ex_active]: its active segment is the one made by
    [pgstrom_startup_shmbuf], one free chunk of class 25. *)
Lemma ex_active_ok : active_segments_ok ex_size ex_head ex_active.
Proof.
  intros id Hid. change (id ∈ [0%nat]) in Hid.
  apply list_elem_of_singleton in Hid as ->.
  assert (SHMBUF_CHUNKSZ_MIN_BIT <= 25 <= SHMBUF_CHUNKSZ_MAX_BIT) as HK
    by (unfold SHMBUF_CHUNKSZ_MIN_BIT, SHMBUF_CHUNKSZ_MAX_BIT; lia).
  destruct (init_segment_pow2 ex_size ex_head 0%nat 25 eq_refl HK
              (blank_segment ex_size ex_head 0%nat
                 (mkSegst (mkSegment 0 0 []) (mkMemory ∅ ∅))))
    as (s & Hrun & Hinv & Hlists & Hnone & _ & _).
  { intros b Hb. by apply clear_range_blank. }
  eexists _, [(ex_head, 25, true)]. split; [vm_compute; reflexivity|].
  apply (seg_inv_same _ _ _ _ s); try done.
  vm_compute in Hrun. injection Hrun as <-. vm_compute. reflexivity.
Qed.

Lemma C9_chunk_fits_and_is_aligned_witness :
  exists id c,
    id ∈ active_segment_list ex_active /\
    class_of_request 50 = Some c /\
    load_chunk (wmem ex_allocated) (SHMBUF_POINTER_GET_CHUNK (ex_head + 40))
      = mkChunk false 50 c SHMBUF_CHUNK_MAGIC_CODE (Some id) /\
    50 <= 2 ^ c - chunk_hdrsz - magic_sz /\
    (SHMBUF_POINTER_GET_CHUNK (ex_head + 40)
       - shmBufferSegmentMmapPtr ex_size ex_head id) mod 2 ^ c = 0.
Proof.
  destruct (C9_chunk_fits_and_is_aligned false ex_size ex_head ex_os 50
              ex_active (ex_head + 40) ex_allocated)
    as (id & c & Hin & _ & Hcls & Hh & Hfit & Hal & _).
  - vm_compute. discriminate.
  - unfold plain_request, chunk_hdrsz, magic_sz. lia.
  - exact ex_active_ok.
  - vm_compute. reflexivity.
  - exists id, c. split; [exact Hin|]. split; [exact Hcls|]. split; [exact Hh|].
    split; [exact Hfit|exact Hal].
Defined.

(** The pointer returned by [shmbufAlloc(50)] on [ex_active] is
    [offsetof(shmBufferChunk, data) = 40] bytes behind the base of the
    segment; its chunk has class 7, and 40 is not a multiple of [2^7].
    So it is not true that the address returned by every successful
    call is a multiple of [2^mclass] from the segment base. *)
Lemma C9_returned_address_not_aligned :
  ~ (forall (USE_ASSERT_CHECKING : bool) (size head : Z) (os : os_results)
            (n : Z) (w : world) (p : Z) (w' : world) (id : nat),
       shmbufAlloc USE_ASSERT_CHECKING size head os n w = Ret (Some p) w' ->
       seg (load_chunk (wmem w') (SHMBUF_POINTER_GET_CHUNK p)) = Some id ->
       let c := mclass (load_chunk (wmem w') (SHMBUF_POINTER_GET_CHUNK p)) in
       n <= 2 ^ c - chunk_hdrsz - magic_sz /\
       (p - shmBufferSegmentMmapPtr size head id) mod 2 ^ c = 0).
Proof.
  intros H.
  destruct (H false ex_size ex_head ex_os 50 ex_active (ex_head + 40) ex_allocated 0%nat)
    as [_ Hal]; [vm_compute; reflexivity | vm_compute; reflexivity |].
  vm_compute in Hal. discriminate.
Qed.

(** [shmbufFree] of the only chunk in use: the record of the segment is
    left with one free chunk of class 25 and no chunk in use, and, the
    segment being empty, [shmbufFree] goes on to drop it: it leaves the
    active list, its revision becomes even and the slot is pushed on
    the list of free slots. *)
Lemma shmbufFree_last_chunk_drops_segment :
  exists w',
    shmbufFree false ex_size ex_head ex_nseg ex_os (ex_head + 40) ex_allocated
      = Ret tt w' /\
    segments w' !! 0%nat =
      Some (mkSegment 2 0 (<[18%nat := [ex_head]]> (replicate 26 []))) /\
    active_segment_list w' = [] /\
    free_segment_list w' = seq 0 10.
Proof.
  eexists. split; [vm_compute; reflexivity|].
  split; [vm_compute; reflexivity|]. split; vm_compute; reflexivity.
Qed.

(** * Further properties of the allocator *)

(** ** When [shmBufferSplitChunk] finds a chunk to split *)

Section SplitFinds.

Variable USE_ASSERT_CHECKING : bool.
Variables base size : Z.

(** A free list is empty exactly when the segment has no free chunk of
    that class. *)
Lemma seg_inv_list_nil cs s k :
  seg_inv base size None cs s ->
  SHMBUF_CHUNKSZ_MIN_BIT <= k <= SHMBUF_CHUNKSZ_MAX_BIT ->
  free_chunks (sg s) !! Z.to_nat (k - SHMBUF_CHUNKSZ_MIN_BIT) = Some [] ->
  forall a, (a, k, true) ∉ cs.
Proof.
  intros Hinv Hk Hl a Hin.
  destruct (seg_inv_list_lookup _ _ _ _ _ k Hinv Hk) as (l & Hl' & Hp).
  rewrite Hl in Hl'. injection Hl' as <-.
  apply elem_of_free_of_class in Hin. rewrite <- Hp in Hin.
  by apply elem_of_nil in Hin.
Qed.

Lemma split_rec_result fuel :
  forall k cs s b s',
    seg_inv base size None cs s ->
    SHMBUF_CHUNKSZ_MIN_BIT < k <= SHMBUF_CHUNKSZ_MAX_BIT ->
    (Z.to_nat (SHMBUF_CHUNKSZ_MAX_BIT + 1 - k) <= fuel)%nat ->
    shmBufferSplitChunk_rec USE_ASSERT_CHECKING fuel k s = Ret b s' ->
    (b = false <-> forall a j, (a, j, true) ∈ cs -> j < k).
Proof.
  induction fuel as [|fuel IH]; intros k cs s b s' Hinv Hk Hfuel Hrun.
  { unfold SHMBUF_CHUNKSZ_MAX_BIT in *. lia. }
  assert (SHMBUF_CHUNKSZ_MIN_BIT <= k <= SHMBUF_CHUNKSZ_MAX_BIT) as Hk' by lia.
  destruct (seg_inv_list_lookup _ _ _ _ _ k Hinv Hk') as (lk & Hlk & _).
  pose proof (mindex_range k Hk') as Hi.
  simpl in Hrun. unfold bind at 1 in Hrun.
  assert ((SHMBUF_CHUNKSZ_MIN_BIT <? k) && (k <=? SHMBUF_CHUNKSZ_MAX_BIT) = true) as Hrange.
  { apply andb_true_intro. split; [apply Z.ltb_lt|apply Z.leb_le]; lia. }
  rewrite Hrange, Assert_true in Hrun. unfold bind at 1 in Hrun.
  rewrite (dlist_is_empty_Ret _ s lk) in Hrun by done.
  destruct lk as [|a rest].
  - pose proof (seg_inv_list_nil cs s k Hinv Hk' Hlk) as Hnone.
    destruct (Z.leb_spec SHMBUF_CHUNKSZ_MAX_BIT k) as [Hmax|Hlt].
    + unfold bind in Hrun. simpl in Hrun. injection Hrun as <- <-.
      split; [intros _|done]. intros a j Hin.
      destruct (inv_class _ _ _ _ _ Hinv _ Hin) as [Hj _].
      unfold ce_class in Hj; simpl in Hj.
      destruct (decide (j = k)) as [->|]; [by apply Hnone in Hin|lia].
    + destruct (split_rec_spec USE_ASSERT_CHECKING base size fuel (k + 1) cs s Hinv)
        as (b1 & s1 & Hrun1 & Hpost); [lia|unfold SHMBUF_CHUNKSZ_MAX_BIT in *; lia|].
      pose proof (IH (k + 1) cs s b1 s1 Hinv ltac:(lia)
                    ltac:(unfold SHMBUF_CHUNKSZ_MAX_BIT in *; lia) Hrun1) as Hiff.
      unfold bind at 1 in Hrun. rewrite Hrun1 in Hrun. destruct b1.
      * destruct Hpost as (cs1 & a & l & Hinv1 & Hl1 & _).
        replace (k + 1 - 1 - SHMBUF_CHUNKSZ_MIN_BIT) with (k - SHMBUF_CHUNKSZ_MIN_BIT)
          in Hl1 by lia.
        destruct (split_halves_inv USE_ASSERT_CHECKING base size cs1 s1 k a l Hinv1 Hk Hl1)
          as (s2 & _ & _ & _ & Hh & _).
        simpl in Hrun. rewrite Hh in Hrun. injection Hrun as <- <-.
        split; [done|]. intros Hall.
        assert (true = false) as Habs; [|done].
        apply Hiff. intros a' j' Hin. specialize (Hall a' j' Hin). lia.
      * simpl in Hrun. injection Hrun as <- <-.
        split; [intros _|done]. intros a j Hin.
        pose proof (proj1 Hiff eq_refl a j Hin) as Hlt1.
        destruct (decide (j = k)) as [->|]; [by apply Hnone in Hin|lia].
  - unfold bind at 1 in Hrun. simpl in Hrun.
    destruct (split_halves_inv USE_ASSERT_CHECKING base size cs s k a rest Hinv Hk Hlk)
      as (s2 & _ & _ & _ & Hh & _).
    rewrite Hh in Hrun. injection Hrun as <- <-.
    split; [done|]. intros Hall.
    pose proof (seg_inv_list_head _ _ _ _ _ _ _ _ Hinv Hk' Hlk) as Hin.
    specialize (Hall a k Hin). lia.
Qed.

End SplitFinds.

(** ** When [__shmBufferAllocChunkFromSegment] finds a chunk *)

Section AllocFinds.

Variable USE_ASSERT_CHECKING : bool.
Variables base size : Z.
Hypothesis Hsize : size <= 2 ^ 32.

Lemma alloc_finds id n c cs s a j :
  plain_request n ->
  seg_inv base size None cs s ->
  class_of_request n = Some c ->
  (a, j, true) ∈ cs -> c <= j ->
  exists a' s' cs',
    __shmBufferAllocChunkFromSegment USE_ASSERT_CHECKING id n s = Ret (Some a') s' /\
    allocated base size id n c cs s a' cs' s'.
Proof.
  intros Hn Hinv Hcls Hin Hcj.
  destruct (class_of_request_Some _ _ Hcls) as (Hc & _).
  destruct (seg_inv_list_lookup _ _ _ _ _ c Hinv Hc) as (l & Hl & _).
  pose proof (mindex_range c Hc) as Hi.
  destruct (inv_class _ _ _ _ _ Hinv _ Hin) as [Hj _].
  unfold ce_class in Hj; simpl in Hj.
  destruct l as [|a0 rest].
  - assert (c < j) as Hlt.
    { destruct (decide (j = c)) as [->|]; [|lia].
      by apply (seg_inv_list_nil base size cs s c Hinv Hc Hl) in Hin. }
    destruct (split_rec_spec USE_ASSERT_CHECKING base size
                (Z.to_nat (SHMBUF_CHUNKSZ_MAX_BIT + 2 - (c + 1))) (c + 1) cs s Hinv)
      as (b & s1 & Hrun & Hpost); [lia|lia|].
    pose proof (split_rec_result USE_ASSERT_CHECKING base size
                  (Z.to_nat (SHMBUF_CHUNKSZ_MAX_BIT + 2 - (c + 1))) (c + 1) cs s b s1
                  Hinv ltac:(lia) ltac:(lia) Hrun) as Hiff.
    destruct b.
    + destruct Hpost as (cs1 & a1 & rest1 & Hinv1 & Hl1 & Hae & Hna & Hre & Hby).
      replace (c + 1 - 1 - SHMBUF_CHUNKSZ_MIN_BIT) with (c - SHMBUF_CHUNKSZ_MIN_BIT)
        in Hl1 by lia.
      destruct (alloc_take_inv USE_ASSERT_CHECKING base size id n c cs1 s1 a1 rest1 Hn
                  Hinv1 Hsize Hc Hl1)
        as (s' & cs' & Hrun' & (Hi' & Hin' & Hh' & Ht' & Hr' & Hlen') & _).
      exists a1, s', cs'. split.
      { unfold __shmBufferAllocChunkFromSegment. rewrite Hcls.
        unfold bind at 1. rewrite (dlist_is_empty_Ret _ s []) by done.
        unfold bind at 1, shmBufferSplitChunk. rewrite Hrun. exact Hrun'. }
      split; [done|]. split; [done|]. split; [done|]. split; [done|].
      split; [congruence|]. by rewrite Hlen', Hae.
    + pose proof (proj1 Hiff eq_refl a j Hin). lia.
  - destruct (alloc_take_inv USE_ASSERT_CHECKING base size id n c cs s a0 rest Hn
                Hinv Hsize Hc Hl) as (s' & cs' & Hrun' & Hpost & _).
    exists a0, s', cs'. split; [|done].
    unfold __shmBufferAllocChunkFromSegment. rewrite Hcls.
    unfold bind at 1. rewrite (dlist_is_empty_Ret _ s (a0 :: rest)) by done.
    exact Hrun'.
Qed.

Lemma alloc_finds_none id n c cs s :
  seg_inv base size None cs s ->
  class_of_request n = Some c ->
  c < SHMBUF_CHUNKSZ_MAX_BIT ->
  (forall a j, (a, j, true) ∈ cs -> j < c) ->
  __shmBufferAllocChunkFromSegment USE_ASSERT_CHECKING id n s = Ret None s.
Proof.
  intros Hinv Hcls Hmax Hnone.
  destruct (class_of_request_Some _ _ Hcls) as (Hc & _).
  destruct (seg_inv_list_lookup _ _ _ _ _ c Hinv Hc) as (l & Hl & _).
  pose proof (mindex_range c Hc) as Hi.
  destruct l as [|a0 rest].
  2:{ pose proof (seg_inv_list_head _ _ _ _ _ _ _ _ Hinv Hc Hl) as Hin.
      specialize (Hnone _ _ Hin). lia. }
  destruct (split_rec_spec USE_ASSERT_CHECKING base size
              (Z.to_nat (SHMBUF_CHUNKSZ_MAX_BIT + 2 - (c + 1))) (c + 1) cs s Hinv)
    as (b & s1 & Hrun & Hpost); [lia|lia|].
  pose proof (split_rec_result USE_ASSERT_CHECKING base size
                (Z.to_nat (SHMBUF_CHUNKSZ_MAX_BIT + 2 - (c + 1))) (c + 1) cs s b s1
                Hinv ltac:(lia) ltac:(lia) Hrun) as Hiff.
  assert (b = false) as ->.
  { apply Hiff. intros a j Hin. specialize (Hnone a j Hin). lia. }
  subst s1.
  unfold __shmBufferAllocChunkFromSegment. rewrite Hcls.
  unfold bind at 1. rewrite (dlist_is_empty_Ret _ s []) by done.
  unfold bind at 1, shmBufferSplitChunk. by rewrite Hrun.
Qed.

End AllocFinds.

(** The segment made by the initialisation on a memory that reads as
    zero, for the configuration of the examples. *)
Lemma ex_fresh_segment :
  exists s,
    init_segment ex_size ex_head 0%nat
      (blank_segment ex_size ex_head 0%nat
         (mkSegst (mkSegment 0 0 []) (mkMemory ∅ ∅))) = Ret tt s /\
    seg_inv ex_head ex_size None [(ex_head, 25, true)] s.
Proof.
  assert (SHMBUF_CHUNKSZ_MIN_BIT <= 25 <= SHMBUF_CHUNKSZ_MAX_BIT) as HK
    by (unfold SHMBUF_CHUNKSZ_MIN_BIT, SHMBUF_CHUNKSZ_MAX_BIT; lia).
  destruct (init_segment_pow2 ex_size ex_head 0%nat 25 eq_refl HK
              (blank_segment ex_size ex_head 0%nat
                 (mkSegst (mkSegment 0 0 []) (mkMemory ∅ ∅))))
    as (s & Hrun & Hinv & _).
  { intros b Hb. by apply clear_range_blank. }
  by exists s.
Qed.

(** Either some free chunk has class [k] or more, or all of them are
    smaller. *)
Lemma free_chunk_of_class_dec (cs : list chunk_entry) k :
  (exists a j, (a, j, true) ∈ cs /\ k <= j) \/
  (forall a j, (a, j, true) ∈ cs -> j < k).
Proof.
  induction cs as [|[[a j] f] cs IH].
  - right. intros a j Hin. by apply elem_of_nil in Hin.
  - destruct IH as [(a' & j' & Hin & Hle)|Hall].
    + left. exists a', j'. split; [by right|done].
    + destruct f, (Z_le_gt_dec k j) as [Hle|Hgt].
      * left. exists a, j. split; [left|done].
      * right. intros a' j' [[= -> ->]|Hin]%elem_of_cons; [lia|by eapply Hall].
      * right. intros a' j' [[= ]|Hin]%elem_of_cons. by eapply Hall.
      * right. intros a' j' [[= ]|Hin]%elem_of_cons. by eapply Hall.
Qed.

(** X1.  On a well-formed segment [shmBufferSplitChunk(seg, k)] returns
    true exactly when the segment has a free chunk of class [k] or
    more.  When it returns false the segment is as before; when it
    returns true the segment is well formed again and has a free chunk
    of class [k - 1], while the chunks in use, [num_actives], the
    revision and the payload bytes are as before. *)
Theorem X1_split_finds_larger_free_chunk
    (USE_ASSERT_CHECKING : bool) (base size : Z) (cs : list chunk_entry)
    (s : segst) (k : Z) :
  seg_inv base size None cs s ->
  SHMBUF_CHUNKSZ_MIN_BIT < k <= SHMBUF_CHUNKSZ_MAX_BIT ->
  exists b s',
    shmBufferSplitChunk USE_ASSERT_CHECKING k s = Ret b s' /\
    (b = true <-> exists a j, (a, j, true) ∈ cs /\ k <= j) /\
    (b = false -> s' = s) /\
    (b = true ->
     exists cs' a,
       seg_inv base size None cs' s' /\
       (a, k - 1, true) ∈ cs' /\
       active_entries cs' = active_entries cs /\
       num_actives (sg s') = num_actives (sg s) /\
       revision (sg s') = revision (sg s) /\
       bytes (sm s') = bytes (sm s)).
Proof.
  intros Hinv Hk.
  destruct (split_rec_spec USE_ASSERT_CHECKING base size
              (Z.to_nat (SHMBUF_CHUNKSZ_MAX_BIT + 2 - k)) k cs s Hinv Hk ltac:(lia))
    as (b & s' & Hrun & Hpost).
  pose proof (split_rec_result USE_ASSERT_CHECKING base size
                (Z.to_nat (SHMBUF_CHUNKSZ_MAX_BIT + 2 - k)) k cs s b s'
                Hinv Hk ltac:(lia) Hrun) as Hiff.
  exists b, s'. split; [exact Hrun|]. split; [|split].
  - split.
    + intros ->. destruct (free_chunk_of_class_dec cs k) as [?|Hall]; [done|].
      by apply Hiff in Hall.
    + intros (a & j & Hin & Hle). destruct b; [done|].
      pose proof (proj1 Hiff eq_refl a j Hin). lia.
  - intros ->. exact Hpost.
  - intros ->. destruct Hpost as (cs' & a & l & Hinv' & Hl & Hae & Hna & Hre & Hby).
    exists cs', a. split; [done|]. split; [|done].
    eapply (seg_inv_list_head base size None cs' s' (k - 1)); [done| |exact Hl].
    unfold SHMBUF_CHUNKSZ_MIN_BIT, SHMBUF_CHUNKSZ_MAX_BIT in *. lia.
Qed.

Lemma X1_split_finds_larger_free_chunk_witness :
  exists s s',
    init_segment ex_size ex_head 0%nat
      (blank_segment ex_size ex_head 0%nat
         (mkSegst (mkSegment 0 0 []) (mkMemory ∅ ∅))) = Ret tt s /\
    shmBufferSplitChunk false 8 s = Ret true s'.
Proof.
  destruct ex_fresh_segment as (s & Hrun & Hinv).
  destruct (X1_split_finds_larger_free_chunk false ex_head ex_size _ s 8 Hinv)
    as (b & s' & Hsplit & Hiff & _).
  - unfold SHMBUF_CHUNKSZ_MIN_BIT, SHMBUF_CHUNKSZ_MAX_BIT. lia.
  - exists s, s'. split; [exact Hrun|].
    assert (b = true) as <-; [|exact Hsplit].
    apply Hiff. exists ex_head, 25. split; [left|lia].
Defined.

(** X2.  On a well-formed segment, [__shmBufferAllocChunkFromSegment]
    for a request of class [c] whose size sum does not wrap
    ([n < 2^64 - 44]) returns a chunk whenever the segment has
    a free chunk of class [c] or more: the chunk returned has class
    [c], is stamped with the request and is counted in [num_actives].
    It returns NULL, leaving the segment as it was, when [c] is below
    the largest class and no free chunk is that large. *)
Theorem X2_alloc_finds_any_large_enough_chunk
    (USE_ASSERT_CHECKING : bool) (base size : Z) (id : nat) (n c : Z)
    (cs : list chunk_entry) (s : segst) :
  seg_inv base size None cs s ->
  size <= 2 ^ 32 ->
  plain_request n ->
  class_of_request n = Some c ->
  ((exists a j, (a, j, true) ∈ cs /\ c <= j) ->
   exists a' s' cs',
     __shmBufferAllocChunkFromSegment USE_ASSERT_CHECKING id n s = Ret (Some a') s' /\
     seg_inv base size None cs' s' /\
     (a', c, false) ∈ cs' /\
     load_chunk (sm s') a' = mkChunk false n c SHMBUF_CHUNK_MAGIC_CODE (Some id) /\
     SHMBUF_CHUNK_CHECK_MAGIC (sm s') a' = true /\
     num_actives (sg s') = num_actives (sg s) + 1) /\
  ((forall a j, (a, j, true) ∈ cs -> j < c) ->
   c < SHMBUF_CHUNKSZ_MAX_BIT ->
   __shmBufferAllocChunkFromSegment USE_ASSERT_CHECKING id n s = Ret None s).
Proof.
  intros Hinv Hsize Hn Hcls. split.
  - intros (a & j & Hin & Hle).
    destruct (alloc_finds USE_ASSERT_CHECKING base size Hsize id n c cs s a j
                Hn Hinv Hcls Hin Hle)
      as (a' & s' & cs' & Hrun & Hinv' & Hin' & Hh & Ht & _ & Hlen).
    exists a', s', cs'. split; [done|]. split; [done|]. split; [done|].
    split; [done|]. split.
    + unfold SHMBUF_CHUNK_CHECK_MAGIC, SHMBUF_CHUNK_MAGIC_HEAD, SHMBUF_CHUNK_MAGIC_TAIL.
      rewrite Hh. simpl. by rewrite Ht, Z.eqb_refl.
    + rewrite (inv_actives _ _ _ _ _ Hinv'), (inv_actives _ _ _ _ _ Hinv), Hlen. lia.
  - intros Hnone Hmax.
    by apply (alloc_finds_none USE_ASSERT_CHECKING base size id n c cs s).
Qed.

Lemma X2_alloc_finds_any_large_enough_chunk_witness :
  exists s a' s',
    init_segment ex_size ex_head 0%nat
      (blank_segment ex_size ex_head 0%nat
         (mkSegst (mkSegment 0 0 []) (mkMemory ∅ ∅))) = Ret tt s /\
    __shmBufferAllocChunkFromSegment false 0%nat 1000 s = Ret (Some a') s' /\
    num_actives (sg s') = num_actives (sg s) + 1.
Proof.
  destruct ex_fresh_segment as (s & Hrun & Hinv).
  destruct (X2_alloc_finds_any_large_enough_chunk false ex_head ex_size 0%nat 1000 11
              _ s Hinv) as [Hsome _].
  - vm_compute. discriminate.
  - unfold plain_request, chunk_hdrsz, magic_sz. lia.
  - vm_compute. reflexivity.
  - destruct Hsome as (a' & s' & cs' & Halloc & _ & _ & _ & _ & Hnum).
    { exists ex_head, 25. split; [left|lia]. }
    exists s, a', s'. split; [exact Hrun|]. split; [exact Halloc|exact Hnum].
Defined.

(** ** From a chunk back to its segment *)

Lemma segment_from_chunk_range
    (USE_ASSERT_CHECKING : bool) (size head nseg : Z) (id : nat) (off : Z) (w : world) :
  0 < size -> 0 <= head ->
  Z.of_nat id < nseg -> nseg < 2 ^ 31 ->
  head + size * nseg <= 2 ^ 64 ->
  0 <= off < size ->
  shmBufferSegmentFromChunk USE_ASSERT_CHECKING size head nseg
    (shmBufferSegmentMmapPtr size head id + off) w = Ret id w.
Proof.
  intros Hsize Hhead Hid Hn Htail Hoff.
  unfold shmBufferSegmentFromChunk, shmBufferSegmentMmapPtr, shmbuf_segment_vaddr_tail.
  set (i := Z.of_nat id) in *.
  assert (0 <= i) as Hi by (unfold i; lia).
  assert (i * size + size <= size * nseg) as Hle by nia.
  assert (wrap64 (head + i * size + off - head) / size = i) as Hdiv.
  { replace (head + i * size + off - head) with (off + i * size) by lia.
    unfold wrap64. rewrite Z.mod_small by lia.
    rewrite Z.div_add by lia. rewrite Z.div_small by lia. lia. }
  rewrite Hdiv.
  assert (wrap32 i = i) as Hw.
  { unfold wrap32. apply Z.mod_small. assert (2 ^ 31 < 2 ^ 32) by done. lia. }
  rewrite Hw.
  assert ((head <=? head + i * size + off)
          && (head + i * size + off <? head + size * nseg) = true) as ->.
  { apply andb_true_intro. split; [apply Z.leb_le|apply Z.ltb_lt]; nia. }
  assert ((i <? nseg) = true) as -> by (apply Z.ltb_lt; lia).
  unfold bind. rewrite !Assert_true. unfold ret, i. by rewrite Nat2Z.id.
Qed.


(** X3.  [shmBufferSegmentFromChunk] inverts [shmBufferSegmentMmapPtr]:
    for every address of the reserved range it returns the slot whose
    range [shmBufferSegmentMmapPtr(seg) .. + shmbuf_segment_size)
    contains the address, whether assertions are compiled in or not,
    and changes nothing. *)
Theorem X3_segment_from_chunk_inverts_mmap_ptr
    (USE_ASSERT_CHECKING : bool) (size head nseg : Z) (a : Z) (w : world) :
  0 < size -> 0 <= head -> nseg < 2 ^ 31 ->
  head + size * nseg <= 2 ^ 64 ->
  head <= a < shmbuf_segment_vaddr_tail size head nseg ->
  exists id,
    shmBufferSegmentFromChunk USE_ASSERT_CHECKING size head nseg a w = Ret id w /\
    Z.of_nat id < nseg /\
    shmBufferSegmentMmapPtr size head id <= a < shmBufferSegmentMmapPtr size head id + size.
Proof.
  intros Hsize Hhead Hn Htail Ha. unfold shmbuf_segment_vaddr_tail in Ha.
  pose proof (Z.div_mod (a - head) size ltac:(lia)) as Hdm.
  pose proof (Z.mod_pos_bound (a - head) size Hsize) as Hmod.
  assert (0 <= (a - head) / size) as Hq by (apply Z.div_pos; lia).
  assert ((a - head) / size < nseg) as Hlt by (apply Z.div_lt_upper_bound; lia).
  exists (Z.to_nat ((a - head) / size)).
  assert (a = shmBufferSegmentMmapPtr size head (Z.to_nat ((a - head) / size))
              + (a - head) mod size) as Heq.
  { unfold shmBufferSegmentMmapPtr. rewrite Z2Nat.id by done. lia. }
  split; [|split; [lia|]].
  - rewrite Heq at 1. apply segment_from_chunk_range; try done. lia.
  - unfold shmBufferSegmentMmapPtr in *. rewrite Z2Nat.id in * by done. lia.
Qed.

Lemma X3_segment_from_chunk_inverts_mmap_ptr_witness :
  exists id,
    shmBufferSegmentFromChunk true ex_size ex_head ex_nseg
      (ex_head + 3 * ex_size + 4096) ex_started = Ret id ex_started /\
    shmBufferSegmentMmapPtr ex_size ex_head id <= ex_head + 3 * ex_size + 4096.
Proof.
  destruct (X3_segment_from_chunk_inverts_mmap_ptr true ex_size ex_head ex_nseg
              (ex_head + 3 * ex_size + 4096) ex_started)
    as (id & Hrun & _ & Hlo & _).
  - reflexivity.
  - vm_compute. discriminate.
  - reflexivity.
  - vm_compute. discriminate.
  - vm_compute. split; [discriminate|reflexivity].
  - exists id. split; [exact Hrun|exact Hlo].
Defined.

(** ** What [shmBufferCreateSegment] leaves behind *)

(** The tiling loop writes chunk headers between [head_ptr] and
    [tail_ptr] only, and no payload byte. *)
Lemma init_chunks_frame fuel :
  forall mcls head_ptr tail_ptr s b,
    b < head_ptr \/ tail_ptr <= b ->
    load_chunk (sm (final (init_chunks fuel mcls head_ptr tail_ptr s))) b
      = load_chunk (sm s) b.
Proof.
  induction fuel as [|fuel IH]; intros mcls hp tl s b Hb; [done|].
  simpl. destruct (Z.leb_spec SHMBUF_CHUNKSZ_MIN_BIT mcls) as [Hm|]; [|done].
  destruct (Z.ltb_spec tl (hp + 2 ^ mcls)) as [|Hfit]; [by apply IH|].
  assert (0 < 2 ^ mcls) as Hpos
    by (apply Z.pow_pos_nonneg; unfold SHMBUF_CHUNKSZ_MIN_BIT in *; lia).
  assert (b ≠ hp) as Hne by lia.
  unfold bind at 1, update_chunk at 1.
  set (s1 := mkSegst (sg s) (store_chunk hp _ (sm s))).
  assert (load_chunk (sm s1) b = load_chunk (sm s) b) as H1
    by (unfold s1; simpl; by rewrite load_store_ne).
  unfold bind at 1, dlist_push_tail, bind at 1, free_list.
  destruct ((0 <=? mcls - SHMBUF_CHUNKSZ_MIN_BIT)
            && (mcls - SHMBUF_CHUNKSZ_MIN_BIT <? NUM_CLASSES)) eqn:Hrange; [|done].
  destruct (free_chunks (sg s1) !! Z.to_nat (mcls - SHMBUF_CHUNKSZ_MIN_BIT))
    as [l|] eqn:Hl; [|done].
  unfold bind at 1, set_free_list. rewrite Hrange.
  unfold update_chunk. simpl.
  rewrite IH by lia. simpl. by rewrite load_store_ne.
Qed.

Lemma init_segment_frame size head id s b :
  b < shmBufferSegmentMmapPtr size head id \/
  shmBufferSegmentMmapPtr size head id + size <= b ->
  load_chunk (sm (final (init_segment size head id s))) b = load_chunk (sm s) b.
Proof.
  intros Hb. unfold init_segment, bind at 1, modify at 1. unfold bind at 1.
  match goal with
  | |- context [init_chunks ?f ?m ?h ?t ?s0] =>
      pose proof (init_chunks_frame f m h t s0 b Hb) as Hf;
      destruct (init_chunks f m h t s0) as [[] s1|f1 s1]
  end; simpl in *; done.
Qed.

Lemma clear_range_outside lo hi m b :
  ¬ (lo <= b < hi) -> load_chunk (clear_range lo hi m) b = load_chunk m b.
Proof.
  intros Hb. unfold load_chunk, clear_range; simpl.
  rewrite map_lookup_filter. destruct (hdr m !! b) as [c|]; simpl; [|done].
  by rewrite option_guard_True.
Qed.

Lemma clear_range_bytes_outside lo hi m a :
  ¬ (lo <= a < hi) -> load_byte (clear_range lo hi m) a = load_byte m a.
Proof.
  intros Ha. unfold load_byte, clear_range; simpl.
  rewrite map_lookup_filter. destruct (bytes m !! a) as [c|]; simpl; [|done].
  by rewrite option_guard_True.
Qed.

Lemma fallocate_loop_ok n w : fallocate_loop n true w = Ret tt w.
Proof. induction n; simpl; done. Qed.

Section CreateSpec.

Variable USE_ASSERT_CHECKING : bool.
Variables size head : Z.
Variable K : Z.
Hypothesis Hsize : size = 2 ^ K.
Hypothesis HK : SHMBUF_CHUNKSZ_MIN_BIT <= K <= SHMBUF_CHUNKSZ_MAX_BIT.

(** A successful run of [shmBufferCreateSegment]. *)
Lemma create_segment_runs os w id rest g l :
  lock w = false ->
  free_segment_list w = id :: rest ->
  segments w !! id = Some g ->
  SHMBUF_SEGMENT_EXISTS (revision g) = false ->
  shmBufLocalMaps w !! id = Some l ->
  (is_attached l = true -> munmap_ok os = true /\ mmap_none_ok os = true) ->
  shm_open_ok os = true -> fallocate_ok os = true -> mmap_ok os = true ->
  let base := shmBufferSegmentMmapPtr size head id in
  exists w' g',
    shmBufferCreateSegment USE_ASSERT_CHECKING size head os w = Ret id w' /\
    lock w' = false /\
    free_segment_list w' = rest /\
    active_segment_list w' = active_segment_list w /\
    segments w' = <[id := g']> (segments w) /\
    revision g' = wrap32 (revision g + 1) /\
    seg_inv base size None [(base, K, true)] (mkSegst g' (wmem w')) /\
    shmBufLocalMaps w' =
      <[id := mkLocalMap (mutex l) (revision g') true]> (shmBufLocalMaps w) /\
    (forall b, ¬ (base <= b < base + size) ->
               load_chunk (wmem w') b = load_chunk (wmem w) b /\
               load_byte (wmem w') b = load_byte (wmem w) b).
Proof.
  intros Hlock Hfree Hg Hrev Hl Hghost Hopen Hfalloc Hmmap base.
  destruct w as [lk act fr segs lmaps mem]. simpl in *. subst lk fr.
  destruct (init_segment_pow2 size head id K Hsize HK
              (mkSegst g (clear_range base (base + size) mem)))
    as (s1 & Hinit & Hinv & Hlists & Hnone & Hrev1 & Hbytes).
  { intros b Hb. by apply clear_range_blank. }
  pose proof (init_segment_frame size head id
                (mkSegst g (clear_range base (base + size) mem))) as Hframe.
  rewrite Hinit in Hframe. simpl in Hframe.
  (* the local map after a ghost mapping has been removed *)
  set (l1 := if is_attached l then set_is_attached false l else l).
  set (lmaps1 := if is_attached l then <[id := l1]> lmaps else lmaps).
  assert (lmaps1 !! id = Some l1) as Hl1.
  { unfold lmaps1, l1. destruct (is_attached l); [|done].
    apply list_lookup_insert_eq. by eapply lookup_lt_Some. }
  assert (id < length segs)%nat as Hlen by (by eapply lookup_lt_Some).
  assert (id < length lmaps)%nat as Hlenl by (by eapply lookup_lt_Some).
  set (g1 := sg s1).
  set (g2 := set_revision (wrap32 (revision g1 + 1)) g1).
  exists (mkWorld false act rest (<[id := g2]> segs)
            (<[id := mkLocalMap (mutex l) (revision g2) true]> lmaps) (sm s1)), g2.
  split.
  { unfold shmBufferCreateSegment.
    rewrite (bind_Ret_intro _ _ _ tt
               (mkWorld true act (id :: rest) segs lmaps mem)) by done.
    rewrite (bind_Ret_intro _ _ _ (mkWorld true act (id :: rest) segs lmaps mem)
               (mkWorld true act (id :: rest) segs lmaps mem)) by done.
    cbn [free_segment_list].
    rewrite (bind_Ret_intro _ _ _ tt (mkWorld true act rest segs lmaps mem)) by done.
    rewrite (bind_Ret_intro _ _ _ tt (mkWorld false act rest segs lmaps mem)) by done.
    set (w1 := mkWorld false act rest segs lmaps mem).
    rewrite (bind_Ret_intro _ _ _ (revision g) w1)
      by (by apply (on_segment_same id _ w1 g)).
    rewrite (bind_Ret_intro _ _ _ tt w1) by (rewrite Hrev; apply Assert_true).
    rewrite (bind_Ret_intro _ _ _ l w1) by (unfold read_lmap, w1; simpl; by rewrite Hl).
    set (w2 := mkWorld false act rest segs lmaps1 mem).
    rewrite (bind_Ret_intro _ _ _ tt w2).
    2:{ unfold w2, lmaps1, l1. destruct (is_attached l) eqn:Hatt; [|done].
        destruct (Hghost eq_refl) as [-> ->].
        unfold bind, syscall_or, ret, update_lmap, w1; simpl. by rewrite Hl. }
    rewrite (bind_Ret_intro _ _ _ tt w2) by (by rewrite Hopen).
    rewrite (bind_Ret_intro _ _ _ tt w2) by (rewrite Hfalloc; apply fallocate_loop_ok).
    rewrite (bind_Ret_intro _ _ _ tt w2) by (by rewrite Hmmap).
    set (w3 := mkWorld false act rest segs lmaps1 (clear_range base (base + size) mem)).
    rewrite (bind_Ret_intro _ _ _ tt w3) by done.
    set (w4 := mkWorld false act rest (<[id := g1]> segs) lmaps1 (sm s1)).
    rewrite (bind_Ret_intro _ _ _ tt w4).
    2:{ unfold on_segment, w3; simpl. rewrite Hg. fold base. by rewrite Hinit. }
    set (w5 := mkWorld false act rest (<[id := g1]> segs)
                 (<[id := set_is_attached true l1]> lmaps1) (sm s1)).
    rewrite (bind_Ret_intro _ _ _ tt w5)
      by (unfold update_lmap, w4; simpl; by rewrite Hl1).
    set (w6 := mkWorld false act rest (<[id := g2]> segs)
                 (<[id := set_is_attached true l1]> lmaps1) (sm s1)).
    rewrite (bind_Ret_intro _ _ _ (revision g2) w6).
    2:{ unfold on_segment, w5; simpl. rewrite list_lookup_insert_eq by done.
        unfold w6, set_wmem, set_segments; simpl. by rewrite list_insert_insert_eq. }
    set (w7 := mkWorld false act rest (<[id := g2]> segs)
                 (<[id := mkLocalMap (mutex l) (revision g2) true]> lmaps) (sm s1)).
    rewrite (bind_Ret_intro _ _ _ tt w7).
    2:{ unfold update_lmap, w6; simpl.
        assert (id < length lmaps1)%nat
          by (unfold lmaps1; destruct (is_attached l); rewrite ?length_insert; done).
        rewrite list_lookup_insert_eq by done.
        unfold w7, set_shmBufLocalMaps; simpl. do 2 f_equal.
        rewrite list_insert_insert_eq. unfold lmaps1, l1.
        destruct (is_attached l); rewrite ?list_insert_insert_eq; done. }
    rewrite (bind_Ret_intro _ _ _ tt w7); [done|].
    assert (SHMBUF_SEGMENT_EXISTS (revision g2) = true) as ->; [|apply Assert_true].
    unfold g2, g1. simpl. rewrite exists_flips, Hrev1. simpl. by rewrite Hrev. }
  simpl. split; [done|]. split; [done|]. split; [done|]. split; [done|].
  split; [unfold g2, g1; simpl; by rewrite Hrev1|]. split.
  { apply (seg_inv_same _ _ _ _ s1); done. }
  split; [done|]. intros b Hb. split.
  - rewrite Hframe by (fold base; lia). by apply clear_range_outside.
  - unfold load_byte. rewrite Hbytes. by apply clear_range_bytes_outside.
Qed.

End CreateSpec.

(** X4.  A successful [shmBufferCreateSegment]: with the directory lock
    free, a free slot [id] at the head of the free list whose revision
    is even, and the system calls succeeding, the call returns that
    slot with the lock released.  The slot has left the free list and
    is not put on the active list; its revision is advanced by one;
    its memory is one free chunk that spans the segment; the local map
    records the slot as attached at the new revision; nothing outside
    the range of the segment is written. *)
Theorem X4_create_segment_makes_one_free_chunk
    (USE_ASSERT_CHECKING : bool) (size head K : Z) (os : os_results)
    (w : world) (id : nat) (rest : list nat)
    (g : shmBufferSegment) (l : shmBufferLocalMap) :
  size = 2 ^ K ->
  SHMBUF_CHUNKSZ_MIN_BIT <= K <= SHMBUF_CHUNKSZ_MAX_BIT ->
  lock w = false ->
  free_segment_list w = id :: rest ->
  segments w !! id = Some g ->
  SHMBUF_SEGMENT_EXISTS (revision g) = false ->
  shmBufLocalMaps w !! id = Some l ->
  (is_attached l = true -> munmap_ok os = true /\ mmap_none_ok os = true) ->
  shm_open_ok os = true -> fallocate_ok os = true -> mmap_ok os = true ->
  let base := shmBufferSegmentMmapPtr size head id in
  exists w' g',
    shmBufferCreateSegment USE_ASSERT_CHECKING size head os w = Ret id w' /\
    lock w' = false /\
    free_segment_list w' = rest /\
    active_segment_list w' = active_segment_list w /\
    segments w' = <[id := g']> (segments w) /\
    revision g' = wrap32 (revision g + 1) /\
    SHMBUF_SEGMENT_EXISTS (revision g') = true /\
    seg_inv base size None [(base, K, true)] (mkSegst g' (wmem w')) /\
    shmBufLocalMaps w' =
      <[id := mkLocalMap (mutex l) (revision g') true]> (shmBufLocalMaps w) /\
    (forall b, ¬ (base <= b < base + size) ->
               load_chunk (wmem w') b = load_chunk (wmem w) b /\
               load_byte (wmem w') b = load_byte (wmem w) b).
Proof.
  intros Hsize HK Hlock Hfree Hg Hrev Hl Hghost Hopen Hfalloc Hmmap base.
  destruct (create_segment_runs USE_ASSERT_CHECKING size head K Hsize HK os w id rest g l
              Hlock Hfree Hg Hrev Hl Hghost Hopen Hfalloc Hmmap)
    as (w' & g' & Hrun & Hlk & Hfr & Hact & Hsegs & Hrev' & Hinv & Hlm & Hframe).
  exists w', g'. split; [done|]. split; [done|]. split; [done|]. split; [done|].
  split; [done|]. split; [done|]. split; [|done].
  rewrite Hrev', exists_flips. by rewrite Hrev.
Qed.

Lemma X4_create_segment_makes_one_free_chunk_witness :
  exists w' g',
    shmBufferCreateSegment false ex_size ex_head ex_os ex_started = Ret 1%nat w' /\
    free_segment_list w' = seq 2 8 /\
    segments w' !! 1%nat = Some g' /\
    revision g' = 1.
Proof.
  destruct (X4_create_segment_makes_one_free_chunk false ex_size ex_head 25 ex_os
              ex_started 1%nat (seq 2 8)
              (mkSegment 0 0 (replicate 26 [])) (mkLocalMap false 0 false))
    as (w' & g' & Hrun & _ & Hfree & _ & Hsegs & Hrev & _);
    try (vm_compute; reflexivity).
  - unfold SHMBUF_CHUNKSZ_MIN_BIT, SHMBUF_CHUNKSZ_MAX_BIT. lia.
  - intros [=].
  - exists w', g'. split; [exact Hrun|]. split; [exact Hfree|]. split; [|exact Hrev].
    rewrite Hsegs. apply list_lookup_insert_eq. vm_compute. lia.
Defined.

(** X5.  When [shmBufferCreateSegment] does not succeed.  With no slot
    on the free list it raises the out-of-memory error and leaves the
    directory as it was.  When [shm_open], [fallocate] or the mapping
    fails, for a slot that this process has not mapped (no ghost
    mapping to take down first), it raises an ERROR after the slot has
    been taken off the free list: the slot is on the free list no more,
    the active list and all segments are as before, and the lock is
    released. *)
Theorem X5_create_segment_failures
    (USE_ASSERT_CHECKING : bool) (size head : Z) (os : os_results) (w : world) :
  lock w = false ->
  (free_segment_list w = [] ->
   shmBufferCreateSegment USE_ASSERT_CHECKING size head os w = Fail ErrOutOfMemory w) /\
  (forall id rest g l,
     free_segment_list w = id :: rest ->
     segments w !! id = Some g ->
     SHMBUF_SEGMENT_EXISTS (revision g) = false ->
     shmBufLocalMaps w !! id = Some l ->
     is_attached l = false ->
     shm_open_ok os && fallocate_ok os && mmap_ok os = false ->
     exists c,
       shmBufferCreateSegment USE_ASSERT_CHECKING size head os w
         = Fail (ErrSyscall c) (set_free_segment_list rest w)).
Proof.
  intros Hlock. destruct w as [lk act fr segs lmaps mem]. simpl in *. subst lk. split.
  - intros ->. reflexivity.
  - intros id rest g l -> Hg Hrev Hl Hatt Hos.
    set (w1 := mkWorld false act rest segs lmaps mem).
    unfold shmBufferCreateSegment.
    rewrite (bind_Ret_intro _ _ _ tt
               (mkWorld true act (id :: rest) segs lmaps mem)) by done.
    rewrite (bind_Ret_intro _ _ _ (mkWorld true act (id :: rest) segs lmaps mem)
               (mkWorld true act (id :: rest) segs lmaps mem)) by done.
    cbn [free_segment_list].
    rewrite (bind_Ret_intro _ _ _ tt (mkWorld true act rest segs lmaps mem)) by done.
    rewrite (bind_Ret_intro _ _ _ tt w1) by done.
    rewrite (bind_Ret_intro _ _ _ (revision g) w1)
      by (by apply (on_segment_same id _ w1 g)).
    rewrite (bind_Ret_intro _ _ _ tt w1) by (rewrite Hrev; apply Assert_true).
    rewrite (bind_Ret_intro _ _ _ l w1) by (unfold read_lmap, w1; simpl; by rewrite Hl).
    rewrite Hatt. rewrite (bind_Ret_intro _ _ _ tt w1) by done.
    destruct (shm_open_ok os) eqn:Hopen.
    2:{ exists sys_shm_open. by apply bind_Fail_intro. }
    rewrite (bind_Ret_intro _ _ _ tt w1) by done.
    destruct (fallocate_ok os) eqn:Hfalloc.
    2:{ exists sys_fallocate. apply bind_Fail_intro.
        clear. induction (fallocate_eintr os); simpl; done. }
    rewrite (bind_Ret_intro _ _ _ tt w1) by apply fallocate_loop_ok.
    destruct (mmap_ok os) eqn:Hmmap; [done|].
    exists sys_mmap. by apply bind_Fail_intro.
Qed.

Lemma X5_create_segment_failures_witness :
  shmBufferCreateSegment false ex_size ex_head ex_os (set_free_segment_list [] ex_started)
    = Fail ErrOutOfMemory (set_free_segment_list [] ex_started) /\
  exists c,
    shmBufferCreateSegment false ex_size ex_head
      (mkOs true true false 0 true true true) ex_started
    = Fail (ErrSyscall c) (set_free_segment_list (seq 2 8) ex_started).
Proof.
  split.
  - apply (X5_create_segment_failures false ex_size ex_head ex_os
             (set_free_segment_list [] ex_started)); reflexivity.
  - apply (proj2 (X5_create_segment_failures false ex_size ex_head
                    (mkOs true true false 0 true true true) ex_started eq_refl)
             1%nat (seq 2 8) (mkSegment 0 0 (replicate 26 [])) (mkLocalMap false 0 false));
      vm_compute; reflexivity.
Defined.

(** X6.  [pgstrom_startup_shmbuf] with at least one slot and the system
    calls succeeding: slot 0 is created (revision 1, one free chunk
    spanning the segment, attached in the local map), every other slot
    is untouched and on the free list in index order, and the active
    list is empty.  The segment created in advance is thus on neither
    list of the directory. *)
Theorem X6_startup_creates_slot_0_unlisted
    (USE_ASSERT_CHECKING : bool) (size head K nseg : Z) (os : os_results) :
  size = 2 ^ K ->
  SHMBUF_CHUNKSZ_MIN_BIT <= K <= SHMBUF_CHUNKSZ_MAX_BIT ->
  1 <= nseg ->
  shm_open_ok os = true -> fallocate_ok os = true -> mmap_ok os = true ->
  exists w' g',
    pgstrom_startup_shmbuf USE_ASSERT_CHECKING size head nseg os = Ret 0%nat w' /\
    lock w' = false /\
    active_segment_list w' = [] /\
    free_segment_list w' = seq 1 (Z.to_nat nseg - 1)%nat /\
    (0%nat ∉ free_segment_list w') /\
    segments w' !! 0%nat = Some g' /\
    revision g' = 1 /\
    seg_inv (shmBufferSegmentMmapPtr size head 0) size None
            [(shmBufferSegmentMmapPtr size head 0, K, true)] (mkSegst g' (wmem w')) /\
    shmBufLocalMaps w' !! 0%nat = Some (mkLocalMap false 1 true) /\
    (forall i, (0 < i < Z.to_nat nseg)%nat ->
       segments w' !! i = Some (mkSegment 0 0 (replicate (Z.to_nat NUM_CLASSES) [])) /\
       shmBufLocalMaps w' !! i = Some (mkLocalMap false 0 false)).
Proof.
  intros Hsize HK Hn Hopen Hfalloc Hmmap.
  unfold pgstrom_startup_shmbuf.
  assert (exists n', Z.to_nat nseg = S n') as [n' Hn'] by (exists (Z.to_nat nseg - 1)%nat; lia).
  destruct (create_segment_runs USE_ASSERT_CHECKING size head K Hsize HK os
              (startup_world nseg) 0%nat (seq 1 n')
              (mkSegment 0 0 (replicate (Z.to_nat NUM_CLASSES) []))
              (mkLocalMap false 0 false))
    as (w' & g' & Hrun & Hlk & Hfr & Hact & Hsegs & Hrev & Hinv & Hlm & _);
    try done.
  - unfold startup_world. simpl. by rewrite Hn'.
  - unfold startup_world. simpl. by rewrite Hn'.
  - unfold startup_world. simpl. by rewrite Hn'.
  - exists w', g'. split; [done|]. split; [done|]. split; [done|].
    replace (Z.to_nat nseg - 1)%nat with n' by lia.
    split; [done|]. split.
    { rewrite Hfr. intros Hin. apply elem_of_seq in Hin. lia. }
    split.
    { rewrite Hsegs. apply list_lookup_insert_eq.
      unfold startup_world. simpl. rewrite length_replicate. lia. }
    split; [by rewrite Hrev|]. split; [done|]. split.
    { rewrite Hlm, Hrev. apply list_lookup_insert_eq.
      unfold startup_world. simpl. rewrite length_replicate. lia. }
    intros i Hi. rewrite Hsegs, Hlm.
    rewrite !list_lookup_insert_ne by lia.
    unfold startup_world. simpl. split; apply lookup_replicate_2; lia.
Qed.

Lemma X6_startup_creates_slot_0_unlisted_witness :
  exists w',
    pgstrom_startup_shmbuf false ex_size ex_head ex_nseg ex_os = Ret 0%nat w' /\
    active_segment_list w' = [] /\
    (0%nat ∉ free_segment_list w').
Proof.
  destruct (X6_startup_creates_slot_0_unlisted false ex_size ex_head 25 ex_nseg ex_os)
    as (w' & g' & Hrun & _ & Hact & _ & Hnot & _); try reflexivity.
  - unfold SHMBUF_CHUNKSZ_MIN_BIT, SHMBUF_CHUNKSZ_MAX_BIT. lia.
  - unfold ex_nseg. lia.
  - exists w'. split; [exact Hrun|]. split; [exact Hact|exact Hnot].
Defined.

(** ** [shmBufferDropSegment] and [shmbufFree] on the directory *)

(** A run of [shmBufferDropSegment] in which the system calls succeed. *)
Lemma drop_segment_runs os id w g l :
  segments w !! id = Some g ->
  shmBufLocalMaps w !! id = Some l ->
  (is_attached l = true -> munmap_ok os = true /\ mmap_none_ok os = true) ->
  shm_open_ok os = true -> shm_unlink_ok os = true ->
  shmBufferDropSegment os id w =
    Ret tt (set_shmBufLocalMaps (<[id := set_is_attached false l]> (shmBufLocalMaps w))
              (set_segments (<[id := set_revision (wrap32 (revision g + 1)) g]> (segments w))
                 w)).
Proof.
  intros Hg Hl Hghost Hopen Hunlink.
  destruct w as [lk act fr segs lmaps mem]. simpl in *.
  unfold shmBufferDropSegment.
  set (w0 := mkWorld lk act fr segs lmaps mem).
  rewrite (bind_Ret_intro _ _ _ l w0) by (unfold read_lmap, w0; simpl; by rewrite Hl).
  set (g1 := set_revision (wrap32 (revision g + 1)) g).
  set (w1 := mkWorld lk act fr (<[id := g1]> segs) lmaps mem).
  rewrite (bind_Ret_intro _ _ _ (revision g) w1)
    by (unfold on_segment, w0; simpl; by rewrite Hg).
  set (w2 := mkWorld lk act fr (<[id := g1]> segs)
               (<[id := set_is_attached false l]> lmaps) mem).
  rewrite (bind_Ret_intro _ _ _ tt w2).
  2:{ destruct (is_attached l) eqn:Hatt.
      - destruct (Hghost eq_refl) as [-> ->].
        unfold bind, syscall_or, ret, update_lmap, w1; simpl. by rewrite Hl.
      - unfold ret, w2, w1. do 2 f_equal. symmetry. apply list_insert_id.
        rewrite Hl. f_equal. destruct l; simpl in *. by subst. }
  rewrite (bind_Ret_intro _ _ _ tt w2) by (by rewrite Hopen).
  by rewrite Hunlink.
Qed.

(** Unlinking a slot that is on the active list. *)
Lemma dlist_delete_segment_active id w :
  id ∈ active_segment_list w ->
  dlist_delete_segment id w =
    Ret tt (set_active_segment_list
              (filter (fun i => i ≠ id) (active_segment_list w)) w).
Proof. intros Hin. unfold dlist_delete_segment. by rewrite bool_decide_eq_true_2. Qed.

Section FreeOnDirectory.

Variable USE_ASSERT_CHECKING : bool.
Variables size head nseg : Z.
Hypothesis Hsize : 0 < size <= 2 ^ 32.
Hypothesis Hhead : 0 <= head.
Hypothesis Hnseg : nseg < 2 ^ 31.
Hypothesis Htail : head + size * nseg <= 2 ^ 64.

(** [shmbufFree] up to the test of the result of [shmBufferFreeChunk]. *)
Lemma shmbufFree_runs os w id g cs chunk j :
  lock w = false ->
  Z.of_nat id < nseg ->
  segments w !! id = Some g ->
  seg_inv (shmBufferSegmentMmapPtr size head id) size None cs (mkSegst g (wmem w)) ->
  (chunk, j, false) ∈ cs ->
  (USE_ASSERT_CHECKING = true -> SHMBUF_CHUNK_CHECK_MAGIC (wmem w) chunk = true) ->
  exists s' cs',
    seg_inv (shmBufferSegmentMmapPtr size head id) size None cs' s' /\
    S (length (active_entries cs')) = length (active_entries cs) /\
    revision (sg s') = revision (sg (mkSegst g (wmem w))) /\
    bytes (sm s') = bytes (wmem w) /\
    let w1 := set_wmem (sm s')
                (set_segments (<[id := sg s']> (segments w)) (set_lock true w)) in
    shmbufFree USE_ASSERT_CHECKING size head nseg os (chunk_data chunk) w =
      ((if (Z.of_nat (length (active_entries cs')) =? 0) then
          dlist_delete_segment id ;;;
          shmBufferDropSegment os id ;;;
          modify (fun w => set_free_segment_list (id :: free_segment_list w) w)
        else ret tt) ;;;
       SpinLockRelease) w1.
Proof.
  intros Hlock Hid Hg Hinv Hin Hguard.
  destruct (free_chunk_spec USE_ASSERT_CHECKING size head id chunk j cs
              (mkSegst g (wmem w)) Hinv Hin ltac:(lia) Hguard)
    as (s' & cs' & x' & j' & Hrun & Hinv' & Hlen & _ & _ & _ & _ & Hrev & Hby).
  exists s', cs'. split; [done|]. split; [done|]. split; [done|]. split; [done|].
  intros w1.
  pose proof (tiles_bounds _ _ _ _ (seg_inv_classes_ok _ _ _ _ _ Hinv)
                (inv_tiles _ _ _ _ _ Hinv) Hin) as [Hlo Hhi].
  destruct (inv_class _ _ _ _ _ Hinv _ Hin) as [Hj _].
  unfold ce_addr, ce_class in Hlo, Hhi, Hj; simpl in Hlo, Hhi, Hj.
  assert (0 < 2 ^ j) by (apply Z.pow_pos_nonneg; unfold SHMBUF_CHUNKSZ_MIN_BIT in *; lia).
  unfold shmbufFree.
  replace (SHMBUF_POINTER_GET_CHUNK (chunk_data chunk)) with chunk
    by (unfold SHMBUF_POINTER_GET_CHUNK, chunk_data; lia).
  rewrite (bind_Ret_intro _ _ _ id w).
  2:{ replace chunk with (shmBufferSegmentMmapPtr size head id
                           + (chunk - shmBufferSegmentMmapPtr size head id)) at 1 by lia.
      apply segment_from_chunk_range; try done; lia. }
  rewrite (bind_Ret_intro _ _ _ tt (set_lock true w))
    by (unfold SpinLockAcquire; by rewrite Hlock).
  rewrite (bind_Ret_intro _ _ _ (Z.of_nat (length (active_entries cs')) =? 0) w1); [done|].
  unfold on_segment. simpl. rewrite Hg. by rewrite Hrun.
Qed.

End FreeOnDirectory.

(** X7.  [shmbufFree] of a chunk while other chunks of its segment are
    in use: the call returns with the directory lock released; the
    segment stays where it is, well formed, with one chunk in use less
    and the same revision; the lists of the directory, the local maps
    and all payload bytes are as before. *)
Theorem X7_free_keeps_segment_in_use
    (USE_ASSERT_CHECKING : bool) (size head nseg : Z) (os : os_results)
    (w : world) (id : nat) (g : shmBufferSegment) (cs : list chunk_entry)
    (chunk j : Z) :
  0 < size <= 2 ^ 32 -> 0 <= head -> nseg < 2 ^ 31 ->
  head + size * nseg <= 2 ^ 64 ->
  lock w = false ->
  Z.of_nat id < nseg ->
  segments w !! id = Some g ->
  seg_inv (shmBufferSegmentMmapPtr size head id) size None cs (mkSegst g (wmem w)) ->
  (chunk, j, false) ∈ cs ->
  (USE_ASSERT_CHECKING = true -> SHMBUF_CHUNK_CHECK_MAGIC (wmem w) chunk = true) ->
  length (active_entries cs) ≠ 1%nat ->
  exists w' g' cs',
    shmbufFree USE_ASSERT_CHECKING size head nseg os (chunk_data chunk) w = Ret tt w' /\
    lock w' = false /\
    active_segment_list w' = active_segment_list w /\
    free_segment_list w' = free_segment_list w /\
    shmBufLocalMaps w' = shmBufLocalMaps w /\
    segments w' = <[id := g']> (segments w) /\
    seg_inv (shmBufferSegmentMmapPtr size head id) size None cs' (mkSegst g' (wmem w')) /\
    num_actives g' = num_actives g - 1 /\
    revision g' = revision g /\
    bytes (wmem w') = bytes (wmem w).
Proof.
  intros Hsize Hhead Hnseg Htail Hlock Hid Hg Hinv Hin Hguard Hmore.
  destruct (shmbufFree_runs USE_ASSERT_CHECKING size head nseg Hsize Hhead Hnseg Htail
              os w id g cs chunk j Hlock Hid Hg Hinv Hin Hguard)
    as (s' & cs' & Hinv' & Hlen & Hrev & Hby & Hrun).
  simpl in Hrun.
  destruct (Z.eqb_spec (Z.of_nat (length (active_entries cs'))) 0) as [Hz|_]; [lia|].
  eexists _, (sg s'), cs'. split; [exact Hrun|]. simpl.
  split; [done|]. split; [done|]. split; [done|]. split; [done|]. split; [done|].
  split; [by destruct s'|]. split; [|done].
  rewrite (inv_actives _ _ _ _ _ Hinv'). pose proof (inv_actives _ _ _ _ _ Hinv) as Hn.
  simpl in Hn. lia.
Qed.

Lemma two_chunks_in_use :
  exists s a1 s1 a2 s2 cs2,
    seg_inv ex_head ex_size None [(ex_head, 25, true)] s /\
    __shmBufferAllocChunkFromSegment false 0%nat 50 s = Ret (Some a1) s1 /\
    __shmBufferAllocChunkFromSegment false 0%nat 50 s1 = Ret (Some a2) s2 /\
    seg_inv ex_head ex_size None cs2 s2 /\
    (a2, 7, false) ∈ cs2 /\
    SHMBUF_CHUNK_CHECK_MAGIC (sm s2) a2 = true /\
    length (active_entries cs2) = 2%nat.
Proof.
  destruct ex_fresh_segment as (s & _ & Hinv).
  assert (ex_size = 2 ^ 25) as Hsize by reflexivity.
  assert (SHMBUF_CHUNKSZ_MIN_BIT <= 25 <= SHMBUF_CHUNKSZ_MAX_BIT) as HK
    by (unfold SHMBUF_CHUNKSZ_MIN_BIT, SHMBUF_CHUNKSZ_MAX_BIT; lia).
  assert (ex_size <= 2 ^ 32) as Hsz by (vm_compute; discriminate).
  assert (class_of_request 50 = Some 7) as Hcls by (vm_compute; reflexivity).
  pose proof (ladder_fresh ex_size ex_head 0%nat 25 Hsize s Hinv) as Hlad.
  destruct (alloc_ladder false ex_size ex_head 0%nat 25 Hsize HK 50 7 s
              ltac:(apply plain_request_small; lia) Hlad Hcls
              ltac:(lia)) as (s1 & Hrun1 & [Hinv1 _] & _).
  rewrite <- Hsize in Hinv1.
  replace (Z.to_nat (25 - 7)) with (S 17) in Hinv1 by reflexivity.
  rewrite rungs_succ in Hinv1.
  destruct (alloc_finds false _ ex_size Hsz 0%nat 50 7 _ s1 _ 7
              ltac:(apply plain_request_small; lia) Hinv1 Hcls
              ltac:(right; left) ltac:(lia))
    as (a2 & s2 & cs2 & Hrun2 & Hinv2 & Hin2 & Hh & Ht & _ & Hlen2).
  eexists s, _, s1, a2, s2, cs2. split; [done|]. split; [exact Hrun1|].
  split; [exact Hrun2|]. split; [done|]. split; [done|]. split.
  - unfold SHMBUF_CHUNK_CHECK_MAGIC, SHMBUF_CHUNK_MAGIC_HEAD, SHMBUF_CHUNK_MAGIC_TAIL.
    rewrite Hh. simpl. by rewrite Ht.
  - rewrite Hlen2. by f_equal.
Qed.

Lemma X7_free_keeps_segment_in_use_witness :
  exists w p w',
    shmbufFree false ex_size ex_head 1 ex_os p w = Ret tt w' /\
    lock w' = false /\
    active_segment_list w' = active_segment_list w.
Proof.
  destruct two_chunks_in_use as (s & a1 & s1 & a2 & s2 & cs2 & _ & _ & _ & Hinv2 & Hin2 & _ & Hlen).
  destruct (X7_free_keeps_segment_in_use false ex_size ex_head 1 ex_os
              (mkWorld false [0%nat] [] [sg s2] [mkLocalMap false 1 true] (sm s2))
              0%nat (sg s2) cs2 a2 7)
    as (w' & g' & cs' & Hrun & Hlock & Hact & _).
  - vm_compute. split; [reflexivity|discriminate].
  - vm_compute. discriminate.
  - reflexivity.
  - vm_compute. discriminate.
  - reflexivity.
  - reflexivity.
  - reflexivity.
  - destruct s2. exact Hinv2.
  - exact Hin2.
  - intros [=].
  - rewrite Hlen. lia.
  - eexists _, _, w'. split; [exact Hrun|]. split; [exact Hlock|exact Hact].
Defined.

(** X8.  [shmbufFree] of the only chunk in use of a segment that is on
    the active list, the system calls succeeding: the call returns with
    the directory lock released, and the segment has been dropped.  It
    is taken off the active list and pushed to the head of the free
    list, its revision is advanced by one, which makes it even when it
    was odd, no chunk is counted as in use, and the local map has it
    detached.  Every other slot of the directory is as before. *)
Theorem X8_free_of_last_chunk_drops_segment
    (USE_ASSERT_CHECKING : bool) (size head nseg : Z) (os : os_results)
    (w : world) (id : nat) (g : shmBufferSegment) (l : shmBufferLocalMap)
    (cs : list chunk_entry) (chunk j : Z) :
  0 < size <= 2 ^ 32 -> 0 <= head -> nseg < 2 ^ 31 ->
  head + size * nseg <= 2 ^ 64 ->
  lock w = false ->
  Z.of_nat id < nseg ->
  id ∈ active_segment_list w ->
  segments w !! id = Some g ->
  shmBufLocalMaps w !! id = Some l ->
  seg_inv (shmBufferSegmentMmapPtr size head id) size None cs (mkSegst g (wmem w)) ->
  (chunk, j, false) ∈ cs ->
  (USE_ASSERT_CHECKING = true -> SHMBUF_CHUNK_CHECK_MAGIC (wmem w) chunk = true) ->
  length (active_entries cs) = 1%nat ->
  (is_attached l = true -> munmap_ok os = true /\ mmap_none_ok os = true) ->
  shm_open_ok os = true -> shm_unlink_ok os = true ->
  exists w' g',
    shmbufFree USE_ASSERT_CHECKING size head nseg os (chunk_data chunk) w = Ret tt w' /\
    lock w' = false /\
    active_segment_list w' = filter (fun i => i ≠ id) (active_segment_list w) /\
    free_segment_list w' = id :: free_segment_list w /\
    segments w' = <[id := g']> (segments w) /\
    revision g' = wrap32 (revision g + 1) /\
    SHMBUF_SEGMENT_EXISTS (revision g') = negb (SHMBUF_SEGMENT_EXISTS (revision g)) /\
    num_actives g' = 0 /\
    shmBufLocalMaps w' = <[id := set_is_attached false l]> (shmBufLocalMaps w) /\
    bytes (wmem w') = bytes (wmem w).
Proof.
  intros Hsize Hhead Hnseg Htail Hlock Hid Hact Hg Hl Hinv Hin Hguard Hone Hghost Hopen
    Hunlink.
  destruct (shmbufFree_runs USE_ASSERT_CHECKING size head nseg Hsize Hhead Hnseg Htail
              os w id g cs chunk j Hlock Hid Hg Hinv Hin Hguard)
    as (s' & cs' & Hinv' & Hlen & Hrev & Hby & Hrun).
  simpl in Hrun, Hrev.
  destruct (Z.eqb_spec (Z.of_nat (length (active_entries cs'))) 0) as [Hz|Hnz]; [|lia].
  assert (id < length (segments w))%nat as Hlt by (by eapply lookup_lt_Some).
  set (w1 := set_wmem (sm s')
               (set_segments (<[id := sg s']> (segments w)) (set_lock true w))) in *.
  set (w2 := set_active_segment_list
               (filter (fun i => i ≠ id) (active_segment_list w1)) w1).
  pose proof (drop_segment_runs os id w2 (sg s') l) as Hdrop.
  rewrite Hrun.
  eexists _, (set_revision (wrap32 (revision (sg s') + 1)) (sg s')).
  unfold bind at 1 2. rewrite (dlist_delete_segment_active id w1) by done. fold w2.
  unfold bind, modify, SpinLockRelease. rewrite Hdrop; [| |done|done|done|done].
  2:{ unfold w2, w1. simpl. by apply list_lookup_insert_eq. }
  split; [reflexivity|]. simpl.
  split; [done|]. split; [done|]. split; [done|].
  split; [by rewrite list_insert_insert_eq|].
  split; [by rewrite Hrev|]. split; [by rewrite Hrev, exists_flips|].
  split; [|done].
  rewrite (inv_actives _ _ _ _ _ Hinv'). lia.
Qed.

Lemma X8_free_of_last_chunk_drops_segment_witness :
  exists w p w',
    shmbufFree false ex_size ex_head 1 ex_os p w = Ret tt w' /\
    active_segment_list w' = [] /\
    free_segment_list w' = [0%nat].
Proof.
  destruct ex_fresh_segment as (s & _ & Hinv).
  assert (ex_size <= 2 ^ 32) as Hsz by (vm_compute; discriminate).
  destruct (alloc_finds false ex_head ex_size Hsz 0%nat 50 7 _ s ex_head 25
              ltac:(apply plain_request_small; lia) Hinv)
    as (a1 & s1 & cs1 & Hrun1 & Hinv1 & Hin1 & _ & _ & _ & Hlen1);
    [vm_compute; reflexivity | left | lia |].
  destruct (X8_free_of_last_chunk_drops_segment false ex_size ex_head 1 ex_os
              (mkWorld false [0%nat] [] [sg s1] [mkLocalMap false 1 true] (sm s1))
              0%nat (sg s1) (mkLocalMap false 1 true) cs1 a1 7)
    as (w' & g' & Hrun & _ & Hact & Hfree & _).
  - vm_compute. split; [reflexivity|discriminate].
  - vm_compute. discriminate.
  - reflexivity.
  - vm_compute. discriminate.
  - reflexivity.
  - reflexivity.
  - simpl. left.
  - reflexivity.
  - reflexivity.
  - destruct s1. exact Hinv1.
  - exact Hin1.
  - intros [=].
  - exact Hlen1.
  - intros _. split; reflexivity.
  - reflexivity.
  - reflexivity.
  - eexists _, _, w'. split; [exact Hrun|]. split; [exact Hact|exact Hfree].
Defined.

(** ** The directory lock around [shmbufAlloc] *)

(** [shmBufferAllocChunk], entered with the directory lock held, ends
    with the lock held, whatever its outcome. *)
Lemma shmBufferAllocChunk_lock (USE_ASSERT_CHECKING : bool) (size head : Z)
    (os : os_results) (n : Z) (w : world) :
  lock w = true ->
  lock (final (shmBufferAllocChunk USE_ASSERT_CHECKING size head os n w)) = true.
Proof.
  intros Hlock. unfold shmBufferAllocChunk, bind at 1, get.
  pose proof (scan_active_lock USE_ASSERT_CHECKING (active_segment_list w) n w) as Hscan.
  unfold bind at 1.
  destruct (scan_active _ _ _ w) as [[c|] w1|f w1]; simpl; try congruence.
  rewrite (bind_Fail_intro _ _ _ StuckSpinLock w1); [simpl; congruence|].
  apply create_segment_relock. congruence.
Qed.

(** X9.  The directory lock around [shmbufAlloc].  Entered with the
    lock free, the call has released the lock whenever it returns and
    whenever it raises an ERROR (the [PG_CATCH] block); the lock is
    still held after every other way the call can end (a failed
    assertion, the second acquisition of the lock, an access outside
    the free-list array).  Entered with the lock held, the call does
    not get past its first statement. *)
Theorem X9_alloc_releases_lock_on_return_and_error
    (USE_ASSERT_CHECKING : bool) (size head : Z) (os : os_results) (n : Z) (w : world) :
  (lock w = false ->
   match shmbufAlloc USE_ASSERT_CHECKING size head os n w with
   | Ret _ w' => lock w' = false
   | Fail f w' => lock w' = negb (is_ERROR f)
   end) /\
  (lock w = true ->
   shmbufAlloc USE_ASSERT_CHECKING size head os n w = Fail StuckSpinLock w).
Proof.
  split; intros Hlock.
  - unfold shmbufAlloc, bind at 1, SpinLockAcquire. rewrite Hlock.
    pose proof (shmBufferAllocChunk_lock USE_ASSERT_CHECKING size head os n
                  (set_lock true w) eq_refl) as Hbody.
    unfold bind at 1, PG_TRY.
    destruct (shmBufferAllocChunk _ _ _ _ _ _) as [r w1|f w1]; simpl in Hbody.
    + unfold bind, SpinLockRelease. by destruct r.
    + destruct (is_ERROR f) eqn:Herr; simpl; [by rewrite Herr|by rewrite Herr].
  - unfold shmbufAlloc, bind at 1, SpinLockAcquire. by rewrite Hlock.
Qed.

Lemma X9_alloc_releases_lock_on_return_and_error_witness :
  exists f w',
    shmbufAlloc false ex_size ex_head ex_os (2 ^ 32) ex_active = Fail f w' /\
    is_ERROR f = true /\
    lock w' = false.
Proof.
  assert (lock ex_active = false) as Hlock by (vm_compute; reflexivity).
  pose proof (proj1 (X9_alloc_releases_lock_on_return_and_error false ex_size ex_head
                       ex_os (2 ^ 32) ex_active) Hlock) as H.
  destruct (shmbufAlloc false ex_size ex_head ex_os (2 ^ 32) ex_active)
    as [r w'|f w'] eqn:E.
  - vm_compute in E. discriminate.
  - assert (f = ErrTooLarge) as -> by (vm_compute in E; congruence).
    exists ErrTooLarge, w'. split; [reflexivity|]. split; [reflexivity|exact H].
Defined.

(** ** What the fault handler leaves alone *)

Lemma lmap_insert_same (lmaps : list shmBufferLocalMap) id l :
  lmaps !! id = Some l -> mutex l = false ->
  <[id := set_mutex false (set_mutex true l)]> (<[id := set_mutex true l]> lmaps) = lmaps.
Proof.
  intros Hl Hm. rewrite list_insert_insert_eq. apply list_insert_id.
  rewrite Hl. f_equal. destruct l; simpl in *. by subst.
Qed.

Ltac handler_ends :=
  simpl; repeat split; try done;
  try (intros ? ? [= <- <-]; done); try (intros ? ? [=]).

(** X10.  Whatever the faulting address and however it ends,
    [shmBufferAttachSegmentOnDemand] changes neither the directory lock,
    nor the two lists of the directory, nor any segment, nor the
    memory, nor the number of local map entries; the only local map
    entry it can change is the one of the slot of the faulting address.
    When it returns, to the faulting instruction or to the crash, the
    mutex of every local map entry is as it was at entry. *)
Theorem X10_fault_handler_changes_one_local_map_entry
    (USE_ASSERT_CHECKING : bool) (size head nseg : Z) (os : os_results)
    (fault_addr : Z) (w : world) :
  let o := shmBufferAttachSegmentOnDemand USE_ASSERT_CHECKING size head nseg os
             fault_addr w in
  let id := Z.to_nat (wrap32 ((fault_addr - head) / size)) in
  lock (final o) = lock w /\
  active_segment_list (final o) = active_segment_list w /\
  free_segment_list (final o) = free_segment_list w /\
  segments (final o) = segments w /\
  wmem (final o) = wmem w /\
  length (shmBufLocalMaps (final o)) = length (shmBufLocalMaps w) /\
  (forall i, i ≠ id -> shmBufLocalMaps (final o) !! i = shmBufLocalMaps w !! i) /\
  (forall e w', o = Ret e w' ->
     mutex <$> shmBufLocalMaps w' = mutex <$> shmBufLocalMaps w).
Proof.
  intros o id.
  destruct w as [lk act fr segs lmaps mem].
  set (w := mkWorld lk act fr segs lmaps mem) in *.
  (* the ways the handler can end *)
  assert (o = Ret Crashed w \/ (exists f, o = Fail f w) \/
          exists l e,
            lmaps !! id = Some l /\ mutex l = false /\
            (o = (lmap_release id ;;; ret e)
                   (mkWorld lk act fr segs (<[id := set_mutex true l]> lmaps) mem) \/
             o = (lmap_release id ;;; ret e)
                   (mkWorld lk act fr segs
                      (<[id := set_is_attached false (set_mutex true l)]> lmaps) mem)))
    as Hcases.
  { subst o. unfold shmBufferAttachSegmentOnDemand. fold id.
    destruct ((head <=? fault_addr) && _); [|by left].
    match goal with
    | |- context [Assert ?b ?c] =>
        assert (Assert b c w = Ret tt w \/ Assert b c w = Fail AssertFailed w) as [Ha|Ha]
          by (unfold Assert; destruct (b && negb c); [by right|by left])
    end.
    2:{ right. left. exists AssertFailed. by apply bind_Fail_intro. }
    rewrite (bind_Ret_intro _ _ _ tt w Ha).
    destruct (segs !! id) as [g|] eqn:Hg.
    2:{ right. left. exists Undefined. apply bind_Fail_intro.
        unfold on_segment. change (segments w) with segs. by rewrite Hg. }
    rewrite (bind_Ret_intro _ _ _ (revision g) w)
      by (by apply (on_segment_same id _ w g)).
    destruct (SHMBUF_SEGMENT_EXISTS (revision g)); [|by left].
    change (negb true) with false. cbv iota.
    destruct (lmaps !! id) as [l|] eqn:Hl.
    2:{ right. left. exists Undefined. apply bind_Fail_intro.
        unfold lmap_acquire. apply bind_Fail_intro.
        unfold read_lmap. change (shmBufLocalMaps w) with lmaps. by rewrite Hl. }
    assert (id < length lmaps)%nat as Hlen by (by eapply lookup_lt_Some).
    destruct (mutex l) eqn:Hm.
    { right. left. exists StuckSpinLock. apply bind_Fail_intro.
      unfold lmap_acquire.
      rewrite (bind_Ret_intro _ _ _ l w)
        by (unfold read_lmap; change (shmBufLocalMaps w) with lmaps; by rewrite Hl).
      by rewrite Hm. }
    set (w1 := mkWorld lk act fr segs (<[id := set_mutex true l]> lmaps) mem).
    rewrite (bind_Ret_intro _ _ _ tt w1).
    2:{ unfold lmap_acquire.
        rewrite (bind_Ret_intro _ _ _ l w)
          by (unfold read_lmap; change (shmBufLocalMaps w) with lmaps; by rewrite Hl).
        rewrite Hm. unfold update_lmap. change (shmBufLocalMaps w) with lmaps.
        by rewrite Hl. }
    rewrite (bind_Ret_intro _ _ _ (set_mutex true l) w1).
    2:{ unfold read_lmap, w1. cbn [shmBufLocalMaps].
        by rewrite list_lookup_insert_eq. }
    change (is_attached (set_mutex true l)) with (is_attached l).
    change (lm_revision (set_mutex true l)) with (lm_revision l).
    right. right. exists l.
    destruct (is_attached l && (lm_revision l =? revision g)); [by eexists; eauto|].
    destruct (is_attached l && negb (munmap_ok os)); [by eexists; eauto|].
    destruct (is_attached l) eqn:Hatt.
    - set (w2 := mkWorld lk act fr segs
                   (<[id := set_is_attached false (set_mutex true l)]> lmaps) mem).
      rewrite (bind_Ret_intro _ _ _ tt w2).
      2:{ unfold update_lmap, w1. cbn [shmBufLocalMaps].
          rewrite list_lookup_insert_eq by done.
          unfold set_shmBufLocalMaps, w2. cbn. by rewrite list_insert_insert_eq. }
      destruct (shm_open_ok os), (mmap_ok os); simpl; eauto 6.
    - rewrite (bind_Ret_intro _ _ _ tt w1) by done.
      destruct (shm_open_ok os), (mmap_ok os); simpl; eauto 6. }
  clearbody o.
  destruct Hcases as [->|[[f ->]|(l & e & Hl & Hm & Ho)]]; [handler_ends..|].
  assert (id < length lmaps)%nat as Hlen by (by eapply lookup_lt_Some).
  assert (forall l1, mutex l1 = true ->
            (lmap_release id ;;; ret e) (mkWorld lk act fr segs (<[id := l1]> lmaps) mem)
            = Ret e (mkWorld lk act fr segs (<[id := set_mutex false l1]> lmaps) mem))
    as Hrel.
  { intros l1 _. unfold bind, lmap_release, update_lmap, ret. cbn [shmBufLocalMaps].
    rewrite list_lookup_insert_eq by done.
    unfold set_shmBufLocalMaps. cbn. by rewrite list_insert_insert_eq. }
  rewrite !Hrel in Ho by done.
  assert (exists l2, mutex l2 = false /\
            o = Ret e (mkWorld lk act fr segs (<[id := l2]> lmaps) mem))
    as (l2 & Hm2 & ->).
  { destruct Ho as [->| ->]; eexists; (split; [|reflexivity]); done. }
  simpl. split; [done|]. split; [done|]. split; [done|]. split; [done|]. split; [done|].
  split; [by rewrite length_insert|]. split.
  - intros i Hi. by rewrite list_lookup_insert_ne.
  - intros e' w' [= <- <-]. simpl. apply list_eq. intros i.
    rewrite !list_lookup_fmap.
    destruct (decide (i = id)) as [->|Hi].
    + rewrite list_lookup_insert_eq by done. rewrite Hl. simpl. by rewrite Hm, Hm2.
    + by rewrite list_lookup_insert_ne.
Qed.

(** X11.  The cases in which [shmBufferAttachSegmentOnDemand] takes the
    [normal_crash] exit and leaves everything as it found it, the mutex
    of the local map entry released again: the faulting address is
    outside the reserved range; the slot of the address holds no
    segment (its revision is even); the local map has the slot attached
    at the current revision already; or the local map has it attached
    at another revision and [munmap] fails. *)
Theorem X11_fault_handler_crashes_without_change
    (USE_ASSERT_CHECKING : bool) (size head nseg : Z) (os : os_results)
    (fault_addr : Z) (w : world) :
  let handler :=
    shmBufferAttachSegmentOnDemand USE_ASSERT_CHECKING size head nseg os fault_addr in
  let id := Z.to_nat (wrap32 ((fault_addr - head) / size)) in
  (¬ (head <= fault_addr < shmbuf_segment_vaddr_tail size head nseg) ->
   handler w = Ret Crashed w) /\
  (forall g,
     head <= fault_addr < shmbuf_segment_vaddr_tail size head nseg ->
     Z.of_nat id < nseg ->
     segments w !! id = Some g ->
     (SHMBUF_SEGMENT_EXISTS (revision g) = false ->
      handler w = Ret Crashed w) /\
     (forall l,
        SHMBUF_SEGMENT_EXISTS (revision g) = true ->
        shmBufLocalMaps w !! id = Some l ->
        mutex l = false -> is_attached l = true ->
        lm_revision l = revision g \/ munmap_ok os = false ->
        handler w = Ret Crashed w)).
Proof.
  intros handler id. subst handler. split; [|intros g Hrange Hid Hg; split].
  - intros Hout. unfold shmBufferAttachSegmentOnDemand.
    destruct (Z.leb_spec head fault_addr), (Z.ltb_spec fault_addr
      (shmbuf_segment_vaddr_tail size head nseg)); simpl; try done. lia.
  - intros Hrev. unfold shmBufferAttachSegmentOnDemand. fold id.
    destruct (Z.leb_spec head fault_addr), (Z.ltb_spec fault_addr
      (shmbuf_segment_vaddr_tail size head nseg)); try lia. simpl.
    rewrite (bind_Ret_intro _ _ _ tt w)
      by (rewrite (proj2 (Z.ltb_lt _ _) Hid); apply Assert_true).
    rewrite (bind_Ret_intro _ _ _ (revision g) w)
      by (by apply (on_segment_same id _ w g)).
    by rewrite Hrev.
  - intros l Hrev Hl Hm Hatt Hcase. unfold shmBufferAttachSegmentOnDemand. fold id.
    destruct (Z.leb_spec head fault_addr), (Z.ltb_spec fault_addr
      (shmbuf_segment_vaddr_tail size head nseg)); try lia. simpl.
    rewrite (bind_Ret_intro _ _ _ tt w)
      by (rewrite (proj2 (Z.ltb_lt _ _) Hid); apply Assert_true).
    rewrite (bind_Ret_intro _ _ _ (revision g) w)
      by (by apply (on_segment_same id _ w g)).
    rewrite Hrev. simpl.
    assert (id < length (shmBufLocalMaps w))%nat as Hlen by (by eapply lookup_lt_Some).
    set (w1 := set_shmBufLocalMaps (<[id := set_mutex true l]> (shmBufLocalMaps w)) w).
    rewrite (bind_Ret_intro _ _ _ tt w1).
    2:{ unfold lmap_acquire.
        rewrite (bind_Ret_intro _ _ _ l w) by (unfold read_lmap; by rewrite Hl).
        rewrite Hm. unfold update_lmap. by rewrite Hl. }
    rewrite (bind_Ret_intro _ _ _ (set_mutex true l) w1).
    2:{ unfold read_lmap, w1. simpl. by rewrite list_lookup_insert_eq. }
    change (is_attached (set_mutex true l)) with (is_attached l).
    change (lm_revision (set_mutex true l)) with (lm_revision l).
    rewrite Hatt. simpl.
    assert ((lmap_release id ;;; ret Crashed) w1 = Ret Crashed w) as Hrel.
    { unfold bind, lmap_release, update_lmap, ret, w1. simpl.
      rewrite list_lookup_insert_eq by done.
      unfold set_shmBufLocalMaps. simpl. rewrite lmap_insert_same by done.
      by destruct w. }
    destruct Hcase as [->| ->].
    + by rewrite Z.eqb_refl.
    + simpl. by destruct (lm_revision l =? revision g).
Qed.

Lemma X11_fault_handler_crashes_without_change_witness :
  shmBufferAttachSegmentOnDemand true ex_size ex_head ex_nseg ex_os (ex_head - 1) ex_started
    = Ret Crashed ex_started /\
  shmBufferAttachSegmentOnDemand true ex_size ex_head ex_nseg ex_os (ex_head + 100)
    ex_started = Ret Crashed ex_started.
Proof.
  destruct (X11_fault_handler_crashes_without_change true ex_size ex_head ex_nseg ex_os
              (ex_head - 1) ex_started) as [Hout _].
  destruct (X11_fault_handler_crashes_without_change true ex_size ex_head ex_nseg ex_os
              (ex_head + 100) ex_started) as [_ Hin].
  split.
  - apply Hout. vm_compute. intros [H _]. by apply H.
  - destruct (Hin (mkSegment 1 0 (<[18%nat := [ex_head]]> (replicate 26 []))))
      as [_ Hvalid].
    + vm_compute. split; [discriminate|reflexivity].
    + vm_compute. reflexivity.
    + vm_compute. reflexivity.
    + apply (Hvalid (mkLocalMap false 1 true)).
      * vm_compute. reflexivity.
      * vm_compute. reflexivity.
      * reflexivity.
      * reflexivity.
      * left. reflexivity.
Defined.

(** ** The segment size accepted at start-up *)

(** [x & (x - 1)] is zero exactly for the powers of two. *)
Lemma land_pred_pow2 x :
  0 < x -> (Z.land x (x - 1) = 0 <-> exists k, 0 <= k /\ x = 2 ^ k).
Proof.
  intros Hx. split.
  - intros Hland. exists (Z.log2 x). split; [apply Z.log2_nonneg|].
    pose proof (Z.log2_spec x Hx) as [Hlo Hhi].
    destruct (Z.eq_dec x (2 ^ Z.log2 x)) as [|Hne]; [done|exfalso].
    assert (Z.log2 (x - 1) = Z.log2 x) as Hlog
      by (apply Z.log2_unique; [apply Z.log2_nonneg|lia]).
    assert (Z.testbit (Z.land x (x - 1)) (Z.log2 x) = true) as Hbit.
    { rewrite Z.land_spec, (Z.bit_log2 x Hx).
      rewrite <- Hlog. rewrite Z.bit_log2; [done|].
      pose proof (Z.pow_pos_nonneg 2 (Z.log2 x) ltac:(lia) (Z.log2_nonneg x)). lia. }
    rewrite Hland, Z.bits_0 in Hbit. discriminate.
  - intros (k & Hk & ->).
    replace (2 ^ k - 1) with (Z.ones k) by (rewrite Z.ones_equiv; lia).
    rewrite Z.land_ones by done. apply Z.mod_same.
    pose proof (Z.pow_pos_nonneg 2 k ltac:(lia) Hk). lia.
Qed.

(** X12.  The segment size that [pgstrom_init_shmbuf] accepts: for a
    setting within the bounds of the GUC, the size in bytes is defined
    exactly when the setting is a power of two, and it is then [2^K]
    bytes for some [K] from 25 to 32, that is, from the class of 32MB
    chunks up to the largest class. *)
Theorem X12_accepted_segment_size_is_power_of_two (kb : Z) :
  shmbuf_segment_size_kb_min <= kb <= shmbuf_segment_size_kb_max ->
  (forall size,
     pgstrom_init_shmbuf_segment_size kb = Some size <->
     exists K, 25 <= K <= SHMBUF_CHUNKSZ_MAX_BIT /\ kb = 2 ^ (K - 10) /\ size = 2 ^ K) /\
  (pgstrom_init_shmbuf_segment_size kb = None <-> ¬ exists k, 0 <= k /\ kb = 2 ^ k).
Proof.
  unfold shmbuf_segment_size_kb_min, shmbuf_segment_size_kb_max.
  change (Z.shiftl 32 10) with (2 ^ 15). change (Z.shiftl 4096 10) with (2 ^ 22).
  intros Hkb.
  assert (0 < kb) as Hpos by (assert (0 < 2 ^ 15) by done; lia).
  pose proof (land_pred_pow2 kb Hpos) as Hiff.
  assert (forall k, 0 <= k -> kb = 2 ^ k -> 15 <= k <= 22) as Hrange.
  { intros k Hk ->. split.
    - apply (Z.pow_le_mono_r_iff 2); lia.
    - apply (Z.pow_le_mono_r_iff 2); lia. }
  unfold pgstrom_init_shmbuf_segment_size.
  destruct (Z.eqb_spec (Z.land kb (kb - 1)) 0) as [Hz|Hnz]; simpl.
  - destruct (proj1 Hiff Hz) as (k & Hk & Hkk).
    pose proof (Hrange k Hk Hkk) as Hk'.
    assert (wrap64 (Z.shiftl kb 10) = 2 ^ (k + 10)) as Hw.
    { rewrite Z.shiftl_mul_pow2 by lia. rewrite Hkk, <- Z.pow_add_r by lia.
      unfold wrap64. apply Z.mod_small. split; [apply Z.pow_nonneg; lia|].
      apply Z.pow_lt_mono_r; lia. }
    split; [|split; [discriminate|intros Hno; exfalso; apply Hno; eauto]].
    intros size. rewrite Hw. split.
    + intros [= <-]. exists (k + 10). unfold SHMBUF_CHUNKSZ_MAX_BIT.
      split; [lia|]. split; [|done]. rewrite Hkk. f_equal. lia.
    + intros (K & HK & Hkb' & ->). do 2 f_equal.
      assert (2 ^ k = 2 ^ (K - 10)) as Heq by congruence.
      apply Z.pow_inj_r in Heq; lia.
  - split; [|split; [intros _ Hex; by apply Hnz, Hiff|done]].
    intros size. split; [discriminate|].
    intros (K & HK & Hkb' & _). exfalso. apply Hnz, Hiff. exists (K - 10). split; [lia|done].
Qed.

Lemma X12_accepted_segment_size_is_power_of_two_witness :
  pgstrom_init_shmbuf_segment_size (Z.shiftl 256 10) = Some (2 ^ 28) /\
  pgstrom_init_shmbuf_segment_size (Z.shiftl 48 10) = None.
Proof.
  destruct (X12_accepted_segment_size_is_power_of_two (Z.shiftl 256 10)) as [Hsome _].
  { vm_compute. split; discriminate. }
  destruct (X12_accepted_segment_size_is_power_of_two (Z.shiftl 48 10)) as [_ Hnone].
  { vm_compute. split; discriminate. }
  split.
  - apply Hsome. exists 28. split; [unfold SHMBUF_CHUNKSZ_MAX_BIT; lia|].
    split; reflexivity.
  - reflexivity.
Defined.

(** ** [shmbufAllocZero] and the guards *)

Section ZeroedChunk.

Variable USE_ASSERT_CHECKING : bool.
Variables size head : Z.
Hypothesis Hsize : size <= 2 ^ 32.

(** The segment that serves a request in the scan of the active list,
    and what the allocation changes in it. *)
Lemma scan_active_allocated l n :
  plain_request n ->
  forall w chunk w',
    (forall id, id ∈ l ->
       exists g cs,
         segments w !! id = Some g /\
         seg_inv (shmBufferSegmentMmapPtr size head id) size None cs
                 (mkSegst g (wmem w))) ->
    scan_active USE_ASSERT_CHECKING l n w = Ret (Some chunk) w' ->
    exists id c g cs cs' s',
      id ∈ l /\
      class_of_request n = Some c /\
      segments w !! id = Some g /\
      allocated (shmBufferSegmentMmapPtr size head id) size id n c cs
                (mkSegst g (wmem w)) chunk cs' s' /\
      w' = set_wmem (sm s') (set_segments (<[id := sg s']> (segments w)) w).
Proof.
  intros Hn. induction l as [|id l IH]; intros w chunk w' Hok Hscan; [done|].
  destruct (Hok id ltac:(left)) as (g & cs & Hg & Hinv).
  simpl in Hscan. apply bind_Ret_inv in Hscan as ([a|] & w1 & Hstep & Hrest).
  - injection Hrest as <- <-.
    unfold on_segment in Hstep. rewrite Hg in Hstep.
    destruct (alloc_from_segment_spec USE_ASSERT_CHECKING _ size id n cs _ Hn Hinv Hsize)
      as [[_ Hrun]|(c & Hcls & [(_ & _ & Hrun)|[(_ & _ & Hrun)|(a' & s' & cs' & Hrun & Hal)]])];
      rewrite Hrun in Hstep; try discriminate.
    injection Hstep as <- <-.
    exists id, c, g, cs, cs', s'. split; [left|]. done.
  - unfold on_segment in Hstep. rewrite Hg in Hstep.
    destruct (alloc_from_segment_spec USE_ASSERT_CHECKING _ size id n cs _ Hn Hinv Hsize)
      as [[_ Hrun]|(c & Hcls & [(_ & _ & Hrun)|[(_ & _ & Hrun)|(a' & s' & cs' & Hrun & Hal)]])];
      rewrite Hrun in Hstep; try discriminate.
    injection Hstep as <-.
    assert (set_wmem (wmem w) (set_segments (<[id := g]> (segments w)) w) = w) as Hsame.
    { destruct w; unfold set_wmem, set_segments; simpl in *.
      f_equal. by apply list_insert_id. }
    simpl in Hrest. rewrite Hsame in Hrest.
    destruct (IH w chunk w') as (id' & c' & g' & cs0 & cs' & s' & Hin & Hrest');
      [|done|].
    + intros id' Hid'. apply Hok. by right.
    + exists id', c', g', cs0, cs', s'. split; [by right|done].
Qed.

(** A successful [shmbufAlloc] is a successful scan of the active
    list. *)
Lemma shmbufAlloc_Ret_scan os n w p w' :
  shmbufAlloc USE_ASSERT_CHECKING size head os n w = Ret (Some p) w' ->
  exists chunk w1,
    lock w = false /\
    p = chunk_data chunk /\
    scan_active USE_ASSERT_CHECKING (active_segment_list w) n (set_lock true w)
      = Ret (Some chunk) w1 /\
    w' = set_lock false w1.
Proof.
  intros Hrun. unfold shmbufAlloc in Hrun.
  apply bind_Ret_inv in Hrun as ([] & w0 & Hacq & Hrun).
  unfold SpinLockAcquire in Hacq. destruct (lock w) eqn:Hlock; [done|].
  injection Hacq as <-.
  apply bind_Ret_inv in Hrun as (found & w1 & Htry & Hrun).
  apply bind_Ret_inv in Hrun as ([] & w2 & Hrel & Hrun).
  unfold SpinLockRelease in Hrel. injection Hrel as <-.
  destruct found as [chunk|]; [|done]. injection Hrun as <- <-.
  exists chunk, w1. split; [done|]. split; [done|]. split; [|done].
  unfold PG_TRY in Htry.
  destruct (shmBufferAllocChunk _ _ _ _ _ _) as [r w3|f w3] eqn:Hbody.
  2:{ destruct (is_ERROR f); [|done]. by destruct (SpinLockRelease w3). }
  injection Htry as -> ->.
  unfold shmBufferAllocChunk in Hbody.
  apply bind_Ret_inv in Hbody as (w4 & w5 & Hget & Hbody).
  injection Hget as <- <-.
  apply bind_Ret_inv in Hbody as (r & w6 & Hscan & Hbody).
  change (active_segment_list (set_lock true w)) with (active_segment_list w) in Hscan.
  destruct r as [c0|].
  - injection Hbody as <- <-. done.
  - pose proof (scan_active_lock USE_ASSERT_CHECKING (active_segment_list w) n
                  (set_lock true w)) as Hl.
    rewrite Hscan in Hl. simpl in Hl.
    apply bind_Ret_inv in Hbody as (id0 & w7 & Hcreate & _).
    by rewrite (create_segment_relock USE_ASSERT_CHECKING size head os w6 Hl) in Hcreate.
Qed.

End ZeroedChunk.

Lemma memset_zero_other addr sz m a :
  ¬ (addr <= a < addr + sz) ->
  load_byte (memset_zero addr sz m) a = load_byte m a.
Proof.
  intros Ha. unfold load_byte, memset_zero; simpl.
  assert (a ∉ seqZ addr sz) as Hnin by (rewrite elem_of_seqZ; lia).
  induction (seqZ addr sz) as [|x xs IH]; [done|].
  simpl. apply not_elem_of_cons in Hnin as [Hne Hnin].
  rewrite lookup_insert_ne by done. by apply IH.
Qed.

(** X13.  The chunk behind a pointer returned by [shmbufAllocZero(n)],
    for a request that does not wrap on a well-formed directory inside
    the address space: its first [n] payload bytes are zero, its header
    is stamped with [n], and both guards are in place, the zeroing
    having stopped short of the trailer. *)
Theorem X13_zeroed_chunk_keeps_its_guards
    (USE_ASSERT_CHECKING : bool) (size head : Z) (os : os_results)
    (n : Z) (w : world) (p : Z) (w' : world) :
  size <= 2 ^ 32 ->
  plain_request n ->
  active_segments_ok size head w ->
  (forall id, id ∈ active_segment_list w ->
     0 <= shmBufferSegmentMmapPtr size head id /\
     shmBufferSegmentMmapPtr size head id + size <= 2 ^ 64) ->
  shmbufAllocZero USE_ASSERT_CHECKING size head os n w = Ret (Some p) w' ->
  let chunk := SHMBUF_POINTER_GET_CHUNK p in
  SHMBUF_CHUNK_CHECK_MAGIC (wmem w') chunk = true /\
  required (load_chunk (wmem w') chunk) = n /\
  chain (load_chunk (wmem w') chunk) = false /\
  (forall i, 0 <= i < n -> load_byte (wmem w') (p + i) = 0).
Proof.
  intros Hsize Hn Hok Haddr Hrun chunk.
  unfold shmbufAllocZero in Hrun.
  apply bind_Ret_inv in Hrun as ([p0|] & w1 & Halloc & Hrun); [|done].
  apply bind_Ret_inv in Hrun as ([] & w2 & Hzero & Hrun).
  injection Hzero as <-. injection Hrun as <- <-.
  destruct (shmbufAlloc_Ret_scan USE_ASSERT_CHECKING size head os n w p0 w1 Halloc)
    as (c0 & w3 & Hlock & -> & Hscan & ->).
  destruct (scan_active_allocated USE_ASSERT_CHECKING size head Hsize
              (active_segment_list w) n Hn (set_lock true w) c0 w3 Hok Hscan)
    as (id & c & g & cs & cs' & s' & Hin & Hcls & Hg & Hal & ->).
  destruct Hal as (Hinv' & Hin' & Hh & Ht & _).
  subst chunk.
  replace (SHMBUF_POINTER_GET_CHUNK (chunk_data c0)) with c0
    by (unfold SHMBUF_POINTER_GET_CHUNK, chunk_data; lia).
  simpl.
  (* where the chunk and its trailer lie *)
  destruct (class_of_request_Some _ _ Hcls) as (Hc & Hfit & _).
  rewrite chunk_size_of_small in Hfit by done.
  pose proof (tiles_bounds _ _ _ _ (seg_inv_classes_ok _ _ _ _ _ Hinv')
                (inv_tiles _ _ _ _ _ Hinv') Hin') as [Hlo Hhi].
  unfold ce_addr, ce_class in Hlo, Hhi; simpl in Hlo, Hhi.
  destruct (Haddr id Hin) as [Hb0 Hb1].
  unfold plain_request, chunk_hdrsz, magic_sz in Hn.
  assert (magic_tail_addr c0 n = c0 + 40 + n) as Htail.
  { unfold magic_tail_addr, chunk_data, chunk_hdrsz, wrap64. apply Z.mod_small. lia. }
  assert (load32 (memset_zero (chunk_data c0) n (sm s')) (c0 + 40 + n)
          = load32 (sm s') (c0 + 40 + n)) as Hsame.
  { unfold load32, chunk_data, chunk_hdrsz, wrap64.
    rewrite !(Z.mod_small (c0 + 40 + n + _)) by lia.
    rewrite !memset_zero_other by lia. done. }
  split; [|split; [|split]].
  - unfold SHMBUF_CHUNK_CHECK_MAGIC, SHMBUF_CHUNK_MAGIC_HEAD, SHMBUF_CHUNK_MAGIC_TAIL.
    change (load_chunk (memset_zero (chunk_data c0) n (sm s')) c0)
      with (load_chunk (sm s') c0).
    rewrite Hh. simpl. rewrite Htail, Hsame, <- Htail, Ht. by rewrite Z.eqb_refl.
  - change (load_chunk (memset_zero (chunk_data c0) n (sm s')) c0)
      with (load_chunk (sm s') c0). by rewrite Hh.
  - change (load_chunk (memset_zero (chunk_data c0) n (sm s')) c0)
      with (load_chunk (sm s') c0). by rewrite Hh.
  - intros i Hi. apply memset_zero_lookup. lia.
Qed.

Lemma X13_zeroed_chunk_keeps_its_guards_witness :
  SHMBUF_CHUNK_CHECK_MAGIC
    (wmem (final (shmbufAllocZero false ex_size ex_head ex_os 50 ex_active)))
    (SHMBUF_POINTER_GET_CHUNK (ex_head + 40)) = true.
Proof.
  apply (X13_zeroed_chunk_keeps_its_guards false ex_size ex_head ex_os 50 ex_active
           (ex_head + 40)
           (final (shmbufAllocZero false ex_size ex_head ex_os 50 ex_active))).
  - vm_compute. discriminate.
  - unfold plain_request, chunk_hdrsz, magic_sz. lia.
  - exact ex_active_ok.
  - intros id Hid. change (id ∈ [0%nat]) in Hid.
    apply list_elem_of_singleton in Hid as ->. vm_compute. split; discriminate.
  - vm_compute. reflexivity.
Defined.

(** ** The shape of a segment after a split *)

Lemma split_entry_unique (l1 l2 l1' l2' : list chunk_entry) e e' :
  l1 ++ e :: l2 = l1' ++ e' :: l2' ->
  ce_addr e = ce_addr e' ->
  NoDup (ce_addr <$> (l1 ++ e :: l2)) ->
  l1 = l1' /\ e = e' /\ l2 = l2'.
Proof.
  revert l1'. induction l1 as [|x l1 IH]; intros l1' Heq Ha Hnd.
  - simpl in Heq. symmetry in Heq.
    destruct (head_entry_unique e l2 l1' l2' e' (eq_sym Heq) (eq_sym Ha) Hnd)
      as (-> & -> & ->).
    done.
  - destruct l1' as [|x' l1'].
    + simpl in Heq. injection Heq as -> <-.
      simpl in Hnd. apply NoDup_cons in Hnd as [Hnin _].
      exfalso. apply Hnin. rewrite fmap_app, elem_of_app. right. simpl. rewrite Ha. left.
    + simpl in Heq. injection Heq as -> Heq.
      simpl in Hnd. apply NoDup_cons in Hnd as [_ Hnd].
      destruct (IH l1' Heq Ha Hnd) as (-> & -> & ->). done.
Qed.

Lemma elem_of_rungs base c d e :
  e ∈ rungs base c d <->
  exists i, c <= i < c + Z.of_nat d /\ e = (base + 2 ^ i, i, true).
Proof.
  revert c. induction d as [|d IH]; intros c.
  - simpl. split; [by intros ?%elem_of_nil|]. intros (i & Hi & _). lia.
  - rewrite rungs_succ, elem_of_cons, IH. split.
    + intros [->|(i & Hi & ->)]; [exists c|exists i]; split; try done; lia.
    + intros (i & Hi & ->). destruct (decide (i = c)) as [->|Hne]; [by left|].
      right. exists i. split; [lia|done].
Qed.

Lemma active_entries_rungs base c d : active_entries (rungs base c d) = [].
Proof.
  revert c. induction d as [|d IH]; intros c; [done|].
  rewrite rungs_succ, active_entries_cons. unfold ce_free; simpl. apply IH.
Qed.

Section SplitShape.

Variable USE_ASSERT_CHECKING : bool.
Variables base size : Z.

Local Abbreviation mindex k := (Z.to_nat (k - SHMBUF_CHUNKSZ_MIN_BIT)).

(** [split_halves] with what it leaves alone. *)
Lemma split_halves_shape cs s k a rest :
  seg_inv base size None cs s ->
  SHMBUF_CHUNKSZ_MIN_BIT < k <= SHMBUF_CHUNKSZ_MAX_BIT ->
  free_chunks (sg s) !! mindex k = Some (a :: rest) ->
  exists s' l1 l2 lk1,
    split_halves USE_ASSERT_CHECKING k s = Ret true s' /\
    cs = l1 ++ (a, k, true) :: l2 /\
    seg_inv base size None
      (l1 ++ (a, k - 1, true) :: (a + 2 ^ (k - 1), k - 1, true) :: l2) s' /\
    free_chunks (sg s) !! mindex (k - 1) = Some lk1 /\
    free_chunks (sg s') =
      <[mindex (k - 1) := lk1 ++ [a; a + 2 ^ (k - 1)]]>
        (<[mindex k := rest]> (free_chunks (sg s))) /\
    (forall b, ¬ (a <= b < a + 2 ^ k) -> load_chunk (sm s') b = load_chunk (sm s) b) /\
    num_actives (sg s') = num_actives (sg s) /\
    revision (sg s') = revision (sg s) /\
    bytes (sm s') = bytes (sm s).
Proof.
  intros Hinv Hk Hl.
  assert (SHMBUF_CHUNKSZ_MIN_BIT <= k <= SHMBUF_CHUNKSZ_MAX_BIT) as Hk' by lia.
  pose proof (seg_inv_list_head _ _ _ _ _ _ _ _ Hinv Hk' Hl) as Hin.
  destruct (seg_inv_list_lookup base size _ _ _ (k - 1) Hinv) as (lk1 & Hl1 & _);
    [unfold SHMBUF_CHUNKSZ_MIN_BIT in *; lia|].
  assert (mindex (k - 1) = Z.to_nat (k - SHMBUF_CHUNKSZ_MIN_BIT - 1)) as Hidx
    by (f_equal; lia).
  destruct (inv_hdr _ _ _ _ _ Hinv _ Hin) as (Hmc & Hmg & _).
  unfold ce_addr, ce_class in Hmc, Hmg; simpl in Hmc, Hmg.
  destruct (split_halves_Ret USE_ASSERT_CHECKING k s a rest lk1 Hk
              (inv_lists_len _ _ _ _ _ Hinv) Hl ltac:(by rewrite <- Hidx) Hmc Hmg)
    as (s' & Hrun & Hfc & Ha & Ha2 & Hframe & Hact & Hrev & Hby).
  apply list_elem_of_split in Hin as (l1 & l2 & ->).
  assert (0 < 2 ^ (k - 1)) as Hpos
    by (apply pow2_pos; unfold SHMBUF_CHUNKSZ_MIN_BIT in *; lia).
  pose proof (pow2_double k ltac:(unfold SHMBUF_CHUNKSZ_MIN_BIT in *; lia)) as Hdbl.
  exists s', l1, l2, lk1. split; [done|]. split; [done|]. split.
  { eapply seg_inv_split; eauto; [lia|by rewrite <- Hidx]. }
  split; [done|]. split; [by rewrite Hidx|]. split; [|done].
  intros b Hb. apply Hframe; lia.
Qed.

(** [shmBufferSplitChunk(seg, k)] takes the first free chunk of the
    smallest class [k' >= k] that has one, and leaves of it a free
    chunk of every class from [k - 1] to [k' - 1], two of class
    [k - 1]. *)
Lemma split_rec_shape fuel k cs s :
  seg_inv base size None cs s ->
  SHMBUF_CHUNKSZ_MIN_BIT < k <= SHMBUF_CHUNKSZ_MAX_BIT ->
  (Z.to_nat (SHMBUF_CHUNKSZ_MAX_BIT + 1 - k) <= fuel)%nat ->
  exists b s',
    shmBufferSplitChunk_rec USE_ASSERT_CHECKING fuel k s = Ret b s' /\
    if b : bool then
      exists l1 l2 a k' rest lk1,
        k <= k' <= SHMBUF_CHUNKSZ_MAX_BIT /\
        cs = l1 ++ (a, k', true) :: l2 /\
        (forall i, k <= i < k' -> free_chunks (sg s) !! mindex i = Some []) /\
        free_chunks (sg s) !! mindex k' = Some (a :: rest) /\
        free_chunks (sg s) !! mindex (k - 1) = Some lk1 /\
        seg_inv base size None
          (l1 ++ (a, k - 1, true) :: rungs a (k - 1) (Z.to_nat (k' - k + 1)) ++ l2) s' /\
        free_chunks (sg s') !! mindex (k - 1) = Some (lk1 ++ [a; a + 2 ^ (k - 1)]) /\
        (forall i, (i < mindex (k - 1))%nat ->
                   free_chunks (sg s') !! i = free_chunks (sg s) !! i) /\
        (forall b, ¬ (a <= b < a + 2 ^ k') -> load_chunk (sm s') b = load_chunk (sm s) b) /\
        num_actives (sg s') = num_actives (sg s) /\
        revision (sg s') = revision (sg s) /\
        bytes (sm s') = bytes (sm s)
    else s' = s.
Proof.
  revert k cs s. induction fuel as [|fuel IH]; intros k cs s Hinv Hk Hfuel.
  { unfold SHMBUF_CHUNKSZ_MAX_BIT in *. lia. }
  assert (SHMBUF_CHUNKSZ_MIN_BIT <= k <= SHMBUF_CHUNKSZ_MAX_BIT) as Hk' by lia.
  destruct (seg_inv_list_lookup base size _ _ _ k Hinv Hk') as (lk & Hlk & _).
  assert (mindex (k - 1) = Z.to_nat (k - SHMBUF_CHUNKSZ_MIN_BIT - 1)) as Hidx
    by (f_equal; lia).
  assert (mindex (k - 1) < mindex k)%nat as Hidx_lt
    by (unfold SHMBUF_CHUNKSZ_MIN_BIT in *; lia).
  assert (0 <= k - SHMBUF_CHUNKSZ_MIN_BIT < NUM_CLASSES) as Hrange by by apply mindex_range.
  simpl. unfold bind at 1.
  assert ((SHMBUF_CHUNKSZ_MIN_BIT <? k) && (k <=? SHMBUF_CHUNKSZ_MAX_BIT) = true) as ->.
  { apply andb_true_intro. split; [apply Z.ltb_lt|apply Z.leb_le]; lia. }
  rewrite Assert_true. unfold bind at 1.
  rewrite (dlist_is_empty_Ret _ s lk) by done.
  destruct lk as [|a rest].
  - destruct (Z.leb_spec SHMBUF_CHUNKSZ_MAX_BIT k) as [Hmax|Hlt].
    + exists false, s. by split.
    + destruct (IH (k + 1) cs s Hinv) as (b & s1 & Hrun & Hpost).
      { lia. }
      { unfold SHMBUF_CHUNKSZ_MAX_BIT in *. lia. }
      unfold bind. rewrite Hrun. destruct b; [|subst s1; exists false, s; by split].
      destruct Hpost as (l1 & l2 & a & k' & rest & lk0 & Hk'k & Hcs & Hempty & Hl' & Hl0
                         & Hinv1 & Hl1 & Hlow & Hframe & Hna & Hre & Hby).
      replace (k + 1 - 1) with k in * by lia.
      rewrite Hlk in Hl0. injection Hl0 as <-. simpl in Hl1.
      destruct (split_halves_shape _ s1 k a [a + 2 ^ k] Hinv1 Hk Hl1)
        as (s' & l1' & l2' & lk1 & Hh & Hcs1 & Hinv' & Hlk1 & Hfc & Hframe' & Hna' & Hre'
            & Hby').
      pose proof (tiles_NoDup _ _ _ (seg_inv_classes_ok _ _ _ _ _ Hinv1)
                    (inv_tiles _ _ _ _ _ Hinv1)) as Hnd.
      destruct (split_entry_unique _ _ _ _ _ _ Hcs1 eq_refl Hnd) as (<- & _ & <-).
      exists true, s'. simpl. split; [done|].
      exists l1, l2, a, k', rest, lk1.
      split; [lia|]. split; [done|]. split.
      { intros i Hi. destruct (decide (i = k)) as [->|Hne]; [done|]. apply Hempty. lia. }
      split; [done|]. split.
      { rewrite <- Hlk1. symmetry. apply Hlow. done. }
      split.
      { replace (Z.to_nat (k' - k + 1)) with (S (Z.to_nat (k' - (k + 1) + 1))) by lia.
        rewrite rungs_succ. replace (k - 1 + 1) with k by lia. exact Hinv'. }
      split.
      { rewrite Hfc. rewrite list_lookup_insert_eq; [done|].
        rewrite length_insert. by eapply lookup_lt_Some. }
      split.
      { intros i Hi. rewrite Hfc.
        rewrite !list_lookup_insert_ne by lia. apply Hlow. lia. }
      split.
      { intros b Hb. rewrite Hframe'; [apply Hframe; done|].
        assert (2 ^ k <= 2 ^ k') by (apply Z.pow_le_mono_r; lia). lia. }
      split; [congruence|]. split; congruence.
  - unfold bind. simpl.
    destruct (split_halves_shape _ s k a rest Hinv Hk Hlk)
      as (s' & l1 & l2 & lk1 & Hh & Hcs & Hinv' & Hlk1 & Hfc & Hframe & Hna & Hre & Hby).
    exists true, s'. split; [done|].
    exists l1, l2, a, k, rest, lk1.
    split; [lia|]. split; [done|]. split; [intros i Hi; lia|].
    split; [done|]. split; [done|]. split.
    { replace (Z.to_nat (k - k + 1)) with 1%nat by lia. simpl. exact Hinv'. }
    split.
    { rewrite Hfc. rewrite list_lookup_insert_eq; [done|].
      rewrite length_insert. by eapply lookup_lt_Some. }
    split.
    { intros i Hi. rewrite Hfc. rewrite !list_lookup_insert_ne by lia. done. }
    done.
Qed.

End SplitShape.

(** ** The shape of a segment after an allocation *)

Section AllocShape.

Variable USE_ASSERT_CHECKING : bool.
Variables base size : Z.

Local Abbreviation alloc := (__shmBufferAllocChunkFromSegment USE_ASSERT_CHECKING).
Local Abbreviation mindex k := (Z.to_nat (k - SHMBUF_CHUNKSZ_MIN_BIT)).

(** The pop and the stamping write into the payload area only the
    trailing magic word. *)
Lemma alloc_take_bytes id n c s a rest s' :
  plain_request n ->
  SHMBUF_CHUNKSZ_MIN_BIT <= c <= SHMBUF_CHUNKSZ_MAX_BIT ->
  free_chunks (sg s) !! mindex c = Some (a :: rest) ->
  mclass (load_chunk (sm s) a) = c ->
  magic_head (load_chunk (sm s) a) = SHMBUF_CHUNK_MAGIC_CODE ->
  (chunk <- dlist_pop_head_node (c - SHMBUF_CHUNKSZ_MIN_BIT) ;;
   c0 <- read_chunk chunk ;;
   Assert USE_ASSERT_CHECKING (mclass c0 =? c) ;;;
   Assert USE_ASSERT_CHECKING (magic_head c0 =? SHMBUF_CHUNK_MAGIC_CODE) ;;;
   update_chunk chunk (set_chain false) ;;;
   update_chunk chunk (set_required n) ;;;
   update_chunk chunk (set_seg (Some id)) ;;;
   update_memory (write_magic_tail chunk n) ;;;
   modify (fun s => mkSegst (set_num_actives (wrap32 (num_actives (sg s) + 1)) (sg s)) (sm s)) ;;;
   ret (Some chunk)) s = Ret (Some a) s' ->
  bytes (sm s') = bytes (store32 (magic_tail_addr a n) SHMBUF_CHUNK_MAGIC_CODE (sm s)).
Proof.
  intros Hn Hc Hl Hmc Hmg Hrun.
  pose proof (mindex_range c Hc) as Hi.
  unfold bind in Hrun.
  rewrite (dlist_pop_Ret _ s a rest) in Hrun by done.
  unfold read_chunk in Hrun. change (sm (upd_list _ _ s)) with (sm s) in Hrun.
  rewrite Hmc, Hmg, !Z.eqb_refl, !Assert_true in Hrun.
  rewrite !update_chunk_Ret in Hrun. unfold update_memory, modify, ret in Hrun.
  rewrite (write_magic_tail_plain _ _ _ Hn) in Hrun.
  injection Hrun as <-. done.
Qed.

(** A successful [__shmBufferAllocChunkFromSegment(seg, n)] takes the
    first chunk [a] on the free list of the smallest class [k'] from
    the class [c] of the request on that has a free chunk.  The chunk
    at [a] gets class [c]; what is left of the old chunk becomes one
    free chunk of each class from [c] to [k' - 1].  Nothing outside the
    old chunk is written. *)
Lemma alloc_shape id n cs s a s' :
  plain_request n ->
  seg_inv base size None cs s -> size <= 2 ^ 32 ->
  alloc id n s = Ret (Some a) s' ->
  exists c k' l1 l2 rest,
    class_of_request n = Some c /\
    c <= k' <= SHMBUF_CHUNKSZ_MAX_BIT /\
    cs = l1 ++ (a, k', true) :: l2 /\
    (forall i, c <= i < k' -> free_chunks (sg s) !! mindex i = Some []) /\
    free_chunks (sg s) !! mindex k' = Some (a :: rest) /\
    allocated base size id n c cs s a
      (l1 ++ (a, c, false) :: rungs a c (Z.to_nat (k' - c)) ++ l2) s' /\
    (forall b, ¬ (a <= b < a + 2 ^ k') -> load_chunk (sm s') b = load_chunk (sm s) b) /\
    bytes (sm s') = bytes (store32 (magic_tail_addr a n) SHMBUF_CHUNK_MAGIC_CODE (sm s)).
Proof.
  intros Hn Hinv Hsize Hrun.
  destruct (class_of_request n) as [c|] eqn:Hcls.
  2:{ unfold __shmBufferAllocChunkFromSegment in Hrun. by rewrite Hcls in Hrun. }
  destruct (class_of_request_Some _ _ Hcls) as (Hc & _).
  destruct (seg_inv_list_lookup _ _ _ _ _ c Hinv Hc) as (l & Hl & _).
  pose proof (mindex_range c Hc) as Hi.
  unfold __shmBufferAllocChunkFromSegment in Hrun. rewrite Hcls in Hrun.
  unfold bind at 1 in Hrun. rewrite (dlist_is_empty_Ret _ s l) in Hrun by done.
  (* the pop and the stamping, in the state [s1] described by [cs1] *)
  assert (forall l1 l2 d s1 rest1,
            seg_inv base size None (l1 ++ (a, c, true) :: rungs a c d ++ l2) s1 ->
            free_chunks (sg s1) !! mindex c = Some (a :: rest1) ->
            (chunk <- dlist_pop_head_node (c - SHMBUF_CHUNKSZ_MIN_BIT) ;;
             c0 <- read_chunk chunk ;;
             Assert USE_ASSERT_CHECKING (mclass c0 =? c) ;;;
             Assert USE_ASSERT_CHECKING (magic_head c0 =? SHMBUF_CHUNK_MAGIC_CODE) ;;;
             update_chunk chunk (set_chain false) ;;;
             update_chunk chunk (set_required n) ;;;
             update_chunk chunk (set_seg (Some id)) ;;;
             update_memory (write_magic_tail chunk n) ;;;
             modify (fun s => mkSegst (set_num_actives (wrap32 (num_actives (sg s) + 1)) (sg s)) (sm s)) ;;;
             ret (Some chunk)) s1 = Ret (Some a) s' ->
            seg_inv base size None (l1 ++ (a, c, false) :: rungs a c d ++ l2) s' /\
            load_chunk (sm s') a = mkChunk false n c SHMBUF_CHUNK_MAGIC_CODE (Some id) /\
            load32 (sm s') (magic_tail_addr a n) = SHMBUF_CHUNK_MAGIC_CODE /\
            revision (sg s') = revision (sg s1) /\
            (forall b, b ≠ a -> load_chunk (sm s') b = load_chunk (sm s1) b) /\
            bytes (sm s') = bytes (store32 (magic_tail_addr a n) SHMBUF_CHUNK_MAGIC_CODE (sm s1)))
    as Htake.
  { intros l1 l2 d s1 rest1 Hinv1 Hl1 Hrun1.
    assert ((a, c, true) ∈ l1 ++ (a, c, true) :: rungs a c d ++ l2) as Hin
      by (apply elem_of_app; right; left).
    destruct (inv_hdr _ _ _ _ _ Hinv1 _ Hin) as (Hmc & Hmg & _).
    unfold ce_addr, ce_class in Hmc, Hmg; simpl in Hmc, Hmg.
    destruct (alloc_take_Ret USE_ASSERT_CHECKING id n c s1 a rest1 Hn Hc Hl1 Hmc Hmg)
      as (s2 & Hrun2 & Hfc & Ha & Hframe & Hact & Hrev & Htail).
    pose proof (alloc_take_bytes id n c s1 a rest1 s' Hn Hc Hl1 Hmc Hmg Hrun1) as Hby.
    rewrite Hrun1 in Hrun2. injection Hrun2 as <-.
    split; [|done].
    eapply seg_inv_take; eauto. }
  destruct l as [|a0 rest].
  - (* a larger chunk is split *)
    destruct (decide (c = SHMBUF_CHUNKSZ_MAX_BIT)) as [->|Hne].
    { unfold bind, shmBufferSplitChunk in Hrun. simpl in Hrun.
      unfold bind, Assert in Hrun. simpl in Hrun.
      by destruct USE_ASSERT_CHECKING. }
    destruct (split_rec_shape USE_ASSERT_CHECKING base size
                (Z.to_nat (SHMBUF_CHUNKSZ_MAX_BIT + 2 - (c + 1))) (c + 1) cs s Hinv)
      as (b & s1 & Hsplit & Hpost); [lia|lia|].
    unfold bind at 1, shmBufferSplitChunk in Hrun. rewrite Hsplit in Hrun.
    destruct b; [|done]. simpl in Hrun.
    destruct Hpost as (l1 & l2 & a1 & k' & rest & lk1 & Hk' & Hcs & Hempty & Hlk' & Hlk1
                       & Hinv1 & Hl1 & _ & Hframe & Hna & Hre & Hby).
    replace (c + 1 - 1) with c in * by lia.
    rewrite Hl in Hlk1. injection Hlk1 as <-. simpl in Hl1.
    assert (a1 = a) as ->.
    { pose proof (seg_inv_list_head _ _ _ _ _ _ _ _ Hinv1 Hc Hl1) as Hin.
      destruct (inv_hdr _ _ _ _ _ Hinv1 _ Hin) as (Hmc & Hmg & _).
      unfold ce_addr, ce_class in Hmc, Hmg; simpl in Hmc, Hmg.
      destruct (alloc_take_Ret USE_ASSERT_CHECKING id n c s1 a1 [a1 + 2 ^ c] Hn Hc Hl1 Hmc Hmg)
        as (s2 & Hrun2 & _).
      rewrite Hrun in Hrun2. by injection Hrun2. }
    replace (Z.to_nat (k' - (c + 1) + 1)) with (Z.to_nat (k' - c)) in Hinv1 by lia.
    destruct (Htake l1 l2 _ s1 _ Hinv1 Hl1 Hrun) as (Hinv' & Hh & Ht & Hre' & Hframe' & Hby').
    exists c, k', l1, l2, rest.
    split; [done|]. split; [lia|]. split; [done|]. split.
    { intros i Hi'. destruct (decide (i = c)) as [->|Hne']; [done|]. apply Hempty. lia. }
    split; [done|]. split.
    { split; [done|]. split; [apply elem_of_app; right; left|].
      split; [done|]. split; [done|]. split; [congruence|].
      rewrite Hcs, !active_entries_app, !active_entries_cons, !active_entries_app,
        active_entries_rungs, !length_app.
      unfold ce_free; simpl. lia. }
    split.
    { intros b Hb.
      assert (0 < 2 ^ k') by (apply pow2_pos; unfold SHMBUF_CHUNKSZ_MIN_BIT in *; lia).
      rewrite Hframe' by lia. by apply Hframe. }
    rewrite Hby'. unfold store32, store_byte; simpl. by rewrite Hby.
  - (* the list of the class of the request is not empty *)
    simpl in Hrun.
    assert (a0 = a) as ->.
    { pose proof (seg_inv_list_head _ _ _ _ _ _ _ _ Hinv Hc Hl) as Hin.
      destruct (inv_hdr _ _ _ _ _ Hinv _ Hin) as (Hmc & Hmg & _).
      unfold ce_addr, ce_class in Hmc, Hmg; simpl in Hmc, Hmg.
      destruct (alloc_take_Ret USE_ASSERT_CHECKING id n c s a0 rest Hn Hc Hl Hmc Hmg)
        as (s2 & Hrun2 & _).
      unfold bind at 1 in Hrun. simpl in Hrun.
      rewrite Hrun in Hrun2. by injection Hrun2. }
    pose proof (seg_inv_list_head _ _ _ _ _ _ _ _ Hinv Hc Hl) as Hin.
    apply list_elem_of_split in Hin as (l1 & l2 & ->).
    destruct (Htake l1 l2 0%nat s rest Hinv Hl Hrun)
      as (Hinv' & Hh & Ht & Hre' & Hframe' & Hby').
    exists c, c, l1, l2, rest.
    split; [done|]. split; [lia|]. split; [done|]. split; [intros i ?; lia|].
    split; [done|]. replace (Z.to_nat (c - c)) with 0%nat by lia. split.
    { split; [done|]. split; [apply elem_of_app; right; left|].
      split; [done|]. split; [done|]. split; [done|].
      simpl. rewrite !active_entries_app, !active_entries_cons, !length_app.
      unfold ce_free; simpl. lia. }
    split; [|done].
    intros b Hb. apply Hframe'.
    assert (0 < 2 ^ c) by (apply pow2_pos; unfold SHMBUF_CHUNKSZ_MIN_BIT in *; lia). lia.
Qed.

End AllocShape.

(** ** What an allocation does to the rest of the segment *)

Lemma load_byte_store32_other t v m b :
  0 <= t -> t + 4 <= 2 ^ 64 -> ¬ (t <= b < t + 4) ->
  load_byte (store32 t v m) b = load_byte m b.
Proof.
  intros Ht Hh Hb. unfold store32, store_byte, load_byte, wrap64; simpl.
  rewrite !Z.mod_small by lia.
  rewrite !lookup_insert_ne by lia. done.
Qed.

(** X14.  A successful allocation in a well-formed segment, for a
    request whose size sum does not wrap ([n < 2^64 - 44]), returns a
    chunk that overlaps no chunk that was in use: every such chunk is
    still in use, with the header it had, and lies entirely below or
    entirely above the new chunk.  The only payload bytes written are
    the four bytes of the trailing magic word, inside the new chunk. *)
Theorem X14_allocation_leaves_chunks_in_use_alone
    (USE_ASSERT_CHECKING : bool) (base size : Z) (id : nat) (n : Z)
    (cs : list chunk_entry) (s : segst) (a : Z) (s' : segst) :
  seg_inv base size None cs s ->
  size <= 2 ^ 32 -> 0 <= base -> base + size <= 2 ^ 64 ->
  plain_request n ->
  __shmBufferAllocChunkFromSegment USE_ASSERT_CHECKING id n s = Ret (Some a) s' ->
  exists c cs',
    class_of_request n = Some c /\
    seg_inv base size None cs' s' /\
    (a, c, false) ∈ cs' /\
    base <= a /\ a + 2 ^ c <= base + size /\
    chunk_hdrsz + n + magic_sz <= 2 ^ c /\
    (forall e, e ∈ cs -> ce_free e = false ->
       e ∈ cs' /\
       (ce_addr e + 2 ^ ce_class e <= a \/ a + 2 ^ c <= ce_addr e) /\
       load_chunk (sm s') (ce_addr e) = load_chunk (sm s) (ce_addr e)) /\
    (forall b, ¬ (a + chunk_hdrsz + n <= b < a + chunk_hdrsz + n + magic_sz) ->
       load_byte (sm s') b = load_byte (sm s) b).
Proof.
  intros Hinv Hsize Hb0 Hb1 Hn Hrun.
  destruct (alloc_shape USE_ASSERT_CHECKING base size id n cs s a s' Hn Hinv Hsize Hrun)
    as (c & k' & l1 & l2 & rest & Hcls & Hk' & -> & _ & _ & Hal & Hframe & Hby).
  destruct Hal as (Hinv' & Hin' & _).
  destruct (class_of_request_Some _ _ Hcls) as (Hc & Hfit & _).
  unfold plain_request, chunk_hdrsz, magic_sz in *.
  rewrite chunk_size_of_small in Hfit by lia.
  pose proof (seg_inv_classes_ok _ _ _ _ _ Hinv) as Hok.
  pose proof (inv_tiles _ _ _ _ _ Hinv) as Ht.
  destruct (tiles_around _ _ _ _ _ Hok Ht) as (_ & Hbefore & Hafter).
  pose proof (tiles_bounds _ _ _ (a, k', true) Hok Ht
                ltac:(apply elem_of_app; right; left)) as [Hlo Hhi].
  unfold ce_addr, ce_class in Hlo, Hhi; simpl in Hlo, Hhi.
  assert (2 ^ c <= 2 ^ k') as Hpow by (apply Z.pow_le_mono_r; lia).
  exists c, (l1 ++ (a, c, false) :: rungs a c (Z.to_nat (k' - c)) ++ l2).
  split; [done|]. split; [done|]. split; [done|].
  split; [lia|]. split; [lia|]. split; [lia|]. split.
  - intros e He Hfree.
    assert (0 < 2 ^ ce_class e) as Hpos.
    { apply pow2_pos. by apply (proj1 (Forall_forall _ _) Hok). }
    apply elem_of_app in He as [He|He].
    + specialize (Hbefore _ He). split; [apply elem_of_app; by left|].
      unfold ce_addr, ce_class in *; simpl in *.
      split; [by left|]. apply Hframe. lia.
    + apply elem_of_cons in He as [->|He]; [done|].
      specialize (Hafter _ He). split.
      { apply elem_of_app. right. right. apply elem_of_app. by right. }
      unfold ce_addr, ce_class in *; simpl in *.
      split; [right; lia|]. apply Hframe. lia.
  - intros b Hb.
    assert (magic_tail_addr a n = a + 40 + n) as Htail.
    { unfold magic_tail_addr, chunk_data, chunk_hdrsz, wrap64. apply Z.mod_small. lia. }
    rewrite Htail in Hby.
    rewrite <- (load_byte_store32_other (a + 40 + n) SHMBUF_CHUNK_MAGIC_CODE (sm s) b)
      by lia.
    unfold load_byte. by rewrite Hby.
Qed.

Lemma X14_allocation_leaves_chunks_in_use_alone_witness :
  exists s a s' c cs',
    __shmBufferAllocChunkFromSegment false 0%nat 1000 s = Ret (Some a) s' /\
    class_of_request 1000 = Some c /\
    seg_inv ex_head ex_size None cs' s' /\
    (a, c, false) ∈ cs'.
Proof.
  destruct ex_fresh_segment as (s & _ & Hinv).
  destruct (alloc_finds false ex_head ex_size ltac:(vm_compute; discriminate)
              0%nat 1000 11 _ s ex_head 25
              ltac:(apply plain_request_small; lia) Hinv) as (a & s' & _ & Halloc & _).
  - vm_compute. reflexivity.
  - left.
  - lia.
  - destruct (X14_allocation_leaves_chunks_in_use_alone false ex_head ex_size 0%nat 1000
                _ s a s' Hinv) as (c & cs' & Hcls & Hinv' & Hin & _).
    + vm_compute. discriminate.
    + vm_compute. discriminate.
    + vm_compute. discriminate.
    + unfold plain_request, chunk_hdrsz, magic_sz. lia.
    + exact Halloc.
    + exists s, a, s', c, cs'. split; [exact Halloc|]. split; [exact Hcls|].
      split; [exact Hinv'|exact Hin].
Defined.

(** X15.  A successful allocation in a well-formed segment, for a
    request whose size sum does not wrap ([n < 2^64 - 44]), takes the
    first chunk on the free list of the smallest class, from the class
    [c] of the request on, that has a free chunk.  The returned chunk is the start of that
    chunk; what is left of it becomes one free chunk of each class from
    [c] up to the class below the old one, and no other chunk of the
    segment changes. *)
Theorem X15_allocation_splits_smallest_sufficient_chunk
    (USE_ASSERT_CHECKING : bool) (base size : Z) (id : nat) (n : Z)
    (cs : list chunk_entry) (s : segst) (a : Z) (s' : segst) :
  seg_inv base size None cs s ->
  size <= 2 ^ 32 ->
  plain_request n ->
  __shmBufferAllocChunkFromSegment USE_ASSERT_CHECKING id n s = Ret (Some a) s' ->
  exists c k' l1 l2 rest,
    class_of_request n = Some c /\
    c <= k' <= SHMBUF_CHUNKSZ_MAX_BIT /\
    cs = l1 ++ (a, k', true) :: l2 /\
    (forall x j, (x, j, true) ∈ cs -> c <= j -> k' <= j) /\
    free_chunks (sg s) !! Z.to_nat (k' - SHMBUF_CHUNKSZ_MIN_BIT) = Some (a :: rest) /\
    seg_inv base size None
      (l1 ++ (a, c, false) :: rungs a c (Z.to_nat (k' - c)) ++ l2) s'.
Proof.
  intros Hinv Hsize Hn Hrun.
  destruct (alloc_shape USE_ASSERT_CHECKING base size id n cs s a s' Hn Hinv Hsize Hrun)
    as (c & k' & l1 & l2 & rest & Hcls & Hk' & Hcs & Hempty & Hl & Hal & _).
  exists c, k', l1, l2, rest.
  split; [done|]. split; [done|]. split; [done|]. split; [|split; [done|apply Hal]].
  intros x j Hin Hcj.
  destruct (Z_lt_le_dec j k') as [Hlt|]; [|done]. exfalso.
  destruct (inv_class _ _ _ _ _ Hinv _ Hin) as [Hj _].
  unfold ce_class in Hj; simpl in Hj.
  destruct (seg_inv_list_lookup _ _ _ _ _ j Hinv Hj) as (l & Hlj & Hperm).
  rewrite (Hempty j ltac:(lia)) in Hlj. injection Hlj as <-.
  apply elem_of_free_of_class in Hin. rewrite <- Hperm in Hin.
  by apply elem_of_nil in Hin.
Qed.

Lemma X15_allocation_splits_smallest_sufficient_chunk_witness :
  exists s a s',
    __shmBufferAllocChunkFromSegment false 0%nat 1000 s = Ret (Some a) s' /\
    seg_inv ex_head ex_size None
      ((a, 11, false) :: rungs a 11 14 ++ []) s'.
Proof.
  destruct ex_fresh_segment as (s & _ & Hinv).
  destruct (alloc_finds false ex_head ex_size ltac:(vm_compute; discriminate)
              0%nat 1000 11 _ s ex_head 25
              ltac:(apply plain_request_small; lia) Hinv) as (a & s' & _ & Halloc & _).
  - vm_compute. reflexivity.
  - left.
  - lia.
  - destruct (X15_allocation_splits_smallest_sufficient_chunk false ex_head ex_size 0%nat
                1000 _ s a s' Hinv)
      as (c & k' & l1 & l2 & rest & Hcls & _ & Hcs & _ & _ & Hinv').
    + vm_compute. discriminate.
    + unfold plain_request, chunk_hdrsz, magic_sz. lia.
    + exact Halloc.
    + assert (c = 11) as -> by (vm_compute in Hcls; congruence).
      destruct l1 as [|e l1].
      2:{ exfalso. injection Hcs as _ Hnil. by destruct l1. }
      injection Hcs as <- <- <-.
      exists s, ex_head, s'. split; [exact Halloc|exact Hinv'].
Defined.

(** ** The shape of a segment after a release *)

Lemma merge_membership l1 l2 lo j f1 f2 a t :
  0 <= j ->
  classes_ok (l1 ++ (lo, j + 1, false) :: l2) ->
  tiles (l1 ++ (lo, j + 1, false) :: l2) a t ->
  (forall e, ¬ (lo <= ce_addr e < lo + 2 ^ (j + 1)) ->
     (e ∈ l1 ++ (lo, j, f1) :: (lo + 2 ^ j, j, f2) :: l2 <->
      e ∈ l1 ++ (lo, j + 1, false) :: l2)) /\
  (forall e, e ∈ l1 ++ (lo, j, f1) :: (lo + 2 ^ j, j, f2) :: l2 ->
     lo <= ce_addr e < lo + 2 ^ (j + 1) ->
     e = (lo, j, f1) \/ e = (lo + 2 ^ j, j, f2)).
Proof.
  intros Hj Hok Ht.
  destruct (tiles_around _ _ _ _ _ Hok Ht) as (_ & Hbefore & Hafter).
  pose proof (pow2_pos j Hj) as Hpos.
  assert (2 ^ (j + 1) = 2 ^ j + 2 ^ j) as Hdbl
    by (rewrite Z.pow_add_r by lia; change (2 ^ 1) with 2; lia).
  split.
  - intros e He. rewrite !elem_of_app, !elem_of_cons. split.
    + intros [?|[->|[->|?]]]; [by left| | |by right; right];
        exfalso; apply He; unfold ce_addr; simpl; lia.
    + intros [?|[->|?]]; [by left| |by right; right; right].
      exfalso; apply He; unfold ce_addr; simpl; lia.
  - intros e He Hr.
    apply elem_of_app in He as [He|He].
    { specialize (Hbefore _ He).
      assert (0 < 2 ^ ce_class e) as Hpe.
      { apply pow2_pos. apply (proj1 (Forall_forall _ _) Hok).
        apply elem_of_app. by left. }
      unfold ce_addr, ce_class in *; simpl in *. lia. }
    apply elem_of_cons in He as [->|He]; [by left|].
    apply elem_of_cons in He as [->|He]; [by right|].
    specialize (Hafter _ He). unfold ce_addr, ce_class in *; simpl in *. lia.
Qed.

Section LoopShape.

Variable USE_ASSERT_CHECKING : bool.
Variables base size : Z.

Local Abbreviation loop := (free_loop USE_ASSERT_CHECKING size).

Lemma free_loop_shape fuel x j cs s :
  seg_inv base size (Some x) cs s ->
  (x, j, false) ∈ cs ->
  size <= 2 ^ 32 ->
  (Z.to_nat (SHMBUF_CHUNKSZ_MAX_BIT + 1 - j) <= fuel)%nat ->
  exists x' j' cs' s',
    loop fuel base x s = Ret x' s' /\
    seg_inv base size (Some x') cs' s' /\
    (x', j', false) ∈ cs' /\
    merged base x j cs s x' j' cs' s'.
Proof.
  revert x j cs s. induction fuel as [|fuel IH]; intros x j cs s Hinv Hin Hsize Hfuel.
  { destruct (seg_inv_flight_entry _ _ _ _ _ _ Hinv Hin) as (_ & Hj & _).
    unfold SHMBUF_CHUNKSZ_MAX_BIT in *. lia. }
  destruct (seg_inv_flight_entry _ _ _ _ _ _ Hinv Hin) as (Hmc & Hj & Hal & Hlo & Hhi).
  assert (0 <= j) as Hj0 by (unfold SHMBUF_CHUNKSZ_MIN_BIT in *; lia).
  pose proof (pow2_pos j Hj0) as Hpos.
  pose proof (seg_inv_classes_ok _ _ _ _ _ Hinv) as Hok.
  pose proof (inv_tiles _ _ _ _ _ Hinv) as Ht.
  assert (0 <= x - base < 2 ^ 64) as Hoff.
  { split; [done|]. assert (2 ^ 32 < 2 ^ 64) by done. lia. }
  assert (2 ^ (j + 1) = 2 ^ j + 2 ^ j) as Hdbl
    by (rewrite Z.pow_add_r by lia; change (2 ^ 1) with 2; lia).
  (* the loop goes on with the merged chunk *)
  assert (forall x1 cs1 s1,
            seg_inv base size (Some x1) cs1 s1 -> (x1, j + 1, false) ∈ cs1 ->
            x1 <= x -> x + 2 ^ j <= x1 + 2 ^ (j + 1) ->
            (forall e, ¬ (x1 <= ce_addr e < x1 + 2 ^ (j + 1)) -> (e ∈ cs <-> e ∈ cs1)) ->
            (forall e, e ∈ cs -> x1 <= ce_addr e < x1 + 2 ^ (j + 1) ->
                       e = (x, j, false) \/ ce_free e = true) ->
            (forall b, ¬ (x1 <= b < x1 + 2 ^ (j + 1)) ->
                       load_chunk (sm s1) b = load_chunk (sm s) b) ->
            revision (sg s1) = revision (sg s) ->
            bytes (sm s1) = bytes (sm s) ->
            loop (S fuel) base x s = loop fuel base x1 s1 ->
            exists x' j' cs' s',
              loop (S fuel) base x s = Ret x' s' /\
              seg_inv base size (Some x') cs' s' /\
              (x', j', false) ∈ cs' /\
              merged base x j cs s x' j' cs' s') as Hnext.
  { intros x1 cs1 s1 Hinv1 Hin1 Hx1 Hsp HA HB HC Hre Hby Hrun.
    destruct (IH x1 (j + 1) cs1 s1 Hinv1 Hin1 Hsize ltac:(lia))
      as (x' & j' & cs' & s' & Hrun' & Hinv' & Hin' & Hm).
    destruct Hm as (Hjj & Hxx & Hspan & HA' & HB' & HC' & Hby' & Hre' & HD1 & HD2).
    exists x', j', cs', s'. split; [by rewrite Hrun|]. split; [done|]. split; [done|].
    split; [lia|]. split; [lia|]. split; [lia|]. split.
    { intros e He. rewrite HA by lia. by apply HA'. }
    split.
    { intros e He Hr.
      destruct (decide (x1 <= ce_addr e < x1 + 2 ^ (j + 1))) as [Hst|Hst].
      - by apply HB.
      - apply HA in He; [|done].
        destruct (HB' e He Hr) as [->|?]; [|by right].
        exfalso. apply Hst. unfold ce_addr; simpl. lia. }
    split.
    { intros b Hb. rewrite HC' by done. apply HC. lia. }
    split; [congruence|]. split; [congruence|]. done. }
  (* the loop ends here *)
  assert ((forall fuel', loop fuel' base x s = Ret x s) ->
          (Z.land (x - base) (2 ^ j) = 0 -> (x + 2 ^ j, j, true) ∉ cs) ->
          (Z.land (x - base) (2 ^ j) ≠ 0 -> (x - 2 ^ j, j, true) ∉ cs) ->
          exists x' j' cs' s',
            loop (S fuel) base x s = Ret x' s' /\
            seg_inv base size (Some x') cs' s' /\
            (x', j', false) ∈ cs' /\
            merged base x j cs s x' j' cs' s') as Hdone.
  { intros Hstop HD1 HD2. exists x, j, cs, s. rewrite Hstop.
    split; [done|]. split; [done|]. split; [done|].
    split; [lia|]. split; [lia|]. split; [lia|]. split; [done|].
    split; [|done].
    intros e He Hr. left.
    apply (tiles_entry_unique _ _ _ _ _ Hok Ht He Hin).
    destruct (decide (ce_addr e = x)) as [|Hne]; [done|]. exfalso.
    pose proof Hin as Hsplit. apply list_elem_of_split in Hsplit as (l1 & l2 & Heq).
    rewrite Heq in Hok, Ht, He.
    pose proof (tiles_no_start_inside _ _ _ _ _ (ce_addr e) Hok Ht) as Hns.
    apply Hns; [unfold ce_addr, ce_class in *; simpl in *; lia|].
    by apply list_elem_of_fmap_2. }
  (* a free chunk of class j at the address of the buddy can be merged *)
  assert (forall y, y ≠ x -> (y, j, true) ∈ cs ->
                    mergeable (load_chunk (sm s) y) (load_chunk (sm s) x) = true) as Hmg.
  { intros y Hy Hiny.
    destruct (inv_hdr _ _ _ _ _ Hinv _ Hiny) as (Hyc & _ & Hyf).
    unfold ce_addr, ce_class, ce_free in Hyc, Hyf; simpl in Hyc, Hyf.
    specialize (Hyf ltac:(intros [= ?]; done)).
    unfold mergeable. by rewrite Hyc, Hmc, Hyf, Z.eqb_refl. }
  pose proof Hin as Hsplit. apply list_elem_of_split in Hsplit as (l1 & l2 & ->).
  destruct (Z.eq_dec (Z.land (x - base) (2 ^ j)) 0) as [Hland|Hland].
  - (* the buddy is the chunk above *)
    destruct (Z_le_gt_dec (base + size) (x + 2 ^ j)) as [Hout|Hinr].
    { apply Hdone; [| |done].
      - intros fuel'. eapply free_loop_stop_up; eauto.
      - intros _ Hbad.
        pose proof (tiles_bounds _ _ _ _ Hok Ht Hbad) as [_ Hb].
        unfold ce_addr, ce_class in Hb; simpl in Hb. lia. }
    destruct (tiles_succ l1 (x, j, false) l2 _ _ Ht) as (e' & l2' & -> & Hae').
    { unfold ce_addr, ce_class; simpl. lia. }
    destruct e' as [[b j'] f']. unfold ce_addr, ce_class in Hae'; simpl in Hae'. subst b.
    destruct (inv_hdr _ _ _ _ _ Hinv (x + 2 ^ j, j', f')
                ltac:(apply elem_of_app; right; right; left)) as (Hbc & Hbm & Hbf).
    unfold ce_addr, ce_class, ce_free in Hbc, Hbm, Hbf; simpl in Hbc, Hbm, Hbf.
    specialize (Hbf ltac:(intros [= ?]; lia)).
    destruct (mergeable (load_chunk (sm s) (x + 2 ^ j)) (load_chunk (sm s) x)) eqn:Hmer.
    + unfold mergeable in Hmer. rewrite Hbc, Hmc, Hbf in Hmer.
      apply andb_true_iff in Hmer as [Hjj ->]. apply Z.eqb_eq in Hjj. revert Hjj. intros ->.
      destruct (free_loop_merge_up USE_ASSERT_CHECKING base size fuel x j s
                  Hmc ltac:(lia) Hoff Hland ltac:(lia) Hbm Hbc Hbf)
        as (s1 & Hrun & Hfc & Hx & Hb & Hframe & Hna & Hre & Hby).
      assert (seg_inv base size (Some x) (l1 ++ (x, j + 1, false) :: l2') s1) as Hinv1.
      { apply (seg_inv_merge base size l1 l2' x j false true x (x + 2 ^ j) s s1).
        - exact Hinv.
        - left. done.
        - by apply buddy_bit_clear.
        - done.
        - done.
        - rewrite Hx. simpl. done.
        - rewrite Hx. simpl.
          by destruct (inv_hdr _ _ _ _ _ Hinv _ Hin) as (_ & ? & _).
        - done.
        - done.
        - done. }
      destruct (merge_membership l1 l2' x j false true _ _ Hj0
                  (seg_inv_classes_ok _ _ _ _ _ Hinv1) (inv_tiles _ _ _ _ _ Hinv1))
        as [HA HB].
      apply (Hnext x (l1 ++ (x, j + 1, false) :: l2') s1); try done; try lia.
      * apply elem_of_app. right. left.
      * intros e He Hr. destruct (HB e He Hr) as [->| ->]; [by left|by right].
      * intros b0 Hb0. apply Hframe; lia.
    + apply Hdone; [| |done].
      * intros fuel'. eapply free_loop_stop_up; eauto.
      * intros _ Hbad. rewrite (Hmg (x + 2 ^ j)) in Hmer; [done|lia|done].
  - (* the buddy is the chunk below *)
    pose proof (buddy_bit_set _ _ Hj0 Hal Hland) as Hdiv.
    assert (2 ^ j <= x - base) as Hge.
    { destruct Hal as [q Hq]. destruct (Z.eq_dec q 0) as [->|Hq0].
      - rewrite Hq in Hland. simpl in Hland. by rewrite Z.land_0_l in Hland.
      - assert (1 <= q) by nia. nia. }
    replace (x - base - 2 ^ j) with (x - 2 ^ j - base) in Hdiv by lia.
    destruct (lower_buddy_is_start base _ _ x j false Hok Ht) as (e & He & Hae & Hend);
      [|done|done|lia|].
    { intros e0 He0. destruct (inv_class _ _ _ _ _ Hinv _ He0) as [Hc0 Hal0].
      apply mod_pow2_0; [unfold SHMBUF_CHUNKSZ_MIN_BIT in *; lia|done]. }
    destruct e as [[b j'] f']. unfold ce_addr, ce_class in Hae, Hend; simpl in Hae, Hend.
    subst b.
    destruct (inv_hdr _ _ _ _ _ Hinv _ He) as (Hbc & Hbm & Hbf).
    unfold ce_addr, ce_class, ce_free in Hbc, Hbm, Hbf; simpl in Hbc, Hbm, Hbf.
    specialize (Hbf ltac:(intros [= ?]; lia)).
    destruct (mergeable (load_chunk (sm s) (x - 2 ^ j)) (load_chunk (sm s) x)) eqn:Hmer.
    + unfold mergeable in Hmer. rewrite Hbc, Hmc, Hbf in Hmer.
      apply andb_true_iff in Hmer as [Hjj ->]. apply Z.eqb_eq in Hjj. revert Hjj. intros ->.
      assert ((x - 2 ^ j, j, true) ∈ l1) as Hin1.
      { pose proof (tiles_around _ _ _ _ _ Hok Ht) as (_ & _ & Hafter).
        apply elem_of_app in He as [?|He]; [done|].
        apply elem_of_cons in He as [Heq|He]; [discriminate Heq|].
        specialize (Hafter _ He). unfold ce_addr, ce_class in Hafter; simpl in Hafter. lia. }
      destruct (tiles_pred l1 (x, j, false) l2 _ _ (x - 2 ^ j, j, true) Hok Ht Hin1)
        as (l1' & ->).
      { unfold ce_addr, ce_class; simpl. lia. }
      destruct (free_loop_merge_down USE_ASSERT_CHECKING base size fuel x j s
                  Hmc ltac:(lia) Hoff Hland ltac:(lia) Hbm Hbc Hbf)
        as (s1 & Hrun & Hfc & Hb & Hx & Hframe & Hna & Hre & Hby).
      rewrite <- app_assoc in Hinv, Hnext |- *. simpl in Hinv, Hnext |- *.
      assert (seg_inv base size (Some (x - 2 ^ j))
                (l1' ++ (x - 2 ^ j, j + 1, false) :: l2) s1) as Hinv1.
      { apply (seg_inv_merge base size l1' l2 (x - 2 ^ j) j true false x (x - 2 ^ j) s s1).
        - by replace (x - 2 ^ j + 2 ^ j) with x by lia.
        - right. repeat split; lia.
        - done.
        - done.
        - done.
        - rewrite Hb. simpl. done.
        - rewrite Hb. simpl. done.
        - by replace (x - 2 ^ j + 2 ^ j) with x by lia.
        - intros b0 Hb1 Hb2. apply Hframe; lia.
        - done. }
      destruct (merge_membership l1' l2 (x - 2 ^ j) j true false _ _ Hj0
                  (seg_inv_classes_ok _ _ _ _ _ Hinv1) (inv_tiles _ _ _ _ _ Hinv1))
        as [HA HB].
      replace (x - 2 ^ j + 2 ^ j) with x in HA, HB by lia.
      apply (Hnext (x - 2 ^ j) (l1' ++ (x - 2 ^ j, j + 1, false) :: l2) s1);
        try done; try lia.
      * apply elem_of_app. right. left.
      * intros e He' Hr. destruct (HB e He' Hr) as [->| ->]; [by right|by left].
      * intros b0 Hb0. apply Hframe; lia.
    + apply Hdone; [|done|].
      * intros fuel'. eapply free_loop_stop_down; eauto.
      * intros _ Hbad. rewrite (Hmg (x - 2 ^ j)) in Hmer; [done|lia|done].
Qed.

End LoopShape.

Section FreeShape.

Variable USE_ASSERT_CHECKING : bool.
Variables size head : Z.
Variable id : nat.

Local Abbreviation base := (shmBufferSegmentMmapPtr size head id).

(** The statements of [shmBufferFreeChunk] after the loop write one
    header, that of the chunk that is put on its free list. *)
Lemma free_chunk_finish chunk j s x' j' l1 l2 s1 l :
  mclass (load_chunk (sm s) chunk) = j ->
  SHMBUF_CHUNKSZ_MIN_BIT <= j <= SHMBUF_CHUNKSZ_MAX_BIT ->
  size <= 2 ^ 32 ->
  (USE_ASSERT_CHECKING = true -> SHMBUF_CHUNK_CHECK_MAGIC (sm s) chunk = true) ->
  free_loop USE_ASSERT_CHECKING size (Z.to_nat (SHMBUF_CHUNKSZ_MAX_BIT + 1 - j)) base chunk s
    = Ret x' s1 ->
  seg_inv base size (Some x') (l1 ++ (x', j', false) :: l2) s1 ->
  free_chunks (sg s1) !! Z.to_nat (j' - SHMBUF_CHUNKSZ_MIN_BIT) = Some l ->
  exists s',
    shmBufferFreeChunk USE_ASSERT_CHECKING size head id chunk s
      = Ret (Z.of_nat (length (active_entries (l1 ++ (x', j', true) :: l2))) =? 0) s' /\
    seg_inv base size None (l1 ++ (x', j', true) :: l2) s' /\
    (forall b, b ≠ x' -> load_chunk (sm s') b = load_chunk (sm s1) b) /\
    revision (sg s') = revision (sg s1) /\
    bytes (sm s') = bytes (sm s1).
Proof.
  intros Hmc Hj Hsize Hguard Hrun Hinv1 Hl.
  destruct (free_chunk_run USE_ASSERT_CHECKING size head id chunk j s x' j' l1 l2 s1 l
              Hmc Hj Hsize Hguard Hrun Hinv1 Hl)
    as (s' & Hfree & Hinv' & Hfc & Hre & Hby).
  exists s'. split; [done|]. split; [done|]. split; [|done].
  (* the same run, read for the headers *)
  assert ((x', j', false) ∈ l1 ++ (x', j', false) :: l2) as Hin1
    by (apply elem_of_app; right; left).
  destruct (seg_inv_flight_entry _ _ _ _ _ _ Hinv1 Hin1) as (Hmc1 & Hj1 & _).
  revert Hfree.
  unfold shmBufferFreeChunk, bind at 1, read_chunk at 1.
  unfold bind at 1, get at 1. rewrite Hmc.
  unfold bind at 1.
  assert ((Assert USE_ASSERT_CHECKING
             ((SHMBUF_CHUNKSZ_MIN_BIT <=? j) && (j <=? SHMBUF_CHUNKSZ_MAX_BIT)
              && SHMBUF_CHUNK_CHECK_MAGIC (sm s) chunk) s) = Ret tt s) as ->.
  { destruct USE_ASSERT_CHECKING eqn:Ha; [|done].
    rewrite Hguard by done.
    destruct (Z.leb_spec SHMBUF_CHUNKSZ_MIN_BIT j); [|lia].
    destruct (Z.leb_spec j SHMBUF_CHUNKSZ_MAX_BIT); [|lia].
    apply Assert_true. }
  unfold bind at 1. rewrite Hrun.
  unfold bind at 1, read_chunk at 1. rewrite Hmc1.
  unfold bind at 1.
  rewrite (dlist_push_head_Ret _ s1 x' l); [|by apply mindex_range|done].
  unfold bind at 1, get at 1. unfold bind at 1.
  destruct (Assert USE_ASSERT_CHECKING _ _) as [[] s2|] eqn:Has; [|done].
  assert (s2 = upd_hdr x' (set_chain true (load_chunk (sm s1) x'))
                 (upd_list (j' - SHMBUF_CHUNKSZ_MIN_BIT) (x' :: l) s1)) as ->.
  { unfold Assert in Has. destruct (_ && _); first [discriminate|by injection Has]. }
  unfold bind, put, ret. intros [= _ <-].
  intros b Hb. simpl. by rewrite load_store_ne.
Qed.

(** [shmBufferFreeChunk] on a chunk in use: the chunk and the free
    chunks it is merged with become one free chunk; the rest of the
    segment stays as it is. *)
Lemma free_chunk_shape chunk j cs s :
  seg_inv base size None cs s ->
  (chunk, j, false) ∈ cs ->
  size <= 2 ^ 32 ->
  (USE_ASSERT_CHECKING = true -> SHMBUF_CHUNK_CHECK_MAGIC (sm s) chunk = true) ->
  exists s' x' j' l1 l2,
    shmBufferFreeChunk USE_ASSERT_CHECKING size head id chunk s
      = Ret (Z.of_nat (length (active_entries (l1 ++ (x', j', true) :: l2))) =? 0) s' /\
    seg_inv base size None (l1 ++ (x', j', true) :: l2) s' /\
    classes_ok (l1 ++ (x', j', false) :: l2) /\
    tiles (l1 ++ (x', j', false) :: l2) base (base + size) /\
    merged base chunk j cs s x' j' (l1 ++ (x', j', false) :: l2) s'.
Proof.
  intros Hinv Hin Hsize Hguard.
  pose proof (seg_inv_start _ _ _ _ _ _ _ Hinv Hin) as Hinv0.
  destruct (seg_inv_flight_entry _ _ _ _ _ _ Hinv0 Hin) as (Hmc & Hj & _).
  destruct (free_loop_shape USE_ASSERT_CHECKING base size
              (Z.to_nat (SHMBUF_CHUNKSZ_MAX_BIT + 1 - j)) chunk j cs s Hinv0 Hin Hsize
              ltac:(lia))
    as (x' & j' & cs1 & s1 & Hrun & Hinv1 & Hin1 & Hm).
  destruct (seg_inv_flight_entry _ _ _ _ _ _ Hinv1 Hin1) as (Hmc1 & Hj1 & _).
  destruct (seg_inv_list_lookup _ _ _ _ _ j' Hinv1 Hj1) as (l & Hl & _).
  pose proof Hin1 as Hsplit. apply list_elem_of_split in Hsplit as (l1 & l2 & ->).
  destruct (free_chunk_finish chunk j s x' j' l1 l2 s1 l Hmc Hj Hsize Hguard Hrun Hinv1 Hl)
    as (s' & Hfree & Hinv' & Hframe & Hre' & Hby').
  exists s', x', j', l1, l2.
  split; [done|]. split; [done|].
  split; [by apply (seg_inv_classes_ok _ _ _ _ _ Hinv1)|].
  split; [by apply (inv_tiles _ _ _ _ _ Hinv1)|].
  destruct Hm as (Hjj & Hxx & Hspan & HA & HB & HC & Hby & Hre & HD1 & HD2).
  split; [done|]. split; [done|]. split; [done|]. split; [done|]. split; [done|].
  split.
  { intros b Hb. rewrite Hframe; [by apply HC|].
    assert (0 < 2 ^ j') by (apply pow2_pos; unfold SHMBUF_CHUNKSZ_MIN_BIT in *; lia).
    lia. }
  split; [congruence|]. split; [congruence|]. done.
Qed.

End FreeShape.

(** ** Chunks in use and free buddies, before and after *)

Lemma pow2_not_divide j : 0 <= j -> ¬ (2 ^ (j + 1) | 2 ^ j).
Proof.
  intros Hj [q Hq]. pose proof (pow2_pos j Hj) as Hpos.
  rewrite Z.pow_add_r in Hq by lia. change (2 ^ 1) with 2 in Hq.
  assert (2 ^ j * (2 * q - 1) = 0) as H0 by lia.
  apply Z.mul_eq_0 in H0. lia.
Qed.

(** The entries in use after an allocation are those in use before and
    the new chunk. *)
Lemma alloc_active_entries (l1 l2 : list chunk_entry) a c k' d e :
  ce_free e = false ->
  (e ∈ l1 ++ (a, c, false) :: rungs a c d ++ l2 <->
   e ∈ l1 ++ (a, k', true) :: l2 \/ e = (a, c, false)).
Proof.
  intros Hf. rewrite !elem_of_app, !elem_of_cons, elem_of_app, elem_of_rungs. split.
  - intros [?|[->|[(i & _ & ->)|?]]]; [by left; left|by right|done|by left; right; right].
  - intros [[?|[->|?]]| ->]; [by left|done|by right; right; right|by right; left].
Qed.

(** The free chunks that a split leaves have no free buddy of their
    class. *)
Lemma alloc_coalesced_shape base (l1 l2 : list chunk_entry) a c k' t :
  0 <= c <= k' ->
  classes_ok (l1 ++ (a, k', true) :: l2) ->
  tiles (l1 ++ (a, k', true) :: l2) base t ->
  (2 ^ k' | a - base) ->
  coalesced base (l1 ++ (a, k', true) :: l2) ->
  coalesced base (l1 ++ (a, c, false) :: rungs a c (Z.to_nat (k' - c)) ++ l2).
Proof.
  intros Hc Hok Ht Hal Hco lo j Hdiv Hlo Hhi.
  assert (forall x i, (x, i, true) ∈ l1 ++ (a, c, false) :: rungs a c (Z.to_nat (k' - c)) ++ l2 ->
            ((x, i, true) ∈ l1 ++ (a, k', true) :: l2 /\ x ≠ a) \/
            (x = a + 2 ^ i /\ c <= i < k')) as Hcases.
  { intros x i Hin.
    rewrite elem_of_app, elem_of_cons, elem_of_app, elem_of_rungs in Hin.
    assert (forall l, (x, i, true) ∈ l -> l = l1 \/ l = l2 ->
                      (x, i, true) ∈ l1 ++ (a, k', true) :: l2 /\ x ≠ a) as Hold.
    { intros l Hl Hwhich.
      assert ((x, i, true) ∈ l1 ++ (a, k', true) :: l2) as Hin'.
      { rewrite elem_of_app, elem_of_cons. destruct Hwhich as [-> | ->]; auto. }
      split; [done|]. intros ->.
      pose proof (tiles_entry_unique _ _ _ (a, i, true) (a, k', true) Hok Ht Hin'
                    ltac:(apply elem_of_app; right; left) eq_refl) as Heq.
      injection Heq as ->.
      pose proof (tiles_NoDup _ _ _ Hok Ht) as Hnd.
      rewrite fmap_app, fmap_cons in Hnd.
      apply NoDup_app in Hnd as (_ & Hd1 & Hd2). apply NoDup_cons in Hd2 as [Hd2 _].
      destruct Hwhich as [-> | ->].
      - apply (Hd1 a); [by apply (list_elem_of_fmap_2 ce_addr _ (a, k', true))|left].
      - apply Hd2. by apply (list_elem_of_fmap_2 ce_addr _ (a, k', true)). }
    destruct Hin as [Hin|[Hin|[(i' & Hi' & Hin)|Hin]]].
    - left. by apply (Hold l1); [|left].
    - discriminate Hin.
    - right. injection Hin as -> ->. split; [done|lia].
    - left. by apply (Hold l2); [|right]. }
  destruct (Hcases _ _ Hlo) as [[Hlo' Hne]|[-> Hi]].
  - destruct (Hcases _ _ Hhi) as [[Hhi' _]|[Heq Hi]].
    + exact (Hco lo j Hdiv Hlo' Hhi').
    + apply Hne. lia.
  - apply (pow2_not_divide j ltac:(lia)).
    assert ((2 ^ (j + 1) | a - base)) as Hd.
    { eapply Z.divide_trans; [|exact Hal]. apply divide_pow2_le. lia. }
    replace (2 ^ j) with ((a + 2 ^ j - base) - (a - base)) by lia.
    by apply Z.divide_sub_r.
Qed.

(** The entries in use after a release are those in use before
    without the released chunk. *)
Lemma free_active_entries base t x j cs s x' j' (l1 l2 : list chunk_entry) s' e :
  classes_ok cs -> 0 <= j ->
  classes_ok (l1 ++ (x', j', false) :: l2) ->
  tiles (l1 ++ (x', j', false) :: l2) base t ->
  merged base x j cs s x' j' (l1 ++ (x', j', false) :: l2) s' ->
  ce_free e = false ->
  (e ∈ l1 ++ (x', j', true) :: l2 <-> e ∈ cs /\ e ≠ (x, j, false)) /\
  (e ∈ cs -> e ≠ (x, j, false) -> ¬ (x' <= ce_addr e < x' + 2 ^ j')).
Proof.
  intros Hok Hj Hok1 Ht1 Hm Hf.
  destruct Hm as (Hjj & Hxx & Hspan & HA & HB & _).
  destruct (tiles_around _ _ _ _ _ Hok1 Ht1) as (_ & Hbefore & Hafter).
  pose proof (pow2_pos j Hj) as Hpj.
  assert (0 < 2 ^ j') as Hpj' by (apply pow2_pos; lia).
  assert (forall e', e' ∈ l1 \/ e' ∈ l2 -> ¬ (x' <= ce_addr e' < x' + 2 ^ j')) as Hout.
  { intros e' [He'|He'].
    - specialize (Hbefore _ He').
      assert (0 < 2 ^ ce_class e').
      { apply pow2_pos. apply (proj1 (Forall_forall _ _) Hok1). apply elem_of_app. by left. }
      unfold ce_addr, ce_class in *; simpl in *. lia.
    - specialize (Hafter _ He'). unfold ce_addr, ce_class in *; simpl in *. lia. }
  assert (e ∈ cs -> e ≠ (x, j, false) -> ¬ (x' <= ce_addr e < x' + 2 ^ j')) as Hother.
  { intros He Hne Hr. destruct (HB e He Hr) as [?|Hfree]; [done|congruence]. }
  split; [|done]. split.
  - intros He.
    assert (e ∈ l1 \/ e ∈ l2) as Hin.
    { apply elem_of_app in He as [?|He]; [by left|].
      apply elem_of_cons in He as [->|?]; [done|by right]. }
    pose proof (Hout e Hin) as Hr. split.
    + apply HA; [done|]. rewrite elem_of_app, elem_of_cons. tauto.
    + intros ->. apply Hr. unfold ce_addr; simpl. lia.
  - intros [He Hne]. pose proof (Hother He Hne) as Hr.
    apply HA in He; [|done].
    rewrite elem_of_app, elem_of_cons in He. rewrite elem_of_app, elem_of_cons.
    destruct He as [?|[->|?]]; [by left| |by right; right].
    exfalso. apply Hr. unfold ce_addr; simpl. lia.
Qed.

(** The chunk put on a free list by a release has no free buddy of its
    class, and no other pair of free buddies has come into being. *)
Lemma free_coalesced_shape base t x j cs s x' j' (l1 l2 : list chunk_entry) s' :
  0 <= j ->
  classes_ok (l1 ++ (x', j', false) :: l2) ->
  tiles (l1 ++ (x', j', false) :: l2) base t ->
  merged base x j cs s x' j' (l1 ++ (x', j', false) :: l2) s' ->
  coalesced base cs ->
  coalesced base (l1 ++ (x', j', true) :: l2).
Proof.
  intros Hj Hok1 Ht1 Hm Hco lo j0 Hdiv Hlo Hhi.
  destruct Hm as (Hjj & Hxx & Hspan & HA & HB & _ & _ & _ & HD1 & HD2).
  destruct (tiles_around _ _ _ _ _ Hok1 Ht1) as (_ & Hbefore & Hafter).
  assert (0 < 2 ^ j') as Hpj' by (apply pow2_pos; lia).
  assert (forall y i, (y, i, true) ∈ l1 ++ (x', j', true) :: l2 ->
            (y = x' /\ i = j') \/
            ((y, i, true) ∈ l1 ++ (x', j', false) :: l2 /\ (y, i, true) ∈ cs /\ y ≠ x'))
    as Hcases.
  { intros y i Hin. rewrite elem_of_app, elem_of_cons in Hin.
    assert ((y, i, true) ∈ l1 \/ (y, i, true) ∈ l2 ->
            (y, i, true) ∈ l1 ++ (x', j', false) :: l2 /\ (y, i, true) ∈ cs /\ y ≠ x')
      as Hold.
    { intros Hin'.
      assert ((y, i, true) ∈ l1 ++ (x', j', false) :: l2) as Hin1
        by (rewrite elem_of_app, elem_of_cons; tauto).
      assert (¬ (x' <= y < x' + 2 ^ j')) as Hr.
      { destruct Hin' as [He'|He'].
        - specialize (Hbefore _ He').
          assert (0 < 2 ^ i).
          { apply pow2_pos.
            apply (proj1 (Forall_forall _ _) Hok1 (y, i, true)). apply elem_of_app. by left. }
          unfold ce_addr, ce_class in *; simpl in *. lia.
        - specialize (Hafter _ He'). unfold ce_addr, ce_class in *; simpl in *. lia. }
      split; [done|]. split; [by apply HA|lia]. }
    destruct Hin as [?|[Heq|?]]; [right; apply Hold; by left| |right; apply Hold; by right].
    left. by injection Heq. }
  assert (0 <= j0) as Hj0.
  { destruct (Hcases _ _ Hlo) as [[_ ->]|[Hin _]]; [lia|].
    apply (proj1 (Forall_forall _ _) Hok1 _ Hin). }
  assert (0 < 2 ^ j0) as Hpj0 by by apply pow2_pos.
  destruct (Hcases _ _ Hlo) as [[-> ->]|(Hlo1 & Hloc & Hlon)].
  - destruct (Hcases _ _ Hhi) as [[? _]|(Hhi1 & _)]; [lia|].
    apply HD1; [|done]. by apply buddy_bit_of_lower.
  - destruct (Hcases _ _ Hhi) as [[Hx ->]|(_ & Hhic & _)].
    + apply HD2.
      * replace (x' - base) with (lo - base + 2 ^ j') by lia.
        by apply buddy_bit_of_upper.
      * by replace (x' - 2 ^ j') with lo by lia.
    + exact (Hco lo j0 Hdiv Hloc Hhic).
Qed.

Lemma min_class_exists (cs : list chunk_entry) :
  cs ≠ [] -> exists e, e ∈ cs /\ forall e', e' ∈ cs -> ce_class e <= ce_class e'.
Proof.
  induction cs as [|e cs IH]; [done|]. intros _.
  destruct cs as [|e1 cs].
  - exists e. split; [left|]. by intros e' ->%list_elem_of_singleton.
  - destruct (IH ltac:(done)) as (m & Hm & Hmin).
    destruct (Z_le_gt_dec (ce_class e) (ce_class m)) as [Hle|Hgt].
    + exists e. split; [left|]. intros e' [->|He']%elem_of_cons; [done|].
      specialize (Hmin _ He'). lia.
    + exists m. split; [by right|]. intros e' [->|He']%elem_of_cons; [lia|].
      by apply Hmin.
Qed.

(** A segment of [2^K] bytes in which every chunk is free and no two
    free buddies are left is one chunk. *)
Lemma coalesced_all_free_single base K cs :
  0 <= K ->
  tiles cs base (base + 2 ^ K) ->
  (forall e, e ∈ cs -> 0 <= ce_class e /\ (2 ^ ce_class e | ce_addr e - base)) ->
  (forall e, e ∈ cs -> ce_free e = true) ->
  coalesced base cs ->
  cs = [(base, K, true)].
Proof.
  intros HK Ht Hcl Hfree Hco.
  assert (classes_ok cs) as Hok.
  { apply Forall_forall. intros e He. by apply Hcl. }
  pose proof (pow2_pos K HK) as HpK.
  assert (cs ≠ []) as Hne by (intros ->; simpl in Ht; lia).
  destruct (min_class_exists cs Hne) as ([[x j] f] & Hin & Hmin).
  pose proof (Hfree _ Hin) as Hf. unfold ce_free in Hf; simpl in Hf. subst f.
  destruct (Hcl _ Hin) as [Hj Hal]. unfold ce_class, ce_addr in Hj, Hal; simpl in Hj, Hal.
  pose proof (pow2_pos j Hj) as Hpj.
  pose proof (tiles_bounds _ _ _ _ Hok Ht Hin) as [Hlo Hhi].
  unfold ce_addr, ce_class in Hlo, Hhi; simpl in Hlo, Hhi.
  assert (K <= j) as HKj.
  { destruct (Z_le_gt_dec K j) as [|Hlt]; [done|]. exfalso.
    assert (2 ^ (j + 1) = 2 ^ j + 2 ^ j) as Hdbl
      by (rewrite Z.pow_add_r by lia; change (2 ^ 1) with 2; lia).
    destruct (Z.eq_dec (Z.land (x - base) (2 ^ j)) 0) as [Hland|Hland].
    - pose proof (buddy_bit_clear _ _ Hj Hal Hland) as Hdiv.
      assert (x - base + 2 ^ (j + 1) <= 2 ^ K) as Hroom.
      { apply multiple_gap; [lia|done|apply divide_pow2_le; lia|lia]. }
      pose proof Hin as Hsplit. apply list_elem_of_split in Hsplit as (l1 & l2 & ->).
      destruct (tiles_succ l1 (x, j, true) l2 _ _ Ht) as ([[y j'] f'] & l2' & -> & Hy).
      { unfold ce_addr, ce_class; simpl. lia. }
      unfold ce_addr, ce_class in Hy; simpl in Hy. subst y.
      assert ((x + 2 ^ j, j', f') ∈ l1 ++ (x, j, true) :: (x + 2 ^ j, j', f') :: l2') as Hin'
        by (apply elem_of_app; right; right; left).
      pose proof (Hfree _ Hin') as Hf'. unfold ce_free in Hf'; simpl in Hf'. subst f'.
      pose proof (Hmin _ Hin') as Hle. unfold ce_class in Hle; simpl in Hle.
      destruct (Hcl _ Hin') as [_ Hal']. unfold ce_class, ce_addr in Hal'; simpl in Hal'.
      destruct (decide (j' = j)) as [->|Hne'].
      + exact (Hco x j Hdiv Hin Hin').
      + apply (pow2_not_divide j Hj).
        assert ((2 ^ (j + 1) | x + 2 ^ j - base)) as Hd.
        { eapply Z.divide_trans; [|exact Hal']. apply divide_pow2_le. lia. }
        replace (2 ^ j) with ((x + 2 ^ j - base) - (x - base)) by lia.
        by apply Z.divide_sub_r.
    - pose proof (buddy_bit_set _ _ Hj Hal Hland) as Hdiv.
      assert (2 ^ j <= x - base) as Hge.
      { destruct Hal as [q Hq]. destruct (Z.eq_dec q 0) as [->|Hq0].
        - rewrite Hq in Hland. simpl in Hland. by rewrite Z.land_0_l in Hland.
        - assert (1 <= q) by nia. nia. }
      replace (x - base - 2 ^ j) with (x - 2 ^ j - base) in Hdiv by lia.
      destruct (lower_buddy_is_start base _ _ x j true Hok Ht) as ([[y j'] f'] & He & Hae & Hend);
        [|done|done|lia|].
      { intros e0 He0. by apply Hcl. }
      unfold ce_addr, ce_class in Hae, Hend; simpl in Hae, Hend. subst y.
      pose proof (Hfree _ He) as Hf'. unfold ce_free in Hf'; simpl in Hf'. subst f'.
      pose proof (Hmin _ He) as Hle. unfold ce_class in Hle; simpl in Hle.
      assert (j' = j) as ->.
      { destruct (Z_le_gt_dec j' j) as [|Hgt]; [lia|].
        assert (2 ^ (j + 1) <= 2 ^ j') by (apply Z.pow_le_mono_r; lia). lia. }
      apply (Hco (x - 2 ^ j) j Hdiv He).
      by replace (x - 2 ^ j + 2 ^ j) with x by lia. }
  assert (2 ^ K <= 2 ^ j) as Hpow by (apply Z.pow_le_mono_r; lia).
  assert (x = base) as -> by lia.
  assert (j = K) as ->.
  { apply pow2_inj; try lia. }
  apply list_elem_of_split in Hin as (l1 & l2 & ->).
  destruct (tiles_around _ _ _ _ _ Hok Ht) as (Haddr & _ & _).
  unfold ce_addr in Haddr; simpl in Haddr.
  apply tiles_app in Ht as [_ Ht2]. simpl in Ht2. destruct Ht2 as [_ Ht2].
  unfold ce_class in Ht2; simpl in Ht2.
  apply Forall_app in Hok as [Hok1 Hok2]. apply Forall_cons in Hok2 as [_ Hok2].
  assert (l1 = []) as -> by (apply span_sum_pos_nil; [done|lia]).
  assert (l2 = []) as ->.
  { apply span_sum_pos_nil; [done|].
    pose proof (tiles_span _ _ _ Ht2). lia. }
  done.
Qed.

(** ** One step of the allocator on a well-formed segment *)

Lemma coalesced_single base x K : 0 <= K -> coalesced base [(x, K, true)].
Proof.
  intros HK lo j _ Hlo Hhi.
  apply list_elem_of_singleton in Hlo. apply list_elem_of_singleton in Hhi.
  injection Hlo as -> ->. injection Hhi as Heq.
  pose proof (pow2_pos K HK). lia.
Qed.

Lemma alloc_step_inv (USE_ASSERT_CHECKING : bool) base size id n cs s a s' :
  plain_request n ->
  seg_inv base size None cs s -> size <= 2 ^ 32 ->
  coalesced base cs ->
  __shmBufferAllocChunkFromSegment USE_ASSERT_CHECKING id n s = Ret (Some a) s' ->
  exists c cs',
    class_of_request n = Some c /\
    seg_inv base size None cs' s' /\
    coalesced base cs' /\
    (forall e, ce_free e = false -> (e ∈ cs' <-> e ∈ cs \/ e = (a, c, false))) /\
    (forall j, (a, j, false) ∉ cs).
Proof.
  intros Hn Hinv Hsize Hco Hrun.
  destruct (alloc_shape USE_ASSERT_CHECKING base size id n cs s a s' Hn Hinv Hsize Hrun)
    as (c & k' & l1 & l2 & rest & Hcls & Hk' & -> & _ & _ & Hal & _).
  destruct Hal as (Hinv' & _).
  destruct (class_of_request_Some _ _ Hcls) as (Hc & _).
  pose proof (seg_inv_classes_ok _ _ _ _ _ Hinv) as Hok.
  pose proof (inv_tiles _ _ _ _ _ Hinv) as Ht.
  assert ((a, k', true) ∈ l1 ++ (a, k', true) :: l2) as Hin
    by (apply elem_of_app; right; left).
  exists c, (l1 ++ (a, c, false) :: rungs a c (Z.to_nat (k' - c)) ++ l2).
  split; [done|]. split; [done|]. split.
  { eapply alloc_coalesced_shape; eauto.
    - unfold SHMBUF_CHUNKSZ_MIN_BIT in *. lia.
    - destruct (inv_class _ _ _ _ _ Hinv _ Hin) as [Hk Hal].
      unfold ce_addr, ce_class in Hk, Hal; simpl in Hk, Hal.
      apply mod_pow2_0; [unfold SHMBUF_CHUNKSZ_MIN_BIT in *; lia|done]. }
  split.
  { intros e He. by apply alloc_active_entries. }
  intros j Hbad.
  pose proof (tiles_entry_unique _ _ _ _ _ Hok Ht Hbad Hin eq_refl) as Heq.
  discriminate Heq.
Qed.

Lemma free_chunk_guard (USE_ASSERT_CHECKING : bool) size head id chunk s b s' :
  shmBufferFreeChunk USE_ASSERT_CHECKING size head id chunk s = Ret b s' ->
  USE_ASSERT_CHECKING = true -> SHMBUF_CHUNK_CHECK_MAGIC (sm s) chunk = true.
Proof.
  intros Hrun ->.
  destruct (SHMBUF_CHUNK_CHECK_MAGIC (sm s) chunk) eqn:Hg; [done|].
  unfold shmBufferFreeChunk, bind at 1, read_chunk at 1 in Hrun.
  unfold bind at 1, get at 1 in Hrun. unfold bind at 1 in Hrun.
  rewrite Hg, andb_false_r in Hrun. done.
Qed.

Lemma free_step_inv (USE_ASSERT_CHECKING : bool) size head id chunk j cs s b s' :
  seg_inv (shmBufferSegmentMmapPtr size head id) size None cs s ->
  size <= 2 ^ 32 ->
  (chunk, j, false) ∈ cs ->
  shmBufferFreeChunk USE_ASSERT_CHECKING size head id chunk s = Ret b s' ->
  exists cs',
    seg_inv (shmBufferSegmentMmapPtr size head id) size None cs' s' /\
    b = (Z.of_nat (length (active_entries cs')) =? 0) /\
    (coalesced (shmBufferSegmentMmapPtr size head id) cs ->
     coalesced (shmBufferSegmentMmapPtr size head id) cs') /\
    (forall e, ce_free e = false -> (e ∈ cs' <-> e ∈ cs /\ e ≠ (chunk, j, false))) /\
    (forall e, e ∈ cs -> ce_free e = false -> e ≠ (chunk, j, false) ->
       load_chunk (sm s') (ce_addr e) = load_chunk (sm s) (ce_addr e)) /\
    bytes (sm s') = bytes (sm s) /\
    revision (sg s') = revision (sg s).
Proof.
  intros Hinv Hsize Hin Hrun.
  pose proof (free_chunk_guard _ _ _ _ _ _ _ _ Hrun) as Hguard.
  destruct (free_chunk_shape USE_ASSERT_CHECKING size head id chunk j cs s
              Hinv Hin Hsize Hguard)
    as (s'' & x' & j' & l1 & l2 & Hrun' & Hinv' & Hok1 & Ht1 & Hm).
  rewrite Hrun in Hrun'. injection Hrun' as -> <-.
  destruct (inv_class _ _ _ _ _ Hinv _ Hin) as [Hj _].
  unfold ce_class in Hj; simpl in Hj.
  assert (0 <= j) as Hj0 by (unfold SHMBUF_CHUNKSZ_MIN_BIT in *; lia).
  pose proof (seg_inv_classes_ok _ _ _ _ _ Hinv) as Hok.
  exists (l1 ++ (x', j', true) :: l2).
  split; [done|]. split; [done|]. split.
  { intros Hco. eapply free_coalesced_shape; eauto. }
  split.
  { intros e He. by apply (free_active_entries _ _ _ _ _ _ _ _ _ _ _ e Hok Hj0 Hok1 Ht1 Hm). }
  split.
  { intros e He Hf Hne.
    destruct (free_active_entries _ _ _ _ _ _ _ _ _ _ _ e Hok Hj0 Hok1 Ht1 Hm Hf)
      as [_ Hout].
    destruct Hm as (_ & _ & _ & _ & _ & HC & _). apply HC. by apply Hout. }
  destruct Hm as (_ & _ & _ & _ & _ & _ & Hby & Hre & _). done.
Qed.

Lemma active_entries_nil_iff cs :
  active_entries cs = [] <-> forall e, e ∈ cs -> ce_free e = false -> False.
Proof.
  unfold active_entries. split.
  - intros Hnil e He Hf.
    assert (e ∈ filter (fun e => ce_free e = false) cs) as Hin
      by (apply list_elem_of_filter; done).
    rewrite Hnil in Hin. by apply elem_of_nil in Hin.
  - intros Hall. destruct (filter _ cs) as [|e l] eqn:Hf; [done|].
    assert (e ∈ filter (fun e => ce_free e = false) cs) as Hin by (rewrite Hf; left).
    apply list_elem_of_filter in Hin as [? ?]. exfalso. eauto.
Qed.

(** The segment of the examples after one allocation of 1000 bytes. *)
Lemma ex_one_chunk :
  exists s a c cs,
    segment_history false ex_size ex_head 0%nat [a] s /\
    seg_inv ex_head ex_size None cs s /\
    coalesced ex_head cs /\
    (a, c, false) ∈ cs.
Proof.
  destruct ex_fresh_segment as (s0 & Hinit & Hinv0).
  destruct (alloc_finds false ex_head ex_size ltac:(vm_compute; discriminate)
              0%nat 1000 11 _ s0 ex_head 25
              ltac:(apply plain_request_small; lia) Hinv0) as (a & s & _ & Halloc & _).
  - vm_compute. reflexivity.
  - left.
  - lia.
  - destruct (alloc_step_inv false ex_head ex_size 0%nat 1000 _ s0 a s
                ltac:(apply plain_request_small; lia) Hinv0)
      as (c & cs & _ & Hinv & Hco & Hact & _).
    + vm_compute. discriminate.
    + by apply coalesced_single.
    + exact Halloc.
    + exists s, a, c, cs. split.
      { eapply history_alloc; [| |exact Halloc];
          [eapply history_created; exact Hinit|apply plain_request_small; lia]. }
      split; [done|]. split; [done|]. apply Hact; [done|by right].
Qed.

(** X16.  Releasing a chunk in use leaves every other chunk in use as
    it is: the chunks in use afterwards are those in use before without
    the released one, their headers and all payload bytes are
    unchanged, and the result is true exactly when the released chunk
    was the only one in use. *)
Theorem X16_release_leaves_other_chunks_alone
    (USE_ASSERT_CHECKING : bool) (size head : Z) (id : nat) (chunk j : Z)
    (cs : list chunk_entry) (s : segst) :
  seg_inv (shmBufferSegmentMmapPtr size head id) size None cs s ->
  size <= 2 ^ 32 ->
  (chunk, j, false) ∈ cs ->
  (USE_ASSERT_CHECKING = true -> SHMBUF_CHUNK_CHECK_MAGIC (sm s) chunk = true) ->
  exists b s' cs',
    shmBufferFreeChunk USE_ASSERT_CHECKING size head id chunk s = Ret b s' /\
    seg_inv (shmBufferSegmentMmapPtr size head id) size None cs' s' /\
    (b = true <-> forall e, e ∈ cs -> ce_free e = false -> e = (chunk, j, false)) /\
    (forall e, ce_free e = false -> (e ∈ cs' <-> e ∈ cs /\ e ≠ (chunk, j, false))) /\
    (forall e, e ∈ cs -> ce_free e = false -> e ≠ (chunk, j, false) ->
       load_chunk (sm s') (ce_addr e) = load_chunk (sm s) (ce_addr e)) /\
    bytes (sm s') = bytes (sm s) /\
    revision (sg s') = revision (sg s) /\
    num_actives (sg s') = num_actives (sg s) - 1.
Proof.
  intros Hinv Hsize Hin Hguard.
  destruct (free_chunk_spec USE_ASSERT_CHECKING size head id chunk j cs s
              Hinv Hin Hsize Hguard)
    as (s' & cs0 & x0 & j0 & Hrun & Hinv0 & Hlen & _).
  destruct (free_step_inv USE_ASSERT_CHECKING size head id chunk j cs s _ s'
              Hinv Hsize Hin Hrun)
    as (cs' & Hinv' & Hb & _ & Hact & Hhdr & Hby & Hre).
  exists (Z.of_nat (length (active_entries cs0)) =? 0), s', cs'.
  split; [done|]. split; [done|]. split.
  { rewrite Hb, Z.eqb_eq. split.
    - intros Hz e He Hf.
      destruct (decide (e = (chunk, j, false))) as [|Hne]; [done|]. exfalso.
      assert (active_entries cs' = []) as Hnil by (apply length_zero_iff_nil; lia).
      apply (proj1 (active_entries_nil_iff cs') Hnil e); [|done].
      by apply Hact.
    - intros Hall.
      assert (active_entries cs' = []) as ->; [|done].
      apply active_entries_nil_iff. intros e He Hf.
      apply Hact in He as [He Hne]; [|done]. by apply Hne, Hall. }
  split; [done|]. split; [done|]. split; [done|]. split; [done|].
  rewrite (inv_actives _ _ _ _ _ Hinv0), (inv_actives _ _ _ _ _ Hinv). lia.
Qed.

Lemma X16_release_leaves_other_chunks_alone_witness :
  exists s a b s',
    segment_history false ex_size ex_head 0%nat [a] s /\
    shmBufferFreeChunk false ex_size ex_head 0%nat a s = Ret b s' /\
    bytes (sm s') = bytes (sm s).
Proof.
  destruct ex_one_chunk as (s & a & c & cs & Hhist & Hinv & _ & Hin).
  destruct (X16_release_leaves_other_chunks_alone false ex_size ex_head 0%nat a c cs s Hinv)
    as (b & s' & _ & Hrun & _ & _ & _ & _ & Hby & _).
  - vm_compute. discriminate.
  - exact Hin.
  - discriminate.
  - exists s, a, b, s'. split; [exact Hhist|]. split; [exact Hrun|exact Hby].
Defined.

(** X17.  An allocation does not leave two free buddies side by side:
    if no free chunk of a well-formed segment has a free buddy of its
    class, the same holds after a successful allocation for a request
    whose size sum does not wrap ([n < 2^64 - 44]), although the split
    has made free chunks. *)
Theorem X17_allocation_keeps_segment_coalesced
    (USE_ASSERT_CHECKING : bool) (base size : Z) (id : nat) (n : Z)
    (cs : list chunk_entry) (s : segst) (a : Z) (s' : segst) :
  seg_inv base size None cs s -> size <= 2 ^ 32 ->
  plain_request n ->
  coalesced base cs ->
  __shmBufferAllocChunkFromSegment USE_ASSERT_CHECKING id n s = Ret (Some a) s' ->
  exists c cs',
    class_of_request n = Some c /\
    seg_inv base size None cs' s' /\
    coalesced base cs' /\
    (forall e, ce_free e = false -> (e ∈ cs' <-> e ∈ cs \/ e = (a, c, false))).
Proof.
  intros Hinv Hsize Hn Hco Hrun.
  destruct (alloc_step_inv USE_ASSERT_CHECKING base size id n cs s a s' Hn Hinv Hsize Hco Hrun)
    as (c & cs' & Hcls & Hinv' & Hco' & Hact & _).
  by exists c, cs'.
Qed.

Lemma X17_allocation_keeps_segment_coalesced_witness :
  exists s a s' cs',
    __shmBufferAllocChunkFromSegment false 0%nat 1000 s = Ret (Some a) s' /\
    seg_inv ex_head ex_size None cs' s' /\
    coalesced ex_head cs'.
Proof.
  destruct ex_fresh_segment as (s & _ & Hinv).
  destruct (alloc_finds false ex_head ex_size ltac:(vm_compute; discriminate)
              0%nat 1000 11 _ s ex_head 25
              ltac:(apply plain_request_small; lia) Hinv) as (a & s' & _ & Halloc & _).
  - vm_compute. reflexivity.
  - left.
  - lia.
  - destruct (X17_allocation_keeps_segment_coalesced false ex_head ex_size 0%nat 1000
                _ s a s' Hinv) as (c & cs' & _ & Hinv' & Hco' & _).
    + vm_compute. discriminate.
    + unfold plain_request, chunk_hdrsz, magic_sz. lia.
    + apply coalesced_single. lia.
    + exact Halloc.
    + exists s, a, s', cs'. split; [exact Halloc|]. split; [exact Hinv'|exact Hco'].
Defined.

(** X18.  A release merges as far as it can: if no free chunk of a
    well-formed segment has a free buddy of its class, the same holds
    after a chunk in use has been released. *)
Theorem X18_release_keeps_segment_coalesced
    (USE_ASSERT_CHECKING : bool) (size head : Z) (id : nat) (chunk j : Z)
    (cs : list chunk_entry) (s : segst) (b : bool) (s' : segst) :
  seg_inv (shmBufferSegmentMmapPtr size head id) size None cs s ->
  size <= 2 ^ 32 ->
  coalesced (shmBufferSegmentMmapPtr size head id) cs ->
  (chunk, j, false) ∈ cs ->
  shmBufferFreeChunk USE_ASSERT_CHECKING size head id chunk s = Ret b s' ->
  exists cs',
    seg_inv (shmBufferSegmentMmapPtr size head id) size None cs' s' /\
    coalesced (shmBufferSegmentMmapPtr size head id) cs'.
Proof.
  intros Hinv Hsize Hco Hin Hrun.
  destruct (free_step_inv USE_ASSERT_CHECKING size head id chunk j cs s b s'
              Hinv Hsize Hin Hrun) as (cs' & Hinv' & _ & Hco' & _).
  exists cs'. split; [done|by apply Hco'].
Qed.

Lemma X18_release_keeps_segment_coalesced_witness :
  exists s a b s' cs',
    segment_history false ex_size ex_head 0%nat [a] s /\
    shmBufferFreeChunk false ex_size ex_head 0%nat a s = Ret b s' /\
    seg_inv ex_head ex_size None cs' s' /\
    coalesced ex_head cs'.
Proof.
  destruct ex_one_chunk as (s & a & c & cs & Hhist & Hinv & Hco & Hin).
  destruct (free_chunk_spec false ex_size ex_head 0%nat a c cs s Hinv Hin)
    as (s' & cs0 & _ & _ & Hrun & _).
  - vm_compute. discriminate.
  - discriminate.
  - destruct (X18_release_keeps_segment_coalesced false ex_size ex_head 0%nat a c cs s
                (Z.of_nat (length (active_entries cs0)) =? 0) s' Hinv)
      as (cs' & Hinv' & Hco').
    + vm_compute. discriminate.
    + exact Hco.
    + exact Hin.
    + exact Hrun.
    + eexists s, a, _, s', cs'. split; [exact Hhist|]. split; [exact Hrun|].
      split; [exact Hinv'|exact Hco'].
Defined.

(** ** A segment in which nothing is in use *)

Lemma single_chunk_lists base size K s :
  SHMBUF_CHUNKSZ_MIN_BIT <= K <= SHMBUF_CHUNKSZ_MAX_BIT ->
  seg_inv base size None [(base, K, true)] s ->
  free_chunks (sg s) =
    <[Z.to_nat (K - SHMBUF_CHUNKSZ_MIN_BIT) := [base]]> (replicate (Z.to_nat NUM_CLASSES) []).
Proof.
  intros HK Hinv. apply list_eq. intros i.
  pose proof (inv_lists_len _ _ _ _ _ Hinv) as Hlen.
  destruct (decide (i < Z.to_nat NUM_CLASSES)%nat) as [Hi|Hi].
  - destruct (lookup_lt_is_Some_2 (free_chunks (sg s)) i ltac:(lia)) as [l Hl].
    rewrite Hl. pose proof (inv_lists _ _ _ _ _ Hinv i l Hl) as Hperm.
    destruct (decide (i = Z.to_nat (K - SHMBUF_CHUNKSZ_MIN_BIT))) as [->|Hi0].
    + rewrite list_lookup_insert_eq by (rewrite length_replicate; lia).
      rewrite free_of_class_this in Hperm; [|done|unfold ce_class; simpl; lia].
      apply Permutation_singleton_r in Hperm. by rewrite Hperm.
    + rewrite list_lookup_insert_ne by done.
      rewrite lookup_replicate_2 by done.
      rewrite free_of_class_other in Hperm.
      * apply Permutation_nil_r in Hperm. by rewrite Hperm.
      * unfold ce_class; simpl. intros [_ Heq]. lia.
  - rewrite !lookup_ge_None_2; [done| |lia].
    rewrite length_insert, length_replicate. lia.
Qed.

Lemma nothing_in_use_single base size K cs s :
  size = 2 ^ K ->
  SHMBUF_CHUNKSZ_MIN_BIT <= K <= SHMBUF_CHUNKSZ_MAX_BIT ->
  seg_inv base size None cs s ->
  coalesced base cs ->
  num_actives (sg s) = 0 ->
  cs = [(base, K, true)].
Proof.
  intros -> HK Hinv Hco Hnum.
  rewrite (inv_actives _ _ _ _ _ Hinv) in Hnum.
  assert (active_entries cs = []) as Hnil by (apply length_zero_iff_nil; lia).
  apply (coalesced_all_free_single base K cs).
  - unfold SHMBUF_CHUNKSZ_MIN_BIT in *. lia.
  - apply (inv_tiles _ _ _ _ _ Hinv).
  - intros e He. destruct (inv_class _ _ _ _ _ Hinv _ He) as [Hc Hal].
    split; [unfold SHMBUF_CHUNKSZ_MIN_BIT in *; lia|].
    apply mod_pow2_0; [unfold SHMBUF_CHUNKSZ_MIN_BIT in *; lia|done].
  - intros e He. destruct (ce_free e) eqn:Hf; [done|].
    exfalso. by apply (proj1 (active_entries_nil_iff cs) Hnil e).
  - done.
Qed.

(** X19.  In a well-formed segment whose size is a power of two and in
    which no free chunk has a free buddy of its class, [num_actives = 0]
    means that the segment is one free chunk: the free list of the
    class of the segment holds the base of the segment, and all other
    free lists are empty. *)
Theorem X19_segment_with_nothing_in_use_is_one_free_chunk
    (base size K : Z) (cs : list chunk_entry) (s : segst) :
  size = 2 ^ K ->
  SHMBUF_CHUNKSZ_MIN_BIT <= K <= SHMBUF_CHUNKSZ_MAX_BIT ->
  seg_inv base size None cs s ->
  coalesced base cs ->
  num_actives (sg s) = 0 ->
  cs = [(base, K, true)] /\
  free_chunks (sg s) =
    <[Z.to_nat (K - SHMBUF_CHUNKSZ_MIN_BIT) := [base]]> (replicate (Z.to_nat NUM_CLASSES) []) /\
  mclass (load_chunk (sm s) base) = K /\
  (forall b, base < b < base + size -> load_chunk (sm s) b = zero_chunk).
Proof.
  intros Hsize HK Hinv Hco Hnum.
  pose proof (nothing_in_use_single base size K cs s Hsize HK Hinv Hco Hnum) as ->.
  split; [done|]. split; [by eapply single_chunk_lists|]. split.
  - by destruct (inv_hdr _ _ _ _ _ Hinv (base, K, true) ltac:(left)) as (? & _).
  - intros b Hb. apply (inv_blank _ _ _ _ _ Hinv); [lia|].
    simpl. intros Hin%list_elem_of_singleton. unfold ce_addr in Hin; simpl in Hin. lia.
Qed.

Lemma X19_segment_with_nothing_in_use_is_one_free_chunk_witness :
  exists s,
    init_segment ex_size ex_head 0%nat
      (blank_segment ex_size ex_head 0%nat
         (mkSegst (mkSegment 0 0 []) (mkMemory ∅ ∅))) = Ret tt s /\
    free_chunks (sg s) = <[18%nat := [ex_head]]> (replicate 26 []).
Proof.
  destruct ex_fresh_segment as (s & Hinit & Hinv).
  destruct (X19_segment_with_nothing_in_use_is_one_free_chunk ex_head ex_size 25
              [(ex_head, 25, true)] s) as (_ & Hl & _).
  - reflexivity.
  - vm_compute. split; discriminate.
  - exact Hinv.
  - apply coalesced_single. lia.
  - rewrite (inv_actives _ _ _ _ _ Hinv). reflexivity.
  - exists s. split; [exact Hinit|exact Hl].
Defined.

(** ** The history of a segment *)

Lemma history_inv (USE_ASSERT_CHECKING : bool) size head id K live s :
  size = 2 ^ K ->
  SHMBUF_CHUNKSZ_MIN_BIT <= K <= SHMBUF_CHUNKSZ_MAX_BIT ->
  segment_history USE_ASSERT_CHECKING size head id live s ->
  exists cs,
    seg_inv (shmBufferSegmentMmapPtr size head id) size None cs s /\
    coalesced (shmBufferSegmentMmapPtr size head id) cs /\
    (forall a, a ∈ live <-> exists j, (a, j, false) ∈ cs).
Proof.
  intros Hsize HK Hhist.
  assert (size <= 2 ^ 32) as Hle.
  { rewrite Hsize. apply Z.pow_le_mono_r; unfold SHMBUF_CHUNKSZ_MAX_BIT in *; lia. }
  induction Hhist as [s0 s Hinit|live s n a s' Hhist IH Hn Hrun|live s chunk b s' Hhist IH Hin Hrun].
  - destruct (init_segment_pow2 size head id K Hsize HK (blank_segment size head id s0))
      as (s1 & Hrun & Hinv & _).
    { intros b Hb. by apply clear_range_blank. }
    rewrite Hinit in Hrun. injection Hrun as <-.
    eexists. split; [exact Hinv|]. split.
    + apply coalesced_single. unfold SHMBUF_CHUNKSZ_MIN_BIT in *. lia.
    + intros a. split; [by intros ?%elem_of_nil|].
      intros (j & Hj). by apply list_elem_of_singleton in Hj.
  - destruct IH as (cs & Hinv & Hco & Hlive).
    destruct (alloc_step_inv USE_ASSERT_CHECKING _ size id n cs s a s' Hn Hinv Hle Hco Hrun)
      as (c & cs' & _ & Hinv' & Hco' & Hact & _).
    exists cs'. split; [done|]. split; [done|].
    intros a0. rewrite elem_of_cons, Hlive. split.
    + intros [->|(j & Hj)].
      * exists c. apply Hact; [done|by right].
      * exists j. apply Hact; [done|by left].
    + intros (j & Hj). apply (proj1 (Hact (a0, j, false) eq_refl)) in Hj as [Hj|Hj].
      * right. by exists j.
      * left. by injection Hj.
  - destruct IH as (cs & Hinv & Hco & Hlive).
    apply Hlive in Hin as (j & Hin).
    destruct (free_step_inv USE_ASSERT_CHECKING size head id chunk j cs s b s'
                Hinv Hle Hin Hrun) as (cs' & Hinv' & _ & Hco' & Hact & _).
    exists cs'. split; [done|]. split; [by apply Hco'|].
    intros a0. rewrite list_elem_of_filter, Hlive. split.
    + intros [Hne (j0 & Hj0)]. exists j0. apply Hact; [done|].
      split; [done|]. intros [= ? ?]. done.
    + intros (j0 & Hj0). apply (proj1 (Hact (a0, j0, false) eq_refl)) in Hj0 as [Hj0 Hne].
      split; [|by exists j0].
      intros ->. apply Hne.
      apply (tiles_entry_unique _ _ _ _ _ (seg_inv_classes_ok _ _ _ _ _ Hinv)
               (inv_tiles _ _ _ _ _ Hinv) Hj0 Hin eq_refl).
Qed.

(** X20.  A segment whose size is a power of two, once every chunk
    allocated in it has been released, is again the single free chunk
    that the initialisation made: whatever the allocations (of requests
    whose size sum does not wrap, [n < 2^64 - 44]) and the releases (of
    chunks in use) were and in whatever order, the free list of the
    class of the segment then holds the base address, every other free
    list is empty, and [num_actives] is zero.  At any time the chunks in use
    are exactly those allocated and not yet released. *)
Theorem X20_segment_returns_to_one_free_chunk
    (USE_ASSERT_CHECKING : bool) (size head : Z) (id : nat) (K : Z)
    (live : list Z) (s : segst) :
  size = 2 ^ K ->
  SHMBUF_CHUNKSZ_MIN_BIT <= K <= SHMBUF_CHUNKSZ_MAX_BIT ->
  segment_history USE_ASSERT_CHECKING size head id live s ->
  (exists cs,
     seg_inv (shmBufferSegmentMmapPtr size head id) size None cs s /\
     (forall a, a ∈ live <-> exists j, (a, j, false) ∈ cs)) /\
  (live = [] ->
   seg_inv (shmBufferSegmentMmapPtr size head id) size None
     [(shmBufferSegmentMmapPtr size head id, K, true)] s /\
   free_chunks (sg s) =
     <[Z.to_nat (K - SHMBUF_CHUNKSZ_MIN_BIT) := [shmBufferSegmentMmapPtr size head id]]>
       (replicate (Z.to_nat NUM_CLASSES) []) /\
   num_actives (sg s) = 0).
Proof.
  intros Hsize HK Hhist.
  destruct (history_inv USE_ASSERT_CHECKING size head id K live s Hsize HK Hhist)
    as (cs & Hinv & Hco & Hlive).
  split; [by exists cs|].
  intros ->.
  assert (active_entries cs = []) as Hnil.
  { apply active_entries_nil_iff. intros [[a j] f] He Hf.
    unfold ce_free in Hf; simpl in Hf. subst f.
    apply (elem_of_nil a). apply Hlive. by exists j. }
  assert (num_actives (sg s) = 0) as Hnum
    by (by rewrite (inv_actives _ _ _ _ _ Hinv), Hnil).
  pose proof (nothing_in_use_single _ size K cs s Hsize HK Hinv Hco Hnum) as ->.
  split; [done|]. split; [by eapply single_chunk_lists|done].
Qed.

Lemma X20_segment_returns_to_one_free_chunk_witness :
  exists s a b s',
    segment_history false ex_size ex_head 0%nat [a] s /\
    shmBufferFreeChunk false ex_size ex_head 0%nat a s = Ret b s' /\
    free_chunks (sg s') = <[18%nat := [ex_head]]> (replicate 26 []).
Proof.
  destruct ex_one_chunk as (s & a & c & cs & Hhist & Hinv & _ & Hin).
  destruct (free_chunk_spec false ex_size ex_head 0%nat a c cs s Hinv Hin)
    as (s' & cs0 & _ & _ & Hrun & _).
  - vm_compute. discriminate.
  - discriminate.
  - destruct (X20_segment_returns_to_one_free_chunk false ex_size ex_head 0%nat 25
                (filter (fun x => x ≠ a) [a]) s') as (_ & Hend).
    + reflexivity.
    + vm_compute. split; discriminate.
    + eapply history_free; [exact Hhist|left|exact Hrun].
    + destruct Hend as (_ & Hl & _).
      { rewrite filter_cons_False by (intros Hne; by apply Hne). reflexivity. }
      eexists s, a, _, s'. split; [exact Hhist|]. split; [exact Hrun|exact Hl].
Defined.

(** ** What the walk of [__pgstrom_shmbuf_segment_info] counts *)

Lemma sum_alter_succ (l : list Z) i :
  (i < length l)%nat ->
  foldr Z.add 0 (alter (fun n => n + 1) i l) = foldr Z.add 0 l + 1.
Proof.
  revert i. induction l as [|x l IH]; intros i Hi; [simpl in Hi; lia|].
  destruct i as [|i].
  - simpl. lia.
  - change (alter (fun n => n + 1) (S i) (x :: l))
      with (x :: alter (fun n => n + 1) i l).
    cbn [foldr]. rewrite IH by (simpl in Hi; lia). lia.
Qed.

Lemma info_walk_counts m tail cs :
  forall fuel curr acc info,
    tiles cs curr tail ->
    (forall e, e ∈ cs ->
       SHMBUF_CHUNKSZ_MIN_BIT <= ce_class e <= SHMBUF_CHUNKSZ_MAX_BIT /\
       mclass (load_chunk m (ce_addr e)) = ce_class e /\
       magic_head (load_chunk m (ce_addr e)) = SHMBUF_CHUNK_MAGIC_CODE /\
       chain (load_chunk m (ce_addr e)) = ce_free e) ->
    length (active_count acc) = Z.to_nat NUM_CLASSES ->
    length (free_count acc) = Z.to_nat NUM_CLASSES ->
    info_walk fuel m curr tail acc = Some info ->
    (forall i,
       active_count info !! i =
       (fun n => n + Z.of_nat (length (filter
          (fun e => ce_free e = false /\ ce_class e = Z.of_nat i + SHMBUF_CHUNKSZ_MIN_BIT)
          cs))) <$> active_count acc !! i) /\
    (forall i,
       free_count info !! i =
       (fun n => n + Z.of_nat (length (free_of_class
          (Z.of_nat i + SHMBUF_CHUNKSZ_MIN_BIT) cs))) <$> free_count acc !! i) /\
    foldr Z.add 0 (active_count info)
      = foldr Z.add 0 (active_count acc) + Z.of_nat (length (active_entries cs)).
Proof.
  induction cs as [|e cs IH]; intros fuel curr acc info Ht Hhdr Hla Hlf Hrun.
  - simpl in Ht. subst. destruct fuel as [|fuel]; [done|].
    simpl in Hrun. rewrite Z.ltb_irrefl in Hrun. injection Hrun as <-.
    split; [|split].
    + intros i. simpl. destruct (active_count acc !! i); simpl; f_equal; lia.
    + intros i. unfold free_of_class. simpl.
      destruct (free_count acc !! i); simpl; f_equal; lia.
    + unfold active_entries. simpl. lia.
  - destruct fuel as [|fuel]; [done|].
    destruct Ht as [Hae Ht]. subst curr.
    destruct (Hhdr e ltac:(left)) as (Hk & Hmc & Hmg & Hch).
    assert (0 < 2 ^ ce_class e) as Hpos
      by (apply pow2_pos; unfold SHMBUF_CHUNKSZ_MIN_BIT in *; lia).
    assert (classes_ok (e :: cs)) as Hok.
    { apply Forall_forall. intros e' He'. destruct (Hhdr e' He') as (? & _).
      unfold SHMBUF_CHUNKSZ_MIN_BIT in *. lia. }
    pose proof (tiles_bounds (e :: cs) (ce_addr e) tail e Hok
                  ltac:(split; [done|exact Ht]) ltac:(left)) as [_ Hend].
    simpl info_walk in Hrun.
    destruct (Z.ltb_spec (ce_addr e) tail) as [_|]; [|lia].
    rewrite Hmc, Hmg, Z.eqb_refl in Hrun.
    destruct (Z.ltb_spec (ce_class e) SHMBUF_CHUNKSZ_MIN_BIT) as [|_]; [lia|].
    destruct (Z.ltb_spec SHMBUF_CHUNKSZ_MAX_BIT (ce_class e)) as [|_]; [lia|].
    destruct (Z.ltb_spec tail (ce_addr e + 2 ^ ce_class e)) as [|_]; [lia|].
    simpl in Hrun. rewrite Hch in Hrun.
    pose proof (mindex_range (ce_class e) Hk) as Hidx.
    set (ie := Z.to_nat (ce_class e - SHMBUF_CHUNKSZ_MIN_BIT)) in *.
    assert (forall i, (Z.of_nat i + SHMBUF_CHUNKSZ_MIN_BIT = ce_class e) <-> i = ie) as Hie
      by (intros i; unfold ie; lia).
    destruct (ce_free e) eqn:Hfree.
    + apply IH in Hrun as (Ha & Hf & Hs); simpl; try done.
      2:{ intros e' He'. apply Hhdr. by right. }
      2:{ unfold bump. by rewrite length_alter. }
      simpl in Ha, Hf, Hs. split; [|split].
      * intros i. rewrite Ha. rewrite filter_cons_False; [done|].
        intros [? _]. congruence.
      * intros i. rewrite Hf. unfold bump. fold ie.
        destruct (decide (i = ie)) as [->|Hne].
        -- rewrite list_lookup_alter_eq.
           rewrite (free_of_class_this _ e); [|done|symmetry; by apply Hie].
           destruct (free_count acc !! ie); simpl; f_equal. lia.
        -- rewrite list_lookup_alter_ne by done.
           rewrite (free_of_class_other _ e); [done|].
           intros [_ Heq]. symmetry in Heq. by apply Hie in Heq.
      * rewrite Hs. rewrite active_entries_cons, Hfree. done.
    + apply IH in Hrun as (Ha & Hf & Hs); simpl; try done.
      2:{ intros e' He'. apply Hhdr. by right. }
      2:{ unfold bump. by rewrite length_alter. }
      simpl in Ha, Hf, Hs. split; [|split].
      * intros i. rewrite Ha. unfold bump. fold ie.
        destruct (decide (i = ie)) as [->|Hne].
        -- rewrite list_lookup_alter_eq.
           rewrite filter_cons_True by (split; [done|symmetry; by apply Hie]).
           destruct (active_count acc !! ie); simpl; f_equal. lia.
        -- rewrite list_lookup_alter_ne by done.
           rewrite filter_cons_False; [done|].
           intros [_ Heq]. symmetry in Heq. by apply Hie in Heq.
      * intros i. rewrite Hf.
        rewrite (free_of_class_other _ e); [done|]. intros [? _]. congruence.
      * rewrite Hs. rewrite active_entries_cons, Hfree. unfold bump. fold ie.
        rewrite sum_alter_succ by (rewrite Hla; unfold ie; lia). simpl. lia.
Qed.

(** X21.  On a well-formed segment the report of
    [__pgstrom_shmbuf_segment_info] never says "corrupted", and it
    agrees with the bookkeeping of the allocator: the number of free
    chunks it counts for a class is the length of the free list of that
    class, the number of active chunks it counts for a class is the
    number of chunks of that class in use, and the active counts of all
    classes add up to [num_actives]. *)
Theorem X21_report_agrees_with_free_lists
    (size head : Z) (id : nat) (cs : list chunk_entry) (s : segst) :
  seg_inv (shmBufferSegmentMmapPtr size head id) size None cs s ->
  size <= 2 ^ 32 ->
  exists info,
    __pgstrom_shmbuf_segment_info size head id (sm s) = Some info /\
    (forall k l,
       SHMBUF_CHUNKSZ_MIN_BIT <= k <= SHMBUF_CHUNKSZ_MAX_BIT ->
       free_chunks (sg s) !! Z.to_nat (k - SHMBUF_CHUNKSZ_MIN_BIT) = Some l ->
       free_count info !! Z.to_nat (k - SHMBUF_CHUNKSZ_MIN_BIT)
         = Some (Z.of_nat (length l))) /\
    (forall k,
       SHMBUF_CHUNKSZ_MIN_BIT <= k <= SHMBUF_CHUNKSZ_MAX_BIT ->
       active_count info !! Z.to_nat (k - SHMBUF_CHUNKSZ_MIN_BIT)
         = Some (Z.of_nat (length (filter
                   (fun e => ce_free e = false /\ ce_class e = k) cs)))) /\
    foldr Z.add 0 (active_count info) = num_actives (sg s).
Proof.
  intros Hinv Hsize.
  destruct (seg_inv_walk size head id cs s Hinv Hsize) as (_ & info & Hrun & _).
  exists info. split; [done|].
  unfold __pgstrom_shmbuf_segment_info in Hrun.
  apply info_walk_counts with (cs := cs) in Hrun as (Ha & Hf & Hs).
  - cbn [active_count free_count] in Ha, Hf, Hs. split; [|split].
    + intros k l Hk Hl. rewrite Hf.
      pose proof (mindex_range k Hk) as Hi.
      rewrite lookup_replicate_2 by lia. simpl. f_equal.
      pose proof (inv_lists _ _ _ _ _ Hinv _ _ Hl) as Hperm.
      replace (Z.of_nat (Z.to_nat (k - SHMBUF_CHUNKSZ_MIN_BIT)) + SHMBUF_CHUNKSZ_MIN_BIT)
        with k in * by lia.
      by rewrite Hperm.
    + intros k Hk. rewrite Ha.
      pose proof (mindex_range k Hk) as Hi.
      rewrite lookup_replicate_2 by lia. simpl.
      replace (Z.of_nat (Z.to_nat (k - SHMBUF_CHUNKSZ_MIN_BIT)) + SHMBUF_CHUNKSZ_MIN_BIT)
        with k by lia.
      done.
    + rewrite Hs, (inv_actives _ _ _ _ _ Hinv).
      assert (foldr Z.add 0 (replicate (Z.to_nat NUM_CLASSES) 0) = 0) as -> by done.
      lia.
  - apply (inv_tiles _ _ _ _ _ Hinv).
  - intros e He. destruct (inv_class _ _ _ _ _ Hinv _ He) as [Hc _].
    destruct (inv_hdr _ _ _ _ _ Hinv _ He) as (H1 & H2 & H3).
    split; [done|]. split; [done|]. split; [done|]. by apply H3.
  - cbn [active_count]. by rewrite length_replicate.
  - cbn [free_count]. by rewrite length_replicate.
Qed.

Lemma X21_report_agrees_with_free_lists_witness :
  exists s info,
    __pgstrom_shmbuf_segment_info ex_size ex_head 0%nat (sm s) = Some info /\
    foldr Z.add 0 (active_count info) = num_actives (sg s).
Proof.
  destruct ex_fresh_segment as (s & _ & Hinv).
  destruct (X21_report_agrees_with_free_lists ex_size ex_head 0%nat _ s Hinv)
    as (info & Hrun & _ & _ & Hsum).
  - vm_compute. discriminate.
  - exists s, info. split; [exact Hrun|exact Hsum].
Defined.

Lemma info_walk_sound m tail :
  forall fuel curr acc,
    curr <= tail ->
    tail - curr < 2 ^ SHMBUF_CHUNKSZ_MIN_BIT * Z.of_nat fuel ->
    match info_walk fuel m curr tail acc with
    | Some _ =>
        exists cs,
          tiles cs curr tail /\
          forall e, e ∈ cs ->
            SHMBUF_CHUNKSZ_MIN_BIT <= ce_class e <= SHMBUF_CHUNKSZ_MAX_BIT /\
            mclass (load_chunk m (ce_addr e)) = ce_class e /\
            magic_head (load_chunk m (ce_addr e)) = SHMBUF_CHUNK_MAGIC_CODE /\
            chain (load_chunk m (ce_addr e)) = ce_free e
    | None =>
        exists cs a,
          tiles cs curr a /\ a < tail /\
          (forall e, e ∈ cs ->
             SHMBUF_CHUNKSZ_MIN_BIT <= ce_class e <= SHMBUF_CHUNKSZ_MAX_BIT /\
             mclass (load_chunk m (ce_addr e)) = ce_class e /\
             magic_head (load_chunk m (ce_addr e)) = SHMBUF_CHUNK_MAGIC_CODE /\
             chain (load_chunk m (ce_addr e)) = ce_free e) /\
          (mclass (load_chunk m a) < SHMBUF_CHUNKSZ_MIN_BIT \/
           SHMBUF_CHUNKSZ_MAX_BIT < mclass (load_chunk m a) \/
           magic_head (load_chunk m a) ≠ SHMBUF_CHUNK_MAGIC_CODE \/
           tail < a + 2 ^ mclass (load_chunk m a))
    end.
Proof.
  induction fuel as [|fuel IH]; intros curr acc Hle Hfuel.
  { simpl in Hfuel. lia. }
  simpl info_walk.
  destruct (Z.ltb_spec curr tail) as [Hlt|Hge].
  2:{ exists []. split; [simpl; lia|]. by intros e ?%elem_of_nil. }
  set (c := load_chunk m curr).
  destruct (Z.ltb_spec (mclass c) SHMBUF_CHUNKSZ_MIN_BIT) as [Hlo|Hlo].
  { exists [], curr. simpl. split; [done|]. split; [done|].
    split; [by intros e ?%elem_of_nil|]. by left. }
  destruct (Z.ltb_spec SHMBUF_CHUNKSZ_MAX_BIT (mclass c)) as [Hhi|Hhi].
  { exists [], curr. simpl. split; [done|]. split; [done|].
    split; [by intros e ?%elem_of_nil|]. right. by left. }
  destruct (Z.eqb_spec (magic_head c) SHMBUF_CHUNK_MAGIC_CODE) as [Hmg|Hmg].
  2:{ exists [], curr. simpl. split; [done|]. split; [done|].
      split; [by intros e ?%elem_of_nil|]. right. right. by left. }
  destruct (Z.ltb_spec tail (curr + 2 ^ mclass c)) as [Hout|Hin].
  { exists [], curr. simpl. split; [done|]. split; [done|].
    split; [by intros e ?%elem_of_nil|]. right. right. by right. }
  simpl.
  assert (2 ^ SHMBUF_CHUNKSZ_MIN_BIT <= 2 ^ mclass c) as Hpow.
  { apply Z.pow_le_mono_r; [lia|done]. }
  set (acc' := if chain c then _ else _).
  specialize (IH (curr + 2 ^ mclass c) acc' Hin ltac:(lia)).
  assert (forall e, e = (curr, mclass c, chain c) ->
            SHMBUF_CHUNKSZ_MIN_BIT <= ce_class e <= SHMBUF_CHUNKSZ_MAX_BIT /\
            mclass (load_chunk m (ce_addr e)) = ce_class e /\
            magic_head (load_chunk m (ce_addr e)) = SHMBUF_CHUNK_MAGIC_CODE /\
            chain (load_chunk m (ce_addr e)) = ce_free e) as Hhead.
  { intros e ->. unfold ce_addr, ce_class, ce_free; simpl. fold c. done. }
  destruct (info_walk fuel m (curr + 2 ^ mclass c) tail acc') as [info|].
  - destruct IH as (cs & Ht & Hv).
    exists ((curr, mclass c, chain c) :: cs). split; [by split|].
    intros e [->|He]%elem_of_cons; [by apply Hhead|by apply Hv].
  - destruct IH as (cs & a & Ht & Ha & Hv & Hbad).
    exists ((curr, mclass c, chain c) :: cs), a. split; [by split|]. split; [done|].
    split; [|done].
    intros e [->|He]%elem_of_cons; [by apply Hhead|by apply Hv].
Qed.

(** X22.  The report of [__pgstrom_shmbuf_segment_info] on any memory:
    it comes without "corrupted" only if the chunk headers, followed
    from the base of the segment by their sizes, are all valid and end
    exactly at the end of the segment; and "corrupted" means that this
    walk reaches, inside the segment, a header whose class is out of
    range, whose magic word is wrong, or whose chunk would end beyond
    the segment. *)
Theorem X22_report_is_corrupted_iff_a_header_is_invalid
    (size head : Z) (id : nat) (m : memory) :
  0 <= size ->
  match __pgstrom_shmbuf_segment_info size head id m with
  | Some _ =>
      exists cs,
        tiles cs (shmBufferSegmentMmapPtr size head id)
                 (shmBufferSegmentMmapPtr size head id + size) /\
        forall e, e ∈ cs ->
          SHMBUF_CHUNKSZ_MIN_BIT <= ce_class e <= SHMBUF_CHUNKSZ_MAX_BIT /\
          mclass (load_chunk m (ce_addr e)) = ce_class e /\
          magic_head (load_chunk m (ce_addr e)) = SHMBUF_CHUNK_MAGIC_CODE /\
          chain (load_chunk m (ce_addr e)) = ce_free e
  | None =>
      exists cs a,
        tiles cs (shmBufferSegmentMmapPtr size head id) a /\
        a < shmBufferSegmentMmapPtr size head id + size /\
        (forall e, e ∈ cs ->
           SHMBUF_CHUNKSZ_MIN_BIT <= ce_class e <= SHMBUF_CHUNKSZ_MAX_BIT /\
           mclass (load_chunk m (ce_addr e)) = ce_class e /\
           magic_head (load_chunk m (ce_addr e)) = SHMBUF_CHUNK_MAGIC_CODE /\
           chain (load_chunk m (ce_addr e)) = ce_free e) /\
        (mclass (load_chunk m a) < SHMBUF_CHUNKSZ_MIN_BIT \/
         SHMBUF_CHUNKSZ_MAX_BIT < mclass (load_chunk m a) \/
         magic_head (load_chunk m a) ≠ SHMBUF_CHUNK_MAGIC_CODE \/
         shmBufferSegmentMmapPtr size head id + size < a + 2 ^ mclass (load_chunk m a))
  end.
Proof.
  intros Hsize. unfold __pgstrom_shmbuf_segment_info.
  apply info_walk_sound; [lia|].
  pose proof (Z.div_mod size (2 ^ SHMBUF_CHUNKSZ_MIN_BIT) ltac:(done)) as Hdm.
  pose proof (Z.mod_pos_bound size (2 ^ SHMBUF_CHUNKSZ_MIN_BIT) ltac:(done)) as Hmod.
  assert (0 <= size / 2 ^ SHMBUF_CHUNKSZ_MIN_BIT) by (apply Z.div_pos; [done|done]).
  lia.
Qed.

Lemma X22_report_is_corrupted_iff_a_header_is_invalid_witness :
  __pgstrom_shmbuf_segment_info ex_size ex_head 0%nat (mkMemory ∅ ∅) = None /\
  exists a,
    a < shmBufferSegmentMmapPtr ex_size ex_head 0%nat + ex_size /\
    (mclass (load_chunk (mkMemory ∅ ∅) a) < SHMBUF_CHUNKSZ_MIN_BIT \/
     SHMBUF_CHUNKSZ_MAX_BIT < mclass (load_chunk (mkMemory ∅ ∅) a) \/
     magic_head (load_chunk (mkMemory ∅ ∅) a) ≠ SHMBUF_CHUNK_MAGIC_CODE \/
     shmBufferSegmentMmapPtr ex_size ex_head 0%nat + ex_size
       < a + 2 ^ mclass (load_chunk (mkMemory ∅ ∅) a)).
Proof.
  pose proof (X22_report_is_corrupted_iff_a_header_is_invalid ex_size ex_head 0%nat
                (mkMemory ∅ ∅)) as H.
  assert (__pgstrom_shmbuf_segment_info ex_size ex_head 0%nat (mkMemory ∅ ∅) = None) as Hnone
    by (vm_compute; reflexivity).
  rewrite Hnone in H. split; [reflexivity|].
  destruct H as (_ & a & _ & Ha & _ & Hbad).
  - vm_compute. discriminate.
  - exists a. split; [exact Ha|exact Hbad].
Defined.

(** ** [shmbufAlloc] and the other segments *)

(** A segment stays well formed when the headers in its range are not
    touched. *)
Lemma seg_inv_frame base size fl cs g m m' :
  (forall b, base <= b < base + size -> load_chunk m' b = load_chunk m b) ->
  seg_inv base size fl cs (mkSegst g m) ->
  seg_inv base size fl cs (mkSegst g m').
Proof.
  intros Hframe Hinv.
  pose proof (seg_inv_classes_ok _ _ _ _ _ Hinv) as Hok.
  pose proof (inv_tiles _ _ _ _ _ Hinv) as Ht.
  destruct Hinv as [_ Hc Hh Hb Hlen Hl Ha Hfl].
  constructor; try done; simpl in *.
  - intros e He.
    pose proof (tiles_bounds _ _ _ _ Hok Ht He) as [Hlo Hhi].
    assert (0 < 2 ^ ce_class e) as Hpos
      by (apply pow2_pos; by apply (proj1 (Forall_forall _ _) Hok)).
    rewrite Hframe by lia. by apply Hh.
  - intros b Hb' Hnin. rewrite Hframe by done. by apply Hb.
Qed.

Section AllocDirectory.

Variable USE_ASSERT_CHECKING : bool.
Variables size head : Z.
Hypothesis Hsize : 0 < size <= 2 ^ 32.

Local Abbreviation base id := (shmBufferSegmentMmapPtr size head id).
Local Abbreviation alloc := (__shmBufferAllocChunkFromSegment USE_ASSERT_CHECKING).

(** The scan of the active list: the segments before the one that
    serves the request have returned NULL and are unchanged. *)
Lemma scan_active_run l n :
  plain_request n ->
  forall w chunk w',
    (forall id, id ∈ l ->
       exists g cs,
         segments w !! id = Some g /\
         seg_inv (base id) size None cs (mkSegst g (wmem w))) ->
    scan_active USE_ASSERT_CHECKING l n w = Ret (Some chunk) w' ->
    exists l1 id l2 g s',
      l = l1 ++ id :: l2 /\
      (forall id1, id1 ∈ l1 ->
         exists g1, segments w !! id1 = Some g1 /\
                    alloc id1 n (mkSegst g1 (wmem w)) = Ret None (mkSegst g1 (wmem w))) /\
      segments w !! id = Some g /\
      alloc id n (mkSegst g (wmem w)) = Ret (Some chunk) s' /\
      w' = set_wmem (sm s') (set_segments (<[id := sg s']> (segments w)) w).
Proof.
  intros Hn. induction l as [|id l IH]; intros w chunk w' Hok Hscan; [done|].
  destruct (Hok id ltac:(left)) as (g & cs & Hg & Hinv).
  simpl in Hscan. apply bind_Ret_inv in Hscan as ([a|] & w1 & Hstep & Hrest).
  - injection Hrest as <- <-.
    unfold on_segment in Hstep. rewrite Hg in Hstep.
    destruct (alloc id n (mkSegst g (wmem w))) as [r s'|f s'] eqn:Hrun; [|done].
    injection Hstep as -> <-.
    exists [], id, l, g, s'. split; [done|]. split; [by intros ? ?%elem_of_nil|done].
  - unfold on_segment in Hstep. rewrite Hg in Hstep.
    destruct (alloc_from_segment_spec USE_ASSERT_CHECKING _ size id n cs _ Hn Hinv
                ltac:(lia))
      as [[_ Hrun]|(c & Hcls & [(_ & _ & Hrun)|[(_ & _ & Hrun)|(a' & s' & cs' & Hrun & Hal)]])];
      rewrite Hrun in Hstep; try discriminate.
    injection Hstep as <-.
    assert (set_wmem (wmem w) (set_segments (<[id := g]> (segments w)) w) = w) as Hsame.
    { destruct w; unfold set_wmem, set_segments; simpl in *.
      f_equal. by apply list_insert_id. }
    simpl in Hrest. rewrite Hsame in Hrest.
    destruct (IH w chunk w') as (l1 & id' & l2 & g' & s' & -> & Hnone & Hg' & Hrun' & ->);
      [|done|].
    + intros id' Hid'. apply Hok. by right.
    + exists (id :: l1), id', l2, g', s'. split; [done|]. split; [|done].
      intros id1 [->|Hin]%elem_of_cons; [by exists g|by apply Hnone].
Qed.

End AllocDirectory.

(** X23.  A successful [shmbufAlloc] of a request whose size sum does
    not wrap ([n < 2^64 - 44]), on a directory whose active segments
    are well formed, is served by the first segment of the active list
    in which the allocation does not return NULL.  Only
    that segment changes: its descriptor and the chunk headers in its
    address range; the two segment lists, the local maps and the lock
    are as before the call, and every active segment is still well
    formed. *)
Theorem X23_alloc_changes_only_the_serving_segment
    (USE_ASSERT_CHECKING : bool) (size head : Z) (os : os_results) (n : Z)
    (w : world) (p : Z) (w' : world) :
  0 < size <= 2 ^ 32 ->
  plain_request n ->
  active_segments_ok size head w ->
  shmbufAlloc USE_ASSERT_CHECKING size head os n w = Ret (Some p) w' ->
  exists l1 id l2 g s',
    active_segment_list w = l1 ++ id :: l2 /\
    (forall id1, id1 ∈ l1 ->
       exists g1,
         segments w !! id1 = Some g1 /\
         __shmBufferAllocChunkFromSegment USE_ASSERT_CHECKING id1 n (mkSegst g1 (wmem w))
           = Ret None (mkSegst g1 (wmem w))) /\
    segments w !! id = Some g /\
    __shmBufferAllocChunkFromSegment USE_ASSERT_CHECKING id n (mkSegst g (wmem w))
      = Ret (Some (SHMBUF_POINTER_GET_CHUNK p)) s' /\
    w' = set_wmem (sm s') (set_segments (<[id := sg s']> (segments w)) w) /\
    (forall b, ¬ (shmBufferSegmentMmapPtr size head id <= b
                  < shmBufferSegmentMmapPtr size head id + size) ->
       load_chunk (wmem w') b = load_chunk (wmem w) b) /\
    active_segments_ok size head w'.
Proof.
  intros Hsize Hn Hok Hrun.
  destruct (shmbufAlloc_Ret_scan USE_ASSERT_CHECKING size head os n w p w' Hrun)
    as (chunk & w1 & Hlock & -> & Hscan & ->).
  destruct (scan_active_run USE_ASSERT_CHECKING size head Hsize
              (active_segment_list w) n Hn (set_lock true w) chunk w1 Hok Hscan)
    as (l1 & id & l2 & g & s' & Hl & Hnone & Hg & Halloc & ->).
  change (segments (set_lock true w)) with (segments w) in *.
  change (wmem (set_lock true w)) with (wmem w) in *.
  replace (SHMBUF_POINTER_GET_CHUNK (chunk_data chunk)) with chunk
    by (unfold SHMBUF_POINTER_GET_CHUNK, chunk_data; lia).
  assert (id ∈ active_segment_list w) as Hin
    by (rewrite Hl; apply elem_of_app; right; left).
  destruct (Hok id Hin) as (g0 & cs & Hg0 & Hinv).
  rewrite Hg in Hg0. injection Hg0 as <-.
  destruct (alloc_shape USE_ASSERT_CHECKING _ size id n cs _ chunk s' Hn Hinv ltac:(lia) Halloc)
    as (c & k' & la & lb & rest & Hcls & Hk' & Hcs & _ & _ & Hal & Hframe & _).
  destruct Hal as (Hinv' & _).
  assert (set_lock false
            (set_wmem (sm s')
               (set_segments (<[id := sg s']> (segments w)) (set_lock true w)))
          = set_wmem (sm s') (set_segments (<[id := sg s']> (segments w)) w)) as Hw.
  { destruct w. unfold set_lock, set_wmem, set_segments; simpl in *. by subst. }
  rewrite Hw.
  assert (forall b, ¬ (shmBufferSegmentMmapPtr size head id <= b
                       < shmBufferSegmentMmapPtr size head id + size) ->
            load_chunk (sm s') b = load_chunk (wmem w) b) as Hout.
  { intros b Hb. apply Hframe.
    pose proof (tiles_bounds _ _ _ (chunk, k', true) (seg_inv_classes_ok _ _ _ _ _ Hinv)
                  (inv_tiles _ _ _ _ _ Hinv)
                  ltac:(rewrite Hcs; apply elem_of_app; right; left)) as [Hlo Hhi].
    unfold ce_addr, ce_class in Hlo, Hhi; simpl in Hlo, Hhi. lia. }
  exists l1, id, l2, g, s'.
  split; [done|]. split; [done|]. split; [done|]. split; [done|]. split; [done|].
  split; [done|].
  intros id' Hid'. change (id' ∈ active_segment_list w) in Hid'.
  assert (id < length (segments w))%nat as Hlt by (by eapply lookup_lt_Some).
  destruct (decide (id' = id)) as [->|Hne].
  - exists (sg s'), (la ++ (chunk, c, false) :: rungs chunk c (Z.to_nat (k' - c)) ++ lb).
    split; [simpl; by apply list_lookup_insert_eq|].
    simpl. by destruct s'.
  - destruct (Hok id' Hid') as (g' & cs' & Hg' & Hinv0).
    exists g', cs'. split; [simpl; by rewrite list_lookup_insert_ne|].
    simpl. apply (seg_inv_frame _ _ _ _ _ (wmem w)); [|done].
    intros b Hb. apply Hout.
    unfold shmBufferSegmentMmapPtr in *.
    assert (Z.of_nat id' ≠ Z.of_nat id) as Hz by lia.
    assert (Z.of_nat id' < Z.of_nat id \/ Z.of_nat id < Z.of_nat id') as [Hc'|Hc'] by lia; nia.
Qed.

Lemma X23_alloc_changes_only_the_serving_segment_witness :
  exists id l2 g s',
    active_segment_list ex_active = [] ++ id :: l2 /\
    segments ex_active !! id = Some g /\
    __shmBufferAllocChunkFromSegment false id 50 (mkSegst g (wmem ex_active))
      = Ret (Some (SHMBUF_POINTER_GET_CHUNK (ex_head + 40))) s' /\
    active_segments_ok ex_size ex_head ex_allocated.
Proof.
  destruct (X23_alloc_changes_only_the_serving_segment false ex_size ex_head ex_os 50
              ex_active (ex_head + 40) ex_allocated)
    as (l1 & id & l2 & g & s' & Hl & _ & Hg & Hrun & _ & _ & Hok).
  - vm_compute. split; [reflexivity|discriminate].
  - unfold plain_request, chunk_hdrsz, magic_sz. lia.
  - exact ex_active_ok.
  - vm_compute. reflexivity.
  - change (active_segment_list ex_active) with [0%nat] in Hl.
    destruct l1 as [|x l1].
    2:{ exfalso. injection Hl as _ Hl. by destruct l1. }
    exists id, l2, g, s'. split; [exact Hl|]. split; [exact Hg|].
    split; [exact Hrun|exact Hok].
Defined.

(** * The files of the segments *)

Lemma pretty_N_go_chars x s c :
  c ∈ String.list_ascii_of_string (pretty_N_go x s) ->
  (exists k, (k < 10)%N /\ c = pretty_N_char k) \/ c ∈ String.list_ascii_of_string s.
Proof.
  revert s. induction (N.lt_wf_0 x) as [x _ IH]; intros s Hc.
  assert (x = 0 \/ 0 < x)%N as [->|Hpos] by lia.
  - rewrite pretty_N_go_0 in Hc. by right.
  - rewrite pretty_N_go_step in Hc by done.
    apply IH in Hc as [?|Hc]; [by left| |by apply N.div_lt].
    simpl in Hc. apply elem_of_cons in Hc as [->|?]; [|by right].
    left. exists (x `mod` 10)%N. split; [|done]. by apply N.mod_lt.
Qed.

Lemma pretty_N_go_length k : forall x s,
  (x < 10 ^ N.of_nat k)%N ->
  (length (String.list_ascii_of_string (pretty_N_go x s))
   <= k + length (String.list_ascii_of_string s))%nat.
Proof.
  induction k as [|k IH]; intros x s Hx.
  - assert (x = 0)%N as -> by (simpl in Hx; lia). by rewrite pretty_N_go_0.
  - assert (x = 0 \/ 0 < x)%N as [->|Hpos] by lia.
    + rewrite pretty_N_go_0. lia.
    + rewrite pretty_N_go_step by done.
      etrans; [apply IH|simpl; lia].
      apply N.Div0.div_lt_upper_bound.
      replace (N.of_nat (S k)) with (N.succ (N.of_nat k)) in Hx by lia.
      rewrite N.pow_succ_r' in Hx. lia.
Qed.

Lemma fmt_u_digits x c : c ∈ fmt_u x -> is_digit c.
Proof.
  unfold fmt_u, pretty, pretty_N. intros Hc. case_decide as Hz.
  - simpl in Hc. apply list_elem_of_singleton in Hc as ->. by exists 0%N.
  - apply pretty_N_go_chars in Hc as [?|Hc]; [done|]. by apply elem_of_nil in Hc.
Qed.

Lemma fmt_u_length x : (length (fmt_u x) <= 10)%nat.
Proof.
  unfold fmt_u, pretty, pretty_N. case_decide as Hz; [simpl; lia|].
  etrans; [apply (pretty_N_go_length 10)|simpl; lia].
  unfold wrap32. pose proof (Z.mod_pos_bound x (2 ^ 32) ltac:(done)). simpl. lia.
Qed.

Lemma fmt_u_inj x y : fmt_u x = fmt_u y -> wrap32 x = wrap32 y.
Proof.
  unfold fmt_u. intros Heq.
  apply (f_equal String.string_of_list_ascii) in Heq.
  rewrite !String.string_of_list_ascii_of_string in Heq.
  apply (inj pretty) in Heq.
  unfold wrap32 in *.
  pose proof (Z.mod_pos_bound x (2 ^ 32) ltac:(done)).
  pose proof (Z.mod_pos_bound y (2 ^ 32) ltac:(done)). lia.
Qed.

Lemma digit_not c (sep : ascii) :
  is_digit c -> (forall k, (k < 10)%N -> pretty_N_char k ≠ sep) -> c ≠ sep.
Proof. intros (k & Hk & ->) Hsep. by apply Hsep. Qed.

Lemma digit_ne_dot k : (k < 10)%N -> pretty_N_char k ≠ "."%char.
Proof. intros _. unfold pretty_N_char. by repeat case_match. Qed.

Lemma digit_ne_colon k : (k < 10)%N -> pretty_N_char k ≠ ":"%char.
Proof. intros _. unfold pretty_N_char. by repeat case_match. Qed.

(** Two texts that agree up to a separator which neither contains. *)
Lemma split_at_separator (sep : ascii) (d1 d2 r1 r2 : list ascii) :
  sep ∉ d1 -> sep ∉ d2 ->
  d1 ++ sep :: r1 = d2 ++ sep :: r2 -> d1 = d2 /\ r1 = r2.
Proof.
  revert d2. induction d1 as [|c d1 IH]; intros d2 H1 H2 Heq.
  - destruct d2 as [|c2 d2]; [by injection Heq|].
    injection Heq as <- _. exfalso. apply H2. left.
  - destruct d2 as [|c2 d2].
    + injection Heq as -> _. exfalso. apply H1. left.
    + injection Heq as <- Heq.
      apply not_elem_of_cons in H1 as [_ H1]. apply not_elem_of_cons in H2 as [_ H2].
      destruct (IH d2 H1 H2 Heq) as [-> ->]. done.
Qed.

Lemma strncmp_eq_prefix (a b : list ascii) :
  strncmp_eq a b (length b) = true <-> exists rest, a = b ++ rest.
Proof.
  revert a. induction b as [|y b IH]; intros a; simpl.
  - split; [intros _; by exists a|done].
  - destruct a as [|x a].
    + split; [done|]. intros (rest & Heq). discriminate.
    + case_decide as Hxy.
      * subst. rewrite IH. split; intros (rest & Heq); exists rest.
        -- by rewrite Heq.
        -- by injection Heq.
      * split; [done|]. intros (rest & Heq). injection Heq as -> _. done.
Qed.

Lemma fmt_u_wrap x y : wrap32 x = wrap32 y -> fmt_u x = fmt_u y.
Proof. unfold fmt_u. by intros ->. Qed.

Lemma fmt_u_no_dot x : "."%char ∉ fmt_u x.
Proof. intros Hin. by apply (digit_not _ _ (fmt_u_digits _ _ Hin) digit_ne_dot). Qed.

Lemma fmt_u_no_colon x : ":"%char ∉ fmt_u x.
Proof. intros Hin. by apply (digit_not _ _ (fmt_u_digits _ _ Hin) digit_ne_colon). Qed.

Lemma segment_filename_text port id rev :
  SHMBUF_SEGMENT_FILENAME port id rev =
  String.list_ascii_of_string "/.pg_shmbuf_" ++ fmt_u port ++
  "."%char :: fmt_u id ++ ":"%char :: fmt_u (Z.shiftr (wrap32 rev) 1).
Proof.
  unfold SHMBUF_SEGMENT_FILENAME, snprintf. cbn [fst].
  rewrite take_ge; [done|].
  rewrite !length_app. cbn [String.list_ascii_of_string length].
  pose proof (fmt_u_length port). pose proof (fmt_u_length id).
  pose proof (fmt_u_length (Z.shiftr (wrap32 rev) 1)).
  unfold NAMEDATALEN. lia.
Qed.

(** X24.  The name of the file of a segment tells the port, the slot
    and the generation apart: two names are equal exactly when the
    port numbers and the slot numbers are equal as [unsigned int] and
    the revisions have the same half.  So the name is the same for the
    even revision at which a segment is created and the odd revision at
    which it is attached and dropped, and differs from the name of the
    next generation.  The name is never cut by [NAMEDATALEN]. *)
Theorem X24_segment_file_name_identifies_slot_and_generation
    (port id rev port' id' rev' : Z) :
  (SHMBUF_SEGMENT_FILENAME port id rev = SHMBUF_SEGMENT_FILENAME port' id' rev' <->
   wrap32 port = wrap32 port' /\ wrap32 id = wrap32 id' /\
   wrap32 rev / 2 = wrap32 rev' / 2) /\
  Z.of_nat (length (SHMBUF_SEGMENT_FILENAME port id rev)) < NAMEDATALEN.
Proof.
  split.
  - assert (forall x, x / 2 = Z.shiftr x 1) as Hhalf
      by (intros x; by rewrite Z.shiftr_div_pow2).
    rewrite !segment_filename_text, !Hhalf.
    split.
    + intros Heq. apply app_inv_head in Heq.
      apply split_at_separator in Heq as [Hp Heq]; [|apply fmt_u_no_dot..].
      apply split_at_separator in Heq as [Hi Hr]; [|apply fmt_u_no_colon..].
      apply fmt_u_inj in Hp. apply fmt_u_inj in Hi. apply fmt_u_inj in Hr.
      split; [done|]. split; [done|].
      assert (forall r, wrap32 (Z.shiftr (wrap32 r) 1) = Z.shiftr (wrap32 r) 1) as Hsmall.
      { intros r. unfold wrap32. rewrite Z.shiftr_div_pow2 by lia.
        pose proof (Z.mod_pos_bound r (2 ^ 32) ltac:(done)).
        apply Z.mod_small. split; [apply Z.div_pos; lia|].
        apply Z.div_lt_upper_bound; lia. }
      by rewrite !Hsmall in Hr.
    + intros (Hp & Hi & Hr).
      by rewrite (fmt_u_wrap _ _ Hp), (fmt_u_wrap _ _ Hi), Hr.
  - rewrite segment_filename_text. rewrite !length_app.
    cbn [String.list_ascii_of_string length]. rewrite !length_app. cbn [length].
    pose proof (fmt_u_length port). pose proof (fmt_u_length id).
    pose proof (fmt_u_length (Z.shiftr (wrap32 rev) 1)).
    unfold NAMEDATALEN. lia.
Qed.

(** X25.  [shmBufferCleanupOnPostmasterExit] in the postmaster unlinks
    exactly the regular files of [/dev/shm] whose name begins with
    [.pg_shmbuf_<port>.]: the file of every segment of this port is
    among them when it is in the directory, and the file of a segment
    of a postmaster on another port never is, also when one port number
    is a prefix of the other.  In any other process, and when the
    directory cannot be opened, nothing is unlinked. *)
Theorem X25_cleanup_unlinks_the_files_of_this_port
    (port : Z) (entries : list dirent) (dev_shm : option (list dirent)) :
  (forall name,
     name ∈ shmBufferCleanupOnPostmasterExit true port (Some entries) <->
     exists d, d ∈ entries /\ d_name d = name /\ d_is_reg d = true /\
       exists rest,
         name = String.list_ascii_of_string ".pg_shmbuf_" ++ fmt_u port ++
                "."%char :: rest) /\
  (forall port' id rev,
     (exists rest,
        SHMBUF_SEGMENT_FILENAME port' id rev =
        "/"%char :: String.list_ascii_of_string ".pg_shmbuf_" ++ fmt_u port ++
        "."%char :: rest) <->
     wrap32 port' = wrap32 port) /\
  shmBufferCleanupOnPostmasterExit false port dev_shm = [] /\
  shmBufferCleanupOnPostmasterExit true port None = [].
Proof.
  split; [|split; [|done]].
  - intros name. unfold shmBufferCleanupOnPostmasterExit, snprintf.
    rewrite take_ge.
    2:{ rewrite !length_app. cbn [String.list_ascii_of_string length].
        pose proof (fmt_u_length port). unfold NAMEDATALEN. lia. }
    rewrite Nat2Z.id.
    rewrite list_elem_of_fmap. split.
    + intros (d & -> & Hd). apply list_elem_of_filter in Hd as [[Hreg Hcmp] Hin].
      apply strncmp_eq_prefix in Hcmp as (rest & Hrest).
      exists d. split; [done|]. split; [done|]. split; [done|].
      exists rest. rewrite Hrest. by rewrite <- !app_assoc.
    + intros (d & Hin & <- & Hreg & rest & Hrest).
      exists d. split; [done|]. apply list_elem_of_filter. split; [|done].
      split; [done|]. apply strncmp_eq_prefix. exists rest.
      rewrite Hrest. by rewrite <- !app_assoc.
  - intros port' id rev. rewrite segment_filename_text. split.
    + intros (rest & Heq).
      change (String.list_ascii_of_string "/.pg_shmbuf_")
        with ("/"%char :: String.list_ascii_of_string ".pg_shmbuf_") in Heq.
      simpl in Heq. injection Heq as Heq.
      apply split_at_separator in Heq as [Hp _]; [|apply fmt_u_no_dot..].
      by apply fmt_u_inj.
    + intros Hp. rewrite (fmt_u_wrap _ _ Hp).
      by exists (fmt_u id ++ ":"%char :: fmt_u (Z.shiftr (wrap32 rev) 1)).
Qed.

(** * Releasing a chunk twice *)

Lemma free_of_class_NoDup k cs a b :
  classes_ok cs -> tiles cs a b -> NoDup (free_of_class k cs).
Proof.
  intros Hok Ht. unfold free_of_class.
  pose proof (tiles_NoDup _ _ _ Hok Ht) as Hnd.
  apply NoDup_fmap_2_strong.
  - intros e1 e2 [_ H1]%list_elem_of_filter [_ H2]%list_elem_of_filter Heq.
    by apply (tiles_entry_unique _ _ _ _ _ Hok Ht H1 H2).
  - apply NoDup_filter. by apply NoDup_fmap_1 in Hnd.
Qed.

Section DoubleFree.

Variable USE_ASSERT_CHECKING : bool.
Variables size head : Z.
Variable id : nat.

Local Abbreviation base := (shmBufferSegmentMmapPtr size head id).

(** The coalescing loop started on a free chunk of a segment in which
    no free chunk has a free buddy of its class ends at once. *)
Lemma free_loop_on_free_chunk fuel x j cs s :
  seg_inv base size None cs s ->
  coalesced base cs ->
  (x, j, true) ∈ cs ->
  size <= 2 ^ 32 ->
  free_loop USE_ASSERT_CHECKING size fuel base x s = Ret x s.
Proof.
  intros Hinv Hco Hin Hsize.
  destruct (inv_hdr _ _ _ _ _ Hinv _ Hin) as (Hmc & Hmg & Hch).
  destruct (inv_class _ _ _ _ _ Hinv _ Hin) as (Hj & Hal).
  unfold ce_addr, ce_class, ce_free in Hmc, Hmg, Hch, Hj, Hal; simpl in Hmc, Hmg, Hch, Hj, Hal.
  assert (0 <= j) as Hj0 by (unfold SHMBUF_CHUNKSZ_MIN_BIT in *; lia).
  pose proof (pow2_pos j Hj0) as Hpos.
  pose proof (seg_inv_classes_ok _ _ _ _ _ Hinv) as Hok.
  pose proof (inv_tiles _ _ _ _ _ Hinv) as Ht.
  pose proof (tiles_bounds _ _ _ _ Hok Ht Hin) as [Hlo Hhi].
  unfold ce_addr, ce_class in Hlo, Hhi; simpl in Hlo, Hhi.
  apply mod_pow2_0 in Hal; [|done].
  assert (0 <= x - base < 2 ^ 64) as Hoff.
  { split; [lia|]. assert (2 ^ 32 < 2 ^ 64) by done. lia. }
  (* a chunk at the place of the buddy cannot be merged *)
  assert (forall y j' f', y ≠ x -> (y, j', f') ∈ cs ->
            ((j' = j /\ f' = true) -> False) ->
            magic_head (load_chunk (sm s) y) = SHMBUF_CHUNK_MAGIC_CODE /\
            mergeable (load_chunk (sm s) y) (load_chunk (sm s) x) = false) as Hnm.
  { intros y j' f' Hy Hiny Hnot.
    destruct (inv_hdr _ _ _ _ _ Hinv _ Hiny) as (Hyc & Hym & Hyf).
    unfold ce_addr, ce_class, ce_free in Hyc, Hym, Hyf; simpl in Hyc, Hym, Hyf.
    split; [done|]. unfold mergeable. rewrite Hyc, Hmc, (Hyf ltac:(done)).
    destruct (Z.eqb_spec j' j) as [->|]; [|done]. destruct f'; [|done].
    exfalso. by apply Hnot. }
  destruct (Z.eq_dec (Z.land (x - base) (2 ^ j)) 0) as [Hland|Hland].
  - apply (free_loop_stop_up USE_ASSERT_CHECKING base size fuel x j s Hmc Hoff Hland).
    destruct (Z_le_gt_dec (base + size) (x + 2 ^ j)) as [Hout|Hinr]; [by left|right].
    pose proof Hin as Hsplit. apply list_elem_of_split in Hsplit as (l1 & l2 & Hcs).
    rewrite Hcs in Ht.
    destruct (tiles_succ l1 (x, j, true) l2 _ _ Ht) as ([[y j'] f'] & l2' & Hl2 & Hy).
    { unfold ce_addr, ce_class; simpl. lia. }
    unfold ce_addr, ce_class in Hy; simpl in Hy. subst y.
    assert ((x + 2 ^ j, j', f') ∈ cs) as Hiny.
    { rewrite Hcs, Hl2. apply elem_of_app. right. right. left. }
    apply (Hnm _ j' f'); [lia|done|].
    intros [-> ->]. apply (Hco x j); [by apply buddy_bit_clear|done|done].
  - apply (free_loop_stop_down USE_ASSERT_CHECKING base size fuel x j s Hmc Hoff Hland).
    pose proof (buddy_bit_set _ _ Hj0 Hal Hland) as Hdiv.
    assert (2 ^ j <= x - base) as Hge.
    { destruct Hal as [q Hq]. destruct (Z.eq_dec q 0) as [->|Hq0].
      - rewrite Hq in Hland. simpl in Hland. by rewrite Z.land_0_l in Hland.
      - assert (1 <= q) by nia. nia. }
    replace (x - base - 2 ^ j) with (x - 2 ^ j - base) in Hdiv by lia.
    right.
    destruct (lower_buddy_is_start base _ _ x j true Hok Ht) as ([[y j'] f'] & He & Hae & Hend);
      [|done|done|lia|].
    { intros e0 He0. destruct (inv_class _ _ _ _ _ Hinv _ He0) as [Hc0 Hal0].
      apply mod_pow2_0; [unfold SHMBUF_CHUNKSZ_MIN_BIT in *; lia|done]. }
    unfold ce_addr, ce_class in Hae, Hend; simpl in Hae, Hend. subst y.
    apply (Hnm _ j' f'); [lia|done|].
    intros [-> ->]. apply (Hco (x - 2 ^ j) j); [done|done|].
    by replace (x - 2 ^ j + 2 ^ j) with x by lia.
Qed.

End DoubleFree.

(** X26.  Releasing a chunk a second time is not noticed, with or
    without assertion checking.  In a well-formed segment in which no
    free chunk has a free buddy of its class, [shmBufferFreeChunk] on a
    chunk that is free already, whose guards are still in place, while
    another chunk is in use: the loop merges nothing, the call returns
    normally and [num_actives] has gone down by one, so that the
    result is true when one chunk is still in use.  No header reads
    differently and no payload byte has changed, so the chunks in use
    are the same as before, one more than [num_actives] now says. *)
Theorem X26_second_release_is_not_noticed
    (USE_ASSERT_CHECKING : bool) (size head : Z) (id : nat) (x j : Z)
    (cs : list chunk_entry) (s : segst) :
  seg_inv (shmBufferSegmentMmapPtr size head id) size None cs s ->
  coalesced (shmBufferSegmentMmapPtr size head id) cs ->
  size <= 2 ^ 32 ->
  (x, j, true) ∈ cs ->
  (USE_ASSERT_CHECKING = true -> SHMBUF_CHUNK_CHECK_MAGIC (sm s) x = true) ->
  0 < num_actives (sg s) ->
  exists s',
    shmBufferFreeChunk USE_ASSERT_CHECKING size head id x s
      = Ret (num_actives (sg s) =? 1) s' /\
    num_actives (sg s') = num_actives (sg s) - 1 /\
    (forall b, load_chunk (sm s') b = load_chunk (sm s) b) /\
    bytes (sm s') = bytes (sm s) /\
    Z.of_nat (length (active_entries cs)) = num_actives (sg s') + 1.
Proof.
  intros Hinv Hco Hsize Hin Hguard Hnum.
  destruct (inv_hdr _ _ _ _ _ Hinv _ Hin) as (Hmc & Hmg & Hch).
  destruct (inv_class _ _ _ _ _ Hinv _ Hin) as (Hj & _).
  unfold ce_addr, ce_class, ce_free in Hmc, Hmg, Hch, Hj; simpl in Hmc, Hmg, Hch, Hj.
  destruct (seg_inv_list_lookup _ _ _ _ _ j Hinv Hj) as (l & Hl & Hperm).
  pose proof (mindex_range j Hj) as Hidx.
  assert (num_actives (sg s) <= 2 ^ 25) as Hbound.
  { rewrite (inv_actives _ _ _ _ _ Hinv).
    pose proof (seg_inv_length _ _ _ _ _ Hinv Hsize).
    pose proof (active_entries_length cs). lia. }
  set (s2 := upd_hdr x (set_chain true (load_chunk (sm s) x))
               (upd_list (j - SHMBUF_CHUNKSZ_MIN_BIT) (x :: l) s)).
  set (s3 := mkSegst (set_num_actives (wrap32 (num_actives (sg s2) - 1)) (sg s2)) (sm s2)).
  assert (wrap32 (num_actives (sg s) - 1) = num_actives (sg s) - 1) as Hwrap.
  { unfold wrap32. apply Z.mod_small. assert (2 ^ 25 < 2 ^ 32) by done. lia. }
  assert (shmBufferFreeChunk USE_ASSERT_CHECKING size head id x s
          = Ret (num_actives (sg s) =? 1) s3) as Hrun.
  { unfold shmBufferFreeChunk, bind at 1, read_chunk at 1.
    unfold bind at 1, get at 1. rewrite Hmc.
    unfold bind at 1.
    assert ((Assert USE_ASSERT_CHECKING
               ((SHMBUF_CHUNKSZ_MIN_BIT <=? j) && (j <=? SHMBUF_CHUNKSZ_MAX_BIT)
                && SHMBUF_CHUNK_CHECK_MAGIC (sm s) x) s) = Ret tt s) as ->.
    { destruct USE_ASSERT_CHECKING eqn:Ha; [|done].
      rewrite Hguard by done.
      destruct (Z.leb_spec SHMBUF_CHUNKSZ_MIN_BIT j); [|lia].
      destruct (Z.leb_spec j SHMBUF_CHUNKSZ_MAX_BIT); [|lia].
      apply Assert_true. }
    unfold bind at 1.
    rewrite (free_loop_on_free_chunk USE_ASSERT_CHECKING size head id _ x j cs s
               Hinv Hco Hin Hsize).
    unfold bind at 1, read_chunk at 1. rewrite Hmc.
    unfold bind at 1.
    rewrite (dlist_push_head_Ret _ s x l); [|done|done].
    fold s2. unfold bind at 1, get at 1. unfold bind at 1.
    assert ((0 <? num_actives (sg s2)) = true) as -> by (by apply Z.ltb_lt).
    rewrite Assert_true. unfold bind, put, ret. fold s3.
    f_equal. change (num_actives (sg s2)) with (num_actives (sg s)).
    rewrite Hwrap. destruct (Z.eqb_spec (num_actives (sg s) - 1) 0),
      (Z.eqb_spec (num_actives (sg s)) 1); try done; lia. }
  exists s3. split; [done|]. split; [by rewrite <- Hwrap|]. split; [|split; [done|]].
  - intros b. unfold s3, s2. simpl.
    destruct (decide (x = b)) as [<-|Hne].
    + rewrite load_store_eq. pose proof (Hch ltac:(done)) as Htrue.
      destruct (load_chunk (sm s) x); simpl in *. by subst.
    + by rewrite load_store_ne.
  - change (num_actives (sg s3)) with (wrap32 (num_actives (sg s) - 1)).
    rewrite Hwrap, (inv_actives _ _ _ _ _ Hinv). lia.
Qed.

Lemma X26_second_release_is_not_noticed_witness :
  exists s x s',
    shmBufferFreeChunk false ex_size ex_head 0%nat x s = Ret true s' /\
    num_actives (sg s) = 1 /\
    num_actives (sg s') = 0 /\
    chain (load_chunk (sm s') ex_head) = false.
Proof.
  destruct ex_fresh_segment as (s0 & _ & Hinv0).
  destruct (alloc_finds false ex_head ex_size ltac:(vm_compute; discriminate)
              0%nat 1000 11 _ s0 ex_head 25
              ltac:(apply plain_request_small; lia) Hinv0) as (a & s & _ & Halloc & _).
  - vm_compute. reflexivity.
  - left.
  - lia.
  - destruct (alloc_shape false ex_head ex_size 0%nat 1000 _ s0 a s
                ltac:(apply plain_request_small; lia) Hinv0
                ltac:(vm_compute; discriminate) Halloc)
      as (c & k' & l1 & l2 & rest & Hcls & Hk' & Hcs & _ & _ & Hal & _).
    assert (c = 11) as -> by (vm_compute in Hcls; congruence).
    destruct l1 as [|e l1].
    2:{ exfalso. injection Hcs as _ Hnil. by destruct l1. }
    injection Hcs as <- <- <-.
    destruct Hal as (Hinv & _ & Hh & _ & _ & Hlen).
    assert (coalesced ex_head
              ([] ++ (ex_head, 11, false) :: rungs ex_head 11 (Z.to_nat (25 - 11)) ++ []))
      as Hco.
    { apply (alloc_coalesced_shape ex_head [] [] ex_head 11 25 (ex_head + ex_size)).
      - lia.
      - apply (seg_inv_classes_ok _ _ _ _ _ Hinv0).
      - apply (inv_tiles _ _ _ _ _ Hinv0).
      - rewrite Z.sub_diag. apply Z.divide_0_r.
      - apply coalesced_single. lia. }
    assert (num_actives (sg s) = 1) as Hone.
    { rewrite (inv_actives _ _ _ _ _ Hinv), Hlen. reflexivity. }
    destruct (X26_second_release_is_not_noticed false ex_size ex_head 0%nat
                (ex_head + 2 ^ 11) 11 _ s Hinv Hco)
      as (s' & Hrun & Hnum & Hhdr & _).
    + vm_compute. discriminate.
    + right. replace (Z.to_nat (25 - 11)) with (S 13) by reflexivity.
      rewrite rungs_succ. left.
    + discriminate.
    + rewrite Hone. lia.
    + rewrite Hone in Hrun, Hnum.
      exists s, (ex_head + 2 ^ 11), s'. split; [exact Hrun|]. split; [exact Hone|].
      split; [exact Hnum|]. rewrite Hhdr, Hh. reflexivity.
Defined.

(** * The loops end *)

Lemma free_loop_fuel (USE_ASSERT_CHECKING : bool) size base n :
  forall extra chunk s,
    0 <= mclass (load_chunk (sm s) chunk) ->
    Z.to_nat (SHMBUF_CHUNKSZ_MAX_BIT + 1 - mclass (load_chunk (sm s) chunk)) = n ->
    free_loop USE_ASSERT_CHECKING size (n + extra) base chunk s
    = free_loop USE_ASSERT_CHECKING size n base chunk s.
Proof.
  induction n as [|n IH]; intros extra chunk s Hm Hn.
  - destruct extra as [|extra]; [done|].
    cbn [Nat.add free_loop]. unfold bind, read_chunk.
    destruct (Z.leb_spec (mclass (load_chunk (sm s) chunk)) SHMBUF_CHUNKSZ_MAX_BIT); [lia|done].
  - cbn [Nat.add free_loop]. unfold bind, read_chunk.
    set (c := load_chunk (sm s) chunk) in *.
    destruct (Z.leb_spec (mclass c) SHMBUF_CHUNKSZ_MAX_BIT) as [Hle|]; [|done].
    assert (0 < 2 ^ mclass c) as Hpos by by apply pow2_pos.
    assert (wrap32 (mclass c + 1) = mclass c + 1) as Hw.
    { unfold wrap32. apply Z.mod_small. unfold SHMBUF_CHUNKSZ_MAX_BIT in *. lia. }
    destruct (Z.land (wrap64 (chunk - base)) (2 ^ mclass c) =? 0).
    + destruct (base + size <=? chunk + 2 ^ mclass c); [done|].
      set (b := load_chunk (sm s) (chunk + 2 ^ mclass c)).
      destruct (Assert USE_ASSERT_CHECKING (magic_head b =? SHMBUF_CHUNK_MAGIC_CODE) s)
        as [[] s0|f s0] eqn:Has; [|done].
      assert (s0 = s) as ->.
      { unfold Assert in Has. destruct (_ && _); first [discriminate|by injection Has]. }
      destruct (mergeable b c); [|done]. cbn [negb].
      rewrite dlist_delete_Ret, update_chunk_Ret, update_chunk_Ret.
      apply IH.
      * simpl. rewrite load_store_eq. simpl.
        rewrite load_store_ne by lia. fold c. rewrite Hw. lia.
      * simpl. rewrite load_store_eq. simpl.
        rewrite load_store_ne by lia. fold c. rewrite Hw. lia.
    + destruct (chunk - 2 ^ mclass c <? base); [done|].
      set (b := load_chunk (sm s) (chunk - 2 ^ mclass c)).
      destruct (Assert USE_ASSERT_CHECKING (magic_head b =? SHMBUF_CHUNK_MAGIC_CODE) s)
        as [[] s0|f s0] eqn:Has; [|done].
      assert (s0 = s) as ->.
      { unfold Assert in Has. destruct (_ && _); first [discriminate|by injection Has]. }
      destruct (mergeable b c) eqn:Hmer; [|done]. cbn [negb].
      unfold mergeable in Hmer. apply andb_true_iff in Hmer as [Hbc _].
      apply Z.eqb_eq in Hbc.
      rewrite dlist_delete_Ret, update_chunk_Ret, update_chunk_Ret.
      apply IH.
      * simpl. rewrite load_store_eq. simpl.
        rewrite load_store_ne by lia. fold b. rewrite Hbc, Hw. lia.
      * simpl. rewrite load_store_eq. simpl.
        rewrite load_store_ne by lia. fold b. rewrite Hbc, Hw. lia.
Qed.

Lemma split_rec_fuel (USE_ASSERT_CHECKING : bool) n :
  forall extra k s,
    Z.to_nat (SHMBUF_CHUNKSZ_MAX_BIT + 2 - k) = n ->
    k <= SHMBUF_CHUNKSZ_MAX_BIT + 1 ->
    shmBufferSplitChunk_rec USE_ASSERT_CHECKING (n + extra) k s
    = shmBufferSplitChunk_rec USE_ASSERT_CHECKING n k s.
Proof.
  induction n as [|n IH]; intros extra k s Hn Hk; [lia|].
  cbn [Nat.add shmBufferSplitChunk_rec].
  unfold bind.
  destruct (Assert USE_ASSERT_CHECKING _ s) as [[] s0|f s0] eqn:Has; [|done].
  destruct (dlist_is_empty (k - SHMBUF_CHUNKSZ_MIN_BIT) s0) as [[|] s1|f s1] eqn:Hemp;
    [|done|done].
  destruct (Z.leb_spec SHMBUF_CHUNKSZ_MAX_BIT k) as [Hmax|Hlt]; [done|].
  rewrite IH by lia. done.
Qed.

(** X27.  The loop of [shmBufferFreeChunk] and the recursion of
    [shmBufferSplitChunk] end within their bounds.  On a well-formed
    segment, the loop on a chunk in use of class [j] makes at most
    [SHMBUF_CHUNKSZ_MAX_BIT + 1 - j] turns, the class of the chunk going
    up by one in every turn that does not leave it, and the recursion
    of [shmBufferSplitChunk(seg, k)] is at most
    [SHMBUF_CHUNKSZ_MAX_BIT + 2 - k] calls deep: no larger bound on the
    number of steps changes what they return. *)
Theorem X27_free_loop_and_split_end_within_their_bounds
    (USE_ASSERT_CHECKING : bool) (size head : Z) (id : nat) (chunk j k : Z)
    (cs : list chunk_entry) (s : segst) (extra : nat) :
  seg_inv (shmBufferSegmentMmapPtr size head id) size None cs s ->
  (chunk, j, false) ∈ cs ->
  k <= SHMBUF_CHUNKSZ_MAX_BIT + 1 ->
  free_loop USE_ASSERT_CHECKING size
    (Z.to_nat (SHMBUF_CHUNKSZ_MAX_BIT + 1 - j) + extra)
    (shmBufferSegmentMmapPtr size head id) chunk s
  = free_loop USE_ASSERT_CHECKING size
      (Z.to_nat (SHMBUF_CHUNKSZ_MAX_BIT + 1 - j))
      (shmBufferSegmentMmapPtr size head id) chunk s /\
  shmBufferSplitChunk_rec USE_ASSERT_CHECKING
    (Z.to_nat (SHMBUF_CHUNKSZ_MAX_BIT + 2 - k) + extra) k s
  = shmBufferSplitChunk USE_ASSERT_CHECKING k s.
Proof.
  intros Hinv Hin Hk.
  destruct (inv_hdr _ _ _ _ _ Hinv _ Hin) as (Hmc & _).
  destruct (inv_class _ _ _ _ _ Hinv _ Hin) as (Hj & _).
  unfold ce_addr, ce_class in Hmc, Hj; simpl in Hmc, Hj.
  split.
  - apply free_loop_fuel; rewrite Hmc; [unfold SHMBUF_CHUNKSZ_MIN_BIT in Hj; lia|done].
  - unfold shmBufferSplitChunk. by apply split_rec_fuel.
Qed.

Lemma X27_free_loop_and_split_end_within_their_bounds_witness :
  exists s,
    __shmBufferAllocChunkFromSegment false 0%nat 1000
      (final (init_segment ex_size ex_head 0%nat
                (blank_segment ex_size ex_head 0%nat
                   (mkSegst (mkSegment 0 0 []) (mkMemory ∅ ∅)))))
      = Ret (Some ex_head) s /\
    free_loop false ex_size (22 + 7) ex_head ex_head s
    = free_loop false ex_size 22 ex_head ex_head s /\
    shmBufferSplitChunk_rec false (22 + 7) 12 s = shmBufferSplitChunk false 12 s.
Proof.
  destruct ex_fresh_segment as (s0 & Hinit & Hinv0).
  destruct (alloc_finds false ex_head ex_size ltac:(vm_compute; discriminate)
              0%nat 1000 11 _ s0 ex_head 25
              ltac:(apply plain_request_small; lia) Hinv0) as (a & s & cs & Halloc & Hal).
  - vm_compute. reflexivity.
  - left.
  - lia.
  - destruct (alloc_shape false ex_head ex_size 0%nat 1000 _ s0 a s
                ltac:(apply plain_request_small; lia) Hinv0
                ltac:(vm_compute; discriminate) Halloc)
      as (c & k' & l1 & l2 & rest & Hcls & Hk' & Hcs & _ & _ & Hal' & _).
    assert (c = 11) as -> by (vm_compute in Hcls; congruence).
    destruct l1 as [|e l1].
    2:{ exfalso. injection Hcs as _ Hnil. by destruct l1. }
    injection Hcs as <- <- <-.
    destruct Hal' as (Hinv & Hin & _).
    destruct (X27_free_loop_and_split_end_within_their_bounds false ex_size ex_head 0%nat
                ex_head 11 12 _ s 7 Hinv Hin) as [Hloop Hsplit].
    + vm_compute. discriminate.
    + exists s. split; [|split; [exact Hloop|exact Hsplit]].
      rewrite Hinit. exact Halloc.
Defined.

(** * The error for oversized requests *)

Section TooLargeExactly.

Variable USE_ASSERT_CHECKING : bool.
Variables size head : Z.
Hypothesis Hsize : size <= 2 ^ 32.

(** The scan of well-formed segments for a request that has a class
    never raises the error for oversized requests. *)
Lemma scan_active_not_too_large l n c :
  plain_request n ->
  class_of_request n = Some c ->
  forall w,
    (forall id, id ∈ l ->
       exists g cs,
         segments w !! id = Some g /\
         seg_inv (shmBufferSegmentMmapPtr size head id) size None cs
                 (mkSegst g (wmem w))) ->
    match scan_active USE_ASSERT_CHECKING l n w with
    | Ret _ _ => True
    | Fail f _ => f = AssertFailed \/ f = Undefined
    end.
Proof.
  intros Hn Hcls. induction l as [|id l IH]; intros w Hok; [done|].
  destruct (Hok id ltac:(left)) as (g & cs & Hg & Hinv).
  simpl. unfold bind, on_segment. rewrite Hg.
  destruct (alloc_from_segment_spec USE_ASSERT_CHECKING _ size id n cs _ Hn Hinv Hsize)
    as [[Hnone _]|(c' & _ & [(_ & _ & Hrun)|[(_ & _ & Hrun)|(a' & s' & cs' & Hrun & _)]])];
    [congruence|rewrite Hrun..].
  - destruct USE_ASSERT_CHECKING; [by left|by right].
  - assert (set_wmem (wmem w) (set_segments (<[id := g]> (segments w)) w) = w) as Hsame.
    { destruct w; unfold set_wmem, set_segments; simpl in *.
      f_equal. by apply list_insert_id. }
    simpl. rewrite Hsame. apply IH. intros id' Hid'. apply Hok. by right.
  - done.
Qed.

End TooLargeExactly.

(** X28.  When [shmbufAlloc] refuses a request as too large.  On a
    directory with the lock free and a non-empty active list of
    well-formed segments, a request whose header, payload and trailer
    add up to more than [2^32] bytes, without wrapping around, raises
    the error for oversized requests; the directory is left as it was,
    the lock released.  A request that adds up to [2^32] bytes or less
    never ends in that error. *)
Theorem X28_too_large_exactly_above_the_largest_class
    (USE_ASSERT_CHECKING : bool) (size head : Z) (os : os_results) (n : Z)
    (w : world) (id : nat) (l : list nat) :
  size <= 2 ^ 32 ->
  plain_request n ->
  lock w = false ->
  active_segment_list w = id :: l ->
  active_segments_ok size head w ->
  (2 ^ SHMBUF_CHUNKSZ_MAX_BIT < chunk_hdrsz + n + magic_sz ->
   shmbufAlloc USE_ASSERT_CHECKING size head os n w = Fail ErrTooLarge w) /\
  (chunk_hdrsz + n + magic_sz <= 2 ^ SHMBUF_CHUNKSZ_MAX_BIT ->
   forall w', shmbufAlloc USE_ASSERT_CHECKING size head os n w ≠ Fail ErrTooLarge w').
Proof.
  intros Hsize Hn Hlock Hact Hok.
  assert (chunk_size_of n = chunk_hdrsz + n + magic_sz) as Hsum.
  { unfold plain_request, chunk_hdrsz, magic_sz in *. rewrite chunk_size_of_small; lia. }
  split.
  - intros Hbig.
    destruct (Hok id ltac:(rewrite Hact; left)) as (g & cs & Hg & _).
    apply (shmbufAlloc_too_large USE_ASSERT_CHECKING size head os n w id l g);
      try done.
    apply class_of_request_None. lia.
  - intros Hfit w' Hrun.
    destruct (class_of_request n) as [c|] eqn:Hcls.
    2:{ apply class_of_request_None in Hcls. lia. }
    pose proof (scan_active_not_too_large USE_ASSERT_CHECKING size head Hsize
                  (active_segment_list w) n c Hn Hcls (set_lock true w) Hok) as Hscan.
    pose proof (scan_active_lock USE_ASSERT_CHECKING (active_segment_list w) n
                  (set_lock true w)) as Hl.
    unfold shmbufAlloc, bind at 1, SpinLockAcquire in Hrun. rewrite Hlock in Hrun.
    unfold bind at 1, PG_TRY, shmBufferAllocChunk, bind at 1, get in Hrun.
    change (active_segment_list (set_lock true w)) with (active_segment_list w) in Hrun.
    unfold bind at 1 in Hrun.
    destruct (scan_active USE_ASSERT_CHECKING (active_segment_list w) n (set_lock true w))
      as [[a|] w1|f w1].
    + simpl in Hrun. unfold bind, SpinLockRelease, ret in Hrun. discriminate.
    + simpl in Hl. unfold bind at 1 in Hrun.
      rewrite (create_segment_relock USE_ASSERT_CHECKING size head os w1 Hl) in Hrun.
      simpl in Hrun. discriminate.
    + destruct Hscan as [-> | ->]; simpl in Hrun; discriminate.
Qed.

Lemma X28_too_large_exactly_above_the_largest_class_witness :
  shmbufAlloc false ex_size ex_head ex_os (2 ^ 32) ex_active = Fail ErrTooLarge ex_active.
Proof.
  destruct (X28_too_large_exactly_above_the_largest_class false ex_size ex_head ex_os
              (2 ^ 32) ex_active 0%nat []) as [Hbig _].
  - vm_compute. discriminate.
  - unfold plain_request, chunk_hdrsz, magic_sz. lia.
  - reflexivity.
  - reflexivity.
  - exact ex_active_ok.
  - apply Hbig. vm_compute. reflexivity.
Defined.

(** * A request that wraps around *)

(** The walk of the introspection function stops as corrupted at a
    chunk whose class is above the largest one. *)
Lemma info_walk_class_too_large fuel m curr tail acc :
  curr < tail ->
  SHMBUF_CHUNKSZ_MAX_BIT < mclass (load_chunk m curr) ->
  info_walk (S fuel) m curr tail acc = None.
Proof.
  intros Hlt Hbig. cbn [info_walk].
  destruct (Z.ltb_spec curr tail) as [_|]; [|lia].
  destruct (Z.ltb_spec SHMBUF_CHUNKSZ_MAX_BIT (mclass (load_chunk m curr))) as [_|]; [|lia].
  by rewrite orb_true_r.
Qed.

(** In a well-formed segment the header at the base is that of a chunk
    of one of the classes. *)
Lemma seg_inv_base_class base size fl cs s :
  seg_inv base size fl cs s -> 0 < size ->
  SHMBUF_CHUNKSZ_MIN_BIT <= mclass (load_chunk (sm s) base) <= SHMBUF_CHUNKSZ_MAX_BIT.
Proof.
  intros Hinv Hsize.
  pose proof (inv_tiles _ _ _ _ _ Hinv) as Ht.
  destruct cs as [|e cs]; simpl in Ht; [lia|].
  destruct Ht as [Ha _].
  destruct (inv_class _ _ _ _ _ Hinv e ltac:(left)) as [Hc _].
  destruct (inv_hdr _ _ _ _ _ Hinv e ltac:(left)) as (Hm & _).
  rewrite Ha in Hm. by rewrite Hm.
Qed.

(** C6.  The request [shmbufAlloc((size_t) -16)] on a directory whose
    one active segment is well formed.  Header, request and trailer add
    up to [2^64 + 28], which wraps to 28, so the request is given a
    chunk of the smallest class; the address of its trailing magic
    word, [chunk->data + required], wraps as well and is that of
    [chunk->mclass].  The call returns a pointer, and the chunk at the
    base of the segment now has the magic code as its class: its span
    [2^mclass] alone is larger than the segment, the walk of
    [__pgstrom_shmbuf_segment_info] reports the segment as corrupted,
    and no list of chunks describes the segment any more. *)
Theorem C6_wrapped_request_breaks_the_span_sum :
  active_segments_ok ex_size ex_head ex_active /\
  chunk_size_of (2 ^ 64 - 16) = 28 /\
  class_of_request (2 ^ 64 - 16) = Some SHMBUF_CHUNKSZ_MIN_BIT /\
  magic_tail_addr ex_head (2 ^ 64 - 16) = ex_head + 24 /\
  exists w' g,
    shmbufAlloc false ex_size ex_head ex_os (2 ^ 64 - 16) ex_active
      = Ret (Some (ex_head + 40)) w' /\
    segments w' !! 0%nat = Some g /\
    mclass (load_chunk (wmem w') ex_head) = SHMBUF_CHUNK_MAGIC_CODE /\
    ex_size < 2 ^ mclass (load_chunk (wmem w') ex_head) /\
    __pgstrom_shmbuf_segment_info ex_size ex_head 0%nat (wmem w') = None /\
    forall cs, ¬ seg_inv ex_head ex_size None cs (mkSegst g (wmem w')).
Proof.
  split; [exact ex_active_ok|].
  split; [vm_compute; reflexivity|].
  split; [vm_compute; reflexivity|].
  split; [vm_compute; reflexivity|].
  assert (exists w' g,
            shmbufAlloc false ex_size ex_head ex_os (2 ^ 64 - 16) ex_active
              = Ret (Some (ex_head + 40)) w' /\
            segments w' !! 0%nat = Some g /\
            mclass (load_chunk (wmem w') ex_head) = SHMBUF_CHUNK_MAGIC_CODE)
    as (w' & g & Hrun & Hg & Hmc).
  { eexists; eexists. split; [vm_compute; reflexivity|].
    split; vm_compute; reflexivity. }
  assert (SHMBUF_CHUNKSZ_MAX_BIT < mclass (load_chunk (wmem w') ex_head)) as Hbig.
  { rewrite Hmc. unfold SHMBUF_CHUNKSZ_MAX_BIT, SHMBUF_CHUNK_MAGIC_CODE. lia. }
  exists w', g. split; [exact Hrun|]. split; [exact Hg|]. split; [exact Hmc|].
  split; [|split].
  - unfold ex_size. apply Z.pow_lt_mono_r; unfold SHMBUF_CHUNKSZ_MAX_BIT in Hbig; lia.
  - unfold __pgstrom_shmbuf_segment_info.
    replace (Z.to_nat (ex_size / 2 ^ SHMBUF_CHUNKSZ_MIN_BIT) + 1)%nat
      with (S (Z.to_nat (ex_size / 2 ^ SHMBUF_CHUNKSZ_MIN_BIT))) by lia.
    apply info_walk_class_too_large; [|exact Hbig].
    unfold shmBufferSegmentMmapPtr, ex_size. lia.
  - intros cs Hinv.
    apply seg_inv_base_class in Hinv; [|unfold ex_size; lia].
    simpl in Hinv. lia.
Qed.

(** * The guard markers and [shmbufFree] *)




Section GuardsNotRead.

Variables size head : Z.
Variable id : nat.




End GuardsNotRead.



















